(** * A shallow embedding of MuPDF's CSS lexer and parser (html/css-parse.c)

    The development follows the C file from top to bottom: the [lexbuf]
    structure, the character-level lexer, the one-token lookahead layer and
    the recursive-descent parser.

    Conventions of the embedding.
    - A [char] read through [const char *s] is a [Z]; the model takes [char]
      as unsigned (values 0..255), as on the ARM Android ABI the library is
      built for.
    - The source text is the list of bytes in front of the NUL terminator;
      [s] holds what lies between the read pointer and the end of the array
      (terminator included).  Dereferencing [s] beyond the terminator is
      undefined in C and is reported as [Undefined OverRead].
    - [char string[1024]] lives on the stack and is never initialised: its
      cells are [option Z], [None] standing for an indeterminate byte.
      Copying it with [fz_strdup] while an indeterminate byte is in front of
      the first NUL is reported as [Undefined Uninitialised].
    - [fz_throw] aborts the whole parse: [Throw msg line] carries the message
      and the line number handed to [fz_css_error] (the [file] name and the
      allocation context [ctx] play no part in the results and are left out;
      allocation is assumed to succeed).
    - [next] chains of values, properties, conditions and selectors are
      lists, built in source order as the head/tail loops of the C code do;
      the chain of rules, which [parse_stylesheet] extends in place, is kept
      in an explicit store of rule nodes.
    - [int] counters ([line], [string_len], [depth]) are mathematical
      integers; none of them can reach the limits of a 32-bit [int] on an
      input that fits in memory.
    - The loops and the recursion of the C code are bounded by a fuel that
      is computed from the number of bytes that are left; [OutOfFuel] reports
      a bound that was too small.  [fz_parse_css_fuel] and
      [fz_parse_css_properties_fuel] show that no input makes the entry
      points return it. *)

From stdpp Require Import base numbers option list strings.
From Stdlib Require Import ZArith Lia Ascii.

Open Scope Z_scope.

Set Warnings "-register-all".

(** ** Token kinds *)

(** Modelled from the spec: the token kinds [CSS_KEYWORD] ... [CSS_URI] are
    enumeration constants of mupdf/html.h, a header that is not among the
    files of this library, and [EOF] comes from stdio.h.  The specification lists them as kinds
    that differ from one another and from every single-byte token, which is
    what an inductive type expresses; [Chr c] is the token whose kind is the
    byte [c] itself. *)
Inductive token : Type :=
  | EOF
  | Chr (ch : Z)
  | CSS_KEYWORD
  | CSS_COLOR
  | CSS_NUMBER
  | CSS_LENGTH
  | CSS_PERCENT
  | CSS_STRING
  | CSS_URI.

Global Instance token_eq_dec : EqDecision token.
Proof. solve_decision. Defined.

(** ** The lexer state *)

Record lexbuf : Type := Lexbuf {
  s : list Z;
  line : Z;
  lookahead : token;
  c : Z;
  color : Z;
  string_len : Z;
  string : list (option Z)
}.

Definition nelem_string : Z := 1024.

(** ** Outcomes and the parser monad *)

Inductive undefined : Type :=
  | OverRead
  | Uninitialised
  | BadPointer.

Inductive outcome (A : Type) : Type :=
  | Ok (a : A)
  | Throw (msg : String.string) (ln : Z)
  | Undefined (u : undefined)
  | OutOfFuel.

Arguments Ok {A} a.
Arguments Throw {A} msg ln.
Arguments Undefined {A} u.
Arguments OutOfFuel {A}.

Definition M (A : Type) : Type := lexbuf → outcome (A * lexbuf).

Global Instance M_ret : MRet M := λ A a buf, Ok (a, buf).

Global Instance M_bind : MBind M := λ A B f m buf,
  match m buf with
  | Ok (a, buf') => f a buf'
  | Throw msg ln => Throw msg ln
  | Undefined u => Undefined u
  | OutOfFuel => OutOfFuel
  end.

Definition out_of_fuel {A} : M A := λ _, OutOfFuel.

(** Reading and updating fields of [*buf]. *)
Definition gets {A} (f : lexbuf → A) : M A := λ buf, Ok (f buf, buf).
Definition modify (f : lexbuf → lexbuf) : M unit := λ buf, Ok (tt, f buf).

Definition set_lookahead (t : token) (buf : lexbuf) : lexbuf :=
  {| s := s buf; line := line buf; lookahead := t; c := c buf;
     color := color buf; string_len := string_len buf; string := string buf |}.

Definition set_color (v : Z) (buf : lexbuf) : lexbuf :=
  {| s := s buf; line := line buf; lookahead := lookahead buf; c := c buf;
     color := v; string_len := string_len buf; string := string buf |}.

Definition set_string_len (n : Z) (buf : lexbuf) : lexbuf :=
  {| s := s buf; line := line buf; lookahead := lookahead buf; c := c buf;
     color := color buf; string_len := n; string := string buf |}.

Definition set_string (a : list (option Z)) (buf : lexbuf) : lexbuf :=
  {| s := s buf; line := line buf; lookahead := lookahead buf; c := c buf;
     color := color buf; string_len := string_len buf; string := a |}.

Definition fz_css_error {A} (msg : String.string) : M A :=
  λ buf, Throw msg (line buf).

(** Character literals of the C source. *)
Definition chr (a : ascii) : Z := Z.of_N (N_of_ascii a).

Definition bytes (str : String.string) : list Z :=
  chr <$> String.list_ascii_of_string str.

(** ** Lexer primitives *)

Definition css_lex_next : M unit := λ buf,
  match s buf with
  | [] => Undefined OverRead
  | b :: rest =>
      Ok (tt, {| s := rest;
                 line := if b =? 10 then line buf + 1 else line buf;
                 lookahead := lookahead buf;
                 c := b;
                 color := color buf;
                 string_len := string_len buf;
                 string := string buf |})
  end.

(** The structure as [css_lex_init] finds it: [s], [c] and [line] are
    assigned before the first [css_lex_next]; [lookahead] is left unset (both
    entry points call [next] before anything reads it, so the placeholder is
    never observed) and so is the [string] array. *)
Definition lexbuf_at (source : list Z) : lexbuf :=
  {| s := source ++ [0]; line := 1; lookahead := EOF; c := 0;
     color := 0; string_len := 0;
     string := replicate (Z.to_nat nelem_string) None |}.

Definition css_lex_init : M unit :=
  css_lex_next ;;
  modify (set_color 0) ;;
  modify (set_string_len 0).

Definition iswhite (ch : Z) : bool :=
  (ch =? chr " ") || (ch =? 9) || (ch =? 13) || (ch =? 10) || (ch =? 12).

Definition isnmstart (ch : Z) : bool :=
  (ch =? chr "\") || (ch =? chr "_") || ((chr "a" <=? ch) && (ch <=? chr "z")) ||
  ((chr "A" <=? ch) && (ch <=? chr "Z")) || ((128 <=? ch) && (ch <=? 255)).

Definition isnmchar (ch : Z) : bool :=
  (ch =? chr "\") || (ch =? chr "_") || ((chr "a" <=? ch) && (ch <=? chr "z")) ||
  ((chr "A" <=? ch) && (ch <=? chr "Z")) || ((chr "0" <=? ch) && (ch <=? chr "9")) ||
  (ch =? chr "-") || ((128 <=? ch) && (ch <=? 255)).

Definition isdigit (ch : Z) : bool := (chr "0" <=? ch) && (ch <=? chr "9").

Definition css_push_char (ch : Z) : M unit :=
  len ← gets string_len;
  if len + 1 >=? nelem_string then fz_css_error "token too long"
  else
    modify (λ buf, set_string_len (len + 1)
                     (set_string (<[Z.to_nat len := Some ch]> (string buf)) buf)).

(** [css_push_char(buf, buf->c)] *)
Definition css_push_c : M unit := ch ← gets c; css_push_char ch.

Definition css_lex_accept (t : Z) : M bool :=
  ch ← gets c;
  if ch =? t then css_lex_next ;; mret true else mret false.

Definition css_lex_expect (t : Z) : M unit :=
  b ← css_lex_accept t;
  if b : bool then mret tt else fz_css_error "unexpected character".

Definition ishex (ch : Z) : option Z :=
  if (chr "0" <=? ch) && (ch <=? chr "9") then Some (ch - chr "0")
  else if (chr "A" <=? ch) && (ch <=? chr "F") then Some (ch - chr "A" + 10)
  else if (chr "a" <=? ch) && (ch <=? chr "f") then Some (ch - chr "a" + 10)
  else None.

Definition css_lex_accept_hex : M (option Z) :=
  ch ← gets c;
  match ishex ch with
  | Some v => css_lex_next ;; mret (Some v)
  | None => mret None
  end.

(** A [while] loop of the lexer.  Every loop body of the lexer reads at least
    one byte, so a loop entered with [s buf] of length [k] runs its body at
    most [k] times before [css_lex_next] runs off the array; [while] supplies
    one unit more than that. *)
Fixpoint while_ (n : nat) (cond : lexbuf → bool) (body : M unit) : M unit := λ buf,
  if cond buf then
    match n with
    | O => OutOfFuel
    | S n' => (body ;; while_ n' cond body) buf
    end
  else Ok (tt, buf).

Definition while (cond : lexbuf → bool) (body : M unit) : M unit := λ buf,
  while_ (S (length (s buf))) cond body buf.

Definition css_lex_number : M token :=
  while (λ buf, isdigit (c buf)) (css_push_c ;; css_lex_next) ;;
  dot ← css_lex_accept (chr ".");
  (if dot : bool then
     css_push_char (chr ".") ;;
     while (λ buf, isdigit (c buf)) (css_push_c ;; css_lex_next)
   else mret tt) ;;
  pct ← css_lex_accept (chr "%");
  if pct : bool then
    css_push_char (chr "%") ;; css_push_char 0 ;; mret CSS_PERCENT
  else
    ch ← gets c;
    if isnmstart ch then
      css_push_c ;; css_lex_next ;;
      while (λ buf, isnmchar (c buf)) (css_push_c ;; css_lex_next) ;;
      css_push_char 0 ;; mret CSS_LENGTH
    else css_push_char 0 ;; mret CSS_NUMBER.

Definition css_lex_keyword : M token :=
  while (λ buf, isnmchar (c buf)) (css_push_c ;; css_lex_next) ;;
  css_push_char 0 ;;
  mret CSS_KEYWORD.

Definition css_lex_string (q : Z) : M token :=
  while (λ buf, negb (c buf =? 0) && negb (c buf =? q))
    (bs ← css_lex_accept (chr "\");
     if bs : bool then
       b ← css_lex_accept (chr "n");
       if b : bool then css_push_char 10 else
       b ← css_lex_accept (chr "r");
       if b : bool then css_push_char 13 else
       b ← css_lex_accept (chr "f");
       if b : bool then css_push_char 12 else
       b ← css_lex_accept 12;
       if b : bool then mret tt (* line continuation *) else
       b ← css_lex_accept 10;
       if b : bool then mret tt (* line continuation *) else
       b ← css_lex_accept 13;
       if b : bool then css_lex_accept 10 ;; mret tt
       else css_push_c ;; css_lex_next
     else css_push_c ;; css_lex_next) ;;
  css_lex_expect q ;;
  css_push_char 0 ;;
  mret CSS_STRING.

(** The body of the comment loop of [css_lex]: it returns when the closing
    [*/] has been read (the [goto restart]) and throws at the end of input. *)
Fixpoint css_lex_comment (n : nat) : M unit :=
  ch ← gets c;
  if ch =? 0 then fz_css_error "unterminated comment"
  else
    match n with
    | O => out_of_fuel
    | S n' =>
        star ← css_lex_accept (chr "*");
        if star : bool then
          while (λ buf, c buf =? chr "*") css_lex_next ;;
          slash ← css_lex_accept (chr "/");
          if slash : bool then mret tt
          else css_lex_next ;; css_lex_comment n'
        else css_lex_next ;; css_lex_comment n'
    end.

(** [sprintf(buf->string, "%06x", buf->color)]: the hexadecimal digits of an
    [unsigned int] (eight at most), most significant first and in lower case,
    padded with zeros on the left to six characters, then the terminating
    NUL. *)
Definition hexdigit (v : Z) : Z :=
  if v <? 10 then chr "0" + v else chr "a" + (v - 10).

Fixpoint hex_digits (n : nat) (v : Z) (acc : list Z) : list Z :=
  match n with
  | O => acc
  | S n' =>
      if v <? 16 then hexdigit v :: acc
      else hex_digits n' (v / 16) (hexdigit (v mod 16) :: acc)
  end.

Definition sprintf_06x (v : Z) : list Z :=
  let d := hex_digits 8 v [] in
  replicate (6 - length d) (chr "0") ++ d ++ [0].

(** Writing the bytes [l] into an array from index [i] on. *)
Fixpoint write_at (i : nat) (l : list Z) (a : list (option Z)) : list (option Z) :=
  match l with
  | [] => a
  | b :: l' => write_at (S i) l' (<[i := Some b]> a)
  end.

Definition css_lex_color : M token :=
  a ← css_lex_accept_hex;
  match a with None => fz_css_error "invalid color" | Some a =>
  b ← css_lex_accept_hex;
  match b with None => fz_css_error "invalid color" | Some b =>
  c ← css_lex_accept_hex;
  match c with None => fz_css_error "invalid color" | Some c =>
  d ← css_lex_accept_hex;
  match d with
  | Some d =>
      e ← css_lex_accept_hex;
      match e with None => fz_css_error "invalid color" | Some e =>
      f ← css_lex_accept_hex;
      match f with None => fz_css_error "invalid color" | Some f =>
      modify (set_color
        (Z.lor (Z.lor (Z.lor (Z.lor (Z.lor (Z.shiftl a 20) (Z.shiftl b 16))
           (Z.shiftl c 12)) (Z.shiftl d 8)) (Z.shiftl e 4)) f))
      end end
  | None =>
      modify (set_color
        (Z.lor (Z.lor (Z.shiftl a 20) (Z.shiftl b 12)) (Z.shiftl c 4)))
  end ;;
  modify (λ buf, set_string (write_at 0 (sprintf_06x (color buf)) (string buf)) buf) ;;
  mret CSS_COLOR
  end end end.

(** One pass through the body of the [while (buf->c)] loop of [css_lex],
    entered at the label [restart].  [continue] re-tests [buf->c] and comes
    back here; [goto restart] comes back directly.  Either jump is taken only
    after at least two bytes have been read. *)
Fixpoint css_lex_restart (n : nat) : M token :=
  let goto_restart : M token :=
    match n with O => out_of_fuel | S n' => css_lex_restart n' end in
  let continue : M token :=
    ch ← gets c; if ch =? 0 then mret EOF else goto_restart in
  while (λ buf, iswhite (c buf)) css_lex_next ;;
  ch ← gets c;
  if ch =? 0 then mret EOF else
  b ← css_lex_accept (chr "/");
  if b : bool then
    b ← css_lex_accept (chr "*");
    if b : bool then
      n0 ← gets (λ buf, length (s buf));
      css_lex_comment (S n0) ;; goto_restart
    else mret (Chr (chr "/"))
  else
  b ← css_lex_accept (chr "<");
  if b : bool then
    b ← css_lex_accept (chr "!");
    if b : bool then
      css_lex_expect (chr "-") ;; css_lex_expect (chr "-") ;; continue
    else mret (Chr (chr "<"))
  else
  b ← css_lex_accept (chr "-");
  if b : bool then
    b ← css_lex_accept (chr "-");
    if b : bool then css_lex_expect (chr ">") ;; continue else
    ch ← gets c;
    if isdigit ch then css_push_char (chr "-") ;; css_lex_number else
    if isnmstart ch then
      css_push_char (chr "-") ;; css_push_c ;; css_lex_next ;; css_lex_keyword
    else mret (Chr (chr "-"))
  else
  b ← css_lex_accept (chr "+");
  if b : bool then
    ch ← gets c;
    if isdigit ch then css_lex_number else mret (Chr (chr "+"))
  else
  b ← css_lex_accept (chr ".");
  if b : bool then
    ch ← gets c;
    if isdigit ch then css_push_char (chr ".") ;; css_lex_number
    else mret (Chr (chr "."))
  else
  b ← css_lex_accept (chr "#");
  if b : bool then css_lex_color else
  b ← css_lex_accept 34;
  if b : bool then css_lex_string 34 else
  b ← css_lex_accept (chr "'");
  if b : bool then css_lex_string (chr "'") else
  ch ← gets c;
  if isdigit ch then css_lex_number else
  b ← css_lex_accept (chr "u");
  if b : bool then
    b ← css_lex_accept (chr "r");
    if b : bool then
      b ← css_lex_accept (chr "l");
      if b : bool then
        b ← css_lex_accept (chr "(");
        if b : bool then
          (* string or url *)
          css_lex_expect (chr ")") ;; mret CSS_URI
        else
          css_push_char (chr "u") ;; css_push_char (chr "r") ;;
          css_push_char (chr "l") ;; css_lex_keyword
      else css_push_char (chr "u") ;; css_push_char (chr "r") ;; css_lex_keyword
    else css_push_char (chr "u") ;; css_lex_keyword
  else
  ch ← gets c;
  if isnmstart ch then css_push_c ;; css_lex_next ;; css_lex_keyword else
  css_lex_next ;; mret (Chr ch).

Definition css_lex : M token :=
  modify (set_string_len 0) ;;
  ch ← gets c;
  if ch =? 0 then mret EOF
  else n0 ← gets (λ buf, length (s buf)); css_lex_restart (S n0).

(** ** One token of lookahead *)

Definition next : M unit :=
  t ← css_lex;
  modify (set_lookahead t).

Definition accept (t : token) : M bool :=
  la ← gets lookahead;
  if decide (la = t) then next ;; mret true else mret false.

Definition expect (t : token) : M unit :=
  b ← accept t;
  if b : bool then mret tt else fz_css_error "unexpected token".

Definition iscond (t : token) : bool :=
  bool_decide (t = Chr (chr ":")) || bool_decide (t = Chr (chr ".")) ||
  bool_decide (t = Chr (chr "#")) || bool_decide (t = Chr (chr "[")).

(** ** The syntax tree

    The structures are declared in mupdf/html.h; their fields are the ones
    that the constructors [fz_new_css_*] of css-parse.c assign. *)

(** [fz_css_value]: [type], [data], [args]; the [next] chain is a list. *)
Inductive fz_css_value : Type :=
  Value (type : token) (data : list Z) (args : list fz_css_value).

Record fz_css_property : Type := Property {
  name : list Z;
  value : list fz_css_value;
  spec : Z
}.

Record fz_css_condition : Type := Condition {
  cond_type : Z;
  key : option (list Z);
  val : option (list Z)
}.

(** [fz_css_selector]: a NULL [name], [left] or [right] is [None]; the [next]
    chain of a selector group is a list. *)
Inductive fz_css_selector : Type :=
  Selector (sel_name : option (list Z)) (combine : Z)
           (cond : list fz_css_condition)
           (left right : option fz_css_selector).

(** A rule node of the store; [rule_next] is the address of the next node. *)
Record fz_css_rule : Type := Rule {
  selector : list fz_css_selector;
  declaration : list fz_css_property;
  garbage : list fz_css_property;
  rule_next : option nat
}.

(** The rule store: [fz_malloc_struct] returns the first unused address. *)
Abbreviation heap := (list fz_css_rule).

Definition fz_new_css_rule (h : heap) (sel : list fz_css_selector)
    (decl : list fz_css_property) : nat * heap :=
  (length h, h ++ [ {| selector := sel; declaration := decl;
                        garbage := []; rule_next := None |} ]).

Definition fz_new_css_selector (nm : option (list Z)) : fz_css_selector :=
  Selector nm 0 [] None None.

Definition fz_new_css_condition (ty : Z) (k v : option (list Z)) : fz_css_condition :=
  {| cond_type := ty; key := k; val := v |}.

Definition fz_new_css_property (nm : list Z) (v : list fz_css_value) (sp : Z)
    : fz_css_property :=
  {| name := nm; value := v; spec := sp |}.

Definition fz_new_css_value (ty : token) (d : list Z) : fz_css_value :=
  Value ty d [].

(** The C string held by an array: the bytes in front of the first NUL.
    There is none when an indeterminate cell, or the end of the array, comes
    first. *)
Fixpoint cstring (a : list (option Z)) : option (list Z) :=
  match a with
  | [] => None
  | None :: _ => None
  | Some b :: a' => if b =? 0 then Some [] else (b ::.) <$> cstring a'
  end.

(** [fz_strdup(buf->ctx, buf->string)] *)
Definition fz_strdup_string : M (list Z) := λ buf,
  match cstring (string buf) with
  | Some str => Ok (str, buf)
  | None => Undefined Uninitialised
  end.

(** ** Values and declarations *)

Definition value_list_end (t : token) : bool :=
  bool_decide (t = Chr (chr "}")) || bool_decide (t = Chr (chr ";")) ||
  bool_decide (t = Chr (chr "!")) || bool_decide (t = Chr (chr ")")) ||
  bool_decide (t = EOF).

(** [parse_value_list] with [parse_value] inside it: the two C functions call
    each other.  The loop appends at [tail], which yields the values in the
    order they are read. *)
Fixpoint parse_value_list (n : nat) : M (list fz_css_value) :=
  let parse_value : M fz_css_value :=
    la ← gets lookahead;
    if decide (la = CSS_KEYWORD) then
      d ← fz_strdup_string;
      next ;;
      b ← accept (Chr (chr "("));
      if b : bool then
        args ← match n with O => out_of_fuel | S n' => parse_value_list n' end;
        expect (Chr (chr ")")) ;;
        mret (Value (Chr (chr "(")) d args)
      else mret (fz_new_css_value CSS_KEYWORD d)
    else
    match la with
    | CSS_NUMBER | CSS_LENGTH | CSS_PERCENT | CSS_STRING | CSS_COLOR | CSS_URI =>
        d ← fz_strdup_string;
        next ;;
        mret (fz_new_css_value la d)
    | _ =>
        b ← accept (Chr (chr ","));
        if b : bool then mret (fz_new_css_value (Chr (chr ",")) (bytes ",")) else
        b ← accept (Chr (chr "/"));
        if b : bool then mret (fz_new_css_value (Chr (chr "/")) (bytes "/")) else
        fz_css_error "expected value"
    end in
  la ← gets lookahead;
  if value_list_end la then mret []
  else
    v ← parse_value;
    vs ← match n with O => out_of_fuel | S n' => parse_value_list n' end;
    mret (v :: vs).

Definition parse_declaration (n : nat) : M fz_css_property :=
  la ← gets lookahead;
  if decide (la = CSS_KEYWORD) then
    nm ← fz_strdup_string;
    next ;;
    expect (Chr (chr ":")) ;;
    v ← parse_value_list n;
    (* !important *)
    b ← accept (Chr (chr "!"));
    (if b : bool then expect CSS_KEYWORD else mret tt) ;;
    mret (fz_new_css_property nm v 0)
  else fz_css_error "expected keyword in property".

Definition declaration_start (t : token) : bool :=
  negb (bool_decide (t = Chr (chr "}"))) && negb (bool_decide (t = Chr (chr ";"))) &&
  negb (bool_decide (t = EOF)).

(** The [while (accept(buf, ';'))] loop of [parse_declaration_list]. *)
Fixpoint parse_declaration_loop (n : nat) : M (list fz_css_property) :=
  b ← accept (Chr (chr ";"));
  if b : bool then
    match n with
    | O => out_of_fuel
    | S n' =>
        la ← gets lookahead;
        if declaration_start la then
          p ← parse_declaration n;
          ps ← parse_declaration_loop n';
          mret (p :: ps)
        else parse_declaration_loop n'
    end
  else mret [].

Definition parse_declaration_list (n : nat) : M (list fz_css_property) :=
  la ← gets lookahead;
  if bool_decide (la = Chr (chr "}")) || bool_decide (la = EOF) then mret []
  else
    p ← parse_declaration n;
    ps ← parse_declaration_loop n;
    mret (p :: ps).

(** ** Selectors *)

Definition parse_attrib_value : M (list Z) :=
  la ← gets lookahead;
  if bool_decide (la = CSS_KEYWORD) || bool_decide (la = CSS_STRING) then
    str ← fz_strdup_string;
    next ;;
    mret str
  else fz_css_error "expected attribute value".

Definition parse_condition : M fz_css_condition :=
  b ← accept (Chr (chr ":"));
  if b : bool then
    la ← gets lookahead;
    if decide (la = CSS_KEYWORD) then
      v ← fz_strdup_string;
      next ;;
      mret (fz_new_css_condition (chr ":") (Some (bytes "pseudo")) (Some v))
    else fz_css_error "expected keyword after ':'"
  else
  b ← accept (Chr (chr "."));
  if b : bool then
    la ← gets lookahead;
    if decide (la = CSS_KEYWORD) then
      v ← fz_strdup_string;
      next ;;
      mret (fz_new_css_condition (chr ".") (Some (bytes "class")) (Some v))
    else fz_css_error "expected keyword after '.'"
  else
  b ← accept (Chr (chr "#"));
  if b : bool then
    la ← gets lookahead;
    if decide (la = CSS_KEYWORD) then
      v ← fz_strdup_string;
      next ;;
      mret (fz_new_css_condition (chr "#") (Some (bytes "id")) (Some v))
    else fz_css_error "expected keyword after '#'"
  else
  b ← accept (Chr (chr "["));
  if b : bool then
    la ← gets lookahead;
    if decide (la = CSS_KEYWORD) then
      k ← fz_strdup_string;
      next ;;
      cnd ←
        (b ← accept (Chr (chr "="));
         if b : bool then
           v ← parse_attrib_value;
           mret (fz_new_css_condition (chr "=") (Some k) (Some v))
         else
         b ← accept (Chr (chr "|"));
         if b : bool then
           expect (Chr (chr "=")) ;;
           v ← parse_attrib_value;
           mret (fz_new_css_condition (chr "|") (Some k) (Some v))
         else
         b ← accept (Chr (chr "~"));
         if b : bool then
           expect (Chr (chr "=")) ;;
           v ← parse_attrib_value;
           mret (fz_new_css_condition (chr "~") (Some k) (Some v))
         else mret (fz_new_css_condition (chr "[") (Some k) None));
      expect (Chr (chr "]")) ;;
      mret cnd
    else fz_css_error "expected keyword after '['"
  else fz_css_error "expected condition".

(** The [while (iscond(buf->lookahead))] loop of [parse_condition_list]. *)
Fixpoint parse_condition_loop (n : nat) : M (list fz_css_condition) :=
  la ← gets lookahead;
  if iscond la then
    match n with
    | O => out_of_fuel
    | S n' =>
        cnd ← parse_condition;
        cs ← parse_condition_loop n';
        mret (cnd :: cs)
    end
  else mret [].

Definition parse_condition_list (n : nat) : M (list fz_css_condition) :=
  cnd ← parse_condition;
  cs ← parse_condition_loop n;
  mret (cnd :: cs).

Definition parse_simple_selector (n : nat) : M fz_css_selector :=
  b ← accept (Chr (chr "*"));
  if b : bool then
    la ← gets lookahead;
    if iscond la then
      cs ← parse_condition_list n;
      mret (Selector None 0 cs None None)
    else mret (fz_new_css_selector None)
  else
  la ← gets lookahead;
  if decide (la = CSS_KEYWORD) then
    nm ← fz_strdup_string;
    next ;;
    la ← gets lookahead;
    if iscond la then
      cs ← parse_condition_list n;
      mret (Selector (Some nm) 0 cs None None)
    else mret (fz_new_css_selector (Some nm))
  else
  if iscond la then
    cs ← parse_condition_list n;
    mret (Selector None 0 cs None None)
  else fz_css_error "expected selector".

(** A combinator node: [fz_new_css_selector(ctx, NULL)] with [combine],
    [left] and [right] assigned. *)
Definition combinator (comb : Z) (a b : fz_css_selector) : fz_css_selector :=
  Selector None comb [] (Some a) (Some b).

Fixpoint parse_adjacent_selector (n : nat) : M fz_css_selector :=
  a ← parse_simple_selector n;
  plus ← accept (Chr (chr "+"));
  if plus : bool then
    b ← match n with O => out_of_fuel | S n' => parse_adjacent_selector n' end;
    mret (combinator (chr "+") a b)
  else mret a.

Fixpoint parse_child_selector (n : nat) : M fz_css_selector :=
  a ← parse_adjacent_selector n;
  gt ← accept (Chr (chr ">"));
  if gt : bool then
    b ← match n with O => out_of_fuel | S n' => parse_child_selector n' end;
    mret (combinator (chr ">") a b)
  else mret a.

Definition selector_end (t : token) : bool :=
  bool_decide (t = Chr (chr ",")) || bool_decide (t = Chr (chr "{")) ||
  bool_decide (t = EOF).

Fixpoint parse_descendant_selector (n : nat) : M fz_css_selector :=
  a ← parse_child_selector n;
  la ← gets lookahead;
  if negb (selector_end la) then
    b ← match n with O => out_of_fuel | S n' => parse_descendant_selector n' end;
    mret (combinator (chr " ") a b)
  else mret a.

(** The [while (accept(buf, ','))] loop of [parse_selector_list]. *)
Fixpoint parse_selector_loop (n : nat) : M (list fz_css_selector) :=
  b ← accept (Chr (chr ","));
  if b : bool then
    match n with
    | O => out_of_fuel
    | S n' =>
        sel ← parse_descendant_selector n;
        sels ← parse_selector_loop n';
        mret (sel :: sels)
    end
  else mret [].

Definition parse_selector_list (n : nat) : M (list fz_css_selector) :=
  sel ← parse_descendant_selector n;
  sels ← parse_selector_loop n;
  mret (sel :: sels).

(** ** Rules, at-rules and the style sheet *)

Definition parse_rule (n : nat) (h : heap) : M (nat * heap) :=
  sel ← parse_selector_list n;
  expect (Chr (chr "{")) ;;
  p ← parse_declaration_list n;
  expect (Chr (chr "}")) ;;
  mret (fz_new_css_rule h sel p).

(** The inner loop of [parse_at_rule], which runs while the lookahead is not
    [EOF] and [depth > 0]. *)
Fixpoint parse_at_rule_block (n : nat) (depth : Z) : M unit :=
  la ← gets lookahead;
  if negb (bool_decide (la = EOF)) && (depth >? 0) then
    match n with
    | O => out_of_fuel
    | S n' =>
        b ← accept (Chr (chr "{"));
        if b : bool then parse_at_rule_block n' (depth + 1) else
        b ← accept (Chr (chr "}"));
        if b : bool then parse_at_rule_block n' (depth - 1) else
        next ;; parse_at_rule_block n' depth
    end
  else mret tt.

(** The outer loop of [parse_at_rule]: skip until '{' or ';'. *)
Fixpoint parse_at_rule_skip (n : nat) : M unit :=
  la ← gets lookahead;
  if negb (bool_decide (la = EOF)) then
    match n with
    | O => out_of_fuel
    | S n' =>
        b ← accept (Chr (chr ";"));
        if b : bool then mret tt else
        b ← accept (Chr (chr "{"));
        if b : bool then parse_at_rule_block n' 1 else
        next ;; parse_at_rule_skip n'
    end
  else mret tt.

Definition parse_at_rule (n : nat) : M unit :=
  expect CSS_KEYWORD ;;
  parse_at_rule_skip n.

(** What [nextp] points at: the local variable [tail], or the [next] field of
    a rule node. *)
Inductive rule_ref : Type :=
  | LocalTail
  | NextOf (a : nat).

Definition set_rule_next (nx : option nat) (r : fz_css_rule) : fz_css_rule :=
  {| selector := selector r; declaration := declaration r;
     garbage := garbage r; rule_next := nx |}.

(** [*nextp = rule] *)
Definition store_rule (nextp : rule_ref) (rule : nat) (tail : option nat) (h : heap)
    : option nat * heap :=
  match nextp with
  | LocalTail => (Some rule, h)
  | NextOf a => (tail, alter (set_rule_next (Some rule)) a h)
  end.

(** [while (tail->next) tail = tail->next;]  On a cyclic chain the C loop does
    not end; a chain without a cycle has at most [length h] nodes. *)
Fixpoint last_rule (n : nat) (h : heap) (a : nat) {A} (k : nat → M A) : M A :=
  match h !! a with
  | None => λ _, Undefined BadPointer
  | Some r =>
      match rule_next r with
      | None => k a
      | Some a' =>
          match n with
          | O => out_of_fuel
          | S n' => last_rule n' h a' k
          end
      end
  end.

(** The [while (buf->lookahead != EOF)] loop of [parse_stylesheet]; it returns
    the final content of [tail] and the store. *)
Fixpoint parse_stylesheet_loop (n : nat) (nextp : rule_ref) (tail : option nat)
    (h : heap) : M (option nat * heap) :=
  la ← gets lookahead;
  if negb (bool_decide (la = EOF)) then
    match n with
    | O => out_of_fuel
    | S n' =>
        b ← accept (Chr (chr "@"));
        if b : bool then
          parse_at_rule n ;;
          parse_stylesheet_loop n' nextp tail h
        else
          '(rule, h1) ← parse_rule n h;
          let '(tail', h2) := store_rule nextp rule tail h1 in
          parse_stylesheet_loop n' (NextOf rule) tail' h2
    end
  else mret (tail, h).

Definition parse_stylesheet (n : nat) (h : heap) (chain : option nat)
    : M (option nat * heap) :=
  match chain with
  | Some a =>
      last_rule (length h) h a (λ t,
        '(_, h') ← parse_stylesheet_loop n (NextOf t) (Some t) h;
        mret (chain, h'))
  | None => parse_stylesheet_loop n LocalTail None h
  end.

(** ** Entry points *)

(** The parser never looks at more tokens than the source has bytes, plus the
    final [EOF]; this bounds the depth of every recursion and the length of
    every loop of the parser. *)
Definition fuel (source : list Z) : nat := S (S (length source)).

Definition result {A} (r : outcome (A * lexbuf)) : outcome A :=
  match r with
  | Ok (a, _) => Ok a
  | Throw msg ln => Throw msg ln
  | Undefined u => Undefined u
  | OutOfFuel => OutOfFuel
  end.

Definition fz_parse_css_properties (source : list Z) : outcome (list fz_css_property) :=
  result ((css_lex_init ;; next ;; parse_declaration_list (fuel source))
            (lexbuf_at source)).

Definition fz_parse_css (h : heap) (chain : option nat) (source : list Z)
    : outcome (option nat * heap) :=
  result ((css_lex_init ;; next ;; parse_stylesheet (fuel source) h chain)
            (lexbuf_at source)).

(** The rules of a chain, in the order of its [next] pointers. *)
Fixpoint rules_from (n : nat) (h : heap) (p : option nat)
    : option (list (list fz_css_selector * list fz_css_property)) :=
  match p with
  | None => Some []
  | Some a =>
      match n with
      | O => None
      | S n' =>
          r ← h !! a;
          rs ← rules_from n' h (rule_next r);
          Some ((selector r, declaration r) :: rs)
      end
  end.

Definition rules (h : heap) (p : option nat) := rules_from (length h) h p.

(** * Notions of the verification

    States, relations and reference functions that the statements below
    are phrased with. *)

(** [buf] after [css_lex_next] has read the byte [b]. *)
Definition advance (b : Z) (rest : list Z) (buf : lexbuf) : lexbuf :=
  {| s := rest; line := if b =? 10 then line buf + 1 else line buf;
     lookahead := lookahead buf; c := b; color := color buf;
     string_len := string_len buf; string := string buf |}.

(** [buf] after [css_push_char(buf, ch)] has stored [ch]. *)
Definition pushed (ch : Z) (buf : lexbuf) : lexbuf :=
  set_string_len (string_len buf + 1)
    (set_string (<[Z.to_nat (string_len buf) := Some ch]> (string buf)) buf).

(** The scratch array while a token is accumulated: the bytes pushed so far,
    then cells that have not been written for this token. *)
Definition holds (pre : list Z) (old : list (option Z)) (buf : lexbuf) : Prop :=
  string buf = (Some <$> pre) ++ old ∧ string_len buf = Z.of_nat (length pre).

(** The bytes that the lexer has not consumed: the one it looks at and the
    ones behind the pointer. *)
Definition stream (buf : lexbuf) : list Z := c buf :: s buf.

(** The texts that [css_lex] takes for a keyword: a name-start byte, or a
    minus sign and a name-start byte, then name bytes. *)
Definition keyword_text (w : list Z) : bool :=
  match w with
  | [] => false
  | a :: w' =>
      if a =? chr "-" then
        match w' with
        | [] => false
        | b :: w'' => isnmstart b && forallb isnmchar w''
        end
      else isnmstart a && forallb isnmchar w'
  end.

(** The outcome of lexing a keyword of [w], common to all ways into
    [css_lex_keyword]. *)
Definition keyword_outcome (w : list Z) (x : Z) (rest : list Z)
    (r : outcome (token * lexbuf)) : Prop :=
  if decide (length w ≤ 1022)%nat then
    ∃ buf', r = Ok (CSS_KEYWORD, buf') ∧
      cstring (string buf') = Some w ∧ stream buf' = x :: rest ∧
      length (string buf') = 1024%nat
  else ∃ ln, r = Throw "token too long" ln.

(** The six hexadecimal digits of a 24-bit integer, as the specification
    words the canonical form of a colour. *)
Definition hex6 (v : Z) : list Z :=
  (λ i, hexdigit (Z.land (Z.shiftr v (4 * i)) 15)) <$> [5; 4; 3; 2; 1; 0].

(** Lower-case hexadecimal digits. *)
Definition islowerhex (ch : Z) : bool :=
  ((chr "0" <=? ch) && (ch <=? chr "9")) || ((chr "a" <=? ch) && (ch <=? chr "f")).

(** The numbers that the description gives for [#rgb] and for [#rrggbb]. *)
Definition rgb (a b c : Z) : Z :=
  Z.lor (Z.lor (Z.shiftl a 20) (Z.shiftl b 12)) (Z.shiftl c 4).

Definition rrggbb (a b c d e f : Z) : Z :=
  Z.lor (Z.lor (Z.lor (Z.lor (Z.lor (Z.shiftl a 20) (Z.shiftl b 16))
    (Z.shiftl c 12)) (Z.shiftl d 8)) (Z.shiftl e 4)) f.

(** What a colour token leaves behind. *)
Definition color_token (v : Z) (after : list Z) (r : outcome (token * lexbuf)) : Prop :=
  ∃ buf', r = Ok (CSS_COLOR, buf') ∧ color buf' = v ∧
    cstring (string buf') = Some (hex6 v) ∧ stream buf' = after ∧
    length (string buf') = 1024%nat.

(** The lexer throws "invalid color". *)
Definition invalid_color (r : outcome (token * lexbuf)) : Prop :=
  ∃ ln, r = Throw "invalid color" ln.


(** The tokens in front of the parser: the lookahead and what [next] delivers
    after it, up to [EOF]. *)
Fixpoint tokens (n : nat) : M (list token) :=
  la ← gets lookahead;
  if bool_decide (la = EOF) then mret []
  else
    match n with
    | O => out_of_fuel
    | S n' => next ;; ts ← tokens n'; mret (la :: ts)
    end.

(** The specification's description of the skip, on the token sequence:
    through the brace that matches, counting the nesting; the end of the
    tokens ends the skip. *)
Fixpoint skip_block (depth : nat) (ts : list token) : list token :=
  match depth, ts with
  | O, _ => ts
  | _, [] => []
  | S d, t :: ts' =>
      if decide (t = Chr (chr "{")) then skip_block (S depth) ts'
      else if decide (t = Chr (chr "}")) then skip_block d ts'
      else skip_block depth ts'
  end.

(** Up to the first [;], or to the first [{] and through its block. *)
Fixpoint skip_at_rule (ts : list token) : list token :=
  match ts with
  | [] => []
  | t :: ts' =>
      if decide (t = Chr (chr ";")) then ts'
      else if decide (t = Chr (chr "{")) then skip_block 1 ts'
      else skip_at_rule ts'
  end.

(** What a rule says: its selectors and its declarations. *)
Definition rule_data (r : fz_css_rule) : list fz_css_selector * list fz_css_property :=
  (selector r, declaration r).

(** [chain_to h a l t]: from the node at [a] the [next] pointers lead through
    nodes with the contents [l] to the node [t], the last one.  Nodes are only
    ever linked to nodes allocated after them, so addresses grow along a
    chain. *)
Inductive chain_to (h : heap) : nat → list (list fz_css_selector * list fz_css_property)
    → nat → Prop :=
  | chain_last a r :
      h !! a = Some r → rule_next r = None →
      chain_to h a [rule_data r] a
  | chain_link a r a' l t :
      h !! a = Some r → rule_next r = Some a' → (a < a')%nat →
      chain_to h a' l t →
      chain_to h a (rule_data r :: l) t.

(** The part of [parse_rule] in front of the allocation. *)
Definition parse_rule_body (n : nat)
    : M (list fz_css_selector * list fz_css_property) :=
  sel ← parse_selector_list n;
  expect (Chr (chr "{")) ;;
  p ← parse_declaration_list n;
  expect (Chr (chr "}")) ;;
  mret (sel, p).

(** The state of the loop of [parse_stylesheet]: nothing linked yet and no
    chain given, or [nextp] at the [next] field of the last node of the chain
    that [chain ? chain : tail] heads. *)
Inductive open_chain (h : heap) (chain tail : option nat)
    : rule_ref → list (list fz_css_selector * list fz_css_property) → Prop :=
  | open_empty :
      chain = None → tail = None → open_chain h chain tail LocalTail []
  | open_linked a l t :
      (if chain is Some _ then chain else tail) = Some a →
      chain_to h a l t → open_chain h chain tail (NextOf t) l.

(** Two runs of the loop on the same input agree on everything but the store:
    they end in the same way, and what they link behind their chains is the
    same sequence of rules. *)
Definition same_rules (chain1 chain2 : option nat)
    (l1 l2 : list (list fz_css_selector * list fz_css_property))
    (r1 r2 : outcome ((option nat * heap) * lexbuf)) : Prop :=
  match r1, r2 with
  | Ok ((t1, h1), b1), Ok ((t2, h2), b2) =>
      b1 = b2 ∧ ∃ new nx1 nx2,
        open_chain h1 chain1 t1 nx1 (l1 ++ new) ∧
        open_chain h2 chain2 t2 nx2 (l2 ++ new)
  | Throw m1 k1, Throw m2 k2 => m1 = m2 ∧ k1 = k2
  | Undefined u1, Undefined u2 => u1 = u2
  | OutOfFuel, OutOfFuel => True
  | _, _ => False
  end.

(** The state in which [parse_stylesheet] is entered: after [css_lex_init]
    and the first [next]. *)
Definition start (source : list Z) : outcome (unit * lexbuf) :=
  (css_lex_init ;; next) (lexbuf_at source).

(** [rel R m1 m2 Q]: from states related by [R], whenever [m1] returns, [m2]
    returns too, and [Q] relates the two results. *)
Definition rel {A B} (R : lexbuf → lexbuf → Prop) (m1 : M A) (m2 : M B)
    (Q : A → lexbuf → B → lexbuf → Prop) : Prop :=
  ∀ b1 b2 a1 b1', R b1 b2 → m1 b1 = Ok (a1, b1') →
    ∃ a2 b2', m2 b2 = Ok (a2, b2') ∧ Q a1 b1' a2 b2'.

(** Same value, states related by [R]. *)
Definition eqv {A} (R : lexbuf → lexbuf → Prop) : A → lexbuf → A → lexbuf → Prop :=
  λ a1 b1 a2 b2, a1 = a2 ∧ R b1 b2.

(** The fields that the source text does not determine. *)
Definition agree (b1 b2 : lexbuf) : Prop :=
  line b1 = line b2 ∧ color b1 = color b2 ∧
  string_len b1 = string_len b2 ∧ string b1 = string b2.

(** Inside the declarations: the same byte under the pointer, the same bytes
    ahead; then the terminator on the one side, the closing brace and the
    terminator on the other. *)
Definition mid (b1 b2 : lexbuf) : Prop :=
  agree b1 b2 ∧ c b1 = c b2 ∧
  ∃ u, s b1 = u ++ [0] ∧ s b2 = u ++ [chr "}"; 0].

(** At the end of the declarations: the terminator has been read on the one
    side, the closing brace on the other. *)
Definition at_end (b1 b2 : lexbuf) : Prop :=
  agree b1 b2 ∧ c b1 = 0 ∧ s b1 = [] ∧ c b2 = chr "}" ∧ s b2 = [0].

(** After the closing brace has become a token. *)
Definition fin (b1 b2 : lexbuf) : Prop :=
  agree b1 b2 ∧ c b1 = 0 ∧ s b1 = [] ∧ c b2 = 0 ∧ s b2 = [].

(** The lexer on the two inputs, as long as the closing brace has not become
    a token. *)
Definition lexsim (b1 b2 : lexbuf) : Prop := mid b1 b2 ∨ at_end b1 b2.

(** A test on the current byte that does not tell the terminator from the
    closing brace. *)
Definition blind (f : Z → bool) : Prop := f 0 = f (chr "}").

(** Reading the current byte under [lexsim]: the same byte on both sides, or
    the terminator on the one and the closing brace on the other. *)
Definition same_byte (ch1 ch2 : Z) : Prop :=
  ch1 = ch2 ∨ (ch1 = 0 ∧ ch2 = chr "}").

(** The body of [css_lex_restart] behind the test for the end of input, with
    the jump back to [restart] as a parameter. *)
Definition css_lex_dispatch (goto_restart : M token) : M token :=
  let continue : M token :=
    ch ← gets c; if ch =? 0 then mret EOF else goto_restart in
  b ← css_lex_accept (chr "/");
  if b : bool then
    b ← css_lex_accept (chr "*");
    if b : bool then
      n0 ← gets (λ buf, length (s buf));
      css_lex_comment (S n0) ;; goto_restart
    else mret (Chr (chr "/"))
  else
  b ← css_lex_accept (chr "<");
  if b : bool then
    b ← css_lex_accept (chr "!");
    if b : bool then
      css_lex_expect (chr "-") ;; css_lex_expect (chr "-") ;; continue
    else mret (Chr (chr "<"))
  else
  b ← css_lex_accept (chr "-");
  if b : bool then
    b ← css_lex_accept (chr "-");
    if b : bool then css_lex_expect (chr ">") ;; continue else
    ch ← gets c;
    if isdigit ch then css_push_char (chr "-") ;; css_lex_number else
    if isnmstart ch then
      css_push_char (chr "-") ;; css_push_c ;; css_lex_next ;; css_lex_keyword
    else mret (Chr (chr "-"))
  else
  b ← css_lex_accept (chr "+");
  if b : bool then
    ch ← gets c;
    if isdigit ch then css_lex_number else mret (Chr (chr "+"))
  else
  b ← css_lex_accept (chr ".");
  if b : bool then
    ch ← gets c;
    if isdigit ch then css_push_char (chr ".") ;; css_lex_number
    else mret (Chr (chr "."))
  else
  b ← css_lex_accept (chr "#");
  if b : bool then css_lex_color else
  b ← css_lex_accept 34;
  if b : bool then css_lex_string 34 else
  b ← css_lex_accept (chr "'");
  if b : bool then css_lex_string (chr "'") else
  ch ← gets c;
  if isdigit ch then css_lex_number else
  b ← css_lex_accept (chr "u");
  if b : bool then
    b ← css_lex_accept (chr "r");
    if b : bool then
      b ← css_lex_accept (chr "l");
      if b : bool then
        b ← css_lex_accept (chr "(");
        if b : bool then
          css_lex_expect (chr ")") ;; mret CSS_URI
        else
          css_push_char (chr "u") ;; css_push_char (chr "r") ;;
          css_push_char (chr "l") ;; css_lex_keyword
      else css_push_char (chr "u") ;; css_push_char (chr "r") ;; css_lex_keyword
    else css_push_char (chr "u") ;; css_lex_keyword
  else
  ch ← gets c;
  if isnmstart ch then css_push_c ;; css_lex_next ;; css_lex_keyword else
  css_lex_next ;; mret (Chr ch).

(** The jump back to [restart] with the fuel that is left. *)
Definition goto_restart (n : nat) : M token :=
  match n with O => out_of_fuel | S n' => css_lex_restart n' end.

(** The tokens of the two sides: the same token, or the end of input on the
    one side and the closing brace on the other. *)
Definition same_token (t1 : token) (b1 : lexbuf) (t2 : token) (b2 : lexbuf) : Prop :=
  (t1 = t2 ∧ lexsim b1 b2) ∨ (t1 = EOF ∧ t2 = Chr (chr "}") ∧ fin b1 b2).

(** The parser on the two inputs: the same lookahead, or the end of input on
    the one side and the closing brace on the other. *)
Definition parsim (b1 b2 : lexbuf) : Prop :=
  (lookahead b1 = lookahead b2 ∧ lexsim b1 b2) ∨
  (lookahead b1 = EOF ∧ lookahead b2 = Chr (chr "}") ∧ fin b1 b2).

(** [parse_value] and the body of [parse_value_list], with the recursive call
    as a parameter. *)
Definition parse_value_with (rec : M (list fz_css_value)) : M fz_css_value :=
  la ← gets lookahead;
  if decide (la = CSS_KEYWORD) then
    d ← fz_strdup_string;
    next ;;
    b ← accept (Chr (chr "("));
    if b : bool then
      args ← rec;
      expect (Chr (chr ")")) ;;
      mret (Value (Chr (chr "(")) d args)
    else mret (fz_new_css_value CSS_KEYWORD d)
  else
  match la with
  | CSS_NUMBER | CSS_LENGTH | CSS_PERCENT | CSS_STRING | CSS_COLOR | CSS_URI =>
      d ← fz_strdup_string;
      next ;;
      mret (fz_new_css_value la d)
  | _ =>
      b ← accept (Chr (chr ","));
      if b : bool then mret (fz_new_css_value (Chr (chr ",")) (bytes ",")) else
      b ← accept (Chr (chr "/"));
      if b : bool then mret (fz_new_css_value (Chr (chr "/")) (bytes "/")) else
      fz_css_error "expected value"
  end.

(** The body of [parse_value_list]. *)
Definition parse_value_list_with (rec : M (list fz_css_value))
    : M (list fz_css_value) :=
  la ← gets lookahead;
  if value_list_end la then mret []
  else
    v ← parse_value_with rec;
    vs ← rec;
    mret (v :: vs).

(** The recursive call of [parse_value_list] at the fuel [n]. *)
Definition parse_value_list_rec (n : nat) : M (list fz_css_value) :=
  match n with O => out_of_fuel | S n' => parse_value_list n' end.

(** Both parsers look at the token [la]. *)
Definition looking_at (la : token) (b1 b2 : lexbuf) : Prop :=
  parsim b1 b2 ∧ lookahead b1 = la ∧ lookahead b2 = la.

(** The body of the loop of [parse_declaration_list] behind an accepted [;],
    with the next round as a parameter. *)
Definition parse_declaration_loop_with (n : nat) (rec : M (list fz_css_property))
    : M (list fz_css_property) :=
  la ← gets lookahead;
  if declaration_start la then
    p ← parse_declaration n;
    ps ← rec;
    mret (p :: ps)
  else rec.

(** The source ["*{" + s + "}"]. *)
Definition wrap (src : list Z) : list Z := bytes "*{" ++ src ++ bytes "}".

(** The lexer in front of the first byte of [src], as [css_lex_init] leaves
    it for the declarations alone ... *)
Definition lexer_entry (src : list Z) : lexbuf :=
  match src ++ [0] with
  | [] => lexbuf_at src
  | x :: rest =>
      {| s := rest; line := if x =? 10 then 2 else 1; lookahead := EOF; c := x;
         color := 0; string_len := 0;
         string := replicate (Z.to_nat nelem_string) None |}
  end.

(** ... and as the rule [*{...}] has it when [{] is the lookahead. *)
Definition block_entry (src : list Z) : lexbuf :=
  match (src ++ bytes "}") ++ [0] with
  | [] => lexbuf_at src
  | x :: rest =>
      {| s := rest; line := if x =? 10 then 2 else 1; lookahead := Chr (chr "{");
         c := x; color := 0; string_len := 0;
         string := replicate (Z.to_nat nelem_string) None |}
  end.

(** The universal selector of the wrapping rule. *)
Definition universal : list fz_css_selector := [Selector None 0 [] None None].

(** The states of [fz_parse_css] on the wrapped source in front of it:
    with [*] and with [{] in the lookahead. *)
Definition star_entry (src : list Z) : lexbuf :=
  {| s := (src ++ bytes "}") ++ [0]; line := 1; lookahead := Chr (chr "*");
     c := chr "{"; color := 0; string_len := 0;
     string := replicate (Z.to_nat nelem_string) None |}.

(** The token in front of which [fz_parse_css_properties] returns. *)
Definition fz_parse_css_properties_end (source : list Z) : option token :=
  match (css_lex_init ;; next ;; parse_declaration_list (fuel source))
          (lexbuf_at source) with
  | Ok (_, buf) => Some (lookahead buf)
  | _ => None
  end.

(** [yields P m Q]: every value that [m] returns from a state in [P] is in
    [Q]. *)
Definition yields {A} (P : lexbuf → Prop) (m : M A) (Q : A → Prop) : Prop :=
  ∀ buf a buf', P buf → m buf = Ok (a, buf') → Q a.

(** No condition on the state. *)
Definition anywhere : lexbuf → Prop := λ _, True.

(** Everything but a lone [#]. *)
Definition no_hash (t : token) : Prop := t ≠ Chr (chr "#").

(** [run m buf Q]: from [buf], [m] does not run out of fuel, and what it
    returns is in [Q]. *)
Definition run {A} (m : M A) (buf : lexbuf) (Q : A → lexbuf → Prop) : Prop :=
  match m buf with
  | Ok (a, buf') => Q a buf'
  | OutOfFuel => False
  | _ => True
  end.

(** The bytes behind the read pointer. *)
Definition len (buf : lexbuf) : nat := length (s buf).

(** A token other than [EOF] has consumed input. *)
Definition consumed (buf : lexbuf) (t : token) (buf' : lexbuf) : Prop :=
  (len buf' ≤ len buf)%nat ∧ (t ≠ EOF → (len buf' < len buf)%nat).

(** What the parser has in front of it: nothing behind [EOF], otherwise the
    lookahead and the bytes that are left. *)
Definition ahead (buf : lexbuf) : nat :=
  if decide (lookahead buf = EOF) then 0%nat else S (len buf).

(** The parser in front of the first token of [source]: after [css_lex_init]
    and the first [next]. *)
Definition parser_entry (source : list Z) : lexbuf :=
  match start source with
  | Ok (_, buf) => buf
  | _ => lexbuf_at source
  end.

(** The outcomes other than a result. *)
Inductive failure : Type :=
  | FThrow (msg : String.string) (ln : Z)
  | FUndefined (u : undefined)
  | FOutOfFuel.

(** [post F m buf Q]: what [m] returns from [buf] is in [Q], and if it fails,
    the failure is in [F]. *)
Definition post {A} (F : failure → Prop) (m : M A) (buf : lexbuf)
    (Q : A → lexbuf → Prop) : Prop :=
  match m buf with
  | Ok (a, buf') => Q a buf'
  | Throw msg ln => F (FThrow msg ln)
  | Undefined u => F (FUndefined u)
  | OutOfFuel => F FOutOfFuel
  end.

(** [keeps I F m]: from a state in [I], [m] ends in a state in [I] or fails
    within [F]. *)
Definition keeps {A} (I : lexbuf → Prop) (F : failure → Prop) (m : M A) : Prop :=
  ∀ buf, I buf → post F m buf (λ _ b', I b').

(** The number of line feeds among bytes. *)
Fixpoint newlines (l : list Z) : Z :=
  match l with
  | [] => 0
  | b :: l' => (if b =? 10 then 1 else 0) + newlines l'
  end.

(** [buf] is reached from [buf0] by reading: the bytes [read] have gone from
    behind the pointer, and [line] has counted their line feeds. *)
Definition read_to (buf0 buf : lexbuf) : Prop :=
  ∃ read, s buf0 = read ++ s buf ∧ line buf = line buf0 + newlines read.

(** A syntax error carries the line of a state that is reached by reading. *)
Definition line_of_read (buf0 : lexbuf) (f : failure) : Prop :=
  match f with
  | FThrow _ ln => ∃ read rest, s buf0 = read ++ rest ∧ ln = line buf0 + newlines read
  | _ => True
  end.

(** The failures that throwing and running out of fuel are among. *)
Definition lenient (F : failure → Prop) : Prop :=
  (∀ msg ln, F (FThrow msg ln)) ∧ F FOutOfFuel.

(** The failures other than a read beyond the terminator. *)
Definition within_source (f : failure) : Prop := f ≠ FUndefined OverRead.

(** The byte in front of the terminator is neither a backslash nor an
    asterisk. *)
Definition safe_end (l : list Z) : Prop :=
  ∀ pre x, l = pre ++ [x; 0] → x ≠ chr "\" ∧ x ≠ chr "*".

(** The bytes in front of the lexer end in the terminator, safely. *)
Definition bounded (buf : lexbuf) : Prop :=
  last (stream buf) = Some 0 ∧ safe_end (stream buf).

(** The failures other than a copy of indeterminate bytes and the use of a
    pointer that is no rule. *)
Definition initialised (f : failure) : Prop :=
  f ≠ FUndefined Uninitialised ∧ f ≠ FUndefined BadPointer.

(** The array holds a C string. *)
Definition terminated (a : list (option Z)) : Prop := is_Some (cstring a).

(** While a token is accumulated: the cells below [string_len] are written,
    and the array has its 1024 cells. *)
Definition filled (buf : lexbuf) : Prop :=
  ∃ pre old, holds pre old buf ∧ length (string buf) = 1024%nat.

(** At the start of a token: the array is [a], nothing is accumulated. *)
Definition fresh (a : list (option Z)) (buf : lexbuf) : Prop :=
  string buf = a ∧ string_len buf = 0 ∧ length a = 1024%nat.

(** The tokens that have a text. *)
Definition has_text (t : token) : bool :=
  match t with
  | CSS_KEYWORD | CSS_COLOR | CSS_NUMBER | CSS_LENGTH | CSS_PERCENT | CSS_STRING => true
  | EOF | Chr _ | CSS_URI => false
  end.

(** What a token function leaves: the text of its token. *)
Definition texted (t : token) (buf : lexbuf) : Prop :=
  has_text t = true ∧ terminated (string buf) ∧ length (string buf) = 1024%nat.

(** What [css_lex] leaves, from the array [a]: the text of a token that has
    one, and the array as it was behind any other token. *)
Definition lexed (a : list (option Z)) (t : token) (buf : lexbuf) : Prop :=
  length (string buf) = 1024%nat ∧
  if has_text t then terminated (string buf) else string buf = a.

(** The two fields of the scratch array. *)
Definition scratch (buf : lexbuf) : list (option Z) * Z := (string buf, string_len buf).

(** Between two calls of the parser: the array holds the text of the
    lookahead token when that token has one. *)
Definition ready (buf : lexbuf) : Prop :=
  length (string buf) = 1024%nat ∧
  (has_text (lookahead buf) = true → terminated (string buf)).

(** Behind the first copy: the array holds a text, the one of the lookahead
    token or an older one. *)
Definition copied (buf : lexbuf) : Prop :=
  length (string buf) = 1024%nat ∧ terminated (string buf).

(** [buf] after [css_lex_next] has been called [n] times; the read pointer
    stays where it is once it has reached the end of the array. *)
Fixpoint skip (n : nat) (buf : lexbuf) : lexbuf :=
  match n with
  | O => buf
  | S n' =>
      match s buf with
      | [] => buf
      | b :: rest => skip n' (advance b rest buf)
      end
  end.

Definition white (source : list Z) : Prop := Forall (λ b, iswhite b = true) source.

(** The types of a value without arguments: the tokens with a text, [url()],
    and the two separators, whose data is their character. *)
Definition plain_value (ty : token) (d : list Z) : bool :=
  match ty with
  | CSS_KEYWORD | CSS_NUMBER | CSS_LENGTH | CSS_PERCENT | CSS_STRING | CSS_COLOR
  | CSS_URI => true
  | Chr ch =>
      ((ch =? chr ",") && bool_decide (d = bytes ",")) ||
      ((ch =? chr "/") && bool_decide (d = bytes "/"))
  | EOF => false
  end.

(** A value is plain and has no arguments, or it is a function: its type is
    ['('], its data the name, and its arguments are values. *)
Fixpoint wf_value (v : fz_css_value) : bool :=
  match v with
  | Value ty d args =>
      if decide (ty = Chr (chr "(")) then forallb wf_value args
      else plain_value ty d && bool_decide (args = [])
  end.

(** [spec] is 0: [!important] is read and dropped. *)
Definition wf_property (p : fz_css_property) : bool :=
  (spec p =? 0) && forallb wf_value (value p).

(** The conditions: a pseudo-class and a class with their fixed keys, and the
    four forms of an attribute test.  The type ['#'] is not among them. *)
Definition wf_condition (cnd : fz_css_condition) : bool :=
  let t := cond_type cnd in
  if t =? chr ":" then
    bool_decide (key cnd = Some (bytes "pseudo")) && bool_decide (is_Some (val cnd))
  else if t =? chr "." then
    bool_decide (key cnd = Some (bytes "class")) && bool_decide (is_Some (val cnd))
  else if t =? chr "[" then
    bool_decide (is_Some (key cnd)) && bool_decide (val cnd = None)
  else if (t =? chr "=") || (t =? chr "|") || (t =? chr "~") then
    bool_decide (is_Some (key cnd)) && bool_decide (is_Some (val cnd))
  else false.

(** How loosely a combinator binds: a simple selector, then [+], [>] and the
    blank of a descendant. *)
Definition rank_of (comb : Z) : Z :=
  if comb =? 0 then 0 else if comb =? chr "+" then 1
  else if comb =? chr ">" then 2 else 3.

Definition rank (sel : fz_css_selector) : Z :=
  match sel with Selector _ comb _ _ _ => rank_of comb end.

(** A selector is a leaf, with conditions and without children, or the node
    of a combinator: no name, no conditions, both children, the left one
    binding tighter than the node and the right one at least as tightly. *)
Fixpoint wf_selector (sel : fz_css_selector) : bool :=
  match sel with
  | Selector nm comb cs l r =>
      if comb =? 0 then
        forallb wf_condition cs && bool_decide (l = None) && bool_decide (r = None)
      else
        match l, r with
        | Some a, Some b =>
            bool_decide (nm = None) && bool_decide (cs = []) &&
            ((comb =? chr "+") || (comb =? chr ">") || (comb =? chr " ")) &&
            (rank a <? rank_of comb) && (rank b <=? rank_of comb) &&
            wf_selector a && wf_selector b
        | _, _ => false
        end
  end.

(** A rule has a selector, and no garbage. *)
Definition wf_rule (r : fz_css_rule) : bool :=
  negb (bool_decide (selector r = [])) && forallb wf_selector (selector r) &&
  forallb wf_property (declaration r) && bool_decide (garbage r = []).

(** No failure is excluded: the statements are about what is returned. *)
Definition any (f : failure) : Prop := True.

(** The lookahead is no lone [#]: the lexer takes every [#] for a colour. *)
Definition nohash (buf : lexbuf) : Prop := lookahead buf ≠ Chr (chr "#").

(** [m] returns values in [R], and keeps the lookahead away from [#]. *)
Definition shaped {A} (R : A → Prop) (m : M A) : Prop :=
  ∀ buf, nohash buf → post any m buf (λ a b', R a ∧ nohash b').

Definition never (f : failure) : Prop := False.

(** The bytes [l] are left to read, the first of them in [buf->c]; the bytes
    [pre] are accumulated in the array of 1024 cells. *)
Definition reading (l pre : list Z) (buf : lexbuf) : Prop :=
  stream buf = l ∧ ∃ old, holds pre old buf ∧ (length pre + length old = 1024)%nat.

(** What a string is made of, between its quotes: a byte that stands for
    itself; a backslash in front of a byte that stands for itself; the escapes
    [\n], [\r] and [\f]; and a backslash in front of a form feed, a line
    feed, a carriage return or the two of a line end, which stands for
    nothing. *)
Inductive piece : Type :=
  | Byte (x : Z)
  | Esc (x : Z)
  | EscN
  | EscR
  | EscF
  | ContFF
  | ContLF
  | ContCR
  | ContCRLF.

(** The bytes of a piece in the source ... *)
Definition raw (p : piece) : list Z :=
  match p with
  | Byte x => [x]
  | Esc x => [chr "\"; x]
  | EscN => [chr "\"; chr "n"]
  | EscR => [chr "\"; chr "r"]
  | EscF => [chr "\"; chr "f"]
  | ContFF => [chr "\"; 12]
  | ContLF => [chr "\"; 10]
  | ContCR => [chr "\"; 13]
  | ContCRLF => [chr "\"; 13; 10]
  end.

(** ... and in the text of the token. *)
Definition cooked (p : piece) : list Z :=
  match p with
  | Byte x | Esc x => [x]
  | EscN => [10]
  | EscR => [13]
  | EscF => [12]
  | ContFF | ContLF | ContCR | ContCRLF => []
  end.

Fixpoint raws (ps : list piece) : list Z :=
  match ps with
  | [] => []
  | p :: ps' => raw p ++ raws ps'
  end.

Fixpoint cookeds (ps : list piece) : list Z :=
  match ps with
  | [] => []
  | p :: ps' => cooked p ++ cookeds ps'
  end.

(** The pieces are told apart by their first bytes: a byte that stands for
    itself is neither NUL, nor the backslash, nor the quote [q]; an escaped
    byte is neither NUL nor one of the six bytes with a meaning behind a
    backslash; and the byte [nx] behind a backslash and a lone carriage
    return is no line feed. *)
Definition piece_ok (q : Z) (p : piece) (nx : Z) : bool :=
  match p with
  | Byte x => negb (x =? 0) && negb (x =? chr "\") && negb (x =? q)
  | Esc x =>
      negb (x =? 0) && negb (x =? chr "n") && negb (x =? chr "r") &&
      negb (x =? chr "f") && negb (x =? 12) && negb (x =? 10) && negb (x =? 13)
  | ContCR => negb (nx =? 10)
  | EscN | EscR | EscF | ContFF | ContLF | ContCRLF => true
  end.

Fixpoint pieces_ok (q : Z) (ps : list piece) : bool :=
  match ps with
  | [] => true
  | p :: ps' => piece_ok q p (hd q (raws ps')) && pieces_ok q ps'
  end.

(** The body of the loop of [css_lex_string]. *)
Definition string_body : M unit :=
  bs ← css_lex_accept (chr "\");
  if bs : bool then
    b ← css_lex_accept (chr "n");
    if b : bool then css_push_char 10 else
    b ← css_lex_accept (chr "r");
    if b : bool then css_push_char 13 else
    b ← css_lex_accept (chr "f");
    if b : bool then css_push_char 12 else
    b ← css_lex_accept 12;
    if b : bool then mret tt else
    b ← css_lex_accept 10;
    if b : bool then mret tt else
    b ← css_lex_accept 13;
    if b : bool then css_lex_accept 10 ;; mret tt
    else css_push_c ;; css_lex_next
  else css_push_c ;; css_lex_next.

(** What follows the digits of a number: nothing, a percent sign, or a unit,
    which is a name. *)
Inductive suffix : Type :=
  | Plain
  | Percent
  | Unit (u0 : Z) (u : list Z).

Definition suffix_text (suf : suffix) : list Z :=
  match suf with
  | Plain => []
  | Percent => [chr "%"]
  | Unit u0 u => u0 :: u
  end.

Definition fraction_text (frac : option (list Z)) : list Z :=
  match frac with
  | None => []
  | Some f => chr "." :: f
  end.

(** The text of a number: digits, then possibly a point and digits, then
    the suffix. *)
Definition number_text (int : list Z) (frac : option (list Z)) (suf : suffix)
    : list Z :=
  int ++ fraction_text frac ++ suffix_text suf.

Definition number_token (suf : suffix) : token :=
  match suf with
  | Plain => CSS_NUMBER
  | Percent => CSS_PERCENT
  | Unit _ _ => CSS_LENGTH
  end.

(** The parts are made of the right bytes, and the byte [x] behind the number
    does not continue it. *)
Definition number_ok (int : list Z) (frac : option (list Z)) (suf : suffix) (x : Z)
    : bool :=
  forallb isdigit int &&
  match frac with None => true | Some f => forallb isdigit f end &&
  match suf with
  | Plain =>
      negb (isdigit x) && negb (x =? chr "%") && negb (isnmstart x) &&
      match frac with None => negb (x =? chr ".") | Some _ => true end
  | Percent => true
  | Unit u0 u => isnmstart u0 && forallb isnmchar u && negb (isnmchar x)
  end.

(** What may stand in front of the first digit: nothing, a sign, or a
    point.  A minus sign and a point are part of the text; a plus sign is
    not. *)
Inductive lead : Type :=
  | Bare
  | Minus
  | Plus
  | Point.

Definition lead_raw (ld : lead) : list Z :=
  match ld with
  | Bare => []
  | Minus => [chr "-"]
  | Plus => [chr "+"]
  | Point => [chr "."]
  end.

Definition lead_text (ld : lead) : list Z :=
  match ld with
  | Bare | Plus => []
  | Minus => [chr "-"]
  | Point => [chr "."]
  end.

(** No star in [l] is followed by a slash. *)
Fixpoint no_end (l : list Z) : bool :=
  match l with
  | [] => true
  | a :: l' =>
      match l' with
      | b :: _ => negb ((a =? chr "*") && (b =? chr "/"))
      | [] => true
      end && no_end l'
  end.

Definition star (b : Z) : bool := b =? chr "*".

(** Where the next rule may be linked: at the local variable, at a new rule,
    or at an old rule without a successor. *)
Definition linkable (h0 : heap) (nextp : rule_ref) : Prop :=
  match nextp with
  | LocalTail => True
  | NextOf a => (length h0 ≤ a)%nat ∨ ∃ r, h0 !! a = Some r ∧ rule_next r = None
  end.

(** The line that [line] reaches when the rest of the source has been read:
    reading a byte does not change it. *)
Definition last_line (buf : lexbuf) : Z := line buf + newlines (s buf).

(** [below r1 r2]: [r1] has run out of fuel, or it is [r2]. *)
Definition below {A} (r1 r2 : outcome A) : Prop := r1 = OutOfFuel ∨ r1 = r2.

(** [grows m1 m2]: where [m1] does not run out of fuel, [m2] does what [m1]
    does. *)
Definition grows {A} (m1 m2 : M A) : Prop := ∀ buf, below (m1 buf) (m2 buf).

(** The state [buf] with the bytes [r] behind the read pointer. *)
Definition set_s (r : list Z) (buf : lexbuf) : lexbuf :=
  {| s := r; line := line buf; lookahead := lookahead buf; c := c buf;
     color := color buf; string_len := string_len buf; string := string buf |}.

(** [reads m buf]: when [m] returns or throws from [buf], it has read some
    bytes [read] from behind the pointer and counted their line feeds; it
    does the same with any bytes [r] in the place of the ones that it has left
    unread; and it has read every byte of [read], so that it reads past the
    end of a memory that ends inside [read]. *)
Definition reads {A} (m : M A) (buf : lexbuf) : Prop :=
  match m buf with
  | Ok (a, buf') =>
      ∃ read, s buf = read ++ s buf' ∧ line buf' = line buf + newlines read ∧
        (∀ r, m (set_s (read ++ r) buf) = Ok (a, set_s r buf')) ∧
        (∀ p r, read = p ++ r → r ≠ [] → m (set_s p buf) = Undefined OverRead)
  | Throw msg ln =>
      ∃ read rest, s buf = read ++ rest ∧ ln = line buf + newlines read ∧
        (∀ r, m (set_s (read ++ r) buf) = Throw msg ln) ∧
        (∀ p r, read = p ++ r → r ≠ [] → m (set_s p buf) = Undefined OverRead)
  | _ => True
  end.

Definition local {A} (m : M A) : Prop := ∀ buf, reads m buf.

(** A function of the state that does not look behind the read pointer. *)
Definition stream_free {A} (f : lexbuf → A) : Prop := ∀ r buf, f (set_s r buf) = f buf.

(** An update of the state that does not touch the read pointer or the
    line. *)
Definition stream_kept (f : lexbuf → lexbuf) : Prop :=
  ∀ buf, s (f buf) = s buf ∧ line (f buf) = line buf ∧
         ∀ r, f (set_s r buf) = set_s r (f buf).

(** The specification's description of what follows a declaration, on the
    states of the parser: a [;] and a declaration, any number of times, where
    a [;] in front of [}], of another [;] or of the end of the input stands
    for itself alone.  The first token that is not a [;] ends the list and
    stays in the lookahead. *)
Inductive declarations_rest (n : nat)
    : lexbuf → list fz_css_property → lexbuf → Prop :=
  | rest_end buf :
      lookahead buf ≠ Chr (chr ";") → declarations_rest n buf [] buf
  | rest_empty buf b1 ps buf' :
      lookahead buf = Chr (chr ";") → next buf = Ok (tt, b1) →
      lookahead b1 = Chr (chr "}") ∨ lookahead b1 = Chr (chr ";") ∨
        lookahead b1 = EOF →
      declarations_rest n b1 ps buf' → declarations_rest n buf ps buf'
  | rest_declaration buf b1 p b2 ps buf' :
      lookahead buf = Chr (chr ";") → next buf = Ok (tt, b1) →
      parse_declaration n b1 = Ok (p, b2) →
      declarations_rest n b2 ps buf' → declarations_rest n buf (p :: ps) buf'.

(** The specification's description of the whole list: nothing in front of
    [}] or of the end of the input, a declaration and what follows it
    otherwise. *)
Inductive declarations (n : nat)
    : lexbuf → list fz_css_property → lexbuf → Prop :=
  | declarations_none buf :
      lookahead buf = Chr (chr "}") ∨ lookahead buf = EOF →
      declarations n buf [] buf
  | declarations_some buf p b1 ps buf' :
      parse_declaration n buf = Ok (p, b1) → declarations_rest n b1 ps buf' →
      declarations n buf (p :: ps) buf'.

(** * Reasoning about runs of the parser monad *)

Section monad_steps.
Context {A B : Type}.
Implicit Types (m : M A) (k : A → M B) (buf : lexbuf).

Lemma bind_Ok m k buf a buf' :
  m buf = Ok (a, buf') → (m ≫= k) buf = k a buf'.
Proof. intros E. unfold mbind, M_bind. by rewrite E. Qed.

Lemma bind_Throw m k buf msg ln :
  m buf = Throw msg ln → (m ≫= k) buf = Throw msg ln.
Proof. intros E. unfold mbind, M_bind. by rewrite E. Qed.

Lemma bind_Undefined m k buf u :
  m buf = Undefined u → (m ≫= k) buf = Undefined u.
Proof. intros E. unfold mbind, M_bind. by rewrite E. Qed.

Lemma bind_OutOfFuel m k buf :
  m buf = OutOfFuel → (m ≫= k) buf = OutOfFuel.
Proof. intros E. unfold mbind, M_bind. by rewrite E. Qed.

Lemma bind_inv m k buf r :
  (m ≫= k) buf = Ok r → ∃ a buf', m buf = Ok (a, buf') ∧ k a buf' = Ok r.
Proof.
  unfold mbind, M_bind. destruct (m buf) as [[a buf']| | |]; try discriminate.
  eauto.
Qed.

Lemma bind_ret (a : A) k buf : (mret a ≫= k) buf = k a buf.
Proof. reflexivity. Qed.

Lemma bind_gets (f : lexbuf → A) k buf : (gets f ≫= k) buf = k (f buf) buf.
Proof. reflexivity. Qed.
End monad_steps.

Lemma bind_modify {B} (f : lexbuf → lexbuf) (k : unit → M B) buf :
  (modify f ≫= k) buf = k tt (f buf).
Proof. reflexivity. Qed.

Lemma bind_assoc {A B C} (m : M A) (k1 : A → M B) (k2 : B → M C) buf :
  ((m ≫= k1) ≫= k2) buf = (m ≫= λ a, k1 a ≫= k2) buf.
Proof.
  unfold mbind, M_bind. destruct (m buf) as [[a buf']| | |]; reflexivity.
Qed.

Lemma if_apply {A} (b : bool) (m1 m2 : M A) buf :
  (if b then m1 else m2) buf = if b then m1 buf else m2 buf.
Proof. by destruct b. Qed.

Lemma css_lex_next_cons buf b rest :
  s buf = b :: rest → css_lex_next buf = Ok (tt, advance b rest buf).
Proof. unfold css_lex_next. by intros ->. Qed.

Lemma css_lex_next_nil buf :
  s buf = [] → css_lex_next buf = Undefined OverRead.
Proof. unfold css_lex_next. by intros ->. Qed.

Lemma css_lex_accept_miss t buf :
  c buf ≠ t → css_lex_accept t buf = Ok (false, buf).
Proof.
  intros Hne. unfold css_lex_accept. rewrite bind_gets.
  destruct (Z.eqb_spec (c buf) t); [done|reflexivity].
Qed.

Lemma css_lex_accept_hit t buf b rest :
  c buf = t → s buf = b :: rest →
  css_lex_accept t buf = Ok (true, advance b rest buf).
Proof.
  intros Hc Hs. unfold css_lex_accept. rewrite bind_gets, Hc, Z.eqb_refl.
  by rewrite (bind_Ok _ _ _ _ _ (css_lex_next_cons _ _ _ Hs)).
Qed.

Ltac b2p :=
  unfold isnmstart, isnmchar, isdigit, iswhite, chr in *; simpl in *;
  rewrite ?orb_true_iff, ?andb_true_iff, ?orb_false_iff, ?andb_false_iff,
    ?negb_true_iff, ?negb_false_iff, ?Z.eqb_eq, ?Z.eqb_neq, ?Z.leb_le, ?Z.leb_gt in *.

Ltac char_lia :=
  lazymatch goal with
  | |- false = _ => symmetry
  | |- true = _ => symmetry
  | _ => idtac
  end; b2p; lia.

(** Case analysis on the outcome of the first step of a run. *)
Ltac bind_cases m buf a b H :=
  destruct (m buf) as [[a b]| | |] eqn:H;
  [ rewrite ?(bind_Ok _ _ _ _ _ H)
  | rewrite ?(bind_Throw _ _ _ _ _ H)
  | rewrite ?(bind_Undefined _ _ _ _ H)
  | rewrite ?(bind_OutOfFuel _ _ _ H) ].

Lemma css_lex_accept_hex_hit buf v b rest :
  ishex (c buf) = Some v → s buf = b :: rest →
  css_lex_accept_hex buf = Ok (Some v, advance b rest buf).
Proof.
  intros Hh Hs. unfold css_lex_accept_hex. rewrite bind_gets, Hh.
  by rewrite (bind_Ok _ _ _ _ _ (css_lex_next_cons _ _ _ Hs)).
Qed.

Lemma css_lex_accept_hex_miss buf :
  ishex (c buf) = None → css_lex_accept_hex buf = Ok (None, buf).
Proof. intros Hh. unfold css_lex_accept_hex. by rewrite bind_gets, Hh. Qed.

Lemma while_false cond body buf :
  cond buf = false → while cond body buf = Ok (tt, buf).
Proof. unfold while. simpl. by intros ->. Qed.

Lemma while__false n cond body buf :
  cond buf = false → while_ n cond body buf = Ok (tt, buf).
Proof. destruct n; simpl; by intros ->. Qed.

Lemma while__true n cond body buf :
  cond buf = true → while_ (S n) cond body buf = (body ;; while_ n cond body) buf.
Proof. simpl. by intros ->. Qed.

Lemma css_push_char_Ok ch buf :
  string_len buf + 1 < nelem_string →
  css_push_char ch buf = Ok (tt, pushed ch buf).
Proof.
  intros Hl. unfold css_push_char. rewrite bind_gets.
  destruct (Z.geb_spec (string_len buf + 1) nelem_string); [lia|reflexivity].
Qed.

Lemma css_push_char_Throw ch buf :
  nelem_string ≤ string_len buf + 1 →
  css_push_char ch buf = Throw "token too long" (line buf).
Proof.
  intros Hl. unfold css_push_char. rewrite bind_gets.
  destruct (Z.geb_spec (string_len buf + 1) nelem_string); [reflexivity|lia].
Qed.

Lemma holds_pushed pre o old ch buf :
  holds pre (o :: old) buf → holds (pre ++ [ch]) old (pushed ch buf).
Proof.
  intros [Hs Hl]. split; simpl.
  - rewrite Hs, Hl, Nat2Z.id.
    rewrite insert_app_r_alt by (rewrite length_fmap; lia).
    rewrite length_fmap, Nat.sub_diag. simpl.
    by rewrite fmap_app, <- app_assoc.
  - rewrite Hl, length_app. simpl. lia.
Qed.

Lemma cstring_holds pre old :
  Forall (λ b, b ≠ 0) pre → cstring ((Some <$> (pre ++ [0])) ++ old) = Some pre.
Proof.
  induction 1 as [|b pre Hb _ IH]; [done|].
  cbn [fmap list_fmap app cstring] in *.
  destruct (Z.eqb_spec b 0); [done|]. by rewrite IH.
Qed.

Lemma stream_advance b rest buf :
  s buf = b :: rest → stream (advance b rest buf) = s buf.
Proof. by intros ->. Qed.

Lemma stream_length buf w x rest :
  stream buf = w ++ x :: rest → length (s buf) = (length w + length rest)%nat.
Proof.
  intros H. apply (f_equal length) in H. unfold stream in H.
  rewrite length_app in H. simpl in H. lia.
Qed.

(** A loop that pushes the bytes of a class and reads on: the loops over
    [isnmchar] and over the digits.  It stores the bytes of [w] or stops at the
    first one that does not fit. *)
Lemma push_loop_run (cls : Z → bool) w : ∀ n pre old buf x rest,
  Forall (λ b, cls b = true) w → cls x = false →
  stream buf = w ++ x :: rest →
  holds pre old buf → (length pre < 1024)%nat →
  (1024 ≤ length pre + length old)%nat → (length w < n)%nat →
  if decide (length pre + length w < 1024)%nat then
    ∃ buf', while_ n (λ buf, cls (c buf)) (css_push_c ;; css_lex_next) buf
              = Ok (tt, buf') ∧
      stream buf' = x :: rest ∧
      holds (pre ++ w) (drop (length w) old) buf' ∧
      lookahead buf' = lookahead buf ∧ color buf' = color buf
  else ∃ ln, while_ n (λ buf, cls (c buf)) (css_push_c ;; css_lex_next) buf
               = Throw "token too long" ln.
Proof.
  induction w as [|a w IH]; intros n pre old buf x rest Hw Hx Hst Hh Hpre Hold Hn.
  - injection Hst as Hc Hs.
    rewrite while__false by (by rewrite Hc).
    rewrite decide_True by (simpl; lia).
    eexists; split; [reflexivity|].
    split; [by unfold stream; rewrite Hc, Hs|].
    by rewrite app_nil_r, drop_0.
  - injection Hst as Hc Hs. apply Forall_cons in Hw as [Ha Hw].
    destruct n as [|n]; [simpl in Hn; lia|].
    rewrite while__true by (by rewrite Hc).
    assert (Hl := proj2 Hh).
    rewrite bind_assoc.
    destruct (decide (length pre + 1 < 1024)%nat) as [Hp|Hp].
    + destruct old as [|o old]; [simpl in Hold; lia|].
      erewrite bind_Ok by (apply css_push_char_Ok; unfold nelem_string; lia).
      destruct (w ++ x :: rest) as [|b r] eqn:Hwr; [by destruct w|].
      erewrite bind_Ok by (by apply css_lex_next_cons).
      specialize (IH n (pre ++ [c buf]) old (advance b r (pushed (c buf) buf)) x rest
                    Hw Hx).
      rewrite length_app in IH. simpl in IH, Hold, Hn |- *.
      rewrite Hc in *.
      replace (length pre + S (length w))%nat with (length pre + 1 + length w)%nat by lia.
      rewrite <- (assoc_L (++)) in IH. simpl in IH.
      apply IH; [by rewrite Hwr| |lia|lia|lia].
      by eapply (holds_pushed _ _ _ _ _ Hh).
    + rewrite decide_False by (simpl; lia).
      erewrite bind_Throw; [by eexists|].
      rewrite <- Hc. apply css_push_char_Throw. unfold nelem_string. lia.
Qed.

Lemma holds_length pre old buf :
  holds pre old buf → length (string buf) = (length pre + length old)%nat.
Proof. intros [-> _]. by rewrite length_app, length_fmap. Qed.

(** [css_lex_keyword] after the bytes [pre] of the token have been pushed. *)
Lemma css_lex_keyword_run pre w x rest old buf :
  Forall (λ b, isnmchar b = true) w → isnmchar x = false →
  stream buf = w ++ x :: rest →
  holds pre old buf → (length pre < 1024)%nat →
  (1024 ≤ length pre + length old)%nat → Forall (λ b, b ≠ 0) pre →
  if decide (length pre + length w ≤ 1022)%nat then
    ∃ buf', css_lex_keyword buf = Ok (CSS_KEYWORD, buf') ∧
      cstring (string buf') = Some (pre ++ w) ∧ stream buf' = x :: rest ∧
      length (string buf') = length (string buf)
  else ∃ ln, css_lex_keyword buf = Throw "token too long" ln.
Proof.
  intros Hw Hx Hst Hh Hpre Hold Hnz.
  unfold css_lex_keyword, while.
  pose proof (push_loop_run isnmchar w (S (length (s buf))) pre old buf x rest
                Hw Hx Hst Hh Hpre Hold) as Hloop.
  specialize (Hloop ltac:(rewrite (stream_length _ _ _ _ Hst); lia)).
  destruct (decide (length pre + length w < 1024)%nat) as [Hlt|Hge].
  - destruct Hloop as (buf1 & Hrun & Hst1 & Hh1 & _).
    erewrite bind_Ok by exact Hrun.
    destruct (decide (length pre + length w ≤ 1022)%nat) as [Hfit|Hfull].
    + assert (Hl1 := proj2 Hh1). rewrite length_app in Hl1.
      erewrite bind_Ok by (apply css_push_char_Ok; unfold nelem_string; lia).
      eexists; split; [reflexivity|].
      destruct (drop (length w) old) as [|o old'] eqn:Hd.
      { apply (f_equal length) in Hd. rewrite length_drop in Hd. simpl in Hd. lia. }
      pose proof (holds_pushed _ _ _ 0 _ Hh1) as Hh2.
      split; [|split; [done|]].
      * destruct Hh2 as [-> _]. rewrite <- (assoc_L (++)).
        rewrite (assoc_L (++) pre w [0]). apply cstring_holds.
        apply Forall_app; split; [done|].
        eapply Forall_impl; [exact Hw|]. intros b Hb ->. discriminate.
      * rewrite (holds_length _ _ _ Hh2), (holds_length _ _ _ Hh).
        rewrite !length_app. simpl.
        apply (f_equal length) in Hd. rewrite length_drop in Hd. simpl in Hd. lia.
    + assert (Hl1 := proj2 Hh1). rewrite length_app in Hl1.
      erewrite bind_Throw; [by eexists|].
      apply css_push_char_Throw. unfold nelem_string. lia.
  - rewrite decide_False by lia.
    destruct Hloop as [ln Hrun]. erewrite bind_Throw by exact Hrun. by eexists.
Qed.

Ltac proj :=
  cbn [c s line lookahead color string_len string set_string_len set_string
       set_color set_lookahead advance pushed].

Ltac miss :=
  erewrite (bind_Ok (css_lex_accept _)) by (apply css_lex_accept_miss; simpl; char_lia);
  cbv beta iota.

Ltac hit :=
  erewrite (bind_Ok (css_lex_accept _))
    by (eapply css_lex_accept_hit; [simpl; reflexivity|simpl; reflexivity]);
  cbv beta iota.

(** Entering [css_lex] on a byte that is neither NUL nor white space. *)
Lemma css_lex_enter buf :
  c buf ≠ 0 → iswhite (c buf) = false →
  css_lex buf =
    (css_lex_restart (S (length (s buf)))) (set_string_len 0 buf).
Proof.
  intros H0 Hw. unfold css_lex.
  rewrite bind_modify, bind_gets.
  replace (c (set_string_len 0 buf) =? 0) with false by (simpl; char_lia).
  by rewrite bind_gets.
Qed.

Ltac enter :=
  rewrite css_lex_enter by (simpl; char_lia);
  cbn [css_lex_restart];
  erewrite bind_Ok by (apply while_false; simpl; char_lia);
  rewrite bind_gets;
  match goal with
  | |- context [c ?b =? 0] => replace (c b =? 0) with false by (simpl; char_lia)
  end.

Lemma css_lex_nmstart buf :
  isnmstart (c buf) = true → c buf ≠ chr "u" →
  css_lex buf = (css_push_c ;; css_lex_next ;; css_lex_keyword) (set_string_len 0 buf).
Proof.
  intros Hx Hu. unfold css_lex.
  rewrite bind_modify, bind_gets.
  replace (c (set_string_len 0 buf) =? 0) with false by (simpl; char_lia).
  rewrite bind_gets.
  cbn [css_lex_restart].
  erewrite bind_Ok by (apply while_false; simpl; char_lia).
  rewrite bind_gets.
  replace (c (set_string_len 0 buf) =? 0) with false by (simpl; char_lia).
  repeat miss.
  rewrite bind_gets.
  replace (isdigit (c (set_string_len 0 buf))) with false by (simpl; char_lia).
  miss.
  rewrite bind_gets. proj. rewrite Hx.
  reflexivity.
Qed.

Lemma css_lex_u buf y t :
  c buf = chr "u" → s buf = y :: t → y ≠ chr "r" →
  css_lex buf =
    (css_push_char (chr "u") ;; css_lex_keyword) (advance y t (set_string_len 0 buf)).
Proof.
  intros Hc Hs Hy. enter.
  repeat miss.
  rewrite bind_gets.
  replace (isdigit (c (set_string_len 0 buf))) with false by (simpl; char_lia).
  erewrite (bind_Ok (css_lex_accept _)) by (by eapply css_lex_accept_hit).
  cbv beta iota.
  miss. reflexivity.
Qed.

Lemma css_lex_ur buf y t :
  c buf = chr "u" → s buf = chr "r" :: y :: t → y ≠ chr "l" →
  css_lex buf =
    (css_push_char (chr "u") ;; css_push_char (chr "r") ;; css_lex_keyword)
      (advance y t (advance (chr "r") (y :: t) (set_string_len 0 buf))).
Proof.
  intros Hc Hs Hy. enter.
  repeat miss.
  rewrite bind_gets.
  replace (isdigit (c (set_string_len 0 buf))) with false by (simpl; char_lia).
  erewrite (bind_Ok (css_lex_accept _)) by (by eapply css_lex_accept_hit).
  cbv beta iota.
  hit. miss. reflexivity.
Qed.

Lemma css_lex_url buf y t :
  c buf = chr "u" → s buf = chr "r" :: chr "l" :: y :: t → y ≠ chr "(" →
  css_lex buf =
    (css_push_char (chr "u") ;; css_push_char (chr "r") ;;
     css_push_char (chr "l") ;; css_lex_keyword)
      (advance y t (advance (chr "l") (y :: t)
         (advance (chr "r") (chr "l" :: y :: t) (set_string_len 0 buf)))).
Proof.
  intros Hc Hs Hy. enter.
  repeat miss.
  rewrite bind_gets.
  replace (isdigit (c (set_string_len 0 buf))) with false by (simpl; char_lia).
  erewrite (bind_Ok (css_lex_accept _)) by (by eapply css_lex_accept_hit).
  cbv beta iota.
  hit. hit. miss. reflexivity.
Qed.

(** [url(] must be followed by [)] at once. *)
Lemma css_lex_url_paren buf y t :
  c buf = chr "u" → s buf = chr "r" :: chr "l" :: chr "(" :: y :: t →
  css_lex buf =
    (css_lex_expect (chr ")") ;; mret CSS_URI)
      (advance y t (advance (chr "(") (y :: t)
         (advance (chr "l") (chr "(" :: y :: t)
            (advance (chr "r") (chr "l" :: chr "(" :: y :: t)
               (set_string_len 0 buf))))).
Proof.
  intros Hc Hs. enter.
  repeat miss.
  rewrite bind_gets.
  replace (isdigit (c (set_string_len 0 buf))) with false by (simpl; char_lia).
  erewrite (bind_Ok (css_lex_accept _)) by (by eapply css_lex_accept_hit).
  cbv beta iota.
  hit. hit. hit. reflexivity.
Qed.

Lemma css_lex_minus buf y t :
  c buf = chr "-" → s buf = y :: t → isnmstart y = true →
  css_lex buf =
    (css_push_char (chr "-") ;; css_push_c ;; css_lex_next ;; css_lex_keyword)
      (advance y t (set_string_len 0 buf)).
Proof.
  intros Hc Hs Hy. enter.
  repeat miss.
  erewrite (bind_Ok (css_lex_accept _)) by (by eapply css_lex_accept_hit).
  cbv beta iota.
  erewrite (bind_Ok (css_lex_accept _)) by (apply css_lex_accept_miss; simpl; char_lia).
  cbv beta iota.
  rewrite bind_gets. proj.
  replace (isdigit y) with false by char_lia.
  by rewrite Hy.
Qed.

Lemma bind_push {B} pre o old ch buf (k : unit → M B) :
  holds pre (o :: old) buf → (length pre + 1 < 1024)%nat →
  (css_push_char ch ≫= k) buf = k tt (pushed ch buf).
Proof.
  intros [_ Hl] Hlt. apply bind_Ok, css_push_char_Ok. unfold nelem_string. lia.
Qed.

Lemma holds_advance pre old b r buf :
  holds pre old buf → holds pre old (advance b r buf).
Proof. done. Qed.

Lemma holds_reset buf : holds [] (string buf) (set_string_len 0 buf).
Proof. done. Qed.

(** ** Keywords and the size of the scratch array *)

Lemma forallb_Forall (f : Z → bool) l :
  forallb f l = true → Forall (λ b, f b = true) l.
Proof. rewrite forallb_forall, Forall_forall. intros H x Hx. apply H. by apply list_elem_of_In. Qed.

Lemma array_cons (a : list (option Z)) :
  length a = 1024%nat → ∃ o old, a = o :: old ∧ length old = 1023%nat.
Proof. destruct a as [|o old]; simpl; [lia|]. intros ?. exists o, old. split; [done|lia]. Qed.

Lemma keyword_outcome_run pre w x rest old buf :
  Forall (λ b, isnmchar b = true) w → isnmchar x = false →
  stream buf = w ++ x :: rest →
  holds pre old buf → (length pre + length old = 1024)%nat →
  (0 < length old)%nat → Forall (λ b, b ≠ 0) pre →
  keyword_outcome (pre ++ w) x rest (css_lex_keyword buf).
Proof.
  intros Hw Hx Hst Hh Hlen Hold Hnz.
  pose proof (css_lex_keyword_run pre w x rest old buf Hw Hx Hst Hh
                ltac:(lia) ltac:(lia) Hnz) as Hrun.
  unfold keyword_outcome. rewrite length_app.
  destruct (decide (length pre + length w ≤ 1022)%nat); [|done].
  destruct Hrun as (buf' & ? & ? & ? & Hl). exists buf'.
  rewrite Hl, (holds_length _ _ _ Hh). done.
Qed.

Lemma nmchar_head w x rest y t :
  Forall (λ b, isnmchar b = true) w → isnmchar x = false →
  w ++ x :: rest = y :: t → isnmchar y = true →
  ∃ w', w = y :: w' ∧ t = w' ++ x :: rest.
Proof.
  intros Hw Hx Heq Hy. destruct w as [|a w'].
  - injection Heq as -> _. congruence.
  - injection Heq as -> <-. eauto.
Qed.

(** C3 (amended).  A keyword [w], in front of a byte [x] that cannot continue
    it, is lexed as [CSS_KEYWORD] with [w] in the scratch array when [w] has
    at most 1022 bytes, and makes the lexer throw "token too long" when it has
    more: [css_push_char] refuses a byte as soon as [string_len + 1 >= 1024],
    and the terminating NUL is pushed like every other byte.  ([url] in front
    of a parenthesis is not a keyword but the start of a URI.) *)
Theorem css_lex_keyword_limit buf w x rest :
  keyword_text w = true → isnmchar x = false →
  stream buf = w ++ x :: rest → length (string buf) = 1024%nat →
  ¬ (w = bytes "url" ∧ x = chr "(") →
  keyword_outcome w x rest (css_lex buf).
Proof.
  intros Hk Hx Hst Hlen Hnurl.
  destruct w as [|a w']; [discriminate|]. injection Hst as Hc Hs.
  destruct (array_cons _ Hlen) as (o & old & Ha & Hold).
  assert (Hh0 : ∀ b r, holds [] (o :: old) (advance b r (set_string_len 0 buf))).
  { intros. split; [simpl; by rewrite Ha|done]. }
  simpl in Hk. destruct (Z.eqb_spec a (chr "-")) as [->|Hm].
  - destruct w' as [|b w'']; [discriminate|].
    apply andb_prop in Hk as [Hb Hw]. apply forallb_Forall in Hw.
    rewrite (css_lex_minus buf b (w'' ++ x :: rest)) by done.
    erewrite bind_push by (apply Hh0 || simpl; lia).
    pose proof (holds_pushed _ _ _ (chr "-") _ (Hh0 b (w'' ++ x :: rest))) as Hh1.
    destruct old as [|o1 old]; [discriminate|].
    destruct old as [|o2 old]; [discriminate|].
    unfold css_push_c. rewrite bind_assoc, bind_gets.
    erewrite bind_push by (apply Hh1 || simpl; lia).
    pose proof (holds_pushed _ _ _ b _ Hh1) as Hh2.
    destruct (w'' ++ x :: rest) as [|y t] eqn:Hyt; [by destruct w''|].
    erewrite bind_Ok by (by apply css_lex_next_cons).
    apply (keyword_outcome_run [chr "-"; b] w'' x rest (o2 :: old)); try done.
    + simpl in *. lia.
    + simpl. lia.
    + repeat constructor; [done|]. intros ->. discriminate.
  - apply andb_prop in Hk as [Hstart Hw]. apply forallb_Forall in Hw.
    destruct (w' ++ x :: rest) as [|y t] eqn:Hyt; [by destruct w'|].
    destruct old as [|o1 old]; [discriminate|].
    destruct (decide (a = chr "u")) as [->|Hu].
    + destruct (decide (y = chr "r")) as [->|Hr].
      2:{ rewrite (css_lex_u buf y t) by done.
          erewrite bind_push by (apply Hh0 || simpl; lia).
          pose proof (holds_pushed _ _ _ (chr "u") _ (Hh0 y t)) as Hh1.
          apply (keyword_outcome_run [chr "u"] w' x rest (o1 :: old)); try done.
          - simpl in *. lia.
          - simpl. lia.
          - by repeat constructor. }
      destruct (nmchar_head _ _ _ _ _ Hw Hx Hyt eq_refl) as (w2 & -> & ->).
      apply Forall_cons in Hw as [_ Hw].
      destruct (w2 ++ x :: rest) as [|y2 t2] eqn:Hyt2; [by destruct w2|].
      destruct old as [|o2 old]; [discriminate|].
      destruct (decide (y2 = chr "l")) as [->|Hl].
      2:{ rewrite (css_lex_ur buf y2 t2) by done.
          erewrite bind_push by (apply Hh0 || simpl; lia).
          pose proof (holds_pushed _ _ _ (chr "u") _
                        (Hh0 y2 t2)) as Hh1.
          erewrite bind_push by (apply Hh1 || simpl; lia).
          pose proof (holds_pushed _ _ _ (chr "r") _ Hh1) as Hh2.
          apply (keyword_outcome_run [chr "u"; chr "r"] w2 x rest (o2 :: old));
            try done.
          - simpl in *. lia.
          - simpl. lia.
          - by repeat constructor. }
      destruct (nmchar_head _ _ _ _ _ Hw Hx Hyt2 eq_refl) as (w3 & -> & ->).
      apply Forall_cons in Hw as [_ Hw].
      destruct (w3 ++ x :: rest) as [|y3 t3] eqn:Hyt3; [by destruct w3|].
      destruct old as [|o3 old]; [discriminate|].
      destruct (decide (y3 = chr "(")) as [->|Hp].
      { exfalso. apply Hnurl. destruct w3 as [|b w3].
        - injection Hyt3 as -> _. done.
        - injection Hyt3 as -> _. apply Forall_cons in Hw as [Hb _]. discriminate. }
      rewrite (css_lex_url buf y3 t3) by done.
      erewrite bind_push by (apply Hh0 || simpl; lia).
      pose proof (holds_pushed _ _ _ (chr "u") _ (Hh0 y3 t3)) as Hh1.
      erewrite bind_push by (apply Hh1 || simpl; lia).
      pose proof (holds_pushed _ _ _ (chr "r") _ Hh1) as Hh2.
      erewrite bind_push by (apply Hh2 || simpl; lia).
      pose proof (holds_pushed _ _ _ (chr "l") _ Hh2) as Hh3.
      apply (keyword_outcome_run [chr "u"; chr "r"; chr "l"] w3 x rest (o3 :: old));
        try done.
      * simpl in *. lia.
      * simpl. lia.
      * by repeat constructor.
    + rewrite css_lex_nmstart by (by rewrite Hc).
      unfold css_push_c. rewrite bind_assoc, bind_gets. proj. rewrite Hc.
      assert (Hh0' : holds [] (o :: o1 :: old) (set_string_len 0 buf)).
      { split; [simpl; by rewrite Ha|done]. }
      erewrite bind_push by (apply Hh0' || simpl; lia).
      pose proof (holds_pushed _ _ _ a _ Hh0') as Hh1.
      erewrite bind_Ok by (by apply css_lex_next_cons).
      apply (keyword_outcome_run [a] w' x rest (o1 :: old)); try done.
      * simpl in *. lia.
      * simpl. lia.
      * repeat constructor. intros ->. discriminate.
Qed.

(** ** Colours *)

Lemma lor_add_small x y k :
  0 ≤ k → 0 ≤ y < 2 ^ k → x mod 2 ^ k = 0 → Z.lor x y = x + y.
Proof.
  intros Hk Hy Hx.
  rewrite <- Z.lxor_lor, <- Z.add_nocarry_lxor; try done.
  all: apply Z.bits_inj'; intros n Hn; rewrite Z.land_spec, Z.bits_0.
  all: destruct (Z.lt_ge_cases n k).
  all: try (rewrite <- (Z.mod_pow2_bits_low x k n), Hx, Z.bits_0 by lia; done).
  all: destruct (decide (y = 0)) as [->|]; [by rewrite Z.bits_0, andb_false_r|].
  all: rewrite (Z.bits_above_log2 y n), andb_false_r; try done; try lia.
  all: apply Z.lt_le_trans with k; [|done]; apply Z.log2_lt_pow2; lia.
Qed.

Lemma color6 a b c d e f :
  0 ≤ a < 16 → 0 ≤ b < 16 → 0 ≤ c < 16 → 0 ≤ d < 16 → 0 ≤ e < 16 → 0 ≤ f < 16 →
  Z.lor (Z.lor (Z.lor (Z.lor (Z.lor (Z.shiftl a 20) (Z.shiftl b 16))
           (Z.shiftl c 12)) (Z.shiftl d 8)) (Z.shiftl e 4)) f
  = a * 1048576 + b * 65536 + c * 4096 + d * 256 + e * 16 + f.
Proof.
  intros. rewrite !Z.shiftl_mul_pow2 by lia.
  change (2 ^ 20) with 1048576. change (2 ^ 16) with 65536.
  change (2 ^ 12) with 4096. change (2 ^ 8) with 256. change (2 ^ 4) with 16.
  rewrite (lor_add_small (a * 1048576) (b * 65536) 20)
    by (change (2 ^ 20) with 1048576; Z.div_mod_to_equations; lia).
  rewrite (lor_add_small _ (c * 4096) 16) by (change (2 ^ 16) with 65536; Z.div_mod_to_equations; lia).
  rewrite (lor_add_small _ (d * 256) 12) by (change (2 ^ 12) with 4096; Z.div_mod_to_equations; lia).
  rewrite (lor_add_small _ (e * 16) 8) by (change (2 ^ 8) with 256; Z.div_mod_to_equations; lia).
  rewrite (lor_add_small _ f 4) by (change (2 ^ 4) with 16; Z.div_mod_to_equations; lia).
  lia.
Qed.

Ltac zlia := Z.div_mod_to_equations; lia.

Lemma sprintf_06x_digits v :
  0 ≤ v < 16777216 →
  sprintf_06x v =
    [ hexdigit (v / 1048576 mod 16); hexdigit (v / 65536 mod 16);
      hexdigit (v / 4096 mod 16); hexdigit (v / 256 mod 16);
      hexdigit (v / 16 mod 16); hexdigit (v mod 16); 0 ].
Proof.
  intros Hv. unfold sprintf_06x, hex_digits.
  repeat match goal with
  | |- context [?x <? 16] => destruct (Z.ltb_spec x 16)
  end; try (exfalso; zlia); cbn [length replicate Nat.sub app].
  all: repeat match goal with
       | |- _ :: _ = _ :: _ => apply (f_equal2 cons)
       | |- hexdigit _ = hexdigit _ => apply (f_equal hexdigit); zlia
       | |- chr "0" = hexdigit ?y => replace y with 0 by zlia; reflexivity
       | |- _ => reflexivity
       end.
Qed.

Lemma color3 a b c :
  0 ≤ a < 16 → 0 ≤ b < 16 → 0 ≤ c < 16 →
  Z.lor (Z.lor (Z.shiftl a 20) (Z.shiftl b 12)) (Z.shiftl c 4)
  = a * 1048576 + b * 4096 + c * 16.
Proof.
  intros. rewrite !Z.shiftl_mul_pow2 by lia.
  change (2 ^ 20) with 1048576. change (2 ^ 12) with 4096. change (2 ^ 4) with 16.
  rewrite (lor_add_small (a * 1048576) (b * 4096) 20)
    by (change (2 ^ 20) with 1048576; Z.div_mod_to_equations; lia).
  rewrite (lor_add_small _ (c * 16) 12) by (change (2 ^ 12) with 4096; zlia).
  lia.
Qed.

Lemma nibble v i : 0 ≤ i → Z.land (Z.shiftr v (4 * i)) 15 = v / 2 ^ (4 * i) mod 16.
Proof.
  intros Hi. rewrite Z.shiftr_div_pow2 by lia.
  change 15 with (Z.ones 4). by rewrite Z.land_ones.
Qed.

Lemma sprintf_06x_hex6 v :
  0 ≤ v < 16777216 → sprintf_06x v = hex6 v ++ [0].
Proof.
  intros Hv. rewrite sprintf_06x_digits by done. unfold hex6. simpl fmap.
  rewrite !nibble by lia. simpl Z.mul.
  change (2 ^ 20) with 1048576. change (2 ^ 16) with 65536.
  change (2 ^ 12) with 4096. change (2 ^ 8) with 256. change (2 ^ 4) with 16.
  change (2 ^ 0) with 1. by rewrite Z.div_1_r.
Qed.

Lemma ishex_range x v : ishex x = Some v → 0 ≤ v < 16.
Proof.
  unfold ishex, chr. simpl.
  repeat match goal with
  | |- context [?x <=? ?y] => destruct (Z.leb_spec x y)
  end; simpl; intros [= <-]; lia.
Qed.

Lemma hexdigit_nonzero v : 0 ≤ v → hexdigit v ≠ 0.
Proof. unfold hexdigit, chr. simpl. destruct (Z.ltb_spec v 10); lia. Qed.

Lemma hexdigit_lower v : 0 ≤ v < 16 → islowerhex (hexdigit v) = true.
Proof.
  intros Hv. unfold islowerhex, hexdigit, chr. simpl.
  rewrite orb_true_iff, !andb_true_iff, !Z.leb_le.
  destruct (Z.ltb_spec v 10); lia.
Qed.

Lemma ishex_hexdigit v : 0 ≤ v < 16 → ishex (hexdigit v) = Some v.
Proof.
  intros Hv. unfold ishex, hexdigit, chr. simpl.
  destruct (Z.ltb_spec v 10);
  repeat match goal with
  | |- context [?x <=? ?y] => destruct (Z.leb_spec x y)
  end; simpl; try lia; f_equal; lia.
Qed.

Lemma css_lex_hash buf y t :
  c buf = chr "#" → s buf = y :: t →
  css_lex buf = css_lex_color (advance y t (set_string_len 0 buf)).
Proof.
  intros Hc Hs. enter.
  repeat miss.
  erewrite (bind_Ok (css_lex_accept _)) by (by eapply css_lex_accept_hit).
  reflexivity.
Qed.

Ltac hex_hit :=
  erewrite (bind_Ok css_lex_accept_hex)
    by (eapply css_lex_accept_hex_hit; [simpl; eassumption|simpl; reflexivity]);
  cbv beta iota.

Ltac hex_miss :=
  erewrite (bind_Ok css_lex_accept_hex)
    by (eapply css_lex_accept_hex_miss; simpl; eassumption);
  cbv beta iota.

Lemma cstring_written (l : list Z) (a : list (option Z)) :
  Forall (λ b, b ≠ 0) l → (length l < length a)%nat →
  cstring (write_at 0 (l ++ [0]) a) = Some l ∧
  length (write_at 0 (l ++ [0]) a) = length a.
Proof.
  intros Hnz Hlen.
  assert (Hw : ∀ (l : list Z) i (a : list (option Z)), (i + length l ≤ length a)%nat →
            write_at i l a = take i a ++ (Some <$> l) ++ drop (i + length l) a).
  { clear. induction l as [|b l IH]; intros i a Hl; simpl in *.
    - by rewrite Nat.add_0_r, take_drop.
    - rewrite IH by (rewrite length_insert; lia).
      rewrite (take_S_r _ _ (Some b)) by (apply list_lookup_insert_eq; lia).
      rewrite take_insert_ge by lia.
      rewrite drop_insert_lt by lia.
      rewrite <- (assoc_L (++)). simpl.
      repeat f_equal. lia. }
  rewrite Hw by (rewrite length_app; simpl; lia).
  rewrite take_0. simpl. split.
  - by apply cstring_holds.
  - rewrite length_app, length_fmap, length_drop, length_app. simpl. lia.
Qed.

Lemma hex6_rgb a b c :
  0 ≤ a < 16 → 0 ≤ b < 16 → 0 ≤ c < 16 →
  0 ≤ rgb a b c < 16777216 ∧
  hex6 (rgb a b c) =
    [hexdigit a; chr "0"; hexdigit b; chr "0"; hexdigit c; chr "0"].
Proof.
  intros Ha Hb Hc. unfold rgb. rewrite color3 by done. split; [lia|].
  unfold hex6. simpl fmap. rewrite !nibble by lia. simpl Z.mul.
  change (2 ^ 20) with 1048576. change (2 ^ 16) with 65536.
  change (2 ^ 12) with 4096. change (2 ^ 8) with 256. change (2 ^ 4) with 16.
  change (2 ^ 0) with 1.
  repeat match goal with
  | |- _ :: _ = _ :: _ => apply (f_equal2 cons)
  | |- hexdigit _ = hexdigit _ => apply (f_equal hexdigit); zlia
  | |- hexdigit ?y = chr "0" => replace y with 0 by zlia; reflexivity
  | |- _ => reflexivity
  end.
Qed.

Lemma hex6_rrggbb a b c d e f :
  0 ≤ a < 16 → 0 ≤ b < 16 → 0 ≤ c < 16 → 0 ≤ d < 16 → 0 ≤ e < 16 → 0 ≤ f < 16 →
  0 ≤ rrggbb a b c d e f < 16777216 ∧
  hex6 (rrggbb a b c d e f) =
    [hexdigit a; hexdigit b; hexdigit c; hexdigit d; hexdigit e; hexdigit f].
Proof.
  intros Ha Hb Hc Hd He Hf. unfold rrggbb. rewrite color6 by done. split; [lia|].
  unfold hex6. simpl fmap. rewrite !nibble by lia. simpl Z.mul.
  change (2 ^ 20) with 1048576. change (2 ^ 16) with 65536.
  change (2 ^ 12) with 4096. change (2 ^ 8) with 256. change (2 ^ 4) with 16.
  change (2 ^ 0) with 1.
  repeat match goal with
  | |- _ :: _ = _ :: _ => apply (f_equal2 cons)
  | |- hexdigit _ = hexdigit _ => apply (f_equal hexdigit); zlia
  | |- _ => reflexivity
  end.
Qed.

Lemma hex6_nonzero v : Forall (λ b, b ≠ 0) (hex6 v).
Proof.
  unfold hex6. simpl fmap.
  repeat constructor; apply hexdigit_nonzero; rewrite nibble by lia; zlia.
Qed.

Lemma color_written v buf :
  0 ≤ v < 16777216 → length (string buf) = 1024%nat →
  color_token v (stream buf)
    ((modify (λ buf, set_string (write_at 0 (sprintf_06x (color buf)) (string buf)) buf) ;;
      mret CSS_COLOR) (set_color v buf)).
Proof.
  intros Hv Hlen. rewrite bind_modify. eexists. split; [reflexivity|].
  proj. rewrite sprintf_06x_hex6 by done.
  destruct (cstring_written (hex6 v) (string buf) (hex6_nonzero v)) as [Hc Hl].
  { rewrite Hlen. simpl. lia. }
  rewrite Hc, Hl. done.
Qed.

Lemma css_lex_color_rgb buf x1 x2 x3 x4 t a b c0 :
  c buf = chr "#" → s buf = x1 :: x2 :: x3 :: x4 :: t →
  length (string buf) = 1024%nat →
  ishex x1 = Some a → ishex x2 = Some b → ishex x3 = Some c0 → ishex x4 = None →
  color_token (rgb a b c0) (x4 :: t) (css_lex buf).
Proof.
  intros Hc Hs Hlen H1 H2 H3 H4.
  rewrite (css_lex_hash buf x1 (x2 :: x3 :: x4 :: t)) by done.
  unfold css_lex_color.
  hex_hit. hex_hit. hex_hit. hex_miss.
  rewrite bind_modify.
  apply (color_written _ (advance x4 t _)); [|done].
  apply hex6_rgb; by eapply ishex_range.
Qed.

Lemma css_lex_color_rrggbb buf x1 x2 x3 x4 x5 x6 x7 t a b c0 d e f :
  c buf = chr "#" → s buf = x1 :: x2 :: x3 :: x4 :: x5 :: x6 :: x7 :: t →
  length (string buf) = 1024%nat →
  ishex x1 = Some a → ishex x2 = Some b → ishex x3 = Some c0 →
  ishex x4 = Some d → ishex x5 = Some e → ishex x6 = Some f →
  color_token (rrggbb a b c0 d e f) (x7 :: t) (css_lex buf).
Proof.
  intros Hc Hs Hlen H1 H2 H3 H4 H5 H6.
  rewrite (css_lex_hash buf x1 (x2 :: x3 :: x4 :: x5 :: x6 :: x7 :: t)) by done.
  unfold css_lex_color.
  hex_hit. hex_hit. hex_hit. hex_hit.
  rewrite bind_assoc. hex_hit. rewrite bind_assoc. hex_hit.
  rewrite bind_modify.
  apply (color_written _ (advance x7 t _)); [|done].
  apply hex6_rrggbb; by eapply ishex_range.
Qed.

Lemma hex6_lower v :
  length (hex6 v) = 6%nat ∧ Forall (λ ch, islowerhex ch = true) (hex6 v).
Proof.
  split; [done|]. unfold hex6. simpl fmap.
  repeat constructor; apply hexdigit_lower; rewrite nibble by lia; zlia.
Qed.

Ltac hex_fail :=
  erewrite (bind_Ok css_lex_accept_hex)
    by (eapply css_lex_accept_hex_miss; simpl; eassumption);
  cbv beta iota; by eexists.

Lemma css_lex_color_invalid buf :
  c buf = chr "#" →
  (∀ x1 t, s buf = x1 :: t → ishex x1 = None → invalid_color (css_lex buf)) ∧
  (∀ x1 x2 t a, s buf = x1 :: x2 :: t → ishex x1 = Some a → ishex x2 = None →
     invalid_color (css_lex buf)) ∧
  (∀ x1 x2 x3 t a b, s buf = x1 :: x2 :: x3 :: t →
     ishex x1 = Some a → ishex x2 = Some b → ishex x3 = None →
     invalid_color (css_lex buf)) ∧
  (∀ x1 x2 x3 x4 x5 t a b c0 d, s buf = x1 :: x2 :: x3 :: x4 :: x5 :: t →
     ishex x1 = Some a → ishex x2 = Some b → ishex x3 = Some c0 →
     ishex x4 = Some d → ishex x5 = None →
     invalid_color (css_lex buf)) ∧
  (∀ x1 x2 x3 x4 x5 x6 t a b c0 d e, s buf = x1 :: x2 :: x3 :: x4 :: x5 :: x6 :: t →
     ishex x1 = Some a → ishex x2 = Some b → ishex x3 = Some c0 →
     ishex x4 = Some d → ishex x5 = Some e → ishex x6 = None →
     invalid_color (css_lex buf)).
Proof.
  intros Hc. repeat split; intros.
  all: erewrite css_lex_hash by done; unfold css_lex_color.
  - hex_fail.
  - hex_hit. hex_fail.
  - hex_hit. hex_hit. hex_fail.
  - hex_hit. hex_hit. hex_hit. hex_hit. rewrite bind_assoc.
    erewrite (bind_Ok css_lex_accept_hex)
      by (eapply css_lex_accept_hex_miss; simpl; eassumption).
    by eexists.
  - hex_hit. hex_hit. hex_hit. hex_hit. rewrite bind_assoc. hex_hit.
    rewrite bind_assoc.
    erewrite (bind_Ok css_lex_accept_hex)
      by (eapply css_lex_accept_hex_miss; simpl; eassumption).
    by eexists.
Qed.

(** ** The lookahead layer *)

Lemma accept_miss t buf :
  lookahead buf ≠ t → accept t buf = Ok (false, buf).
Proof. intros Hne. unfold accept. rewrite bind_gets. by rewrite decide_False. Qed.

Lemma accept_hit t buf buf' :
  lookahead buf = t → next buf = Ok (tt, buf') → accept t buf = Ok (true, buf').
Proof.
  intros Hla Hnext. unfold accept. rewrite bind_gets, decide_True by done.
  by rewrite (bind_Ok _ _ _ _ _ Hnext).
Qed.

Lemma accept_inv t buf b buf' :
  accept t buf = Ok (b, buf') →
  (b = false ∧ buf' = buf ∧ lookahead buf ≠ t) ∨
  (b = true ∧ lookahead buf = t ∧ next buf = Ok (tt, buf')).
Proof.
  unfold accept. rewrite bind_gets. case_decide as Hla.
  - intros H. apply bind_inv in H as ([] & buf1 & Hn & [= <- <-]). right. done.
  - intros [= <- <-]. by left.
Qed.

(** ** Fuel is only a bound: more of it changes no result *)





(** ** Combinators associate to the right *)










(** ** Skipping at-rules *)

Lemma tokens_nil n buf :
  lookahead buf = EOF → tokens n buf = Ok ([], buf).
Proof. intros H. destruct n; simpl; rewrite bind_gets, H; done. Qed.

Lemma tokens_cons_inv n buf t ts bufe :
  tokens n buf = Ok (t :: ts, bufe) →
  lookahead buf = t ∧ t ≠ EOF ∧
  ∃ n' buf1, n = S n' ∧ next buf = Ok (tt, buf1) ∧ tokens n' buf1 = Ok (ts, bufe).
Proof.
  destruct n as [|n]; simpl; rewrite bind_gets; case_bool_decide as Hla; try done.
  intros H. apply bind_inv in H as ([] & buf1 & Hn & H).
  apply bind_inv in H as (ts' & buf2 & Ht & [= <- <- <-]).
  repeat split; try done. eauto.
Qed.

Lemma tokens_nil_inv n buf bufe :
  tokens n buf = Ok ([], bufe) → lookahead buf = EOF ∧ bufe = buf.
Proof.
  destruct n as [|n]; simpl; rewrite bind_gets; case_bool_decide as Hla; try done.
  - by intros [= <-].
  - by intros [= <-].
  - intros H. apply bind_inv in H as ([] & buf1 & Hn & H).
    by apply bind_inv in H as (ts' & buf2 & Ht & [=]).
Qed.

Lemma tokens_mono n m buf r :
  (n ≤ m)%nat → tokens n buf = Ok r → tokens m buf = Ok r.
Proof.
  revert m buf r. induction n as [|n IH]; intros m buf r Hnm.
  - simpl. rewrite bind_gets. case_bool_decide as Hla; [|done].
    intros <-. by apply tokens_nil.
  - destruct m as [|m]; [lia|]. simpl. rewrite !bind_gets.
    case_bool_decide as Hla; [done|]. intros Hr.
    apply bind_inv in Hr as ([] & buf1 & Hn & Hr). rewrite (bind_Ok _ _ _ _ _ Hn).
    apply bind_inv in Hr as (ts & buf2 & Ht & Hr).
    by rewrite (bind_Ok _ _ _ _ _ (IH m _ _ ltac:(lia) Ht)).
Qed.

Lemma parse_at_rule_block_refines ts : ∀ n m depth buf bufe,
  tokens m buf = Ok (ts, bufe) → (length ts ≤ n)%nat →
  ∃ buf', parse_at_rule_block n (Z.of_nat depth) buf = Ok (tt, buf') ∧
          tokens m buf' = Ok (skip_block depth ts, bufe).
Proof.
  induction ts as [|t ts IH]; intros n m depth buf bufe Ht Hn.
  - apply tokens_nil_inv in Ht as [Hla ->].
    exists buf. split.
    + destruct n; simpl; rewrite bind_gets, Hla; done.
    + destruct depth; by apply tokens_nil.
  - destruct depth as [|d].
    { exists buf. split; [|done].
      destruct n; simpl; rewrite bind_gets;
        by rewrite andb_false_r. }
    pose proof Ht as Ht0.
    apply tokens_cons_inv in Ht as (Hla & HnE & m' & buf1 & -> & Hnext & Ht).
    destruct n as [|n]; [simpl in Hn; lia|]. simpl in Hn.
    cbn [parse_at_rule_block skip_block]. rewrite bind_gets.
    rewrite bool_decide_false by (by rewrite Hla).
    assert ((Z.of_nat (S d) >? 0) = true) as -> by (apply Z.gtb_lt; lia).
    cbn [negb andb].
    case_decide as Hopen.
    { rewrite (bind_Ok _ _ _ _ _ (accept_hit _ _ _ (eq_trans Hla Hopen) Hnext)).
      destruct (IH n m' (S (S d)) buf1 bufe Ht ltac:(lia)) as (buf' & Hrun & Htok).
      exists buf'. split.
      - rewrite <- Hrun. f_equal. lia.
      - eapply tokens_mono; [|done]. lia. }
    rewrite (bind_Ok _ _ _ _ _ (accept_miss _ _ ltac:(by rewrite Hla))).
    case_decide as Hclose.
    { rewrite (bind_Ok _ _ _ _ _ (accept_hit _ _ _ (eq_trans Hla Hclose) Hnext)).
      destruct (IH n m' d buf1 bufe Ht ltac:(lia)) as (buf' & Hrun & Htok).
      exists buf'. split.
      - rewrite <- Hrun. f_equal. lia.
      - eapply tokens_mono; [|done]. lia. }
    rewrite (bind_Ok _ _ _ _ _ (accept_miss _ _ ltac:(by rewrite Hla))).
    rewrite (bind_Ok _ _ _ _ _ Hnext).
    destruct (IH n m' (S d) buf1 bufe Ht ltac:(lia)) as (buf' & Hrun & Htok).
    exists buf'. split; [done|].
    eapply tokens_mono; [|done]. lia.
Qed.

Lemma parse_at_rule_skip_refines ts : ∀ n m buf bufe,
  tokens m buf = Ok (ts, bufe) → (length ts ≤ n)%nat →
  ∃ buf', parse_at_rule_skip n buf = Ok (tt, buf') ∧
          tokens m buf' = Ok (skip_at_rule ts, bufe).
Proof.
  induction ts as [|t ts IH]; intros n m buf bufe Ht Hn.
  - apply tokens_nil_inv in Ht as [Hla ->].
    exists buf. split; [|by apply tokens_nil].
    destruct n; simpl; rewrite bind_gets, Hla; done.
  - apply tokens_cons_inv in Ht as (Hla & HnE & m' & buf1 & -> & Hnext & Ht).
    destruct n as [|n]; [simpl in Hn; lia|]. simpl in Hn.
    cbn [parse_at_rule_skip skip_at_rule]. rewrite bind_gets.
    rewrite bool_decide_false by (by rewrite Hla). cbn [negb].
    case_decide as Hsemi.
    { rewrite (bind_Ok _ _ _ _ _ (accept_hit _ _ _ (eq_trans Hla Hsemi) Hnext)).
      exists buf1. split; [done|]. eapply tokens_mono; [|done]. lia. }
    rewrite (bind_Ok _ _ _ _ _ (accept_miss _ _ ltac:(by rewrite Hla))).
    case_decide as Hopen.
    { rewrite (bind_Ok _ _ _ _ _ (accept_hit _ _ _ (eq_trans Hla Hopen) Hnext)).
      destruct (parse_at_rule_block_refines ts n m' 1 buf1 bufe Ht ltac:(lia))
        as (buf' & Hrun & Htok).
      exists buf'. split; [done|]. eapply tokens_mono; [|done]. lia. }
    rewrite (bind_Ok _ _ _ _ _ (accept_miss _ _ ltac:(by rewrite Hla))).
    rewrite (bind_Ok _ _ _ _ _ Hnext).
    destruct (IH n m' buf1 bufe Ht ltac:(lia)) as (buf' & Hrun & Htok).
    exists buf'. split; [done|]. eapply tokens_mono; [|done]. lia.
Qed.

Lemma tokens_length n buf ts bufe :
  tokens n buf = Ok (ts, bufe) → (length ts ≤ n)%nat.
Proof.
  revert n buf. induction ts as [|t ts IH]; intros n buf Ht; simpl; [lia|].
  apply tokens_cons_inv in Ht as (_ & _ & n' & buf1 & -> & _ & Ht).
  apply IH in Ht. lia.
Qed.

(** [parse_at_rule] against the description: with the keyword in the
    lookahead and the rest of the input free of lexical errors, it stops in
    front of exactly the tokens that the description leaves. *)
Lemma parse_at_rule_refines n buf ts bufe :
  tokens n buf = Ok (CSS_KEYWORD :: ts, bufe) →
  ∃ buf', parse_at_rule n buf = Ok (tt, buf') ∧
          tokens n buf' = Ok (skip_at_rule ts, bufe).
Proof.
  intros Ht. pose proof (tokens_length _ _ _ _ Ht) as Hlen. simpl in Hlen.
  apply tokens_cons_inv in Ht as (Hla & _ & n' & buf1 & -> & Hnext & Ht).
  unfold parse_at_rule, expect.
  rewrite bind_assoc, (bind_Ok _ _ _ _ _ (accept_hit _ _ _ Hla Hnext)).
  rewrite bind_ret.
  destruct (parse_at_rule_skip_refines ts (S n') n' buf1 bufe Ht ltac:(lia))
    as (buf' & Hrun & Htok).
  exists buf'. split; [done|]. eapply tokens_mono; [|done]. lia.
Qed.

(** Without a keyword after [@] the at-rule is a syntax error. *)
Lemma parse_at_rule_no_keyword n buf :
  lookahead buf ≠ CSS_KEYWORD →
  parse_at_rule n buf = Throw "unexpected token" (line buf).
Proof.
  intros Hla. unfold parse_at_rule, expect.
  by rewrite bind_assoc, (bind_Ok _ _ _ _ _ (accept_miss _ _ Hla)).
Qed.

(** ** The chain of rules in the store *)

Lemma chain_to_le h a l t : chain_to h a l t → (a ≤ t)%nat.
Proof. induction 1; lia. Qed.

Lemma chain_to_last h a l t :
  chain_to h a l t → ∃ r, h !! t = Some r ∧ rule_next r = None.
Proof. induction 1; eauto. Qed.

Lemma rules_from_chain h a l t n :
  chain_to h a l t → (length h - a ≤ n)%nat → rules_from n h (Some a) = Some l.
Proof.
  intros Hc. revert n. induction Hc as [a r Ha Hn|a r a' l t Ha Hn Hlt Hc IH];
    intros n Hfuel.
  all: pose proof (lookup_lt_Some _ _ _ Ha) as Hlen.
  all: destruct n as [|n]; [lia|]; simpl; rewrite Ha; simpl; rewrite Hn.
  - by destruct n.
  - rewrite IH by lia. done.
Qed.

Lemma rules_chain h a l t : chain_to h a l t → rules h (Some a) = Some l.
Proof. intros Hc. eapply rules_from_chain; [done|lia]. Qed.

Lemma last_rule_chain {A} h a l t n (k : nat → M A) :
  chain_to h a l t → (length h - a ≤ n)%nat → last_rule n h a k = k t.
Proof.
  intros Hc. revert n. induction Hc as [a r Ha Hn|a r a' l t Ha Hn Hlt Hc IH];
    intros n Hfuel.
  all: pose proof (lookup_lt_Some _ _ _ Ha) as Hlen.
  - destruct n; simpl; by rewrite Ha, Hn.
  - destruct n as [|n]; [lia|]. simpl. rewrite Ha, Hn. apply IH. lia.
Qed.

(** Linking a freshly allocated node behind the last node of a chain. *)
Lemma chain_to_append h a l t nd :
  chain_to h a l t → rule_next nd = None →
  chain_to (alter (set_rule_next (Some (length h))) t (h ++ [nd])) a
    (l ++ [rule_data nd]) (length h).
Proof.
  intros Hc Hnd.
  assert (Hnew : ∀ t, (t < length h)%nat →
            alter (set_rule_next (Some (length h))) t (h ++ [nd]) !! length h = Some nd).
  { intros t' Ht'. rewrite list_lookup_alter_ne by lia.
    rewrite lookup_app_r by lia. by rewrite Nat.sub_diag. }
  induction Hc as [a r Ha Hn|a r a' l t Ha Hn Hlt Hc IH].
  - pose proof (lookup_lt_Some _ _ _ Ha) as Hlen. cbn [app].
    eapply (chain_link _ a (set_rule_next (Some (length h)) r)); [|done|done|].
    + rewrite list_lookup_alter_eq, lookup_app_l by done. by rewrite Ha.
    + eapply chain_last; [by apply Hnew|done].
  - pose proof (lookup_lt_Some _ _ _ Ha) as Hlen.
    pose proof (chain_to_le _ _ _ _ Hc) as Hle. cbn [app].
    eapply (chain_link _ a r); [|done|done|done].
    rewrite list_lookup_alter_ne by lia. by rewrite lookup_app_l.
Qed.

Lemma chain_to_fresh h nd :
  rule_next nd = None → chain_to (h ++ [nd]) (length h) [rule_data nd] (length h).
Proof.
  intros Hnd. eapply chain_last; [|done].
  rewrite lookup_app_r by lia. by rewrite Nat.sub_diag.
Qed.

Lemma parse_rule_alloc n h buf :
  parse_rule n h buf =
    (sp ← parse_rule_body n; mret (fz_new_css_rule h sp.1 sp.2)) buf.
Proof.
  unfold parse_rule, parse_rule_body, mbind, M_bind.
  destruct (parse_selector_list n buf) as [[sel b1]| | |]; try done.
  destruct (expect _ b1) as [[[] b2]| | |]; try done.
  destruct (parse_declaration_list n b2) as [[p b3]| | |]; try done.
  destruct (expect _ b3) as [[[] b4]| | |]; done.
Qed.

Lemma bind_parse_rule {B} n h (k : nat * heap → M B) buf :
  (parse_rule n h ≫= k) buf =
    (parse_rule_body n ≫= λ sp, k (fz_new_css_rule h sp.1 sp.2)) buf.
Proof.
  unfold mbind at 1. unfold M_bind at 1. rewrite parse_rule_alloc.
  unfold mbind, M_bind.
  by destruct (parse_rule_body n buf) as [[sp b1]| | |].
Qed.

Lemma open_chain_store h chain tail nextp l sel p :
  open_chain h chain tail nextp l →
  let '(rule, h1) := fz_new_css_rule h sel p in
  let '(tail', h2) := store_rule nextp rule tail h1 in
  open_chain h2 chain tail' (NextOf rule) (l ++ [(sel, p)]).
Proof.
  intros [Hc Ht|a l' t Hhd Hch]; simpl.
  - subst. eapply (open_linked _ _ _ (length h)); [done|].
    by apply (chain_to_fresh h (Rule sel p [] None)).
  - eapply (open_linked _ _ _ a); [done|].
    by apply (chain_to_append h a l' t (Rule sel p [] None)).
Qed.

Lemma open_chain_rules h chain tail nextp l :
  open_chain h chain tail nextp l →
  rules h (if chain is Some _ then chain else tail) = Some l.
Proof.
  intros [-> ->|a l' t -> Hch].
  - unfold rules. by destruct (length h).
  - by eapply rules_chain.
Qed.

Lemma parse_stylesheet_loop_same n : ∀ buf h1 h2 chain1 chain2 tail1 tail2 nextp1 nextp2 l1 l2,
  open_chain h1 chain1 tail1 nextp1 l1 → open_chain h2 chain2 tail2 nextp2 l2 →
  same_rules chain1 chain2 l1 l2
    (parse_stylesheet_loop n nextp1 tail1 h1 buf)
    (parse_stylesheet_loop n nextp2 tail2 h2 buf).
Proof.
  induction n as [|n IH]; intros buf h1 h2 chain1 chain2 tail1 tail2 nextp1 nextp2 l1 l2 H1 H2.
  - simpl. rewrite !bind_gets. destruct (negb _); simpl; [done|].
    split; [done|]. exists [], nextp1, nextp2. by rewrite !app_nil_r.
  - cbn [parse_stylesheet_loop]. rewrite !bind_gets.
    destruct (negb _); simpl.
    2:{ split; [done|]. exists [], nextp1, nextp2. by rewrite !app_nil_r. }
    bind_cases (accept (Chr (chr "@"))) buf b b1 Hacc; try done.
    destruct b.
    + bind_cases (parse_at_rule (S n)) b1 u b2 Hat; try done.
      by apply IH.
    + rewrite !bind_parse_rule.
      bind_cases (parse_rule_body (S n)) b1 sp b2 Hbody; try done.
      destruct sp as [sel p]. cbn [fst snd].
      pose proof (open_chain_store _ _ _ _ _ sel p H1) as H1'.
      pose proof (open_chain_store _ _ _ _ _ sel p H2) as H2'.
      destruct (fz_new_css_rule h1 sel p) as [r1 h1'].
      destruct (fz_new_css_rule h2 sel p) as [r2 h2'].
      destruct (store_rule nextp1 r1 tail1 h1') as [t1' h1''].
      destruct (store_rule nextp2 r2 tail2 h2') as [t2' h2''].
      specialize (IH b2 _ _ _ _ _ _ _ _ _ _ H1' H2').
      unfold same_rules in *.
      destruct (parse_stylesheet_loop n (NextOf r1) t1' h1'' b2) as [[[t1 g1] c1]| | |],
        (parse_stylesheet_loop n (NextOf r2) t2' h2'' b2) as [[[t2 g2] c2]| | |];
        try done.
      destruct IH as (-> & new & nx1 & nx2 & Ho1 & Ho2).
      split; [done|]. exists ((sel, p) :: new), nx1, nx2.
      by rewrite <- !(assoc_L (++)) in Ho1, Ho2.
Qed.

Lemma fz_parse_css_start h chain source :
  fz_parse_css h chain source =
    match start source with
    | Ok (_, buf) => result (parse_stylesheet (fuel source) h chain buf)
    | Throw msg ln => Throw msg ln
    | Undefined u => Undefined u
    | OutOfFuel => OutOfFuel
    end.
Proof.
  unfold fz_parse_css, start.
  rewrite <- (bind_assoc css_lex_init (λ _, next)
                (λ _, parse_stylesheet (fuel source) h chain)).
  unfold mbind at 1. unfold M_bind at 1.
  by destruct ((css_lex_init ≫= λ _, next) (lexbuf_at source)) as [[[] buf]| | |].
Qed.

Lemma fz_parse_css_properties_start source :
  fz_parse_css_properties source =
    match start source with
    | Ok (_, buf) => result (parse_declaration_list (fuel source) buf)
    | Throw msg ln => Throw msg ln
    | Undefined u => Undefined u
    | OutOfFuel => OutOfFuel
    end.
Proof.
  unfold fz_parse_css_properties, start.
  rewrite <- (bind_assoc css_lex_init (λ _, next)
                (λ _, parse_declaration_list (fuel source))).
  unfold mbind at 1. unfold M_bind at 1.
  by destruct ((css_lex_init ≫= λ _, next) (lexbuf_at source)) as [[[] buf]| | |].
Qed.

Lemma result_Ok_inv {A} (r : outcome (A * lexbuf)) a :
  result r = Ok a → ∃ buf, r = Ok (a, buf).
Proof. destruct r as [[a' buf]| | |]; intros [= <-]. eauto. Qed.

Lemma parse_stylesheet_None n h :
  parse_stylesheet n h None = parse_stylesheet_loop n LocalTail None h.
Proof. reflexivity. Qed.

Lemma parse_stylesheet_Some n h a :
  parse_stylesheet n h (Some a) =
    last_rule (length h) h a (λ t,
      '(_, h') ← parse_stylesheet_loop n (NextOf t) (Some t) h;
      mret (Some a, h')).
Proof. reflexivity. Qed.

(** C6.  When the style sheets [A] and [B] both parse on their own, parsing
    [B] onto the chain that [fz_parse_css] returned for [A] succeeds; it
    returns the head of that chain where there is one, and the rules of the
    result are the rules of [A], in their order, followed by the rules of [B],
    in theirs. *)
Theorem fz_parse_css_appends A B p1 h1 pB hB :
  fz_parse_css [] None A = Ok (p1, h1) →
  fz_parse_css [] None B = Ok (pB, hB) →
  ∃ p2 h2 la lb,
    fz_parse_css h1 p1 B = Ok (p2, h2) ∧
    (p1 ≠ None → p2 = p1) ∧
    rules h1 p1 = Some la ∧ rules hB pB = Some lb ∧
    rules h2 p2 = Some (la ++ lb).
Proof.
  rewrite !fz_parse_css_start. intros HA HB.
  destruct (start A) as [[[] bA]| | |]; try done.
  destruct (start B) as [[[] bB]| | |]; try done.
  apply result_Ok_inv in HA as [bA' HA]. apply result_Ok_inv in HB as [bB' HB].
  rewrite parse_stylesheet_None in HA, HB.
  (* the chain that parsing [A] leaves *)
  pose proof (parse_stylesheet_loop_same (fuel A) bA [] [] None None None None
                LocalTail LocalTail [] [] (open_empty _ _ _ eq_refl eq_refl)
                (open_empty _ _ _ eq_refl eq_refl)) as HsA.
  rewrite HA in HsA. destruct HsA as (_ & la & nxA & _ & HoA & _).
  rewrite app_nil_l in HoA. pose proof (open_chain_rules _ _ _ _ _ HoA) as HrA.
  destruct p1 as [a|].
  - (* a chain is handed on: its last node is found and the loop links on *)
    inversion HoA as [|a' l t Hhd Hch Hnx Hl]; [done|].
    injection Hhd as <-. subst l.
    pose proof (parse_stylesheet_loop_same (fuel B) bB [] h1 None (Some a) None (Some t)
                  LocalTail (NextOf t) [] la (open_empty _ _ _ eq_refl eq_refl)
                  (open_linked h1 (Some a) (Some t) a la t eq_refl Hch)) as Hs.
    rewrite HB in Hs. rewrite parse_stylesheet_Some.
    rewrite (last_rule_chain _ _ _ _ _ _ Hch) by lia.
    destruct (parse_stylesheet_loop (fuel B) (NextOf t) (Some t) h1 bB)
      as [[[t2 h2] b2]| | |] eqn:Hrun; try done.
    destruct Hs as (-> & lb & nx1 & nx2 & Ho1 & Ho2).
    rewrite (bind_Ok _ _ _ _ _ Hrun).
    exists (Some a), h2, la, lb. repeat split; [done| |].
    + by apply (open_chain_rules _ _ _ _ _ Ho1).
    + by apply (open_chain_rules _ _ _ _ _ Ho2).
  - (* no rule came out of [A] *)
    pose proof (parse_stylesheet_loop_same (fuel B) bB [] h1 None None None None
                  LocalTail LocalTail [] [] (open_empty _ _ _ eq_refl eq_refl)
                  (open_empty _ _ _ eq_refl eq_refl)) as Hs.
    rewrite HB in Hs. rewrite parse_stylesheet_None.
    destruct (parse_stylesheet_loop (fuel B) LocalTail None h1 bB)
      as [[[t2 h2] b2]| | |] eqn:Hrun; try done.
    destruct Hs as (-> & lb & nx1 & nx2 & Ho1 & Ho2).
    cbn [rules] in HrA. 
    assert (la = []) as ->.
    { unfold rules in HrA. destruct (length h1); simpl in HrA; congruence. }
    exists t2, h2, [], lb. repeat split; [done|done| |].
    + by apply (open_chain_rules _ _ _ _ _ Ho1).
    + by apply (open_chain_rules _ _ _ _ _ Ho2).
Qed.

(** * Two runs side by side *)

Section rel_rules.
Context {A B A' B' : Type}.
Implicit Types (R : lexbuf → lexbuf → Prop).

Lemma rel_bind R (m1 : M A) (m2 : M B) Q (k1 : A → M A') (k2 : B → M B') Q' :
  rel R m1 m2 Q →
  (∀ a1 a2, rel (λ b1 b2, Q a1 b1 a2 b2) (k1 a1) (k2 a2) Q') →
  rel R (m1 ≫= k1) (m2 ≫= k2) Q'.
Proof.
  intros Hm Hk b1 b2 r b1' HR Hrun.
  apply bind_inv in Hrun as (a1 & c1 & Hm1 & Hk1).
  destruct (Hm _ _ _ _ HR Hm1) as (a2 & c2 & Hm2 & HQ).
  destruct (Hk _ _ _ _ _ _ HQ Hk1) as (r2 & b2' & Hk2 & HQ').
  exists r2, b2'. split; [|done]. by rewrite (bind_Ok _ _ _ _ _ Hm2).
Qed.

Lemma rel_ret R (a1 : A) (a2 : B) Q :
  (∀ b1 b2, R b1 b2 → Q a1 b1 a2 b2) → rel R (mret a1) (mret a2) Q.
Proof. intros HQ b1 b2 r b1' HR [= <- <-]. eauto. Qed.

Lemma rel_gets R (f : lexbuf → A) (g : lexbuf → B) Q :
  (∀ b1 b2, R b1 b2 → Q (f b1) b1 (g b2) b2) → rel R (gets f) (gets g) Q.
Proof. intros HQ b1 b2 r b1' HR [= <- <-]. eauto. Qed.

Lemma rel_conseq R R' (m1 : M A) (m2 : M B) Q Q' :
  rel R' m1 m2 Q' →
  (∀ b1 b2, R b1 b2 → R' b1 b2) →
  (∀ a1 b1 a2 b2, Q' a1 b1 a2 b2 → Q a1 b1 a2 b2) →
  rel R m1 m2 Q.
Proof.
  intros Hm HR HQ b1 b2 r b1' H Hrun.
  destruct (Hm _ _ _ _ (HR _ _ H) Hrun) as (a2 & b2' & ? & ?). eauto.
Qed.

Lemma rel_pre R (m1 : M A) (m2 : M B) Q :
  (∀ b1 b2, R b1 b2 → rel (λ c1 c2, c1 = b1 ∧ c2 = b2) m1 m2 Q) → rel R m1 m2 Q.
Proof. intros H b1 b2 r b1' HR Hrun. by eapply (H _ _ HR). Qed.

Lemma rel_error R msg (m2 : M B) (Q : A → lexbuf → B → lexbuf → Prop) :
  rel R (fz_css_error msg) m2 Q.
Proof. by intros b1 b2 r b1' _ [=]. Qed.

Lemma rel_out_of_fuel R (m2 : M B) (Q : A → lexbuf → B → lexbuf → Prop) :
  rel R out_of_fuel m2 Q.
Proof. by intros b1 b2 r b1' _ [=]. Qed.

Lemma rel_false R (m1 : M A) (m2 : M B) Q :
  (∀ b1 b2, ¬ R b1 b2) → rel R m1 m2 Q.
Proof. intros H b1 b2 r b1' HR. by destruct (H _ _ HR). Qed.

Lemma rel_or R1 R2 (m1 : M A) (m2 : M B) Q :
  rel R1 m1 m2 Q → rel R2 m1 m2 Q → rel (λ b1 b2, R1 b1 b2 ∨ R2 b1 b2) m1 m2 Q.
Proof. intros H1 H2 b1 b2 r b1' [HR|HR]; eauto. Qed.
End rel_rules.

Lemma rel_modify (R : lexbuf → lexbuf → Prop) (f g : lexbuf → lexbuf)
    (Q : unit → lexbuf → unit → lexbuf → Prop) :
  (∀ b1 b2, R b1 b2 → Q tt (f b1) tt (g b2)) → rel R (modify f) (modify g) Q.
Proof. intros HQ b1 b2 [] b1' HR [= <-]. eauto. Qed.

Lemma rel_seq {A B A' B'} (R R' : lexbuf → lexbuf → Prop) (m1 : M A) (m2 : M B)
    (k1 : M A') (k2 : M B') (Q : A' → lexbuf → B' → lexbuf → Prop) :
  rel R m1 m2 (λ _ b1 _ b2, R' b1 b2) → rel R' k1 k2 Q →
  rel R (m1 ;; k1) (m2 ;; k2) Q.
Proof. intros Hm Hk. eapply rel_bind; [exact Hm|]. intros a1 a2. exact Hk. Qed.

Lemma rel_bind_eq {A A' B'} (R : lexbuf → lexbuf → Prop) (m1 m2 : M A)
    (P : A → lexbuf → lexbuf → Prop) (k1 : A → M A') (k2 : A → M B')
    (Q : A' → lexbuf → B' → lexbuf → Prop) :
  rel R m1 m2 (λ a1 b1 a2 b2, a1 = a2 ∧ P a1 b1 b2) →
  (∀ a, rel (P a) (k1 a) (k2 a) Q) →
  rel R (m1 ≫= k1) (m2 ≫= k2) Q.
Proof.
  intros Hm Hk. eapply rel_bind; [exact Hm|].
  intros a1 a2 b1 b2 r b1' [<- HP]. by apply Hk.
Qed.

(** ** The two inputs of the inline equivalence *)

Lemma lexsim_blind f b1 b2 : blind f → lexsim b1 b2 → f (c b1) = f (c b2).
Proof.
  intros Hf [(_ & -> & _)|(_ & -> & _ & -> & _)]; done.
Qed.

Lemma lexsim_length b1 b2 : lexsim b1 b2 → (length (s b1) ≤ length (s b2))%nat.
Proof.
  intros [(_ & _ & u & -> & ->)|(_ & _ & -> & _ & ->)]; [|simpl; lia].
  rewrite !length_app. simpl. lia.
Qed.

Lemma agree_advance x1 x2 r1 r2 b1 b2 :
  (x1 =? 10) = (x2 =? 10) →
  agree b1 b2 → agree (advance x1 r1 b1) (advance x2 r2 b2).
Proof.
  intros Hx (Hl & ? & ? & ?). repeat split; simpl; try done. by rewrite Hl, Hx.
Qed.

Lemma rel_css_lex_next : rel lexsim css_lex_next css_lex_next (eqv lexsim).
Proof.
  intros b1 b2 [] b1' HR Hrun.
  destruct HR as [(Hag & Hc & u & Hs1 & Hs2)|(_ & _ & Hs1 & _)].
  2:{ by rewrite (css_lex_next_nil _ Hs1) in Hrun. }
  destruct u as [|x u]; simpl in Hs1, Hs2.
  - rewrite (css_lex_next_cons _ _ _ Hs1) in Hrun. injection Hrun as <-.
    rewrite (css_lex_next_cons _ _ _ Hs2). eexists _, _. split; [done|].
    split; [done|]. right. split; [by apply agree_advance|done].
  - rewrite (css_lex_next_cons _ _ _ Hs1) in Hrun. injection Hrun as <-.
    rewrite (css_lex_next_cons _ _ _ Hs2). eexists _, _. split; [done|].
    split; [done|]. left. split; [by apply agree_advance|].
    split; [done|]. by exists u.
Qed.

Lemma agree_pushed ch b1 b2 : agree b1 b2 → agree (pushed ch b1) (pushed ch b2).
Proof. intros (? & ? & Hl & Hs). repeat split; simpl; try done; by rewrite Hl, ?Hs. Qed.

Lemma lexsim_agree b1 b2 : lexsim b1 b2 → agree b1 b2.
Proof. by intros [[? _]|[? _]]. Qed.

Lemma lexsim_pushed ch b1 b2 : lexsim b1 b2 → lexsim (pushed ch b1) (pushed ch b2).
Proof.
  intros [(Hag & ?)|(Hag & ?)]; [left|right]; (split; [by apply agree_pushed|done]).
Qed.

Lemma mid_pushed ch b1 b2 : mid b1 b2 → mid (pushed ch b1) (pushed ch b2).
Proof. intros (Hag & ?). split; [by apply agree_pushed|done]. Qed.

Lemma css_push_char_inv ch buf r buf' :
  css_push_char ch buf = Ok (r, buf') →
  string_len buf + 1 < nelem_string ∧ buf' = pushed ch buf.
Proof.
  unfold css_push_char. rewrite bind_gets.
  destruct (Z.geb_spec (string_len buf + 1) nelem_string); [done|].
  intros [= <- <-]. done.
Qed.

Lemma rel_css_push_char (R : lexbuf → lexbuf → Prop) ch :
  (∀ b1 b2, R b1 b2 → agree b1 b2) →
  (∀ b1 b2, R b1 b2 → R (pushed ch b1) (pushed ch b2)) →
  rel R (css_push_char ch) (css_push_char ch) (eqv R).
Proof.
  intros Hag Hpush b1 b2 [] b1' HR Hrun.
  apply css_push_char_inv in Hrun as [Hlen ->].
  destruct (Hag _ _ HR) as (_ & _ & Hl & _).
  rewrite css_push_char_Ok by (by rewrite <- Hl).
  eexists _, _. split; [done|]. split; [done|]. by apply Hpush.
Qed.

Lemma rel_push_lexsim ch :
  rel lexsim (css_push_char ch) (css_push_char ch) (eqv lexsim).
Proof. apply rel_css_push_char; [apply lexsim_agree|apply lexsim_pushed]. Qed.

(** [css_push_char(buf, buf->c); css_lex_next(buf);] *)
Lemma rel_push_next :
  rel lexsim (css_push_c ;; css_lex_next) (css_push_c ;; css_lex_next) (eqv lexsim).
Proof.
  intros b1 b2 [] b1' HR Hrun.
  unfold css_push_c in *. rewrite bind_assoc, bind_gets in Hrun.
  rewrite bind_assoc, bind_gets.
  destruct HR as [Hmid|Hend].
  - assert (Hc : c b1 = c b2) by apply Hmid. rewrite <- Hc.
    eapply (rel_seq mid mid _ _ _ _ (eqv lexsim)); [| |by apply Hmid|exact Hrun].
    + eapply rel_conseq; [apply (rel_css_push_char mid)| |].
      * by intros ? ? [? _].
      * apply mid_pushed.
      * done.
      * by intros ? ? ? ? [_ ?].
    + eapply rel_conseq; [apply rel_css_lex_next| |done]. intros. by left.
  - apply bind_inv in Hrun as ([] & b1'' & Hp & Hn).
    apply css_push_char_inv in Hp as [_ ->].
    destruct Hend as (_ & _ & Hs & _).
    by rewrite css_lex_next_nil in Hn.
Qed.

Lemma css_lex_accept_inv t buf r buf' :
  css_lex_accept t buf = Ok (r, buf') →
  (r = false ∧ buf' = buf ∧ c buf ≠ t) ∨
  (r = true ∧ c buf = t ∧ css_lex_next buf = Ok (tt, buf')).
Proof.
  unfold css_lex_accept. rewrite bind_gets.
  destruct (Z.eqb_spec (c buf) t) as [Hc|Hc].
  - intros H. apply bind_inv in H as ([] & b1 & Hn & [= <- <-]). by right.
  - intros [= <- <-]. by left.
Qed.

(** [css_lex_accept] on a byte that is neither NUL nor the closing brace:
    a miss leaves both states as they were. *)
Lemma rel_css_lex_accept (R : lexbuf → lexbuf → Prop) t :
  t ≠ 0 → t ≠ chr "}" → (∀ b1 b2, R b1 b2 → lexsim b1 b2) →
  rel R (css_lex_accept t) (css_lex_accept t)
    (λ r1 b1 r2 b2, r1 = r2 ∧ if r1 then lexsim b1 b2 else R b1 b2).
Proof.
  intros H0 Hb HR b1 b2 r b1' Hrel Hrun.
  pose proof (HR _ _ Hrel) as Hsim.
  assert (Hc : (c b1 =? t) = (c b2 =? t)).
  { apply (lexsim_blind (λ x, x =? t)); [|done]. unfold blind.
    destruct (Z.eqb_spec 0 t), (Z.eqb_spec (chr "}") t); congruence. }
  apply css_lex_accept_inv in Hrun as [(-> & -> & Hne)|(-> & Heq & Hn)].
  - exists false, b2. split; [|done]. apply css_lex_accept_miss.
    apply Z.eqb_neq. rewrite <- Hc. by apply Z.eqb_neq.
  - destruct (rel_css_lex_next _ _ _ _ Hsim Hn) as ([] & b2' & Hn2 & _ & Hsim').
    exists true, b2'. split; [|done].
    unfold css_lex_accept. rewrite bind_gets, <- Hc.
    rewrite (proj2 (Z.eqb_eq _ _) Heq). by rewrite (bind_Ok _ _ _ _ _ Hn2).
Qed.

Lemma rel_css_lex_expect t :
  t ≠ 0 → t ≠ chr "}" →
  rel lexsim (css_lex_expect t) (css_lex_expect t) (eqv lexsim).
Proof.
  intros H0 Hb. unfold css_lex_expect.
  eapply rel_bind_eq; [by apply (rel_css_lex_accept lexsim)|].
  intros []; [|apply rel_error]. by apply rel_ret.
Qed.

Lemma rel_css_lex_accept_hex :
  rel lexsim css_lex_accept_hex css_lex_accept_hex
    (λ r1 b1 r2 b2, r1 = r2 ∧ lexsim b1 b2).
Proof.
  intros b1 b2 r b1' Hsim Hrun.
  assert (Hc : ishex (c b1) = ishex (c b2)).
  { destruct Hsim as [(_ & -> & _)|(_ & -> & _ & -> & _)]; done. }
  unfold css_lex_accept_hex in *. rewrite bind_gets in *. rewrite <- Hc.
  destruct (ishex (c b1)) as [v|].
  - apply bind_inv in Hrun as ([] & b1'' & Hn & [= <- <-]).
    destruct (rel_css_lex_next _ _ _ _ Hsim Hn) as ([] & b2' & Hn2 & _ & Hsim').
    exists (Some v), b2'. by rewrite (bind_Ok _ _ _ _ _ Hn2).
  - injection Hrun as <- <-. by exists None, b2.
Qed.

Lemma rel_while_ (cond : lexbuf → bool) (body : M unit) n : ∀ m,
  (n ≤ m)%nat →
  (∀ b1 b2, lexsim b1 b2 → cond b1 = cond b2) →
  rel lexsim body body (eqv lexsim) →
  rel lexsim (while_ n cond body) (while_ m cond body) (eqv lexsim).
Proof.
  induction n as [|n IH]; intros m Hnm Hcond Hbody b1 b2 [] b1' Hsim Hrun.
  - simpl in Hrun. destruct (cond b1) eqn:Hc1; [done|]. injection Hrun as <-.
    exists tt, b2. split; [|done]. apply while__false. by rewrite <- (Hcond _ _ Hsim).
  - destruct (cond b1) eqn:Hc1.
    + destruct m as [|m]; [lia|].
      rewrite while__true in Hrun by done.
      rewrite while__true by (by rewrite <- (Hcond _ _ Hsim)).
      eapply (rel_seq lexsim lexsim); [| |exact Hsim|exact Hrun].
      * eapply rel_conseq; [exact Hbody|done|]. by intros ? ? ? ? [_ ?].
      * apply IH; [lia|done..].
    + rewrite while__false in Hrun by done. injection Hrun as <-.
      exists tt, b2. split; [|done]. apply while__false. by rewrite <- (Hcond _ _ Hsim).
Qed.

Lemma rel_while (cond : lexbuf → bool) (body : M unit) :
  (∀ b1 b2, lexsim b1 b2 → cond b1 = cond b2) →
  rel lexsim body body (eqv lexsim) →
  rel lexsim (while cond body) (while cond body) (eqv lexsim).
Proof.
  intros Hcond Hbody b1 b2 r b1' Hsim Hrun. unfold while in *.
  eapply rel_while_; [|done|done|exact Hsim|exact Hrun].
  apply lexsim_length in Hsim. lia.
Qed.

Lemma rel_while_class (f : Z → bool) (body : M unit) :
  blind f → rel lexsim body body (eqv lexsim) →
  rel lexsim (while (λ buf, f (c buf)) body) (while (λ buf, f (c buf)) body)
    (eqv lexsim).
Proof. intros Hf Hbody. apply rel_while; [|done]. intros. by apply lexsim_blind. Qed.

Lemma rel_push_next_bind {A} (k1 k2 : M A) (Q : A → lexbuf → A → lexbuf → Prop) :
  rel lexsim k1 k2 Q →
  rel lexsim (css_push_c ≫= λ _, css_lex_next ≫= λ _, k1)
             (css_push_c ≫= λ _, css_lex_next ≫= λ _, k2) Q.
Proof.
  intros Hk b1 b2 r b1' Hsim Hrun.
  rewrite <- (bind_assoc css_push_c (λ _, css_lex_next) (λ _, k1)) in Hrun.
  rewrite <- (bind_assoc css_push_c (λ _, css_lex_next) (λ _, k2)).
  eapply (rel_seq lexsim lexsim); [| |exact Hsim|exact Hrun]; [|done].
  eapply rel_conseq; [apply rel_push_next|done|]. by intros ? ? ? ? [_ ?].
Qed.

Lemma same_byte_blind f ch1 ch2 : blind f → same_byte ch1 ch2 → f ch1 = f ch2.
Proof. intros Hf [->|[-> ->]]; done. Qed.

Lemma rel_gets_c {A} (k1 k2 : Z → M A) (Q : A → lexbuf → A → lexbuf → Prop) :
  (∀ ch1 ch2, same_byte ch1 ch2 → rel lexsim (k1 ch1) (k2 ch2) Q) →
  rel lexsim (gets c ≫= k1) (gets c ≫= k2) Q.
Proof.
  intros Hk b1 b2 r b1' Hsim Hrun. rewrite bind_gets in *.
  eapply Hk; [|done..].
  destruct Hsim as [(_ & -> & _)|(_ & -> & _ & -> & _)]; [by left|by right].
Qed.

Lemma rel_gets_c_mid {A} (k1 k2 : Z → M A) (Q : A → lexbuf → A → lexbuf → Prop) :
  (∀ ch, rel mid (k1 ch) (k2 ch) Q) →
  rel mid (gets c ≫= k1) (gets c ≫= k2) Q.
Proof.
  intros Hk b1 b2 r b1' Hmid Hrun. rewrite bind_gets in *.
  assert (Hc : c b1 = c b2) by apply Hmid. rewrite <- Hc. by eapply Hk.
Qed.

Lemma rel_lexsim {A} (m1 m2 : M A) (Q : A → lexbuf → A → lexbuf → Prop) :
  rel mid m1 m2 Q → rel at_end m1 m2 Q → rel lexsim m1 m2 Q.
Proof. intros H1 H2. by apply rel_or. Qed.

Lemma rel_mid_lexsim {A} (m1 m2 : M A) (Q : A → lexbuf → A → lexbuf → Prop) :
  rel lexsim m1 m2 Q → rel mid m1 m2 Q.
Proof. intros H. eapply rel_conseq; [exact H| |done]. intros. by left. Qed.

Lemma blind_isdigit : blind isdigit. Proof. done. Qed.
Lemma blind_isnmchar : blind isnmchar. Proof. done. Qed.
Lemma blind_isnmstart : blind isnmstart. Proof. done. Qed.
Lemma blind_iswhite : blind iswhite. Proof. done. Qed.
Lemma blind_eqb t : t ≠ 0 → t ≠ chr "}" → blind (λ x, x =? t).
Proof.
  intros. unfold blind. destruct (Z.eqb_spec 0 t), (Z.eqb_spec (chr "}") t); congruence.
Qed.

Ltac byte_ok := first [done | by (intros ->) | by (intros [=])].

Lemma rel_assoc {A B C} (R : lexbuf → lexbuf → Prop)
    (m1 m2 : M A) (k1 k1' : A → M B) (k2 k2' : B → M C)
    (Q : C → lexbuf → C → lexbuf → Prop) :
  rel R (m1 ≫= λ a, k1 a ≫= k2) (m2 ≫= λ a, k1' a ≫= k2') Q →
  rel R ((m1 ≫= k1) ≫= k2) ((m2 ≫= k1') ≫= k2') Q.
Proof.
  intros H b1 b2 r b1' HR Hrun. rewrite bind_assoc in Hrun. rewrite bind_assoc.
  by eapply H.
Qed.

Lemma rel_if {A} (R : lexbuf → lexbuf → Prop) (b : bool) (m1 m2 k1 k2 : M A)
    (Q : A → lexbuf → A → lexbuf → Prop) :
  (b = true → rel R m1 k1 Q) → (b = false → rel R m2 k2 Q) →
  rel R (if b then m1 else m2) (if b then k1 else k2) Q.
Proof. destruct b; auto. Qed.

Lemma rel_ret_bind {A B} (R : lexbuf → lexbuf → Prop) (a : A) (k1 k2 : A → M B)
    (Q : B → lexbuf → B → lexbuf → Prop) :
  rel R (k1 a) (k2 a) Q → rel R (mret a ≫= k1) (mret a ≫= k2) Q.
Proof. done. Qed.

Lemma rel_modify_bind {B} (R R' : lexbuf → lexbuf → Prop) (f g : lexbuf → lexbuf)
    (k1 k2 : unit → M B) (Q : B → lexbuf → B → lexbuf → Prop) :
  (∀ b1 b2, R b1 b2 → R' (f b1) (g b2)) →
  rel R' (k1 tt) (k2 tt) Q → rel R (modify f ≫= k1) (modify g ≫= k2) Q.
Proof.
  intros Hf Hk b1 b2 r b1' HR Hrun. rewrite bind_modify in *.
  eapply Hk; [|done]. by apply Hf.
Qed.

Lemma rel_error_bind {A B A'} (R : lexbuf → lexbuf → Prop) msg (k : A → M B)
    (m2 : M A') (Q : B → lexbuf → A' → lexbuf → Prop) :
  rel R (fz_css_error msg ≫= k) m2 Q.
Proof. by intros b1 b2 r b1' _ [=]. Qed.

Lemma rel_out_of_fuel_bind {A B A'} (R : lexbuf → lexbuf → Prop) (k : A → M B)
    (m2 : M A') (Q : B → lexbuf → A' → lexbuf → Prop) :
  rel R (out_of_fuel ≫= k) m2 Q.
Proof. by intros b1 b2 r b1' _ [=]. Qed.

Ltac rel_eta :=
  cbv beta iota;
  lazymatch goal with
  | |- rel (λ b1 b2, ?R b1 b2) _ _ _ => change (λ b1 b2 : lexbuf, R b1 b2) with R
  | _ => idtac
  end.

Ltac blind_rewrite ch1 ch2 H :=
  rewrite <- ?(same_byte_blind isdigit ch1 ch2 eq_refl H),
          <- ?(same_byte_blind isnmstart ch1 ch2 eq_refl H),
          <- ?(same_byte_blind isnmchar ch1 ch2 eq_refl H),
          <- ?(same_byte_blind iswhite ch1 ch2 eq_refl H).

(** One step of a lock-step proof. *)
Ltac rel_step :=
  rel_eta;
  lazymatch goal with
  | |- rel _ (mret _) (mret _) _ => apply rel_ret; try done
  | |- rel _ (fz_css_error _) _ _ => apply rel_error
  | |- rel _ (fz_css_error _ ≫= _) _ _ => apply rel_error_bind
  | |- rel _ (out_of_fuel ≫= _) _ _ => apply rel_out_of_fuel_bind
  | |- rel _ out_of_fuel _ _ => apply rel_out_of_fuel
  | |- rel _ ((_ ≫= _) ≫= _) _ _ => apply rel_assoc
  | |- rel _ (mret _ ≫= _) _ _ => apply rel_ret_bind
  | |- rel _ ((if ?b then _ else _) ≫= _) _ _ => destruct b
  | |- rel _ (if ?b then _ else _) _ _ => destruct b
  | |- rel lexsim (css_push_c ≫= λ _, css_lex_next ≫= _) _ _ =>
      apply rel_push_next_bind
  | |- rel lexsim (css_push_char _ ≫= _) _ _ =>
      eapply rel_bind_eq; [apply rel_push_lexsim|intros []]
  | |- rel lexsim (css_lex_accept _ ≫= _) _ _ =>
      eapply rel_bind_eq;
        [apply (rel_css_lex_accept lexsim); [byte_ok|byte_ok|done]
        |intros []; cbv beta iota]
  | |- rel lexsim (css_lex_accept_hex ≫= _) _ _ =>
      eapply rel_bind_eq; [apply rel_css_lex_accept_hex|intros []; cbv beta iota]
  | |- rel lexsim (css_lex_expect _ ≫= _) _ _ =>
      eapply rel_bind_eq; [apply rel_css_lex_expect; byte_ok|intros []]
  | |- rel lexsim (css_lex_next ≫= _) _ _ =>
      eapply rel_bind_eq; [apply rel_css_lex_next|intros []]
  | |- rel lexsim (while (λ buf, ?f (c buf)) _ ≫= _) _ _ =>
      eapply rel_bind_eq; [apply (rel_while_class f); [done|]|intros []]
  | |- rel lexsim (gets c ≫= _) _ _ =>
      let ch1 := fresh "ch" in let ch2 := fresh "ch" in let H := fresh "Hch" in
      apply rel_gets_c; intros ch1 ch2 H; blind_rewrite ch1 ch2 H
  | |- rel lexsim (css_push_c ≫= λ _, css_lex_next) _ _ => apply rel_push_next
  | |- rel lexsim css_lex_next _ _ => apply rel_css_lex_next
  | |- rel lexsim (css_push_char _) _ _ => apply rel_push_lexsim
  end.

Lemma rel_css_lex_keyword :
  rel lexsim css_lex_keyword css_lex_keyword (eqv lexsim).
Proof. unfold css_lex_keyword. repeat rel_step. Qed.

Lemma rel_css_lex_number :
  rel lexsim css_lex_number css_lex_number (eqv lexsim).
Proof.
  unfold css_lex_number. repeat rel_step.
Qed.

Lemma lexsim_set_color v1 v2 b1 b2 :
  v1 = v2 → lexsim b1 b2 → lexsim (set_color v1 b1) (set_color v2 b2).
Proof.
  intros -> [((? & ? & ? & ?) & ?)|((? & ? & ? & ?) & ?)]; [left|right]; done.
Qed.

Lemma lexsim_color_string b1 b2 :
  lexsim b1 b2 →
  lexsim (set_string (write_at 0 (sprintf_06x (color b1)) (string b1)) b1)
         (set_string (write_at 0 (sprintf_06x (color b2)) (string b2)) b2).
Proof.
  intros [((? & Hc & ? & Hs) & ?)|((? & Hc & ? & Hs) & ?)]; [left|right].
  all: split; [|done]; repeat split; simpl; try done; by rewrite Hc, Hs.
Qed.

Lemma rel_css_lex_color :
  rel lexsim css_lex_color css_lex_color (eqv lexsim).
Proof.
  unfold css_lex_color. repeat rel_step.
  all: eapply rel_modify_bind; [intros; by apply lexsim_set_color|].
  all: eapply rel_modify_bind; [intros; by apply lexsim_color_string|].
  all: by rel_step.
Qed.

(** The loop of [css_lex_string] runs on over the closing brace when the
    other side has stopped at the terminator, but there the other side
    fails: the loop is taken together with what follows it. *)
Lemma rel_string_body :
  rel lexsim
    (bs ← css_lex_accept (chr "\");
     if bs : bool then
       b ← css_lex_accept (chr "n");
       if b : bool then css_push_char 10 else
       b ← css_lex_accept (chr "r");
       if b : bool then css_push_char 13 else
       b ← css_lex_accept (chr "f");
       if b : bool then css_push_char 12 else
       b ← css_lex_accept 12;
       if b : bool then mret tt else
       b ← css_lex_accept 10;
       if b : bool then mret tt else
       b ← css_lex_accept 13;
       if b : bool then css_lex_accept 10 ;; mret tt
       else css_push_c ;; css_lex_next
     else css_push_c ;; css_lex_next)
    (bs ← css_lex_accept (chr "\");
     if bs : bool then
       b ← css_lex_accept (chr "n");
       if b : bool then css_push_char 10 else
       b ← css_lex_accept (chr "r");
       if b : bool then css_push_char 13 else
       b ← css_lex_accept (chr "f");
       if b : bool then css_push_char 12 else
       b ← css_lex_accept 12;
       if b : bool then mret tt else
       b ← css_lex_accept 10;
       if b : bool then mret tt else
       b ← css_lex_accept 13;
       if b : bool then css_lex_accept 10 ;; mret tt
       else css_push_c ;; css_lex_next
     else css_push_c ;; css_lex_next)
    (eqv lexsim).
Proof.
  repeat rel_step.
Qed.

Lemma while__out cond body buf :
  cond buf = true → while_ 0 cond body buf = OutOfFuel.
Proof. simpl. by intros ->. Qed.

Lemma rel_string_loop {A} q (body : M unit) (k : M A) n : ∀ m,
  (n ≤ m)%nat → q ≠ 0 → q ≠ chr "}" →
  rel lexsim body body (eqv lexsim) →
  rel mid k k (eqv lexsim) →
  (∀ buf, c buf = 0 → ∀ r, k buf ≠ Ok r) →
  rel lexsim
    (while_ n (λ buf, negb (c buf =? 0) && negb (c buf =? q)) body ;; k)
    (while_ m (λ buf, negb (c buf =? 0) && negb (c buf =? q)) body ;; k)
    (eqv lexsim).
Proof.
  set (cond := λ buf, negb (c buf =? 0) && negb (c buf =? q)).
  induction n as [|n IH]; intros m Hnm Hq0 Hqb Hbody Hk Hdead b1 b2 r b1' Hsim Hrun.
  all: destruct (cond b1) eqn:Hcond.
  all: try (rewrite (bind_Ok _ _ _ _ _ (while__false _ cond body b1 Hcond)) in Hrun).
  - by rewrite (bind_OutOfFuel _ _ _ (while__out cond body b1 Hcond)) in Hrun.
  - destruct Hsim as [Hmid|(_ & Hc1 & _)]; [|by destruct (Hdead _ Hc1 _ Hrun)].
    assert (Hc : c b1 = c b2) by apply Hmid.
    rewrite (bind_Ok _ _ _ _ _ (while__false _ cond body b2
               ltac:(by unfold cond in *; rewrite <- Hc))).
    by eapply Hk.
  - destruct Hsim as [Hmid|(_ & Hc1 & _)].
    2:{ unfold cond in Hcond. by rewrite Hc1 in Hcond. }
    assert (Hc : c b1 = c b2) by apply Hmid.
    destruct m as [|m]; [lia|].
    assert (Hb : ∀ j b, cond b = true →
              (while_ (S j) cond body ≫= λ _, k) b =
              (body ≫= λ _, while_ j cond body ≫= λ _, k) b).
    { intros j b Hcb. rewrite <- (bind_assoc body).
      unfold mbind at 1 3. unfold M_bind at 1 3.
      by rewrite while__true by done. }
    rewrite Hb in Hrun by done.
    rewrite Hb by (by unfold cond in *; rewrite <- Hc).
    eapply (rel_seq lexsim lexsim); [| |left; exact Hmid|exact Hrun].
    + eapply rel_conseq; [exact Hbody|done|]. by intros ? ? ? ? [_ ?].
    + apply IH; try done. lia.
  - destruct Hsim as [Hmid|(_ & Hc1 & _)]; [|by destruct (Hdead _ Hc1 _ Hrun)].
    assert (Hc : c b1 = c b2) by apply Hmid.
    rewrite (bind_Ok _ _ _ _ _ (while__false _ cond body b2
               ltac:(by unfold cond in *; rewrite <- Hc))).
    by eapply Hk.
Qed.

Lemma while_bind {A} cond body (k : unit → M A) buf :
  (while cond body ≫= k) buf = (while_ (S (length (s buf))) cond body ≫= k) buf.
Proof. reflexivity. Qed.

Lemma rel_css_lex_string q :
  q ≠ 0 → q ≠ chr "}" →
  rel lexsim (css_lex_string q) (css_lex_string q) (eqv lexsim).
Proof.
  intros Hq0 Hqb b1 b2 r b1' Hsim Hrun.
  unfold css_lex_string in *. rewrite while_bind in Hrun. rewrite while_bind.
  eapply rel_string_loop; [| | | | | |exact Hsim|exact Hrun]; try done.
  - apply lexsim_length in Hsim. lia.
  - apply rel_string_body.
  - apply rel_mid_lexsim. repeat rel_step.
  - intros buf Hc [t b'] Hk. unfold css_lex_expect in Hk.
    rewrite bind_assoc in Hk.
    by rewrite (bind_Ok _ _ _ _ _ (css_lex_accept_miss q buf ltac:(by rewrite Hc)))
      in Hk.
Qed.

Lemma rel_comment_step (k1 k2 : M unit) :
  rel lexsim k1 k2 (eqv lexsim) →
  rel mid
    (star ← css_lex_accept (chr "*");
     if star : bool then
       while (λ buf, c buf =? chr "*") css_lex_next ;;
       slash ← css_lex_accept (chr "/");
       if slash : bool then mret tt
       else css_lex_next ;; k1
     else css_lex_next ;; k1)
    (star ← css_lex_accept (chr "*");
     if star : bool then
       while (λ buf, c buf =? chr "*") css_lex_next ;;
       slash ← css_lex_accept (chr "/");
       if slash : bool then mret tt
       else css_lex_next ;; k2
     else css_lex_next ;; k2)
    (eqv lexsim).
Proof.
  intros Hk. apply rel_mid_lexsim. rel_step.
  - eapply rel_bind_eq.
    { apply (rel_while_class (λ x, x =? chr "*")); [done|apply rel_css_lex_next]. }
    intros []. rel_step; [by rel_step|]. by rel_step.
  - by rel_step.
Qed.

Lemma rel_css_lex_comment n : ∀ m,
  (n ≤ m)%nat →
  rel lexsim (css_lex_comment n) (css_lex_comment m) (eqv lexsim).
Proof.
  induction n as [|n IH]; intros m Hnm b1 b2 r b1' Hsim Hrun.
  - simpl in Hrun. rewrite bind_gets in Hrun. by destruct (c b1 =? 0).
  - destruct m as [|m]; [lia|].
    cbn [css_lex_comment] in *. rewrite bind_gets in *.
    destruct Hsim as [Hmid|(_ & Hc1 & _)]; [|by rewrite Hc1 in Hrun].
    assert (Hc : c b1 = c b2) by apply Hmid. rewrite <- Hc.
    destruct (c b1 =? 0); [done|].
    eapply (rel_comment_step _ _ (IH m ltac:(lia))); [exact Hmid|exact Hrun].
Qed.

Lemma css_lex_restart_unfold n :
  css_lex_restart n =
    (while (λ buf, iswhite (c buf)) css_lex_next ;;
     ch ← gets c;
     if ch =? 0 then mret EOF else css_lex_dispatch (goto_restart n)).
Proof. by destruct n. Qed.

Lemma rel_token (m1 m2 : M token) :
  rel lexsim m1 m2 (eqv lexsim) → rel lexsim m1 m2 same_token.
Proof. intros H. eapply rel_conseq; [exact H|done|]. intros ? ? ? ? [-> ?]. by left. Qed.

(** The closing brace becomes a token. *)
Lemma css_lex_dispatch_brace g b1 b2 :
  at_end b1 b2 →
  ∃ b2', css_lex_dispatch g b2 = Ok (Chr (chr "}"), b2') ∧ fin b1 b2'.
Proof.
  intros (Hag & Hc1 & Hs1 & Hc2 & Hs2).
  exists (advance 0 [] b2). split.
  - unfold css_lex_dispatch.
    repeat miss.
    rewrite bind_gets.
    replace (isdigit (c b2)) with false by (simpl; char_lia).
    miss.
    rewrite bind_gets.
    replace (isnmstart (c b2)) with false by (simpl; char_lia).
    erewrite bind_Ok by (by apply css_lex_next_cons).
    by rewrite Hc2.
  - split; [by apply (agree_advance 0 0 [] [] b1 b2) in Hag|done].
Qed.

Lemma css_lex_restart_brace n b1 b2 :
  at_end b1 b2 →
  ∃ b2', css_lex_restart n b2 = Ok (Chr (chr "}"), b2') ∧ fin b1 b2'.
Proof.
  intros Hend.
  destruct (css_lex_dispatch_brace (goto_restart n) _ _ Hend) as (b2' & Hrun & Hfin).
  exists b2'. split; [|done].
  destruct Hend as (Hag & Hc1 & Hs1 & Hc2 & Hs2).
  rewrite css_lex_restart_unfold.
  erewrite bind_Ok by (apply while_false; simpl; char_lia).
  rewrite bind_gets.
  by replace (c b2 =? 0) with false by (simpl; char_lia).
Qed.

(** [continue]: the test of [while (buf->c)] and the jump. *)
Lemma rel_continue (g1 g2 : M token) :
  rel mid g1 g2 same_token →
  (∀ b1 b2, at_end b1 b2 → ∃ b2', g2 b2 = Ok (Chr (chr "}"), b2') ∧ fin b1 b2') →
  rel lexsim (ch ← gets c; if ch =? 0 then mret EOF else g1)
             (ch ← gets c; if ch =? 0 then mret EOF else g2) same_token.
Proof.
  intros Hg Hbrace b1 b2 t b1' Hsim Hrun. rewrite bind_gets in *.
  destruct Hsim as [Hmid|Hend].
  - assert (Hc : c b1 = c b2) by apply Hmid. rewrite <- Hc.
    destruct (c b1 =? 0).
    + injection Hrun as <- <-. exists EOF, b2. split; [done|]. left. split; [done|by left].
    + by eapply Hg.
  - pose proof Hend as (_ & Hc1 & _ & Hc2 & _). rewrite Hc1 in Hrun. rewrite Hc2.
    injection Hrun as <- <-.
    destruct (Hbrace _ _ Hend) as (b2' & Hrun2 & Hfin).
    exists (Chr (chr "}")), b2'. split; [done|]. by right.
Qed.

Ltac rel_step_mid :=
  rel_eta;
  lazymatch goal with
  | |- rel mid (css_lex_accept _ ≫= _) _ _ =>
      eapply rel_bind_eq;
        [apply (rel_css_lex_accept mid); [byte_ok|byte_ok|by left]
        |intros []; cbv beta iota]
  | |- rel mid (gets c ≫= _) _ _ =>
      let ch := fresh "ch" in apply rel_gets_c_mid; intros ch
  | |- rel mid (if ?b then _ else _) _ _ => destruct b
  | |- rel mid _ _ _ => apply rel_mid_lexsim
  | |- rel lexsim css_lex_number _ _ => apply rel_token, rel_css_lex_number
  | |- rel lexsim css_lex_keyword _ _ => apply rel_token, rel_css_lex_keyword
  | |- rel lexsim css_lex_color _ _ => apply rel_token, rel_css_lex_color
  | |- rel lexsim (css_lex_string _) _ _ =>
      apply rel_token, rel_css_lex_string; byte_ok
  | |- rel lexsim (mret _) (mret _) same_token =>
      apply rel_ret; intros; by left
  | |- _ => rel_step
  end.

Lemma rel_css_lex_dispatch (g1 g2 : M token) :
  rel lexsim g1 g2 same_token →
  (∀ b1 b2, at_end b1 b2 → ∃ b2', g2 b2 = Ok (Chr (chr "}"), b2') ∧ fin b1 b2') →
  rel mid (css_lex_dispatch g1) (css_lex_dispatch g2) same_token.
Proof.
  intros Hg Hbrace.
  pose proof (rel_continue g1 g2 (rel_mid_lexsim _ _ _ Hg) Hbrace) as Hcont.
  unfold css_lex_dispatch. cbv zeta.
  repeat first [exact Hcont|rel_step_mid].
  rel_eta. intros b1 b2 t b1' Hsim Hrun. rewrite bind_gets in *.
  eapply (rel_bind_eq lexsim _ _ (λ _, lexsim)); [| |exact Hsim|exact Hrun].
  - apply rel_css_lex_comment. apply lexsim_length in Hsim. lia.
  - by intros [].
Qed.

Lemma rel_css_lex_restart n : ∀ m,
  (n < m)%nat → rel lexsim (css_lex_restart n) (css_lex_restart m) same_token.
Proof.
  induction n as [|n IH]; intros m Hnm.
  all: destruct m as [|m]; [lia|].
  all: rewrite !css_lex_restart_unfold.
  all: eapply rel_bind_eq;
         [apply (rel_while_class iswhite); [done|apply rel_css_lex_next]|intros []].
  all: apply rel_continue; [|intros; by apply css_lex_dispatch_brace].
  all: apply rel_css_lex_dispatch; cbn [goto_restart];
         [|intros; by apply css_lex_restart_brace].
  - apply rel_out_of_fuel.
  - apply IH. lia.
Qed.

Lemma rel_css_lex : rel lexsim css_lex css_lex same_token.
Proof.
  unfold css_lex.
  eapply (rel_modify_bind lexsim lexsim).
  { intros b1 b2 [((? & ? & ? & ?) & ?)|((? & ? & ? & ?) & ?)]; [left|right]; done. }
  intros b1 b2 t b1' Hsim Hrun. rewrite bind_gets in *.
  destruct Hsim as [Hmid|Hend].
  - assert (Hc : c b1 = c b2) by apply Hmid. rewrite <- Hc.
    destruct (c b1 =? 0).
    + injection Hrun as <- <-. exists EOF, b2. split; [done|]. left. split; [done|by left].
    + rewrite bind_gets in *.
      eapply rel_css_lex_restart; [|left; exact Hmid|exact Hrun].
      destruct Hmid as (_ & _ & u & -> & ->). rewrite !length_app. simpl. lia.
  - pose proof Hend as (_ & Hc1 & _ & Hc2 & _). rewrite Hc1 in Hrun. rewrite Hc2.
    injection Hrun as <- <-. change (chr "}" =? 0) with false. cbv iota.
    rewrite bind_gets.
    destruct (css_lex_restart_brace (S (length (s b2))) _ _ Hend) as (b2' & Hrun2 & Hfin).
    exists (Chr (chr "}")), b2'. split; [done|]. by right.
Qed.

(** ** The declarations of a rule and the declarations alone *)

Lemma lexsim_set_lookahead t1 t2 b1 b2 :
  lexsim b1 b2 → lexsim (set_lookahead t1 b1) (set_lookahead t2 b2).
Proof. intros [((? & ? & ? & ?) & ?)|((? & ? & ? & ?) & ?)]; [left|right]; done. Qed.

Lemma fin_set_lookahead t1 t2 b1 b2 :
  fin b1 b2 → fin (set_lookahead t1 b1) (set_lookahead t2 b2).
Proof. by intros ((? & ? & ? & ?) & ?). Qed.

Lemma rel_next : rel lexsim next next (λ _ b1 _ b2, parsim b1 b2).
Proof.
  unfold next. eapply rel_bind; [apply rel_css_lex|].
  intros t1 t2 b1 b2 [] b1' Htok [= <-].
  eexists tt, _. split; [reflexivity|].
  destruct Htok as [[-> Hsim]|(-> & -> & Hfin)].
  - left. split; [done|]. by apply lexsim_set_lookahead.
  - right. split; [done|]. split; [done|]. by apply fin_set_lookahead.
Qed.

Lemma rel_accept t :
  t ≠ EOF → t ≠ Chr (chr "}") →
  rel parsim (accept t) (accept t) (eqv parsim).
Proof.
  intros HE Hb b1 b2 r b1' Hsim Hrun.
  apply accept_inv in Hrun as [(-> & -> & Hne)|(-> & Hla & Hn)].
  - exists false, b2. split; [|done]. apply accept_miss.
    destruct Hsim as [[<- _]|(_ & -> & _)]; done.
  - destruct Hsim as [[Heq Hsim]|(HlaE & _)]; [|congruence].
    destruct (rel_next _ _ _ _ Hsim Hn) as ([] & b2' & Hn2 & Hp).
    exists true, b2'. split; [|done]. apply accept_hit; [congruence|done].
Qed.

Lemma rel_expect t :
  t ≠ EOF → t ≠ Chr (chr "}") →
  rel parsim (expect t) (expect t) (eqv parsim).
Proof.
  intros HE Hb. unfold expect.
  eapply rel_bind_eq; [by apply rel_accept|].
  intros []; [by apply rel_ret|apply rel_error].
Qed.

Lemma parsim_agree b1 b2 : parsim b1 b2 → agree b1 b2.
Proof. intros [[_ H]|(_ & _ & H & _)]; [by apply lexsim_agree|done]. Qed.

Lemma rel_fz_strdup_string :
  rel parsim fz_strdup_string fz_strdup_string (eqv parsim).
Proof.
  intros b1 b2 r b1' Hsim Hrun. unfold fz_strdup_string in *.
  destruct (parsim_agree _ _ Hsim) as (_ & _ & _ & <-).
  destruct (cstring (string b1)); [|done]. injection Hrun as <- <-.
  by exists l, b2.
Qed.

(** [next] when a token other than the end of input is in the lookahead. *)
Lemma rel_next_parsim {A} (k1 k2 : unit → M A) (Q : A → lexbuf → A → lexbuf → Prop) :
  rel parsim (k1 tt) (k2 tt) Q →
  rel (λ b1 b2, parsim b1 b2 ∧ lookahead b1 ≠ EOF) (next ≫= k1) (next ≫= k2) Q.
Proof.
  intros Hk b1 b2 r b1' [Hsim Hla] Hrun.
  destruct Hsim as [[_ Hsim]|(HlaE & _)]; [|done].
  eapply rel_bind; [apply rel_next| |exact Hsim|exact Hrun].
  by intros [] [].
Qed.

Lemma rel_gets_lookahead {A} (k1 k2 : token → M A)
    (Q : A → lexbuf → A → lexbuf → Prop) :
  (∀ la, rel (λ b1 b2, parsim b1 b2 ∧ lookahead b1 = la ∧ lookahead b2 = la)
             (k1 la) (k2 la) Q) →
  rel (λ b1 b2, parsim b1 b2 ∧ lookahead b1 = EOF ∧ lookahead b2 = Chr (chr "}"))
      (k1 EOF) (k2 (Chr (chr "}"))) Q →
  rel parsim (gets lookahead ≫= k1) (gets lookahead ≫= k2) Q.
Proof.
  intros Hsame Hend b1 b2 r b1' Hsim Hrun. rewrite bind_gets in *.
  destruct Hsim as [[Heq Hsim]|(HlaE & Hlab & Hfin)].
  - rewrite <- Heq. eapply Hsame; [|done]. split; [by left|done].
  - rewrite HlaE in Hrun. rewrite Hlab. eapply Hend; [|done].
    split; [by right|done].
Qed.

Lemma parse_value_list_unfold n :
  parse_value_list n = parse_value_list_with (parse_value_list_rec n).
Proof. by destruct n. Qed.

(** A step that leaves the state alone keeps whatever is known of it. *)
Lemma rel_fz_strdup_string_keep (R : lexbuf → lexbuf → Prop) :
  (∀ b1 b2, R b1 b2 → parsim b1 b2) →
  rel R fz_strdup_string fz_strdup_string (eqv R).
Proof.
  intros HR b1 b2 r b1' Hsim Hrun. unfold fz_strdup_string in *.
  destruct (parsim_agree _ _ (HR _ _ Hsim)) as (_ & _ & _ & <-).
  destruct (cstring (string b1)); [|done]. injection Hrun as <- <-.
  by exists l, b2.
Qed.

Lemma rel_strdup_next {A} la (k1 k2 : list Z → M A)
    (Q : A → lexbuf → A → lexbuf → Prop) :
  la ≠ EOF →
  (∀ d, rel parsim (k1 d) (k2 d) Q) →
  rel (looking_at la) (d ← fz_strdup_string; next ;; k1 d)
                      (d ← fz_strdup_string; next ;; k2 d) Q.
Proof.
  intros Hla Hk.
  eapply rel_bind_eq; [apply (rel_fz_strdup_string_keep (looking_at la)); by intros ? ? [? _]|].
  intros d. eapply rel_conseq; [apply rel_next_parsim, Hk| |done].
  intros b1 b2 (? & -> & _). done.
Qed.

Ltac tok_ok := first [done | by (intros [=])].

Ltac prel_step :=
  rel_eta;
  lazymatch goal with
  | |- rel _ (mret _) (mret _) _ => apply rel_ret; try done
  | |- rel _ (fz_css_error _) _ _ => apply rel_error
  | |- rel _ (fz_css_error _ ≫= _) _ _ => apply rel_error_bind
  | |- rel _ ((_ ≫= _) ≫= _) _ _ => apply rel_assoc
  | |- rel _ (mret _ ≫= _) _ _ => apply rel_ret_bind
  | |- rel parsim (accept _ ≫= _) _ _ =>
      eapply rel_bind_eq; [apply rel_accept; tok_ok|intros []; cbv beta iota]
  | |- rel parsim (expect _ ≫= _) _ _ =>
      eapply rel_bind_eq; [apply rel_expect; tok_ok|intros []]
  | |- rel parsim (expect _) _ _ => apply rel_expect; tok_ok
  | |- rel (looking_at _) (fz_strdup_string ≫= _) _ _ =>
      apply rel_strdup_next; [tok_ok|intros ?]
  | |- rel (looking_at _) (if ?b then _ else _) _ _ => destruct b
  | |- rel (looking_at _) _ _ _ =>
      eapply rel_conseq; [|by intros ? ? [? _]|done]
  end.

Lemma rel_parse_value_with (rec1 rec2 : M (list fz_css_value)) :
  rel parsim rec1 rec2 (eqv parsim) →
  rel parsim (parse_value_with rec1) (parse_value_with rec2) (eqv parsim).
Proof.
  intros Hrec. unfold parse_value_with.
  apply rel_gets_lookahead.
  - intros la. fold (looking_at la). case_decide as Hk.
    + subst la. repeat prel_step.
      eapply rel_bind_eq; [exact Hrec|]. intros args. repeat prel_step.
    + destruct la; try done; repeat prel_step.
  - eapply rel_conseq; [|by intros ? ? [? _]|done].
    simpl. repeat prel_step.
Qed.

Lemma rel_parse_value_list_with (rec1 rec2 : M (list fz_css_value)) :
  rel parsim rec1 rec2 (eqv parsim) →
  rel parsim (parse_value_list_with rec1) (parse_value_list_with rec2) (eqv parsim).
Proof.
  intros Hrec. unfold parse_value_list_with.
  apply rel_gets_lookahead.
  - intros la. eapply rel_conseq; [|by intros ? ? [? _]|done].
    destruct (value_list_end la); [by apply rel_ret|].
    eapply rel_bind_eq; [by apply rel_parse_value_with|]. intros v.
    eapply rel_bind_eq; [exact Hrec|]. intros vs. by apply rel_ret.
  - simpl. apply rel_ret. by intros ? ? [? _].
Qed.

Lemma rel_parse_value_list n : ∀ m,
  (n ≤ m)%nat → rel parsim (parse_value_list n) (parse_value_list m) (eqv parsim).
Proof.
  induction n as [|n IH]; intros m Hnm; rewrite !parse_value_list_unfold.
  - apply rel_parse_value_list_with. apply rel_out_of_fuel.
  - destruct m as [|m]; [lia|].
    apply rel_parse_value_list_with. apply IH. lia.
Qed.

Lemma rel_parse_declaration n m :
  (n ≤ m)%nat →
  rel parsim (parse_declaration n) (parse_declaration m) (eqv parsim).
Proof.
  intros Hnm. unfold parse_declaration.
  apply rel_gets_lookahead.
  - intros la. fold (looking_at la). case_decide as Hk; [|apply rel_error].
    subst la. repeat prel_step.
    eapply rel_bind_eq; [by apply rel_parse_value_list|]. intros v.
    prel_step; repeat prel_step.
  - simpl. apply rel_error.
Qed.

Lemma parse_declaration_loop_unfold n :
  parse_declaration_loop (S n) =
    (b ← accept (Chr (chr ";"));
     if b : bool then parse_declaration_loop_with (S n) (parse_declaration_loop n)
     else mret []).
Proof. reflexivity. Qed.

Lemma rel_parse_declaration_loop n : ∀ m,
  (n ≤ m)%nat →
  rel parsim (parse_declaration_loop n) (parse_declaration_loop m) (eqv parsim).
Proof.
  induction n as [|n IH]; intros m Hnm.
  - destruct m; simpl; prel_step; try apply rel_out_of_fuel; by apply rel_ret.
  - destruct m as [|m]; [lia|]. rewrite !parse_declaration_loop_unfold.
    prel_step; [|by apply rel_ret].
    unfold parse_declaration_loop_with.
    apply rel_gets_lookahead.
    + intros la. eapply rel_conseq; [|by intros ? ? [? _]|done].
      destruct (declaration_start la); [|apply IH; lia].
      eapply rel_bind_eq; [apply rel_parse_declaration; lia|]. intros p.
      eapply rel_bind_eq; [apply IH; lia|]. intros ps. by apply rel_ret.
    + simpl. eapply rel_conseq; [apply IH|by intros ? ? [? _]|done]. lia.
Qed.

Lemma rel_parse_declaration_list n m :
  (n ≤ m)%nat →
  rel parsim (parse_declaration_list n) (parse_declaration_list m) (eqv parsim).
Proof.
  intros Hnm. unfold parse_declaration_list.
  apply rel_gets_lookahead.
  - intros la. eapply rel_conseq; [|by intros ? ? [? _]|done].
    destruct (bool_decide (la = Chr (chr "}")) || bool_decide (la = EOF));
      [by apply rel_ret|].
    eapply rel_bind_eq; [by apply rel_parse_declaration|]. intros p.
    eapply rel_bind_eq; [by apply rel_parse_declaration_loop|]. intros ps.
    by apply rel_ret.
  - simpl. apply rel_ret. by intros ? ? [? _].
Qed.

Lemma entry_lexsim src : lexsim (lexer_entry src) (block_entry src).
Proof.
  unfold lexer_entry, block_entry. destruct src as [|x u]; simpl.
  - right. done.
  - left. repeat split; try done. exists u. by rewrite <- (assoc_L (++)).
Qed.

Lemma css_lex_init_inline src :
  css_lex_init (lexbuf_at src) = Ok (tt, lexer_entry src).
Proof. unfold lexer_entry. by destruct src. Qed.

Lemma start_wrap src : start (wrap src) = Ok (tt, star_entry src).
Proof. reflexivity. Qed.

Lemma parse_selector_list_star n src :
  parse_selector_list (S n) (star_entry src) = Ok (universal, block_entry src).
Proof. unfold block_entry. destruct src as [|x u]; reflexivity. Qed.

Lemma bind_accept_hit {A} t (k : bool → M A) buf :
  lookahead buf = t → (accept t ≫= k) buf = (next ≫= λ _, k true) buf.
Proof.
  intros Hla. unfold accept. rewrite bind_assoc, bind_gets, decide_True by done.
  by rewrite bind_assoc.
Qed.

Lemma bind_expect_hit {A} t (k : unit → M A) buf :
  lookahead buf = t → (expect t ≫= k) buf = (next ≫= λ _, k tt) buf.
Proof.
  intros Hla. unfold expect. rewrite bind_assoc, bind_accept_hit by done.
  reflexivity.
Qed.

Lemma block_entry_lookahead src : lookahead (block_entry src) = Chr (chr "{").
Proof. unfold block_entry. by destruct src. Qed.

Lemma parse_stylesheet_loop_S n nextp tail h :
  parse_stylesheet_loop (S n) nextp tail h =
    (la ← gets lookahead;
     if negb (bool_decide (la = EOF)) then
       b ← accept (Chr (chr "@"));
       if b : bool then
         parse_at_rule (S n) ;;
         parse_stylesheet_loop n nextp tail h
       else
         '(rule, h1) ← parse_rule (S n) h;
         let '(tail', h2) := store_rule nextp rule tail h1 in
         parse_stylesheet_loop n (NextOf rule) tail' h2
     else mret (tail, h)).
Proof. reflexivity. Qed.

(** [fz_parse_css] on the wrapped source, up to the first declaration. *)
Lemma fz_parse_css_wrap src :
  fz_parse_css [] None (wrap src) =
    result ((next ;;
             p ← parse_declaration_list (fuel (wrap src));
             expect (Chr (chr "}")) ;;
             parse_stylesheet_loop (S (length (wrap src))) (NextOf 0%nat) (Some 0%nat)
               [Rule universal p [] None]) (block_entry src)).
Proof.
  rewrite fz_parse_css_start, start_wrap, parse_stylesheet_None.
  f_equal. unfold fuel at 1. rewrite parse_stylesheet_loop_S.
  rewrite bind_gets. change (lookahead (star_entry src)) with (Chr (chr "*")).
  rewrite bool_decide_false by done. cbn [negb].
  rewrite (bind_Ok _ _ _ _ _ (accept_miss (Chr (chr "@")) (star_entry src) ltac:(done))).
  rewrite bind_parse_rule. unfold parse_rule_body.
  rewrite !bind_assoc.
  rewrite (bind_Ok _ _ _ _ _ (parse_selector_list_star _ src)).
  rewrite !bind_assoc.
  rewrite bind_expect_hit by apply block_entry_lookahead.
  unfold mbind, M_bind.
  destruct (next (block_entry src)) as [[[] b1]| | |]; try done.
  destruct (parse_declaration_list _ b1) as [[p b2]| | |]; try done.
  by destruct (expect _ b2) as [[[] b3]| | |].
Qed.

Lemma fuel_wrap src : (fuel src ≤ fuel (wrap src))%nat.
Proof. unfold fuel, wrap. rewrite !length_app. lia. Qed.

(** The declarations alone and the declarations of the wrapping rule. *)
Lemma rel_inline_block src :
  rel lexsim (next ;; parse_declaration_list (fuel src))
    (next ;; parse_declaration_list (fuel (wrap src))) (eqv parsim).
Proof.
  eapply rel_bind; [apply rel_next|]. intros [] [].
  apply rel_parse_declaration_list, fuel_wrap.
Qed.

Lemma fz_parse_css_properties_inline src :
  fz_parse_css_properties src =
    result ((next ;; parse_declaration_list (fuel src)) (lexer_entry src)).
Proof.
  unfold fz_parse_css_properties.
  by rewrite (bind_Ok _ _ _ _ _ (css_lex_init_inline src)).
Qed.

Lemma fz_parse_css_properties_end_inline src :
  fz_parse_css_properties_end src =
    match (next ;; parse_declaration_list (fuel src)) (lexer_entry src) with
    | Ok (_, buf) => Some (lookahead buf)
    | _ => None
    end.
Proof.
  unfold fz_parse_css_properties_end.
  by rewrite (bind_Ok _ _ _ _ _ (css_lex_init_inline src)).
Qed.

Lemma next_at_end buf :
  c buf = 0 → ∃ buf', next buf = Ok (tt, buf') ∧ lookahead buf' = EOF.
Proof.
  intros Hc. unfold next, css_lex.
  rewrite !bind_assoc, bind_modify, bind_assoc, bind_gets. cbn [c set_string_len].
  rewrite Hc. simpl. eauto.
Qed.

(** C5 (amended).  Whenever the declarations [src] parse on their own and
    the source ["*{" + src + "}"] parses as a style sheet, the first rule of
    that sheet is the rule of the universal selector, and its declarations are
    the ones that [fz_parse_css_properties] returns for [src].  It is the only
    rule when [fz_parse_css_properties] has read [src] to its end. *)
Theorem fz_parse_css_properties_first_rule src props p h :
  fz_parse_css_properties src = Ok props →
  fz_parse_css [] None (wrap src) = Ok (p, h) →
  ∃ rest, rules h p = Some ((universal, props) :: rest) ∧
          (fz_parse_css_properties_end src = Some EOF → rest = []).
Proof.
  rewrite fz_parse_css_properties_inline, fz_parse_css_wrap,
    fz_parse_css_properties_end_inline.
  intros Hin Hsheet.
  apply result_Ok_inv in Hin as [b1 Hin]. apply result_Ok_inv in Hsheet as [b2 Hsheet].
  destruct (rel_inline_block src _ _ _ _ (entry_lexsim src) Hin)
    as (props' & b2' & Hblock & <- & Hsim).
  rewrite <- (bind_assoc next (λ _, parse_declaration_list (fuel (wrap src)))) in Hsheet.
  rewrite (bind_Ok _ _ _ _ _ Hblock) in Hsheet.
  apply bind_inv in Hsheet as ([] & b3 & Hexpect & Hloop).
  pose proof (parse_stylesheet_loop_same (S (length (wrap src))) b3
                [Rule universal props [] None] [Rule universal props [] None]
                None None (Some 0%nat) (Some 0%nat) (NextOf 0%nat) (NextOf 0%nat)
                [(universal, props)] [(universal, props)]) as Hs.
  rewrite Hloop in Hs.
  destruct Hs as (_ & rest & nx & _ & Ho & _).
  - by apply (open_linked _ None (Some 0%nat) 0%nat _ 0%nat), (chain_to_fresh []).
  - by apply (open_linked _ None (Some 0%nat) 0%nat _ 0%nat), (chain_to_fresh []).
  - exists rest. apply open_chain_rules in Ho. cbn [app] in Ho.
    split; [exact Ho|].
    rewrite Hin. intros [= Hend].
    destruct Hsim as [[Hla _]|(_ & Hbrace & Hfin)].
    + (* the sheet would end in front of its closing brace *)
      unfold expect in Hexpect.
      rewrite (bind_Ok _ _ _ _ _ (accept_miss (Chr (chr "}")) b2'
                 ltac:(by rewrite <- Hla, Hend))) in Hexpect.
      discriminate Hexpect.
    + (* the closing brace is the last token of the sheet *)
      destruct (next_at_end b2') as (b3' & Hnext & Heof); [apply Hfin|].
      unfold expect in Hexpect.
      rewrite (bind_Ok _ _ _ _ _ (accept_hit _ _ _ Hbrace Hnext)) in Hexpect.
      injection Hexpect as <-.
      rewrite parse_stylesheet_loop_S, bind_gets, Heof in Hloop.
      injection Hloop as <- <-. by injection Ho as <-.
Qed.

(** * The tokens that [css_lex] can return *)

Lemma yields_bind {A B} P (m : M A) (k : A → M B) Q :
  (∀ a, yields anywhere (k a) Q) → yields P (m ≫= k) Q.
Proof.
  intros Hk buf b buf' _ H. apply bind_inv in H as (a & buf1 & _ & H).
  by eapply Hk.
Qed.

Lemma yields_ret {A} P (a : A) (Q : A → Prop) : Q a → yields P (mret a) Q.
Proof. by intros HQ buf a' buf' _ [= <- <-]. Qed.

Lemma yields_accept {A} P t (k : bool → M A) Q :
  yields anywhere (k true) Q →
  yields (λ buf, P buf ∧ c buf ≠ t) (k false) Q →
  yields P (css_lex_accept t ≫= k) Q.
Proof.
  intros Ht Hf buf a buf' HP H. apply bind_inv in H as (b & buf1 & Ha & H).
  apply css_lex_accept_inv in Ha as [(-> & -> & Hne)|(-> & _ & _)].
  - by eapply Hf.
  - by eapply Ht.
Qed.

Lemma yields_gets_c {A} P (k : Z → M A) Q :
  (∀ ch, yields (λ buf, P buf ∧ c buf = ch) (k ch) Q) → yields P (gets c ≫= k) Q.
Proof. intros Hk buf a buf' HP H. rewrite bind_gets in H. by eapply Hk. Qed.

Lemma yields_anywhere {A} P (m : M A) Q : yields anywhere m Q → yields P m Q.
Proof. intros Hm buf a buf' _ H. by eapply Hm. Qed.

Lemma yields_if {A} P (b : bool) (m1 m2 : M A) Q :
  yields P m1 Q → yields P m2 Q → yields P (if b then m1 else m2) Q.
Proof. by destruct b. Qed.

Lemma yields_css_lex_number P : yields P css_lex_number no_hash.
Proof.
  unfold css_lex_number.
  apply yields_bind. intros _. apply yields_bind. intros dot.
  apply yields_bind. intros _. apply yields_bind. intros pct.
  destruct pct.
  - do 2 (apply yields_bind; intros _). by apply yields_ret.
  - apply yields_bind. intros ch. destruct (isnmstart ch).
    + do 4 (apply yields_bind; intros _). by apply yields_ret.
    + apply yields_bind; intros _. by apply yields_ret.
Qed.

Lemma yields_css_lex_keyword P : yields P css_lex_keyword no_hash.
Proof.
  unfold css_lex_keyword. do 2 (apply yields_bind; intros _). by apply yields_ret.
Qed.

Lemma yields_css_lex_string P q : yields P (css_lex_string q) no_hash.
Proof.
  unfold css_lex_string. do 3 (apply yields_bind; intros _). by apply yields_ret.
Qed.

Lemma yields_css_lex_color P : yields P css_lex_color (λ t, t = CSS_COLOR).
Proof.
  unfold css_lex_color.
  apply yields_bind. intros [a|]; [|by intros ? ? ? _ [=]].
  apply yields_bind. intros [b|]; [|by intros ? ? ? _ [=]].
  apply yields_bind. intros [c0|]; [|by intros ? ? ? _ [=]].
  apply yields_bind. intros d.
  do 2 (apply yields_bind; intros _). by apply yields_ret.
Qed.

Lemma yields_other P ch :
  (∀ buf, P buf → ch ≠ chr "#") →
  yields P (css_lex_next ;; mret (Chr ch)) no_hash.
Proof.
  intros Hch buf t buf' HP H. apply bind_inv in H as ([] & buf1 & _ & [= <- <-]).
  intros [= ->]. by eapply Hch.
Qed.

Ltac yields_step :=
  lazymatch goal with
  | |- yields _ (css_lex_next ≫= λ _, mret (Chr _)) _ =>
      apply yields_other; intros ? ?; intuition congruence
  | |- yields _ (css_lex_accept _ ≫= _) _ => apply yields_accept
  | |- yields _ (gets c ≫= _) _ => apply yields_gets_c; intros ?
  | |- yields _ (if _ then _ else _) _ => apply yields_if
  | |- yields _ (mret _) _ => by apply yields_ret
  | |- yields _ css_lex_number _ => apply yields_css_lex_number
  | |- yields _ css_lex_keyword _ => apply yields_css_lex_keyword
  | |- yields _ (css_lex_string _) _ => apply yields_css_lex_string
  | |- yields _ css_lex_color _ =>
      intros ? ? ? HP Hrun; by rewrite (yields_css_lex_color _ _ _ _ HP Hrun)
  | |- yields _ (_ ≫= _) _ => apply yields_bind; intros ?
  end.

Lemma yields_css_lex_dispatch g :
  yields anywhere g no_hash → yields anywhere (css_lex_dispatch g) no_hash.
Proof.
  intros Hg. unfold css_lex_dispatch.
  repeat first [ apply (yields_anywhere _ g), Hg | yields_step ].
Qed.

(** [css_lex] never returns the character token [#]: a [#] always starts a
    colour. *)
Lemma yields_css_lex_restart n : yields anywhere (css_lex_restart n) no_hash.
Proof.
  induction n as [|n IH]; rewrite css_lex_restart_unfold.
  all: apply yields_bind; intros _; apply yields_bind; intros ch.
  all: destruct (ch =? 0); [by apply yields_ret|].
  all: apply yields_css_lex_dispatch; simpl.
  - by intros ? ? ? _ [=].
  - exact IH.
Qed.

Lemma yields_css_lex : yields anywhere css_lex no_hash.
Proof.
  unfold css_lex. apply yields_bind. intros _. apply yields_bind. intros ch.
  destruct (ch =? 0); [by apply yields_ret|].
  apply yields_bind. intros n0. apply yields_css_lex_restart.
Qed.

Lemma next_lookahead buf buf' :
  next buf = Ok (tt, buf') → lookahead buf' ≠ Chr (chr "#").
Proof.
  unfold next. intros H. apply bind_inv in H as (t & buf1 & Hlex & [= <-]).
  exact (yields_css_lex _ _ _ I Hlex).
Qed.

(** ** Conditions *)

Lemma yields_bind_post {A B} P (m : M A) (k : A → M B) Q1 Q :
  yields P m Q1 → (∀ a, Q1 a → yields anywhere (k a) Q) → yields P (m ≫= k) Q.
Proof.
  intros Hm Hk buf b buf' HP H. apply bind_inv in H as (a & buf1 & Ha & H).
  eapply Hk; [|done|done]. by eapply Hm.
Qed.

Lemma yields_accept_token {A} P t (k : bool → M A) Q :
  yields anywhere (k true) Q → yields P (k false) Q → yields P (accept t ≫= k) Q.
Proof.
  intros Ht Hf buf a buf' HP H. apply bind_inv in H as (b & buf1 & Ha & H).
  apply accept_inv in Ha as [(-> & -> & Hne)|(-> & _ & _)].
  - by eapply Hf.
  - by eapply Ht.
Qed.

Lemma yields_accept_never {A} P t (k : bool → M A) Q :
  (∀ buf, P buf → lookahead buf ≠ t) →
  yields P (k false) Q → yields P (accept t ≫= k) Q.
Proof.
  intros Hla Hf buf a buf' HP H. apply bind_inv in H as (b & buf1 & Ha & H).
  apply accept_inv in Ha as [(-> & -> & Hne)|(-> & Heq & _)].
  - by eapply Hf.
  - by destruct (Hla _ HP).
Qed.

Lemma yields_error {A} P msg (Q : A → Prop) : yields P (fz_css_error msg) Q.
Proof. by intros ? ? ? _ [=]. Qed.

(** Behind a lookahead that is not [#], [parse_condition] returns no
    condition of the type [#]. *)
Lemma yields_parse_condition :
  yields (λ buf, lookahead buf ≠ Chr (chr "#")) parse_condition
    (λ cnd, cond_type cnd ≠ chr "#").
Proof.
  unfold parse_condition.
  apply yields_accept_token.
  { apply yields_bind. intros la. case_decide; [|apply yields_error].
    do 2 (apply yields_bind; intros ?). by apply yields_ret. }
  apply yields_accept_token.
  { apply yields_bind. intros la. case_decide; [|apply yields_error].
    do 2 (apply yields_bind; intros ?). by apply yields_ret. }
  apply yields_accept_never; [done|].
  apply yields_accept_token; [|apply yields_error].
  apply yields_bind. intros la. case_decide; [|apply yields_error].
  do 2 (apply yields_bind; intros ?).
  apply (yields_bind_post _ _ _ (λ cnd, cond_type cnd ≠ chr "#")).
  - apply yields_accept_token.
    { apply yields_bind; intros ?. by apply yields_ret. }
    apply yields_accept_token.
    { do 2 (apply yields_bind; intros ?). by apply yields_ret. }
    apply yields_accept_token.
    { do 2 (apply yields_bind; intros ?). by apply yields_ret. }
    by apply yields_ret.
  - intros cnd Hcnd. apply yields_bind; intros ?. by apply yields_ret.
Qed.

(** * The fuel of the loops is enough

    The loops of the C code end because every round consumes input.  The
    embedding bounds them by the number of bytes that are left; this part
    shows that the bound is never reached: neither entry point returns
    [OutOfFuel]. *)

Lemma run_bind {A B} (m : M A) (k : A → M B) buf Q1 Q :
  run m buf Q1 → (∀ a b1, Q1 a b1 → run (k a) b1 Q) → run (m ≫= k) buf Q.
Proof.
  unfold run, mbind, M_bind. destruct (m buf) as [[a b1]| | |]; try done.
  intros H1 Hk. by apply Hk.
Qed.

Lemma run_conseq {A} (m : M A) buf (Q1 Q : A → lexbuf → Prop) :
  run m buf Q1 → (∀ a b1, Q1 a b1 → Q a b1) → run m buf Q.
Proof. unfold run. destruct (m buf) as [[a b1]| | |]; try done. intros H1 HQ. by apply HQ. Qed.

Lemma run_ret {A} (a : A) buf (Q : A → lexbuf → Prop) : Q a buf → run (mret a) buf Q.
Proof. done. Qed.

Lemma run_gets {A B} (f : lexbuf → A) (k : A → M B) buf Q :
  run (k (f buf)) buf Q → run (gets f ≫= k) buf Q.
Proof. done. Qed.

Lemma run_modify {B} (f : lexbuf → lexbuf) (k : unit → M B) buf Q :
  run (k tt) (f buf) Q → run (modify f ≫= k) buf Q.
Proof. done. Qed.

Lemma run_error {A} msg buf (Q : A → lexbuf → Prop) : run (fz_css_error msg) buf Q.
Proof. done. Qed.

Lemma run_ret_bind {A B} (a : A) (k : A → M B) buf Q :
  run (k a) buf Q → run (mret a ≫= k) buf Q.
Proof. done. Qed.

Lemma run_error_bind {A B} msg (k : A → M B) buf (Q : B → lexbuf → Prop) :
  run (fz_css_error msg ≫= k) buf Q.
Proof. done. Qed.

Lemma run_assoc {A B C} (m : M A) (k1 : A → M B) (k2 : B → M C) buf Q :
  run (m ≫= λ a, k1 a ≫= k2) buf Q → run ((m ≫= k1) ≫= k2) buf Q.
Proof. unfold run. by rewrite bind_assoc. Qed.

(** ** The lexer *)

Lemma run_css_lex_next buf :
  run css_lex_next buf (λ _ b', S (len b') = len buf).
Proof. unfold run, css_lex_next, len. by destruct (s buf). Qed.

Lemma run_css_push_char ch buf :
  run (css_push_char ch) buf (λ _ b', len b' = len buf ∧ c b' = c buf).
Proof.
  unfold run, css_push_char. rewrite bind_gets.
  by destruct (string_len buf + 1 >=? nelem_string).
Qed.

Lemma run_css_push_c buf :
  run css_push_c buf (λ _ b', len b' = len buf ∧ c b' = c buf).
Proof. unfold css_push_c. apply run_gets, run_css_push_char. Qed.

Lemma run_css_lex_accept t buf :
  run (css_lex_accept t) buf
    (λ b b', if b : bool then S (len b') = len buf else b' = buf ∧ c buf ≠ t).
Proof.
  unfold css_lex_accept. apply run_gets.
  destruct (Z.eqb_spec (c buf) t); [|by apply run_ret].
  eapply run_bind; [apply run_css_lex_next|]. by intros [] b1 H.
Qed.

Lemma run_css_lex_expect t buf :
  run (css_lex_expect t) buf (λ _ b', S (len b') = len buf).
Proof.
  unfold css_lex_expect. eapply run_bind; [apply run_css_lex_accept|].
  intros [] b1 H; [by apply run_ret|apply run_error].
Qed.

Lemma run_css_lex_accept_hex buf :
  run css_lex_accept_hex buf (λ _ b', (len b' ≤ len buf)%nat).
Proof.
  unfold css_lex_accept_hex. apply run_gets. destruct (ishex (c buf)).
  - eapply run_bind; [apply run_css_lex_next|]. intros [] b1 H. apply run_ret. lia.
  - by apply run_ret.
Qed.

(** A loop whose rounds consume input ends within the fuel that [while]
    gives it; it consumes input if it is entered at all. *)
Lemma run_while_ cond body :
  (∀ b, run body b (λ _ b', (len b' < len b)%nat)) →
  ∀ n buf, (len buf < n)%nat →
  run (while_ n cond body) buf
    (λ _ b', (len b' ≤ len buf)%nat ∧ (cond buf = true → (len b' < len buf)%nat)).
Proof.
  intros Hbody. induction n as [|n IH]; intros buf Hn; [lia|].
  unfold run. simpl. destruct (cond buf) eqn:Hc; [|split; [lia|done]].
  fold (run (body ;; while_ n cond body) buf
          (λ _ b', (len b' ≤ len buf)%nat ∧ (true = true → (len b' < len buf)%nat))).
  eapply run_bind; [apply Hbody|]. intros [] b1 H1.
  eapply run_conseq; [apply IH; lia|]. intros [] b2 [H2 _]. split; [lia|]. intros _. lia.
Qed.

Lemma run_while cond body buf :
  (∀ b, run body b (λ _ b', (len b' < len b)%nat)) →
  run (while cond body) buf
    (λ _ b', (len b' ≤ len buf)%nat ∧ (cond buf = true → (len b' < len buf)%nat)).
Proof. intros Hbody. apply (run_while_ cond body Hbody). unfold len. lia. Qed.

Lemma run_push_next buf :
  run (css_push_c ;; css_lex_next) buf (λ _ b', (len b' < len buf)%nat).
Proof.
  eapply run_bind; [apply run_css_push_c|]. intros [] b1 [H1 _].
  eapply run_conseq; [apply run_css_lex_next|]. intros [] b2 H2. lia.
Qed.

Ltac run_arith :=
  repeat match goal with
  | H : if ?b then _ else _ |- _ => destruct b
  | H : _ ∧ _ |- _ => destruct H
  | H : ?b' = ?b |- _ => is_var b'; subst b'
  end;
  repeat split; intros;
  repeat match goal with
  | H : ?P → _, H' : ?P |- _ => specialize (H H')
  end;
  unfold len in *;
  cbn [s c lookahead set_string set_color set_string_len set_lookahead] in *;
  try done; try lia.

Ltac run_with lem := eapply run_bind; [apply lem|cbv beta; intros ? ? ?].

Ltac run_last lem := eapply run_conseq; [apply lem|cbv beta; intros ? ? ?; run_arith].

Ltac run_step :=
  lazymatch goal with
  | |- run (mret _) _ _ => apply run_ret; run_arith
  | |- run (fz_css_error _) _ _ => apply run_error
  | |- run (mret _ ≫= _) _ _ => apply run_ret_bind
  | |- run (fz_css_error _ ≫= _) _ _ => apply run_error_bind
  | |- run ((if ?b then _ else _) ≫= _) _ _ => destruct b eqn:?
  | |- run ((_ ≫= _) ≫= _) _ _ => apply run_assoc
  | |- run (gets _ ≫= _) _ _ => apply run_gets
  | |- run (modify _ ≫= _) _ _ => apply run_modify
  | |- run (css_lex_accept _ ≫= _) _ _ => run_with run_css_lex_accept
  | |- run (css_lex_expect _ ≫= _) _ _ => run_with run_css_lex_expect
  | |- run (css_lex_next ≫= _) _ _ => run_with run_css_lex_next
  | |- run (css_push_char _ ≫= _) _ _ => run_with run_css_push_char
  | |- run (css_push_c ≫= _) _ _ => run_with run_css_push_c
  | |- run (css_lex_accept_hex ≫= _) _ _ =>
      eapply run_bind; [apply run_css_lex_accept_hex|cbv beta; intros [?|] ? ?]
  | |- run (while _ (css_push_c ;; css_lex_next) ≫= _) _ _ =>
      eapply run_bind; [apply run_while, run_push_next|cbv beta; intros ? ? ?]
  | |- run (while _ css_lex_next ≫= _) _ _ =>
      eapply run_bind;
        [apply run_while; intros ?; eapply run_conseq;
           [apply run_css_lex_next|cbv beta; intros; lia]
        |cbv beta; intros ? ? ?]
  | |- run (if ?b then _ else _) _ _ => destruct b eqn:?
  | |- run css_lex_next _ _ => run_last run_css_lex_next
  | |- run (css_push_char _) _ _ => run_last run_css_push_char
  | |- run (css_lex_expect _) _ _ => run_last run_css_lex_expect
  end.

Lemma run_css_lex_number buf :
  run css_lex_number buf
    (λ _ b', (len b' ≤ len buf)%nat ∧ (isdigit (c buf) = true → (len b' < len buf)%nat)).
Proof. unfold css_lex_number. repeat run_step. Qed.

Lemma run_css_lex_keyword buf :
  run css_lex_keyword buf (λ _ b', (len b' ≤ len buf)%nat).
Proof. unfold css_lex_keyword. repeat run_step. Qed.

Lemma run_css_lex_color buf :
  run css_lex_color buf (λ _ b', (len b' ≤ len buf)%nat).
Proof. unfold css_lex_color. repeat run_step. Qed.

Lemma run_css_lex_string q buf :
  run (css_lex_string q) buf (λ _ b', (len b' ≤ len buf)%nat).
Proof.
  unfold css_lex_string.
  eapply run_bind.
  { apply run_while. intros b. repeat run_step. }
  cbv beta. intros [] b1 [H1 _]. repeat run_step.
Qed.

Lemma run_css_lex_comment n : ∀ buf,
  (len buf < n)%nat → run (css_lex_comment n) buf (λ _ b', (len b' ≤ len buf)%nat).
Proof.
  induction n as [|n IH]; intros buf Hn; [lia|].
  cbn [css_lex_comment]. repeat run_step.
  all: eapply run_conseq; [apply IH; run_arith|cbv beta; intros; run_arith].
Qed.

Ltac run_token :=
  lazymatch goal with
  | |- run css_lex_number _ _ => run_last run_css_lex_number
  | |- run css_lex_keyword _ _ => run_last run_css_lex_keyword
  | |- run css_lex_color _ _ => run_last run_css_lex_color
  | |- run (css_lex_string _) _ _ => run_last run_css_lex_string
  | |- run (css_lex_comment _ ≫= _) _ _ =>
      eapply run_bind; [apply run_css_lex_comment; unfold len; lia|cbv beta; intros ? ? ?]
  | _ => run_step
  end.

(** Behind a byte that is not the terminator, every way through the body of
    [css_lex] consumes input. *)
Lemma run_css_lex_dispatch g buf :
  (∀ b1, (len b1 < len buf)%nat → run g b1 (λ _ b', (len b' ≤ len b1)%nat)) →
  c buf ≠ 0 →
  run (css_lex_dispatch g) buf (λ _ b', (len b' < len buf)%nat).
Proof.
  intros Hg Hc. unfold css_lex_dispatch.
  repeat first
    [ run_token
    | eapply run_conseq; [apply Hg; run_arith|cbv beta; intros ? ? ?; run_arith] ].
Qed.

Lemma run_css_lex_restart n : ∀ buf,
  (len buf < n)%nat → run (css_lex_restart n) buf (consumed buf).
Proof.
  induction n as [|n IH]; intros buf Hn; [lia|].
  rewrite css_lex_restart_unfold.
  run_step. run_step. destruct (c b1 =? 0) eqn:Hc.
  { apply run_ret. destruct H. split; [lia|done]. }
  eapply run_conseq.
  - apply run_css_lex_dispatch; [|by apply Z.eqb_neq].
    intros b2 Hb2. simpl. eapply run_conseq; [apply IH; run_arith|].
    cbv beta. intros ? ? []. lia.
  - cbv beta. intros t b2 Hb2. destruct H. split; intros; lia.
Qed.

Lemma run_css_lex buf : run css_lex buf (consumed buf).
Proof.
  unfold css_lex. run_step. run_step.
  destruct (c (set_string_len 0 buf) =? 0); [by apply run_ret|].
  run_step. apply (run_css_lex_restart _ (set_string_len 0 buf)).
  unfold len. simpl. lia.
Qed.

(** ** The parser *)

Lemma ahead_pos buf : lookahead buf ≠ EOF → ahead buf = S (len buf).
Proof. intros H. unfold ahead. by rewrite decide_False. Qed.

Lemma ahead_le buf : (ahead buf ≤ S (len buf))%nat.
Proof. unfold ahead. case_decide; lia. Qed.

Lemma run_next_any buf : run next buf (λ _ b', (ahead b' ≤ S (len buf))%nat).
Proof.
  unfold next. eapply run_bind; [apply run_css_lex|].
  intros t b1 [Hle Hlt]. unfold run, modify, ahead, len in *. simpl.
  case_decide; lia.
Qed.

Lemma run_next buf :
  lookahead buf ≠ EOF → run next buf (λ _ b', (ahead b' < ahead buf)%nat).
Proof.
  intros Hla. rewrite (ahead_pos _ Hla).
  unfold next. eapply run_bind; [apply run_css_lex|].
  intros t b1 [Hle Hlt]. unfold run, modify, ahead, len in *. simpl.
  case_decide as Ht; [lia|]. specialize (Hlt Ht). lia.
Qed.

Lemma run_accept t buf :
  t ≠ EOF →
  run (accept t) buf
    (λ b b', if b : bool then (ahead b' < ahead buf)%nat
             else b' = buf ∧ lookahead buf ≠ t).
Proof.
  intros Ht. unfold accept. apply run_gets. case_decide as Hla.
  - eapply run_bind; [apply run_next; congruence|]. intros [] b1 H. by apply run_ret.
  - by apply run_ret.
Qed.

Lemma run_expect t buf :
  t ≠ EOF → run (expect t) buf (λ _ b', (ahead b' < ahead buf)%nat).
Proof.
  intros Ht. unfold expect. eapply run_bind; [by apply run_accept|].
  intros [] b1 H; [by apply run_ret|apply run_error].
Qed.

Lemma run_fz_strdup_string buf : run fz_strdup_string buf (λ _ b', b' = buf).
Proof. unfold run, fz_strdup_string. by destruct (cstring (string buf)). Qed.

Ltac parse_step :=
  lazymatch goal with
  | |- run (accept _ ≫= _) _ _ =>
      eapply run_bind; [apply run_accept; discriminate|cbv beta; intros [] ? ?]
  | |- run (expect _ ≫= _) _ _ =>
      eapply run_bind; [apply run_expect; discriminate|cbv beta; intros ? ? ?]
  | |- run (expect _) _ _ =>
      eapply run_conseq; [apply run_expect; discriminate|cbv beta; intros ? ? ?; run_arith]
  | |- run (fz_strdup_string ≫= _) _ _ =>
      eapply run_bind; [apply run_fz_strdup_string|cbv beta; intros ? ? ->]
  | |- run (next ≫= _) _ _ =>
      eapply run_bind;
        [apply run_next; first [congruence|by run_arith]|cbv beta; intros ? ? ?]
  | |- run (if decide _ then _ else _) _ _ => case_decide
  | |- run (out_of_fuel ≫= _) _ _ => exfalso; run_arith
  | |- run out_of_fuel _ _ => exfalso; run_arith
  | _ => run_step
  end.

Lemma run_parse_attrib_value buf :
  run parse_attrib_value buf (λ _ b', (ahead b' < ahead buf)%nat).
Proof.
  unfold parse_attrib_value. parse_step.
  destruct (bool_decide _ || bool_decide _) eqn:Hla; [|apply run_error].
  apply orb_true_iff in Hla as [Hla|Hla]; apply bool_decide_eq_true in Hla.
  all: repeat parse_step.
Qed.

Lemma run_parse_condition buf :
  run parse_condition buf (λ _ b', (ahead b' < ahead buf)%nat).
Proof.
  unfold parse_condition.
  repeat first
    [ eapply run_bind; [apply run_parse_attrib_value|cbv beta; intros ? ? ?]
    | parse_step ].
Qed.

Section value_list.
Variable rec : M (list fz_css_value).
Variable n : nat.
Hypothesis run_rec : ∀ b,
(ahead b < n)%nat → run rec b (λ _ b', (ahead b' ≤ ahead b)%nat).

Lemma run_parse_value_with buf :
(ahead buf ≤ n)%nat →
run (parse_value_with rec) buf (λ _ b', (ahead b' < ahead buf)%nat).
Proof.
intros Hn. unfold parse_value_with. parse_step. parse_step.
- repeat first
    [ eapply run_bind; [apply run_rec; run_arith|cbv beta; intros ? ? ?]
    | parse_step ].
- destruct (lookahead buf) eqn:Hla; try done.
  all: repeat parse_step.
Qed.

Lemma run_parse_value_list_with buf :
(ahead buf ≤ n)%nat →
run (parse_value_list_with rec) buf (λ _ b', (ahead b' ≤ ahead buf)%nat).
Proof.
intros Hn. unfold parse_value_list_with. parse_step. parse_step; [parse_step|].
eapply run_bind; [by apply run_parse_value_with|]. cbv beta. intros v b1 H1.
eapply run_bind; [apply run_rec; lia|]. cbv beta. intros vs b2 H2.
parse_step.
Qed.
End value_list.

Lemma run_parse_value_list n : ∀ buf,
  (ahead buf ≤ n)%nat →
  run (parse_value_list n) buf (λ _ b', (ahead b' ≤ ahead buf)%nat).
Proof.
  induction n as [|n IH]; intros buf Hn.
  - rewrite parse_value_list_unfold.
    apply (run_parse_value_list_with _ 0%nat); [|done]. intros b Hb. lia.
  - rewrite parse_value_list_unfold.
    apply (run_parse_value_list_with _ (S n)); [|done]. intros b Hb. apply IH. lia.
Qed.

Lemma run_parse_declaration n buf :
  (ahead buf ≤ n)%nat →
  run (parse_declaration n) buf (λ _ b', (ahead b' < ahead buf)%nat).
Proof.
  intros Hn. unfold parse_declaration.
  repeat first
    [ eapply run_bind; [apply run_parse_value_list; run_arith|cbv beta; intros ? ? ?]
    | parse_step ].
Qed.

Ltac run_call lem := eapply run_bind; [apply lem; run_arith|cbv beta; intros ? ? ?].

Lemma run_parse_declaration_loop n : ∀ buf,
  (ahead buf ≤ n)%nat →
  run (parse_declaration_loop n) buf (λ _ b', (ahead b' ≤ ahead buf)%nat).
Proof.
  induction n as [|n IH]; intros buf Hn.
  - simpl. repeat parse_step.
  - rewrite parse_declaration_loop_unfold. parse_step; [|parse_step].
    unfold parse_declaration_loop_with. parse_step. parse_step.
    + run_call run_parse_declaration. run_call IH. parse_step.
    + eapply run_conseq; [apply IH; lia|]. cbv beta. intros. lia.
Qed.

Lemma run_parse_declaration_list n buf :
  (ahead buf ≤ n)%nat →
  run (parse_declaration_list n) buf (λ _ b', (ahead b' ≤ ahead buf)%nat).
Proof.
  intros Hn. unfold parse_declaration_list. parse_step. parse_step; [parse_step|].
  run_call run_parse_declaration. run_call run_parse_declaration_loop. parse_step.
Qed.

Lemma iscond_ahead buf : iscond (lookahead buf) = true → (0 < ahead buf)%nat.
Proof.
  intros H. rewrite ahead_pos; [lia|]. intros Heq. by rewrite Heq in H.
Qed.

Lemma run_parse_condition_loop n : ∀ buf,
  (ahead buf ≤ n)%nat →
  run (parse_condition_loop n) buf (λ _ b', (ahead b' ≤ ahead buf)%nat).
Proof.
  induction n as [|n IH]; intros buf Hn; cbn [parse_condition_loop].
  - parse_step. parse_step; [|parse_step].
    match goal with H : iscond _ = true |- _ => apply iscond_ahead in H end. lia.
  - parse_step. parse_step; [|parse_step].
    run_call run_parse_condition. run_call IH. parse_step.
Qed.

Lemma run_parse_condition_list n buf :
  (ahead buf ≤ n)%nat →
  run (parse_condition_list n) buf (λ _ b', (ahead b' < ahead buf)%nat).
Proof.
  intros Hn. unfold parse_condition_list.
  run_call run_parse_condition. run_call run_parse_condition_loop. parse_step.
Qed.

Lemma run_parse_simple_selector n buf :
  (ahead buf ≤ n)%nat →
  run (parse_simple_selector n) buf (λ _ b', (ahead b' < ahead buf)%nat).
Proof.
  intros Hn. unfold parse_simple_selector.
  repeat first [ run_call run_parse_condition_list | parse_step ].
Qed.

Lemma run_parse_adjacent_selector n : ∀ buf,
  (ahead buf ≤ n)%nat →
  run (parse_adjacent_selector n) buf (λ _ b', (ahead b' < ahead buf)%nat).
Proof.
  induction n as [|n IH]; intros buf Hn; cbn [parse_adjacent_selector].
  all: run_call run_parse_simple_selector; repeat first [ run_call IH | parse_step ].
Qed.

Lemma run_parse_child_selector n : ∀ buf,
  (ahead buf ≤ n)%nat →
  run (parse_child_selector n) buf (λ _ b', (ahead b' < ahead buf)%nat).
Proof.
  induction n as [|n IH]; intros buf Hn; cbn [parse_child_selector].
  all: run_call run_parse_adjacent_selector; repeat first [ run_call IH | parse_step ].
Qed.

Lemma run_parse_descendant_selector n : ∀ buf,
  (ahead buf ≤ n)%nat →
  run (parse_descendant_selector n) buf (λ _ b', (ahead b' < ahead buf)%nat).
Proof.
  induction n as [|n IH]; intros buf Hn; cbn [parse_descendant_selector].
  all: run_call run_parse_child_selector; repeat first [ run_call IH | parse_step ].
Qed.

Lemma run_parse_selector_loop n : ∀ buf,
  (ahead buf ≤ n)%nat →
  run (parse_selector_loop n) buf (λ _ b', (ahead b' ≤ ahead buf)%nat).
Proof.
  induction n as [|n IH]; intros buf Hn; cbn [parse_selector_loop].
  - repeat parse_step.
  - parse_step; [|parse_step].
    run_call run_parse_descendant_selector. run_call IH. parse_step.
Qed.

Lemma run_parse_selector_list n buf :
  (ahead buf ≤ n)%nat →
  run (parse_selector_list n) buf (λ _ b', (ahead b' < ahead buf)%nat).
Proof.
  intros Hn. unfold parse_selector_list.
  run_call run_parse_descendant_selector. run_call run_parse_selector_loop. parse_step.
Qed.

Lemma run_parse_rule n h buf :
  (ahead buf ≤ n)%nat →
  run (parse_rule n h) buf (λ _ b', (ahead b' < ahead buf)%nat).
Proof.
  intros Hn. unfold parse_rule.
  run_call run_parse_selector_list. parse_step.
  run_call run_parse_declaration_list. parse_step. parse_step.
Qed.

Lemma not_EOF_ahead buf :
  negb (bool_decide (lookahead buf = EOF)) = true → (0 < ahead buf)%nat ∧ lookahead buf ≠ EOF.
Proof.
  intros H. apply negb_true_iff, bool_decide_eq_false in H.
  rewrite ahead_pos by done. split; [lia|done].
Qed.

Lemma run_parse_at_rule_block n : ∀ depth buf,
  (ahead buf ≤ n)%nat →
  run (parse_at_rule_block n depth) buf (λ _ b', (ahead b' ≤ ahead buf)%nat).
Proof.
  induction n as [|n IH]; intros depth buf Hn; cbn [parse_at_rule_block].
  all: parse_step; destruct (negb _ && _) eqn:Hla; [|parse_step].
  all: apply andb_true_iff in Hla as [Hla _]; apply not_EOF_ahead in Hla as [Hpos Hla].
  - lia.
  - repeat first
      [ eapply run_conseq; [apply IH; run_arith|cbv beta; intros ? ? ?; run_arith]
      | parse_step ].
Qed.

Lemma run_parse_at_rule_skip n : ∀ buf,
  (ahead buf ≤ n)%nat →
  run (parse_at_rule_skip n) buf (λ _ b', (ahead b' ≤ ahead buf)%nat).
Proof.
  induction n as [|n IH]; intros buf Hn; cbn [parse_at_rule_skip].
  all: parse_step; destruct (negb _) eqn:Hla; [|parse_step].
  all: apply not_EOF_ahead in Hla as [Hpos Hla].
  - lia.
  - repeat first
      [ eapply run_conseq; [apply IH; run_arith|cbv beta; intros ? ? ?; run_arith]
      | eapply run_conseq;
          [apply run_parse_at_rule_block; run_arith|cbv beta; intros ? ? ?; run_arith]
      | parse_step ].
Qed.

Lemma run_parse_at_rule n buf :
  (ahead buf ≤ n)%nat →
  run (parse_at_rule n) buf (λ _ b', (ahead b' < ahead buf)%nat).
Proof.
  intros Hn. unfold parse_at_rule. parse_step.
  eapply run_conseq; [apply run_parse_at_rule_skip; lia|]. cbv beta. intros. lia.
Qed.

Lemma run_parse_stylesheet_loop n : ∀ nextp tail h buf,
  (ahead buf ≤ n)%nat →
  run (parse_stylesheet_loop n nextp tail h) buf (λ _ _, True).
Proof.
  induction n as [|n IH]; intros nextp tail h buf Hn; cbn [parse_stylesheet_loop].
  all: parse_step; destruct (negb _) eqn:Hla; [|by parse_step].
  all: apply not_EOF_ahead in Hla as [Hpos Hla].
  - lia.
  - parse_step.
    + run_call run_parse_at_rule. apply IH. run_arith.
    + run_call run_parse_rule.
      match goal with |- run (let '(_, _) := ?x in _) _ _ => destruct x as [rule h1] end.
      destruct (store_rule nextp rule tail h1) as [tail' h2]. apply IH. run_arith.
Qed.

(** ** The entry points *)

Lemma run_assoc_rev {A B C} (m : M A) (k1 : A → M B) (k2 : B → M C) buf Q :
  run ((m ≫= k1) ≫= k2) buf Q → run (m ≫= λ a, k1 a ≫= k2) buf Q.
Proof. unfold run. by rewrite bind_assoc. Qed.

Lemma run_fuel {A} (m : M A) buf Q : run m buf Q → result (m buf) ≠ OutOfFuel.
Proof. unfold run, result. by destruct (m buf) as [[a b]| | |]. Qed.

Lemma run_start source :
  run (css_lex_init ;; next) (lexbuf_at source)
    (λ _ b', (ahead b' ≤ fuel source)%nat).
Proof.
  unfold css_lex_init. repeat run_step.
  eapply run_conseq; [apply run_next_any|]. cbv beta. intros [] b2 H2.
  unfold fuel, len, lexbuf_at in *. cbn [s set_color set_string_len] in *.
  rewrite length_app in *. simpl in *. lia.
Qed.

(** [fz_parse_css_properties] never runs out of fuel. *)
Lemma fz_parse_css_properties_fuel source :
  fz_parse_css_properties source ≠ OutOfFuel.
Proof.
  unfold fz_parse_css_properties. apply (run_fuel _ _ (λ _ _, True)).
  apply (run_assoc_rev css_lex_init (λ _, next)).
  eapply run_bind; [apply run_start|]. cbv beta. intros [] b1 H1.
  eapply run_conseq; [by apply run_parse_declaration_list|done].
Qed.

(** Neither does [fz_parse_css], whether it starts a chain or extends the
    one that it is given. *)
Lemma fz_parse_css_fuel h chain source :
  (chain = None ∨ ∃ a l t, chain = Some a ∧ chain_to h a l t) →
  fz_parse_css h chain source ≠ OutOfFuel.
Proof.
  intros Hchain. unfold fz_parse_css. apply (run_fuel _ _ (λ _ _, True)).
  apply (run_assoc_rev css_lex_init (λ _, next)).
  eapply run_bind; [apply run_start|]. cbv beta. intros [] b1 H1.
  destruct Hchain as [->|(a & l & t & -> & Hch)].
  - rewrite parse_stylesheet_None. by apply run_parse_stylesheet_loop.
  - rewrite parse_stylesheet_Some. unfold run.
    rewrite (last_rule_chain _ _ _ _ _ _ Hch) by lia.
    fold (run ('(_, h') ← parse_stylesheet_loop (fuel source) (NextOf t) (Some t) h;
               mret (Some a, h')) b1 (λ _ _, True)).
    eapply run_bind; [by apply run_parse_stylesheet_loop|]. by intros [] ? _.
Qed.

(** * The behaviour of the parser on the points of its description *)

(** ** [url(] *)

(** C1.  The lexer does not skip anything behind [url(]: it demands the
    closing parenthesis at once and throws on every other byte, so the style
    sheet [p { background: url(foo.png) }] is rejected. *)
Theorem css_lex_url_payload :
  (∀ buf y t,
     c buf = chr "u" → s buf = chr "r" :: chr "l" :: chr "(" :: y :: t →
     y ≠ chr ")" →
     ∃ ln, css_lex buf = Throw "unexpected character" ln) ∧
  fz_parse_css [] None (bytes "p { background: url(foo.png) }")
    = Throw "unexpected character" 1.
Proof.
  split; [|by vm_compute].
  intros buf y t Hc Hs Hy. rewrite (css_lex_url_paren buf y t) by done.
  unfold css_lex_expect. rewrite bind_assoc.
  erewrite (bind_Ok (css_lex_accept _)) by (by apply css_lex_accept_miss).
  by eexists.
Qed.

(** An empty [url()] is the one form that is accepted; the value it yields
    carries whatever the scratch array held before, here the name of the
    property. *)
Lemma css_lex_url_empty :
  fz_parse_css_properties (bytes "background: url()")
    = Ok [fz_new_css_property (bytes "background")
            [Value CSS_URI (bytes "background") []] 0].
Proof. by vm_compute. Qed.

(** ** [#] *)

(** C2.  No [#] ever reaches the parser as a token: [css_lex] takes every
    [#] for the start of a colour, so that the lookahead is never [#] and
    [parse_condition] returns no condition of the type [#].  The selectors
    [#myid] and [p#myid] are rejected as invalid colours. *)
Theorem parse_condition_no_id :
  (∀ buf buf', next buf = Ok (tt, buf') → lookahead buf' ≠ Chr (chr "#")) ∧
  (∀ buf cnd buf',
     lookahead buf ≠ Chr (chr "#") → parse_condition buf = Ok (cnd, buf') →
     cond_type cnd ≠ chr "#") ∧
  fz_parse_css [] None (bytes "#myid { color: red }") = Throw "invalid color" 1 ∧
  fz_parse_css [] None (bytes "p#myid { color: red }") = Throw "invalid color" 1.
Proof.
  split; [exact next_lookahead|]. split; [|by vm_compute].
  intros buf cnd buf' Hla Hrun. exact (yields_parse_condition _ _ _ Hla Hrun).
Qed.

(** ** The size of the scratch array *)

(** A keyword of 1023 bytes is rejected ... *)
Lemma css_lex_keyword_1023 :
  css_lex (lexer_entry (replicate 1023 (chr "a"))) = Throw "token too long" 1.
Proof. by vm_compute. Qed.

(** ... and one of 1022 bytes is the longest that is accepted. *)
Lemma css_lex_keyword_1022 :
  ∃ buf', css_lex (lexer_entry (replicate 1022 (chr "a"))) = Ok (CSS_KEYWORD, buf') ∧
          cstring (string buf') = Some (replicate 1022 (chr "a")).
Proof. eexists. split; by vm_compute. Qed.

(** The keyword [red] in front of a semicolon. *)
Lemma css_lex_keyword_limit_witness :
  keyword_outcome (bytes "red") (chr ";") [0] (css_lex (lexer_entry (bytes "red;"))).
Proof.
  apply (css_lex_keyword_limit (lexer_entry (bytes "red;")) (bytes "red") (chr ";") [0]).
  - reflexivity.
  - reflexivity.
  - reflexivity.
  - reflexivity.
  - intros [Hw _]. discriminate Hw.
Defined.

(** ** Colours *)

(** C4.  Behind a [#], three hexadecimal digits [a b c] followed by a byte
    that is none make the token [CSS_COLOR] with the colour
    [(a<<20)|(b<<12)|(c<<4)], and six digits [a b c d e f] make it with
    [(a<<20)|(b<<16)|(c<<12)|(d<<8)|(e<<4)|f]; the scratch array then holds the
    six hexadecimal digits of that number, in lower case; a byte that is not a
    hexadecimal digit in the first, second, third, fifth or sixth place makes
    the lexer throw "invalid color". *)
Theorem css_lex_color_canonical buf :
  c buf = chr "#" → length (string buf) = 1024%nat →
  (∀ x1 x2 x3 x4 t a b c0,
     s buf = x1 :: x2 :: x3 :: x4 :: t →
     ishex x1 = Some a → ishex x2 = Some b → ishex x3 = Some c0 → ishex x4 = None →
     color_token (rgb a b c0) (x4 :: t) (css_lex buf) ∧
     hex6 (rgb a b c0)
       = [hexdigit a; chr "0"; hexdigit b; chr "0"; hexdigit c0; chr "0"]) ∧
  (∀ x1 x2 x3 x4 x5 x6 x7 t a b c0 d e f,
     s buf = x1 :: x2 :: x3 :: x4 :: x5 :: x6 :: x7 :: t →
     ishex x1 = Some a → ishex x2 = Some b → ishex x3 = Some c0 →
     ishex x4 = Some d → ishex x5 = Some e → ishex x6 = Some f →
     color_token (rrggbb a b c0 d e f) (x7 :: t) (css_lex buf) ∧
     hex6 (rrggbb a b c0 d e f)
       = [hexdigit a; hexdigit b; hexdigit c0; hexdigit d; hexdigit e; hexdigit f]) ∧
  (∀ v, length (hex6 v) = 6%nat ∧ Forall (λ ch, islowerhex ch = true) (hex6 v)) ∧
  (∀ x1 t, s buf = x1 :: t → ishex x1 = None → invalid_color (css_lex buf)) ∧
  (∀ x1 x2 t a, s buf = x1 :: x2 :: t → ishex x1 = Some a → ishex x2 = None →
     invalid_color (css_lex buf)) ∧
  (∀ x1 x2 x3 t a b, s buf = x1 :: x2 :: x3 :: t →
     ishex x1 = Some a → ishex x2 = Some b → ishex x3 = None →
     invalid_color (css_lex buf)) ∧
  (∀ x1 x2 x3 x4 x5 t a b c0 d, s buf = x1 :: x2 :: x3 :: x4 :: x5 :: t →
     ishex x1 = Some a → ishex x2 = Some b → ishex x3 = Some c0 →
     ishex x4 = Some d → ishex x5 = None →
     invalid_color (css_lex buf)) ∧
  (∀ x1 x2 x3 x4 x5 x6 t a b c0 d e, s buf = x1 :: x2 :: x3 :: x4 :: x5 :: x6 :: t →
     ishex x1 = Some a → ishex x2 = Some b → ishex x3 = Some c0 →
     ishex x4 = Some d → ishex x5 = Some e → ishex x6 = None →
     invalid_color (css_lex buf)).
Proof.
  intros Hc Hlen.
  split; [|split; [|split; [exact hex6_lower|by apply css_lex_color_invalid]]].
  - intros x1 x2 x3 x4 t a b c0 Hs H1 H2 H3 H4. split.
    + by eapply css_lex_color_rgb.
    + apply hex6_rgb; by eapply ishex_range.
  - intros x1 x2 x3 x4 x5 x6 x7 t a b c0 d e f Hs H1 H2 H3 H4 H5 H6. split.
    + by eapply css_lex_color_rrggbb.
    + apply hex6_rrggbb; by eapply ishex_range.
Qed.

(** The colour [#aBc]. *)
Lemma css_lex_color_canonical_witness :
  color_token (rgb 10 11 12) [chr ";"; 0] (css_lex (lexer_entry (bytes "#aBc;"))) ∧
  hex6 (rgb 10 11 12) = bytes "a0b0c0".
Proof.
  apply (proj1 (css_lex_color_canonical (lexer_entry (bytes "#aBc;"))
                  eq_refl eq_refl)
           (chr "a") (chr "B") (chr "c") (chr ";") [0] 10 11 12);
    reflexivity.
Defined.

(** ** Declarations alone and inside [*{...}] *)

(** The declarations [a:b}c{d:e] parse on their own, where the first [}] ends
    them, and inside [*{...}], where two rules come out. *)
Lemma fz_parse_css_wrap_two_rules :
  fz_parse_css_properties (bytes "a:b}c{d:e")
    = Ok [fz_new_css_property (bytes "a") [Value CSS_KEYWORD (bytes "b") []] 0] ∧
  ∃ p h,
    fz_parse_css [] None (wrap (bytes "a:b}c{d:e")) = Ok (p, h) ∧
    rules h p =
      Some [(universal,
             [fz_new_css_property (bytes "a") [Value CSS_KEYWORD (bytes "b") []] 0]);
            ([Selector (Some (bytes "c")) 0 [] None None],
             [fz_new_css_property (bytes "d") [Value CSS_KEYWORD (bytes "e") []] 0])].
Proof. split; [by vm_compute|]. eexists _, _. split; by vm_compute. Qed.

(** The declaration [color:red], alone and as [*{color:red}]. *)
Lemma fz_parse_css_properties_first_rule_witness :
  ∃ rest,
    rules [Rule universal
             [fz_new_css_property (bytes "color") [Value CSS_KEYWORD (bytes "red") []] 0]
             [] None] (Some 0%nat)
    = Some ((universal,
             [fz_new_css_property (bytes "color") [Value CSS_KEYWORD (bytes "red") []] 0])
            :: rest) ∧
    (fz_parse_css_properties_end (bytes "color:red") = Some EOF → rest = []).
Proof.
  apply (fz_parse_css_properties_first_rule (bytes "color:red")).
  - vm_compute. reflexivity.
  - vm_compute. reflexivity.
Defined.

(** ** Parsing onto a chain *)

(** The sheet [d{e:f}] parsed onto the chain of the sheet [a{b:c}]. *)
Lemma fz_parse_css_appends_witness :
  ∃ p2 h2 la lb,
    fz_parse_css
      [Rule [Selector (Some (bytes "a")) 0 [] None None]
         [fz_new_css_property (bytes "b") [Value CSS_KEYWORD (bytes "c") []] 0] [] None]
      (Some 0%nat) (bytes "d{e:f}") = Ok (p2, h2) ∧
    (Some 0%nat ≠ None → p2 = Some 0%nat) ∧
    rules
      [Rule [Selector (Some (bytes "a")) 0 [] None None]
         [fz_new_css_property (bytes "b") [Value CSS_KEYWORD (bytes "c") []] 0] [] None]
      (Some 0%nat) = Some la ∧
    rules
      [Rule [Selector (Some (bytes "d")) 0 [] None None]
         [fz_new_css_property (bytes "e") [Value CSS_KEYWORD (bytes "f") []] 0] [] None]
      (Some 0%nat) = Some lb ∧
    rules h2 p2 = Some (la ++ lb).
Proof.
  apply (fz_parse_css_appends (bytes "a{b:c}") (bytes "d{e:f}")).
  - vm_compute. reflexivity.
  - vm_compute. reflexivity.
Defined.

(** ** At-rules *)

(** C7.  With the keyword of an at-rule in the lookahead, [parse_at_rule]
    stops in front of the tokens that are left when the tokens behind the
    keyword are dropped up to the first [;], or up to the first [{] and from
    there through the [}] that matches it, braces counted; where the tokens
    end first, nothing is left and no error is raised.  (The statement is
    for an input that lexes to its end: [tokens] returns.)  The style sheet
    [@media print { p { x: y } } q { z: w }] yields the one rule
    [q { z: w }]. *)
Theorem parse_at_rule_skips :
  (∀ n buf ts bufe,
     tokens n buf = Ok (CSS_KEYWORD :: ts, bufe) →
     ∃ buf', parse_at_rule n buf = Ok (tt, buf') ∧
             tokens n buf' = Ok (skip_at_rule ts, bufe)) ∧
  (∀ depth, skip_block depth [] = [] ∧ skip_at_rule [] = []) ∧
  ∃ p h,
    fz_parse_css [] None (bytes "@media print { p { x: y } } q { z: w }") = Ok (p, h) ∧
    rules h p =
      Some [([Selector (Some (bytes "q")) 0 [] None None],
             [fz_new_css_property (bytes "z") [Value CSS_KEYWORD (bytes "w") []] 0])].
Proof.
  split; [exact parse_at_rule_refines|]. split.
  - intros depth. by destruct depth.
  - eexists _, _. split; by vm_compute.
Qed.

(** The at-rule of the example, with [media] in the lookahead: the tokens
    of [q { z: w }] are left. *)
Lemma parse_at_rule_skips_witness :
  ∃ buf' bufe,
    parse_at_rule 40 (parser_entry (bytes "media print { p { x: y } } q { z: w }"))
      = Ok (tt, buf') ∧
    tokens 40 buf'
      = Ok ([CSS_KEYWORD; Chr (chr "{"); CSS_KEYWORD; Chr (chr ":"); CSS_KEYWORD;
             Chr (chr "}")], bufe).
Proof.
  assert (∃ bufe,
    tokens 40 (parser_entry (bytes "media print { p { x: y } } q { z: w }"))
    = Ok (CSS_KEYWORD ::
          [CSS_KEYWORD; Chr (chr "{"); CSS_KEYWORD; Chr (chr "{"); CSS_KEYWORD;
           Chr (chr ":"); CSS_KEYWORD; Chr (chr "}"); Chr (chr "}");
           CSS_KEYWORD; Chr (chr "{"); CSS_KEYWORD; Chr (chr ":"); CSS_KEYWORD;
           Chr (chr "}")], bufe)) as [bufe Htokens].
  { eexists. vm_compute. reflexivity. }
  destruct (proj1 parse_at_rule_skips _ _ _ _ Htokens) as (buf' & Hrun & Hleft).
  exists buf', bufe. split; [exact Hrun|exact Hleft].
Defined.

(** ** Strings *)

(** Inside a string, a backslash in front of the terminating NUL makes the
    lexer store the NUL and read the byte behind it. *)
Lemma css_lex_string_backslash_end q buf :
  c buf = chr "\" → s buf = [0] → q ≠ chr "\" →
  string_len buf + 1 < nelem_string →
  css_lex_string q buf = Undefined OverRead.
Proof.
  intros Hc Hs Hq Hlen. unfold css_lex_string. apply bind_Undefined.
  unfold while. rewrite Hs. cbn [length].
  rewrite while__true.
  2:{ rewrite Hc. apply andb_true_iff.
      split; apply negb_true_iff, Z.eqb_neq; [done|congruence]. }
  apply bind_Undefined.
  erewrite (bind_Ok (css_lex_accept _)) by (by eapply css_lex_accept_hit).
  cbv beta iota. repeat miss.
  unfold css_push_c. rewrite bind_assoc, bind_gets.
  erewrite (bind_Ok (css_push_char _)) by (by apply css_push_char_Ok).
  by apply css_lex_next_nil.
Qed.

(** C8.  A string that the end of the input cuts off behind a backslash is
    not rejected: the lexer reads past the end of the source. *)
Theorem css_lex_string_over_read :
  (∀ q buf,
     c buf = chr "\" → s buf = [0] → q ≠ chr "\" →
     string_len buf + 1 < nelem_string →
     css_lex_string q buf = Undefined OverRead) ∧
  fz_parse_css_properties (bytes "a: 'abc\") = Undefined OverRead.
Proof. split; [exact css_lex_string_backslash_end|by vm_compute]. Qed.

(** The escapes of a string that is closed: [\n], [\r] and [\f] stand for
    the control bytes, a backslash in front of a line end for nothing, and a
    backslash in front of another byte for that byte; without the closing
    quote the lexer throws. *)
Lemma css_lex_string_escapes :
  fz_parse_css_properties (bytes "a:'x\ny\rz\f'")
    = Ok [fz_new_css_property (bytes "a")
            [Value CSS_STRING [chr "x"; 10; chr "y"; 13; chr "z"; 12] []] 0] ∧
  fz_parse_css_properties
    (bytes "a:'p\" ++ [10] ++ bytes "q\" ++ [13] ++ bytes "r\" ++ [13; 10] ++
     bytes "s\" ++ [12] ++ bytes "t'")
    = fz_parse_css_properties (bytes "a:'pqrst'") ∧
  fz_parse_css_properties (bytes "a:'pqrst'")
    = Ok [fz_new_css_property (bytes "a") [Value CSS_STRING (bytes "pqrst") []] 0] ∧
  fz_parse_css_properties (bytes "a:'\q\'\\'")
    = Ok [fz_new_css_property (bytes "a")
            [Value CSS_STRING [chr "q"; chr "'"; chr "\"] []] 0] ∧
  fz_parse_css_properties (bytes "a:'abc") = Throw "unexpected character" 1.
Proof. repeat split; by vm_compute. Qed.

(** ** Combinators *)



(** The selectors of the style sheets [a > b > c {}], [a + b + c {}] and
    [a b c {}]. *)
Lemma combinators_right_assoc_sheets :
  let name x := Selector (Some (bytes x)) 0 [] None None in
  let sheet source :=
    match fz_parse_css [] None (bytes source) with
    | Ok (p, h) => rules h p
    | _ => None
    end in
  sheet "a > b > c {}"
    = Some [([combinator (chr ">") (name "a")
                (combinator (chr ">") (name "b") (name "c"))], [])] ∧
  sheet "a + b + c {}"
    = Some [([combinator (chr "+") (name "a")
                (combinator (chr "+") (name "b") (name "c"))], [])] ∧
  sheet "a b c {}"
    = Some [([combinator (chr " ") (name "a")
                (combinator (chr " ") (name "b") (name "c"))], [])].
Proof. repeat split; by vm_compute. Qed.


(** ** What follows the declarations *)

Lemma parse_declaration_list_brace n buf :
  lookahead buf = Chr (chr "}") → parse_declaration_list n buf = Ok ([], buf).
Proof. intros Hla. unfold parse_declaration_list. by rewrite bind_gets, Hla. Qed.

Lemma parse_declaration_loop_end n buf :
  lookahead buf ≠ Chr (chr ";") → parse_declaration_loop n buf = Ok ([], buf).
Proof.
  intros Hla. destruct n; simpl.
  all: by rewrite (bind_Ok _ _ _ _ _ (accept_miss _ _ Hla)).
Qed.

Lemma parse_declaration_keyword n buf p buf' :
  parse_declaration n buf = Ok (p, buf') → lookahead buf = CSS_KEYWORD.
Proof.
  unfold parse_declaration. rewrite bind_gets. by case_decide.
Qed.

Lemma parse_declaration_list_end n buf p buf' :
  parse_declaration n buf = Ok (p, buf') → lookahead buf' ≠ Chr (chr ";") →
  parse_declaration_list n buf = Ok ([p], buf').
Proof.
  intros Hp Hla. unfold parse_declaration_list.
  rewrite bind_gets, (parse_declaration_keyword _ _ _ _ Hp). simpl.
  rewrite (bind_Ok _ _ _ _ _ Hp).
  by rewrite (bind_Ok _ _ _ _ _ (parse_declaration_loop_end _ _ Hla)).
Qed.

(** * What every step of the parser keeps

    A property of the lexer state that the primitive steps keep is kept by
    the whole parser, and the ways in which the primitive steps fail are the
    ways in which the parser fails. *)

Lemma post_bind {A B} F (m : M A) (k : A → M B) buf Q1 Q :
  post F m buf Q1 → (∀ a b1, Q1 a b1 → post F (k a) b1 Q) → post F (m ≫= k) buf Q.
Proof.
  unfold post, mbind, M_bind. destruct (m buf) as [[a b1]| | |]; try done.
  intros H1 Hk. by apply Hk.
Qed.

Lemma post_conseq {A} F (m : M A) buf (Q1 Q : A → lexbuf → Prop) :
  post F m buf Q1 → (∀ a b1, Q1 a b1 → Q a b1) → post F m buf Q.
Proof.
  unfold post. destruct (m buf) as [[a b1]| | |]; try done. intros H1 HQ. by apply HQ.
Qed.

Lemma post_Ok {A} F (m : M A) buf Q a buf' :
  post F m buf Q → m buf = Ok (a, buf') → Q a buf'.
Proof. unfold post. intros H E. by rewrite E in H. Qed.

Section keeps_rules.
Context (I : lexbuf → Prop) (F : failure → Prop).

Lemma keeps_bind {A B} (m : M A) (k : A → M B) :
  keeps I F m → (∀ a, keeps I F (k a)) → keeps I F (m ≫= k).
Proof.
  intros Hm Hk buf HI. eapply post_bind; [by apply Hm|].
  intros a b1 H1. by apply Hk.
Qed.

Lemma keeps_ret {A} (a : A) : keeps I F (mret a).
Proof. by intros buf HI. Qed.

Lemma keeps_gets {A} (f : lexbuf → A) : keeps I F (gets f).
Proof. by intros buf HI. Qed.

Lemma keeps_modify (f : lexbuf → lexbuf) :
  (∀ buf, I buf → I (f buf)) → keeps I F (modify f).
Proof. intros Hf buf HI. by apply Hf. Qed.

Lemma keeps_if {A} (b : bool) (m1 m2 : M A) :
  keeps I F m1 → keeps I F m2 → keeps I F (if b then m1 else m2).
Proof. by destruct b. Qed.

Lemma keeps_while_ cond body n :
  F FOutOfFuel → keeps I F body → keeps I F (while_ n cond body).
Proof.
  intros HF Hbody. induction n as [|n IH]; intros buf HI.
  - unfold post. simpl. by destruct (cond buf).
  - unfold post. simpl. destruct (cond buf); [|done].
    apply (keeps_bind body (λ _, while_ n cond body)); done.
Qed.

Lemma keeps_while cond body :
  F FOutOfFuel → keeps I F body → keeps I F (while cond body).
Proof. intros HF Hbody buf HI. by apply (keeps_while_ cond body). Qed.
End keeps_rules.

Create HintDb keeps discriminated.

Ltac keeps_go :=
  repeat first
    [ assumption
    | apply keeps_ret
    | apply keeps_gets
    | solve [auto 2 with keeps]
    | apply keeps_bind; [|intros ?]
    | lazymatch goal with
      | |- keeps _ _ (match ?x with _ => _ end) => destruct x
      | |- keeps _ _ (let '(_, _) := ?x in _) => destruct x
      end ].

Section keeps_lexer.
Context (I : lexbuf → Prop) (F : failure → Prop).
Hypothesis F_fuel : F FOutOfFuel.
Hypothesis I_next : keeps I F css_lex_next.
Hypothesis F_error : ∀ msg buf, I buf → F (FThrow msg (line buf)).
Hypothesis I_string_len : ∀ n buf, I buf → I (set_string_len n buf).
Hypothesis I_string : ∀ a buf, I buf → I (set_string a buf).
Hypothesis I_color : ∀ v buf, I buf → I (set_color v buf).
Hypothesis I_lookahead : ∀ t buf, I buf → I (set_lookahead t buf).

Lemma keeps_fz_css_error {A} msg : keeps I F (fz_css_error (A:=A) msg).
Proof. intros buf HI. by apply F_error. Qed.

Lemma keeps_out_of_fuel {A} : keeps I F (out_of_fuel (A:=A)).
Proof. by intros buf HI. Qed.

#[local] Hint Resolve keeps_fz_css_error keeps_out_of_fuel : keeps.

Lemma keeps_css_push_char ch : keeps I F (css_push_char ch).
Proof.
  unfold css_push_char. keeps_go.
  apply keeps_modify. intros buf HI. by apply I_string_len, I_string.
Qed.

#[local] Hint Resolve keeps_css_push_char : keeps.

Lemma keeps_css_push_c : keeps I F css_push_c.
Proof. unfold css_push_c. keeps_go. Qed.

Lemma keeps_css_lex_accept t : keeps I F (css_lex_accept t).
Proof. unfold css_lex_accept. keeps_go. Qed.

#[local] Hint Resolve keeps_css_push_c keeps_css_lex_accept : keeps.

Lemma keeps_css_lex_expect t : keeps I F (css_lex_expect t).
Proof. unfold css_lex_expect. keeps_go. Qed.

Lemma keeps_css_lex_accept_hex : keeps I F css_lex_accept_hex.
Proof. unfold css_lex_accept_hex. keeps_go. Qed.

#[local] Hint Resolve keeps_css_lex_expect keeps_css_lex_accept_hex : keeps.

Lemma keeps_push_next : keeps I F (css_push_c ;; css_lex_next).
Proof. keeps_go. Qed.

Lemma keeps_push_loop cond : keeps I F (while cond (css_push_c ;; css_lex_next)).
Proof. apply keeps_while; [done|apply keeps_push_next]. Qed.

Lemma keeps_next_loop cond : keeps I F (while cond css_lex_next).
Proof. by apply keeps_while. Qed.

#[local] Hint Resolve keeps_push_loop keeps_next_loop : keeps.

Lemma keeps_css_lex_number : keeps I F css_lex_number.
Proof. unfold css_lex_number. keeps_go. Qed.

Lemma keeps_css_lex_keyword : keeps I F css_lex_keyword.
Proof. unfold css_lex_keyword. keeps_go. Qed.

Lemma keeps_css_lex_string q : keeps I F (css_lex_string q).
Proof.
  unfold css_lex_string. apply keeps_bind; [|intros ?; keeps_go].
  apply keeps_while; [done|]. keeps_go.
Qed.

Lemma keeps_css_lex_color : keeps I F css_lex_color.
Proof.
  unfold css_lex_color. keeps_go.
  all: apply keeps_modify; intros; auto.
Qed.

Lemma keeps_css_lex_comment n : keeps I F (css_lex_comment n).
Proof. induction n as [|n IH]; cbn [css_lex_comment]; keeps_go. Qed.

#[local] Hint Resolve keeps_css_lex_number keeps_css_lex_keyword keeps_css_lex_string
  keeps_css_lex_color keeps_css_lex_comment : keeps.

Lemma keeps_css_lex_dispatch g : keeps I F g → keeps I F (css_lex_dispatch g).
Proof. intros Hg. unfold css_lex_dispatch. keeps_go. Qed.

Lemma keeps_css_lex_restart n : keeps I F (css_lex_restart n).
Proof.
  induction n as [|n IH]; rewrite css_lex_restart_unfold; keeps_go.
  all: apply keeps_css_lex_dispatch; simpl; keeps_go.
Qed.

Lemma keeps_css_lex : keeps I F css_lex.
Proof.
  unfold css_lex. apply keeps_bind; [apply keeps_modify; auto|intros _].
  keeps_go. all: apply keeps_css_lex_restart.
Qed.

Lemma keeps_next : keeps I F next.
Proof.
  unfold next. apply keeps_bind; [apply keeps_css_lex|intros t].
  apply keeps_modify. auto.
Qed.

Lemma keeps_css_lex_init : keeps I F css_lex_init.
Proof.
  unfold css_lex_init. keeps_go. all: apply keeps_modify; intros; auto.
Qed.
End keeps_lexer.

(** The grammar above the functions that copy the text of a token: these are
    assumptions of the section. *)
Section keeps_parser.
Context (I : lexbuf → Prop) (F : failure → Prop).
Hypothesis F_fuel : F FOutOfFuel.
Hypothesis F_pointer : F (FUndefined BadPointer).
Hypothesis F_error : ∀ msg buf, I buf → F (FThrow msg (line buf)).
Hypothesis I_next : keeps I F next.
Hypothesis I_condition : keeps I F parse_condition.
Hypothesis I_simple_selector : ∀ n,
  keeps I F (parse_condition_list n) → keeps I F (parse_simple_selector n).
Hypothesis I_declaration : ∀ n, keeps I F (parse_declaration n).

Lemma keeps_parser_error {A} msg : keeps I F (fz_css_error (A:=A) msg).
Proof. intros buf HI. by apply F_error. Qed.

Lemma keeps_parser_fuel {A} : keeps I F (out_of_fuel (A:=A)).
Proof. by intros buf HI. Qed.

#[local] Hint Resolve keeps_parser_error keeps_parser_fuel : keeps.

Lemma keeps_accept t : keeps I F (accept t).
Proof. unfold accept. keeps_go. Qed.

#[local] Hint Resolve keeps_accept : keeps.

Lemma keeps_expect t : keeps I F (expect t).
Proof. unfold expect. keeps_go. Qed.

#[local] Hint Resolve keeps_expect : keeps.

Lemma keeps_parse_condition_loop n : keeps I F (parse_condition_loop n).
Proof. induction n as [|n IH]; cbn [parse_condition_loop]; keeps_go. Qed.

#[local] Hint Resolve keeps_parse_condition_loop : keeps.

Lemma keeps_parse_condition_list n : keeps I F (parse_condition_list n).
Proof. unfold parse_condition_list. keeps_go. Qed.

#[local] Hint Resolve keeps_parse_condition_list : keeps.

Lemma keeps_parse_simple_selector n : keeps I F (parse_simple_selector n).
Proof. apply I_simple_selector, keeps_parse_condition_list. Qed.

#[local] Hint Resolve keeps_parse_simple_selector : keeps.

Lemma keeps_parse_adjacent_selector n : keeps I F (parse_adjacent_selector n).
Proof. induction n as [|n IH]; cbn [parse_adjacent_selector]; keeps_go. Qed.

#[local] Hint Resolve keeps_parse_adjacent_selector : keeps.

Lemma keeps_parse_child_selector n : keeps I F (parse_child_selector n).
Proof. induction n as [|n IH]; cbn [parse_child_selector]; keeps_go. Qed.

#[local] Hint Resolve keeps_parse_child_selector : keeps.

Lemma keeps_parse_descendant_selector n : keeps I F (parse_descendant_selector n).
Proof. induction n as [|n IH]; cbn [parse_descendant_selector]; keeps_go. Qed.

#[local] Hint Resolve keeps_parse_descendant_selector : keeps.

Lemma keeps_parse_selector_loop n : keeps I F (parse_selector_loop n).
Proof. induction n as [|n IH]; cbn [parse_selector_loop]; keeps_go. Qed.

#[local] Hint Resolve keeps_parse_selector_loop : keeps.

Lemma keeps_parse_selector_list n : keeps I F (parse_selector_list n).
Proof. unfold parse_selector_list. keeps_go. Qed.

#[local] Hint Resolve keeps_parse_selector_list : keeps.

Lemma keeps_parse_declaration_loop n : keeps I F (parse_declaration_loop n).
Proof.
  induction n as [|n IH]; [cbn [parse_declaration_loop]; keeps_go|].
  rewrite parse_declaration_loop_unfold. unfold parse_declaration_loop_with. keeps_go.
Qed.

#[local] Hint Resolve keeps_parse_declaration_loop : keeps.

Lemma keeps_parse_declaration_list n : keeps I F (parse_declaration_list n).
Proof. unfold parse_declaration_list. keeps_go. Qed.

#[local] Hint Resolve keeps_parse_declaration_list : keeps.

Lemma keeps_parse_rule n h : keeps I F (parse_rule n h).
Proof. unfold parse_rule. keeps_go. Qed.

Lemma keeps_parse_at_rule_block n : ∀ depth, keeps I F (parse_at_rule_block n depth).
Proof. induction n as [|n IH]; intros depth; cbn [parse_at_rule_block]; keeps_go. Qed.

#[local] Hint Resolve keeps_parse_rule keeps_parse_at_rule_block : keeps.

Lemma keeps_parse_at_rule_skip n : keeps I F (parse_at_rule_skip n).
Proof. induction n as [|n IH]; cbn [parse_at_rule_skip]; keeps_go. Qed.

#[local] Hint Resolve keeps_parse_at_rule_skip : keeps.

Lemma keeps_parse_at_rule n : keeps I F (parse_at_rule n).
Proof. unfold parse_at_rule. keeps_go. Qed.

#[local] Hint Resolve keeps_parse_at_rule : keeps.

Lemma keeps_parse_stylesheet_loop n : ∀ nextp tail h,
  keeps I F (parse_stylesheet_loop n nextp tail h).
Proof.
  induction n as [|n IH]; intros nextp tail h; cbn [parse_stylesheet_loop]; keeps_go.
Qed.

#[local] Hint Resolve keeps_parse_stylesheet_loop : keeps.

Lemma keeps_last_rule {A} n h (k : nat → M A) : ∀ a,
  (∀ t, keeps I F (k t)) → keeps I F (last_rule n h a k).
Proof.
  induction n as [|n IH]; intros a Hk; cbn [last_rule].
  all: destruct (h !! a) as [r|]; [|by intros buf HI].
  all: destruct (rule_next r); keeps_go.
Qed.

Lemma keeps_parse_stylesheet n h chain : keeps I F (parse_stylesheet n h chain).
Proof.
  unfold parse_stylesheet. destruct chain; [|keeps_go].
  apply keeps_last_rule. intros t. keeps_go.
Qed.
End keeps_parser.

(** The functions that copy the text of a token, when [fz_strdup] keeps the
    invariant wherever it is called; with them, the whole grammar. *)
Section keeps_strdup.
Context (I : lexbuf → Prop) (F : failure → Prop).
Hypothesis F_fuel : F FOutOfFuel.
Hypothesis F_pointer : F (FUndefined BadPointer).
Hypothesis F_error : ∀ msg buf, I buf → F (FThrow msg (line buf)).
Hypothesis I_next : keeps I F next.
Hypothesis I_strdup : keeps I F fz_strdup_string.

#[local] Hint Resolve keeps_parser_error keeps_parser_fuel keeps_accept keeps_expect : keeps.

Lemma keeps_strdup_attrib_value : keeps I F parse_attrib_value.
Proof. unfold parse_attrib_value. keeps_go. Qed.

#[local] Hint Resolve keeps_strdup_attrib_value : keeps.

Lemma keeps_strdup_condition : keeps I F parse_condition.
Proof. unfold parse_condition. keeps_go. Qed.

Lemma keeps_strdup_simple_selector n :
  keeps I F (parse_condition_list n) → keeps I F (parse_simple_selector n).
Proof. intros Hc. unfold parse_simple_selector. keeps_go. Qed.

Lemma keeps_strdup_value_list n : keeps I F (parse_value_list n).
Proof.
  induction n as [|n IH]; rewrite parse_value_list_unfold.
  all: unfold parse_value_list_with, parse_value_with, parse_value_list_rec; keeps_go.
Qed.

#[local] Hint Resolve keeps_strdup_value_list : keeps.

Lemma keeps_strdup_declaration n : keeps I F (parse_declaration n).
Proof. unfold parse_declaration. keeps_go. Qed.

Lemma keeps_strdup_declaration_list n : keeps I F (parse_declaration_list n).
Proof.
  apply keeps_parse_declaration_list; auto using keeps_strdup_declaration.
Qed.

Lemma keeps_strdup_stylesheet n h chain : keeps I F (parse_stylesheet n h chain).
Proof.
  apply keeps_parse_stylesheet;
    auto using keeps_strdup_condition, keeps_strdup_simple_selector,
      keeps_strdup_declaration.
Qed.
End keeps_strdup.

(** * Line numbers *)

Lemma newlines_app l1 l2 : newlines (l1 ++ l2) = newlines l1 + newlines l2.
Proof. induction l1 as [|b l1 IH]; simpl; lia. Qed.

Lemma newlines_bounds l : 0 ≤ newlines l ≤ Z.of_nat (length l).
Proof. induction l as [|b l IH]; simpl; [lia|]. destruct (b =? 10); lia. Qed.

Lemma read_to_refl buf : read_to buf buf.
Proof. exists []. simpl. split; [done|lia]. Qed.

Lemma read_to_next buf0 : keeps (read_to buf0) (line_of_read buf0) css_lex_next.
Proof.
  intros buf (read & Hs & Hl). unfold post, css_lex_next.
  destruct (s buf) as [|b rest] eqn:Hb; [done|].
  exists (read ++ [b]). simpl. rewrite <- (assoc_L (++)). split; [done|].
  rewrite newlines_app. simpl. destruct (b =? 10); lia.
Qed.

Lemma read_to_error buf0 msg buf :
  read_to buf0 buf → line_of_read buf0 (FThrow msg (line buf)).
Proof. intros (read & Hs & Hl). by exists read, (s buf). Qed.

Lemma newlines_prefix read rest source :
  source ++ [0] = read ++ rest → 0 ≤ newlines read ≤ newlines source.
Proof.
  intros H. pose proof (newlines_bounds read). pose proof (newlines_bounds rest).
  apply (f_equal newlines) in H. rewrite !newlines_app in H. simpl in H. lia.
Qed.

(** What [css_lex] consumes: the bytes between the two read pointers, whose
    line feeds [line] counts; a token other than [EOF] has consumed at least
    one byte. *)
Theorem css_lex_reads buf t buf' :
  css_lex buf = Ok (t, buf') →
  ∃ read,
    s buf = read ++ s buf' ∧ line buf' = line buf + newlines read ∧
    (t ≠ EOF → read ≠ []).
Proof.
  intros Hrun.
  pose proof (keeps_css_lex (read_to buf) (line_of_read buf) I
                (read_to_next buf) (read_to_error buf)) as Hkeeps.
  destruct (post_Ok _ _ _ _ _ _
              (Hkeeps ltac:(by intros ? ? (r & ? & ?); exists r)
                 ltac:(by intros ? ? (r & ? & ?); exists r)
                 ltac:(by intros ? ? (r & ? & ?); exists r)
                 buf (read_to_refl buf)) Hrun) as (read & Hs & Hl).
  exists read. split; [done|]. split; [done|].
  intros Ht ->. pose proof (run_css_lex buf) as Hlen. unfold run in Hlen.
  rewrite Hrun in Hlen. destruct Hlen as [_ Hlt]. specialize (Hlt Ht).
  unfold len in Hlt. simpl in Hs. rewrite Hs in Hlt. lia.
Qed.

(** The keyword [ab] in front of a line feed, on line 2. *)
Lemma css_lex_reads_witness :
  ∃ t buf',
    css_lex (lexer_entry ([10] ++ bytes "ab" ++ [10] ++ bytes "cd")) = Ok (t, buf') ∧
    ∃ read,
      s (lexer_entry ([10] ++ bytes "ab" ++ [10] ++ bytes "cd")) = read ++ s buf' ∧
      line buf' = line (lexer_entry ([10] ++ bytes "ab" ++ [10] ++ bytes "cd"))
                  + newlines read ∧
      (t ≠ EOF → read ≠ []).
Proof.
  assert (H : ∃ t buf',
            css_lex (lexer_entry ([10] ++ bytes "ab" ++ [10] ++ bytes "cd"))
            = Ok (t, buf')).
  { eexists _, _. vm_compute. reflexivity. }
  destruct H as (t & buf' & H). exists t, buf'. split; [exact H|].
  exact (css_lex_reads _ _ _ H).
Defined.

(** * Reading within the source

    [css_lex_next] dereferences the read pointer without a test.  The lexer
    calls it where the byte under the pointer is known not to be the
    terminator, with two exceptions: behind a backslash in a string, and
    behind the asterisks in a comment.  So it is the last byte of the source
    that decides: unless that is a backslash or an asterisk, nothing beyond
    the terminator is read. *)

Lemma post_ret {A} F (a : A) buf (Q : A → lexbuf → Prop) : Q a buf → post F (mret a) buf Q.
Proof. done. Qed.

Lemma post_gets {A B} F (f : lexbuf → A) (k : A → M B) buf Q :
  post F (k (f buf)) buf Q → post F (gets f ≫= k) buf Q.
Proof. done. Qed.

Lemma post_modify {B} F (f : lexbuf → lexbuf) (k : unit → M B) buf Q :
  post F (k tt) (f buf) Q → post F (modify f ≫= k) buf Q.
Proof. done. Qed.

Lemma post_ret_bind {A B} F (a : A) (k : A → M B) buf Q :
  post F (k a) buf Q → post F (mret a ≫= k) buf Q.
Proof. done. Qed.

Lemma post_assoc {A B C} F (m : M A) (k1 : A → M B) (k2 : B → M C) buf Q :
  post F (m ≫= λ a, k1 a ≫= k2) buf Q → post F ((m ≫= k1) ≫= k2) buf Q.
Proof. unfold post. by rewrite bind_assoc. Qed.

Lemma post_assoc_rev {A B C} F (m : M A) (k1 : A → M B) (k2 : B → M C) buf Q :
  post F ((m ≫= k1) ≫= k2) buf Q → post F (m ≫= λ a, k1 a ≫= k2) buf Q.
Proof. unfold post. by rewrite bind_assoc. Qed.

Lemma post_error {A} F msg buf (Q : A → lexbuf → Prop) :
  lenient F → post F (fz_css_error msg) buf Q.
Proof. intros [H _]. apply H. Qed.

Lemma post_error_bind {A B} F msg (k : A → M B) buf (Q : B → lexbuf → Prop) :
  lenient F → post F (fz_css_error msg ≫= k) buf Q.
Proof. intros [H _]. apply H. Qed.

Lemma post_fuel {A} F buf (Q : A → lexbuf → Prop) :
  lenient F → post F out_of_fuel buf Q.
Proof. intros [_ H]. apply H. Qed.

Lemma post_fuel_bind {A B} F (k : A → M B) buf (Q : B → lexbuf → Prop) :
  lenient F → post F (out_of_fuel ≫= k) buf Q.
Proof. intros [_ H]. apply H. Qed.

Lemma post_while_ F (J : lexbuf → Prop) cond body :
  lenient F →
  (∀ b, J b → cond b = true → post F body b (λ _ b', J b')) →
  ∀ n buf, J buf → post F (while_ n cond body) buf (λ _ b', J b' ∧ cond b' = false).
Proof.
  intros HF Hbody. induction n as [|n IH]; intros buf HJ.
  - unfold post. simpl. destruct (cond buf) eqn:Hc; [apply HF|done].
  - unfold post. simpl. destruct (cond buf) eqn:Hc; [|done].
    apply (post_bind F body (λ _, while_ n cond body) buf (λ _ b', J b')).
    + by apply Hbody.
    + intros [] b1 H1. by apply IH.
Qed.

Lemma post_while F (J : lexbuf → Prop) cond body buf :
  lenient F →
  (∀ b, J b → cond b = true → post F body b (λ _ b', J b')) →
  J buf → post F (while cond body) buf (λ _ b', J b' ∧ cond b' = false).
Proof. intros HF Hbody HJ. by apply (post_while_ F J cond body). Qed.

(** ** The end of the array *)

Lemma within_source_lenient : lenient within_source.
Proof. by split. Qed.

Lemma bounded_room buf : bounded buf → c buf ≠ 0 → s buf ≠ [].
Proof.
  intros [Hlast _] Hc Hs. unfold stream in Hlast. rewrite Hs in Hlast. simpl in Hlast.
  congruence.
Qed.

Lemma bounded_room_behind buf b rest :
  bounded buf → c buf = chr "\" ∨ c buf = chr "*" → s buf = b :: rest → rest ≠ [].
Proof.
  intros [Hlast Hsafe] Hc Hs ->. unfold stream in *. rewrite Hs in *.
  simpl in Hlast. injection Hlast as ->.
  destruct (Hsafe [] (c buf) eq_refl) as [H1 H2]. by destruct Hc.
Qed.

Lemma bounded_advance buf b rest :
  bounded buf → s buf = b :: rest → bounded (advance b rest buf).
Proof.
  intros [Hlast Hsafe] Hs. unfold bounded, stream in *. rewrite Hs in *.
  cbn [c s advance]. split; [done|].
  intros pre x Heq. apply (Hsafe (c buf :: pre) x). by rewrite Heq.
Qed.

Lemma bounded_stream buf buf' : stream buf' = stream buf → bounded buf → bounded buf'.
Proof. unfold bounded. by intros ->. Qed.

(** ** The lexer *)

Lemma safe_next buf :
  bounded buf → s buf ≠ [] →
  post within_source css_lex_next buf
    (λ _ b', bounded b' ∧ (c buf = chr "\" ∨ c buf = chr "*" → s b' ≠ [])).
Proof.
  intros Hb Hs. unfold post, css_lex_next.
  destruct (s buf) as [|b rest] eqn:Hsb; [done|].
  split; [by apply (bounded_advance buf b rest)|].
  intros Hc. by apply (bounded_room_behind buf b rest).
Qed.

Lemma safe_push_char ch buf :
  bounded buf →
  post within_source (css_push_char ch) buf
    (λ _ b', bounded b' ∧ c b' = c buf ∧ s b' = s buf).
Proof.
  intros Hb. unfold post, css_push_char. rewrite bind_gets.
  by destruct (string_len buf + 1 >=? nelem_string).
Qed.

Lemma safe_push_c buf :
  bounded buf →
  post within_source css_push_c buf (λ _ b', bounded b' ∧ c b' = c buf ∧ s b' = s buf).
Proof. intros Hb. unfold css_push_c. by apply post_gets, safe_push_char. Qed.

Lemma safe_accept t buf :
  t ≠ 0 → bounded buf →
  post within_source (css_lex_accept t) buf
    (λ b b', if b : bool
             then bounded b' ∧ (t = chr "\" ∨ t = chr "*" → s b' ≠ [])
             else b' = buf ∧ c buf ≠ t).
Proof.
  intros Ht Hb. unfold css_lex_accept. apply post_gets.
  destruct (Z.eqb_spec (c buf) t) as [Hc|Hc]; [|by apply post_ret].
  eapply post_bind; [apply safe_next; [done|apply bounded_room; [done|congruence]]|].
  intros [] b1 [H1 H2]. apply post_ret. split; [done|]. by rewrite <- Hc.
Qed.

Lemma safe_expect t buf :
  t ≠ 0 → bounded buf →
  post within_source (css_lex_expect t) buf (λ _ b', bounded b').
Proof.
  intros Ht Hb. unfold css_lex_expect. eapply post_bind; [by apply safe_accept|].
  intros [] b1 H; [apply post_ret, H|apply post_error, within_source_lenient].
Qed.

Lemma ishex_nonzero ch v : ishex ch = Some v → ch ≠ 0.
Proof. intros H ->. discriminate. Qed.

Lemma safe_accept_hex buf :
  bounded buf → post within_source css_lex_accept_hex buf (λ _ b', bounded b').
Proof.
  intros Hb. unfold css_lex_accept_hex. apply post_gets.
  destruct (ishex (c buf)) eqn:Hh; [|by apply post_ret].
  eapply post_bind.
  - apply safe_next; [done|]. apply bounded_room; [done|by eapply ishex_nonzero].
  - by intros [] b1 [H1 _].
Qed.

Lemma safe_push_next buf :
  bounded buf → c buf ≠ 0 →
  post within_source (css_push_c ;; css_lex_next) buf (λ _ b', bounded b').
Proof.
  intros Hb Hc. eapply post_bind; [by apply safe_push_c|].
  intros [] b1 (H1 & Hc1 & Hs1). eapply post_conseq.
  - apply safe_next; [done|]. apply bounded_room; [done|congruence].
  - by intros [] b2 [H2 _].
Qed.

(** The loops that push the bytes of a class: no class holds the
    terminator. *)
Lemma safe_push_loop (cls : Z → bool) buf :
  cls 0 = false → bounded buf →
  post within_source (while (λ buf, cls (c buf)) (css_push_c ;; css_lex_next)) buf
    (λ _ b', bounded b').
Proof.
  intros H0 Hb. eapply post_conseq.
  - apply (post_while _ bounded); [apply within_source_lenient| |done].
    intros b Hbb Hc. apply safe_push_next; [done|]. intros Hz. rewrite Hz in Hc. congruence.
  - by intros [] b1 [H1 _].
Qed.

Lemma safe_next_loop (cls : Z → bool) buf :
  cls 0 = false → bounded buf →
  post within_source (while (λ buf, cls (c buf)) css_lex_next) buf (λ _ b', bounded b').
Proof.
  intros H0 Hb. eapply post_conseq.
  - apply (post_while _ bounded); [apply within_source_lenient| |done].
    intros b Hbb Hc. eapply post_conseq.
    + apply safe_next; [done|]. apply bounded_room; [done|].
      intros Hz. rewrite Hz in Hc. congruence.
    + by intros [] b1 [H1 _].
  - by intros [] b1 [H1 _].
Qed.

Ltac safe_side :=
  first
    [ assumption
    | congruence
    | discriminate
    | apply bounded_room; [assumption|]; char_lia
    | char_lia
    | done ].

Ltac safe_tidy :=
  repeat match goal with
  | H : _ ∧ _ |- _ => destruct H
  | H : ?b' = ?b |- _ => is_var b'; subst b'
  | H : ?t = ?t ∨ _ → _ |- _ => specialize (H (or_introl eq_refl))
  | H : _ ∨ ?t = ?t → _ |- _ => specialize (H (or_intror eq_refl))
  end.

Ltac safe_with lem :=
  eapply post_bind; [apply lem; safe_side|cbv beta; intros ? ? ?; safe_tidy].

Ltac safe_last lem :=
  eapply post_conseq; [apply lem; safe_side|cbv beta; intros ? ? ?; safe_tidy; try done].

Ltac safe_step :=
  lazymatch goal with
  | |- post _ (mret _) _ _ => apply post_ret; safe_tidy; try done
  | |- post _ (fz_css_error _) _ _ => apply post_error, within_source_lenient
  | |- post _ (mret _ ≫= _) _ _ => apply post_ret_bind
  | |- post _ (fz_css_error _ ≫= _) _ _ => apply post_error_bind, within_source_lenient
  | |- post _ ((if ?b then _ else _) ≫= _) _ _ => destruct b eqn:?
  | |- post _ ((_ ≫= _) ≫= _) _ _ => apply post_assoc
  | |- post _ (gets _ ≫= _) _ _ => apply post_gets
  | |- post _ (modify _ ≫= _) _ _ => apply post_modify
  | |- post _ (css_lex_accept _ ≫= _) _ _ =>
      eapply post_bind;
        [apply safe_accept; safe_side|cbv beta; intros [] ? ?; safe_tidy]
  | |- post _ (css_lex_expect _ ≫= _) _ _ => safe_with safe_expect
  | |- post _ (css_lex_next ≫= _) _ _ => safe_with safe_next
  | |- post _ (css_push_char _ ≫= _) _ _ => safe_with safe_push_char
  | |- post _ (css_push_c ≫= _) _ _ => safe_with safe_push_c
  | |- post _ (css_lex_accept_hex ≫= _) _ _ =>
      eapply post_bind;
        [apply safe_accept_hex; safe_side|cbv beta; intros [?|] ? ?; safe_tidy]
  | |- post _ (while _ (css_push_c ;; css_lex_next) ≫= _) _ _ =>
      eapply post_bind;
        [apply (safe_push_loop _ _ eq_refl); safe_side|cbv beta; intros ? ? ?; safe_tidy]
  | |- post _ (while _ css_lex_next ≫= _) _ _ =>
      eapply post_bind;
        [apply (safe_next_loop _ _ eq_refl); safe_side|cbv beta; intros ? ? ?; safe_tidy]
  | |- post _ (if ?b then _ else _) _ _ => destruct b eqn:?
  | |- post _ css_lex_next _ _ => safe_last safe_next
  | |- post _ (css_push_char _) _ _ => safe_last safe_push_char
  | |- post _ (css_lex_expect _) _ _ => safe_last safe_expect
  end.

Lemma safe_css_lex_number buf :
  bounded buf → post within_source css_lex_number buf (λ _ b', bounded b').
Proof. intros Hb. unfold css_lex_number. repeat safe_step. Qed.

Lemma safe_css_lex_keyword buf :
  bounded buf → post within_source css_lex_keyword buf (λ _ b', bounded b').
Proof. intros Hb. unfold css_lex_keyword. repeat safe_step. Qed.

Lemma safe_css_lex_color buf :
  bounded buf → post within_source css_lex_color buf (λ _ b', bounded b').
Proof. intros Hb. unfold css_lex_color. repeat safe_step. Qed.

Lemma safe_css_lex_string q buf :
  q ≠ 0 → bounded buf →
  post within_source (css_lex_string q) buf (λ _ b', bounded b').
Proof.
  intros Hq Hb. unfold css_lex_string. eapply post_bind.
  - apply (post_while _ bounded); [apply within_source_lenient| |done].
    intros b Hbb Hc. repeat safe_step.
  - cbv beta. intros [] b1 [H1 _]. repeat safe_step.
Qed.

Lemma safe_star_loop buf :
  bounded buf → s buf ≠ [] →
  post within_source (while (λ buf, c buf =? chr "*") css_lex_next) buf
    (λ _ b', bounded b' ∧ s b' ≠ []).
Proof.
  intros Hb Hs. eapply post_conseq.
  - apply (post_while _ (λ b, bounded b ∧ s b ≠ []));
      [apply within_source_lenient| |done].
    intros b [Hbb Hsb] Hc. apply Z.eqb_eq in Hc. eapply post_conseq.
    + by apply safe_next.
    + cbv beta. intros [] b1 [H1 H2]. split; [done|]. apply H2. by right.
  - by intros [] b1 [H1 _].
Qed.

Lemma safe_css_lex_comment n : ∀ buf,
  bounded buf → post within_source (css_lex_comment n) buf (λ _ b', bounded b').
Proof.
  induction n as [|n IH]; intros buf Hb; cbn [css_lex_comment].
  - repeat safe_step. apply post_fuel, within_source_lenient.
  - repeat first
      [ safe_with safe_star_loop
      | eapply post_conseq; [apply IH; safe_side|cbv beta; intros; safe_tidy; done]
      | safe_step ].
Qed.

Ltac safe_token :=
  lazymatch goal with
  | |- post _ css_lex_number _ _ => safe_last safe_css_lex_number
  | |- post _ css_lex_keyword _ _ => safe_last safe_css_lex_keyword
  | |- post _ css_lex_color _ _ => safe_last safe_css_lex_color
  | |- post _ (css_lex_string _) _ _ => safe_last safe_css_lex_string
  | |- post _ (css_lex_comment _ ≫= _) _ _ => safe_with safe_css_lex_comment
  | _ => safe_step
  end.

Lemma safe_css_lex_dispatch g buf :
  (∀ b, bounded b → post within_source g b (λ _ b', bounded b')) →
  bounded buf → c buf ≠ 0 →
  post within_source (css_lex_dispatch g) buf (λ _ b', bounded b').
Proof.
  intros Hg Hb Hc. unfold css_lex_dispatch.
  repeat first
    [ safe_token
    | eapply post_conseq; [apply Hg; safe_side|cbv beta; intros; safe_tidy; done] ].
Qed.

Lemma safe_css_lex_restart n : ∀ buf,
  bounded buf → post within_source (css_lex_restart n) buf (λ _ b', bounded b').
Proof.
  induction n as [|n IH]; intros buf Hb; rewrite css_lex_restart_unfold.
  all: eapply post_bind; [by apply (safe_next_loop iswhite)|].
  all: cbv beta; intros [] b1 Hb1; apply post_gets.
  all: destruct (c b1 =? 0) eqn:Hc; [by apply post_ret|].
  all: apply Z.eqb_neq in Hc; apply safe_css_lex_dispatch; [|done|done].
  - intros b _. apply post_fuel, within_source_lenient.
  - exact IH.
Qed.

Lemma safe_css_lex buf :
  bounded buf → post within_source css_lex buf (λ _ b', bounded b').
Proof.
  intros Hb. unfold css_lex. safe_step. safe_step.
  destruct (c _ =? 0); [by apply post_ret|]. safe_step.
  by apply safe_css_lex_restart.
Qed.

Lemma safe_next_token : keeps bounded within_source next.
Proof.
  intros buf Hb. unfold next. eapply post_bind; [by apply safe_css_lex|].
  by intros t b1 H1.
Qed.

(** ** The entry points *)

Lemma bounded_lexbuf_at source :
  last source ≠ Some (chr "\") → last source ≠ Some (chr "*") →
  bounded (lexbuf_at source).
Proof.
  intros H1 H2. unfold bounded, stream, lexbuf_at. cbn [c s]. split.
  - by rewrite last_cons, last_snoc.
  - intros pre x Heq.
    destruct (decide (source = [])) as [->|Hne].
    + destruct pre as [|? [|? [|]]]; simplify_eq/=. done.
    + destruct (exists_last Hne) as (l & y & ->).
      rewrite last_snoc in H1, H2.
      replace (0 :: (l ++ [y]) ++ [0]) with ((0 :: l) ++ [y; 0]) in Heq
        by (simpl; by rewrite <- (assoc_L (++))).
      apply app_inj_2 in Heq as [_ [= <-]]; [|done].
      split; congruence.
Qed.

(** An entry point that runs the parser [m] behind [css_lex_init] and the
    first [next] reads within the source, when the source ends in neither a
    backslash nor a star. *)
Lemma start_within_source {A} (m : M A) source :
  keeps bounded within_source m →
  last source ≠ Some (chr "\") → last source ≠ Some (chr "*") →
  result ((css_lex_init ;; next ;; m) (lexbuf_at source)) ≠ Undefined OverRead.
Proof.
  intros Hm H1 H2.
  assert (Hpost : post within_source (css_lex_init ;; next ;; m)
            (lexbuf_at source) (λ _ _, True)).
  { unfold css_lex_init. repeat apply post_assoc.
    eapply post_bind.
    { apply safe_next; [by apply bounded_lexbuf_at|]. simpl. by destruct source. }
    cbv beta. intros [] b1 [Hb1 _].
    eapply post_conseq; [|done].
    apply (keeps_bind bounded within_source next); [apply safe_next_token| |exact Hb1].
    by intros _. }
  unfold result, post in *.
  destruct ((css_lex_init ;; next ;; m) (lexbuf_at source)) as [[a b]| | |]; try done.
  intros [= ->]. done.
Qed.

Lemma bounded_strdup : keeps bounded within_source fz_strdup_string.
Proof. intros buf Hb. unfold post, fz_strdup_string. by destruct (cstring _). Qed.

Lemma fz_parse_css_within_source h chain source :
  last source ≠ Some (chr "\") → last source ≠ Some (chr "*") →
  fz_parse_css h chain source ≠ Undefined OverRead.
Proof.
  apply start_within_source, keeps_strdup_stylesheet; try done.
  - apply safe_next_token.
  - apply bounded_strdup.
Qed.

Lemma fz_parse_css_properties_within_source source :
  last source ≠ Some (chr "\") → last source ≠ Some (chr "*") →
  fz_parse_css_properties source ≠ Undefined OverRead.
Proof.
  apply start_within_source, keeps_strdup_declaration_list; try done.
  - apply safe_next_token.
  - apply bounded_strdup.
Qed.

(** * The scratch array is written before it is copied

    [buf->string] is never initialised as a whole.  Every token that has a
    text leaves it terminated in the array, the other tokens leave the array
    alone, and the parser copies the array only behind a token with a text:
    [fz_strdup] never meets an indeterminate byte. *)

Lemma initialised_lenient : lenient initialised.
Proof. by split. Qed.

Lemma filled_scratch buf buf' : scratch buf' = scratch buf → filled buf → filled buf'.
Proof. intros [= Hs Hl] (pre & old & [H1 H2] & H3). exists pre, old. unfold holds. by rewrite Hs, Hl. Qed.

Lemma fresh_scratch a buf buf' : scratch buf' = scratch buf → fresh a buf → fresh a buf'.
Proof. intros [= Hs Hl] (H1 & H2 & H3). unfold fresh. by rewrite Hs, Hl. Qed.

Lemma fresh_filled a buf : fresh a buf → filled buf.
Proof. intros (H1 & H2 & H3). exists [], (string buf). unfold holds. by rewrite H1, H2. Qed.

Lemma cstring_prefix (l : list Z) rest : terminated ((Some <$> (l ++ [0])) ++ rest).
Proof.
  unfold terminated. induction l as [|b l IH]; [done|].
  cbn [fmap list_fmap app cstring] in *.
  destruct (b =? 0); [done|]. by destruct IH as [w ->].
Qed.

Lemma write_at_spec (l : list Z) : ∀ i (a : list (option Z)),
  (i + length l ≤ length a)%nat →
  write_at i l a = take i a ++ (Some <$> l) ++ drop (i + length l) a.
Proof.
  induction l as [|b l IH]; intros i a Hl; simpl in *.
  - by rewrite Nat.add_0_r, take_drop.
  - rewrite IH by (rewrite length_insert; lia).
    rewrite (take_S_r _ _ (Some b)) by (apply list_lookup_insert_eq; lia).
    rewrite take_insert_ge by lia.
    rewrite drop_insert_lt by lia.
    rewrite <- (assoc_L (++)). simpl.
    repeat f_equal. lia.
Qed.

Lemma hex_digits_length n : ∀ v acc,
  (length (hex_digits n v acc) ≤ n + length acc)%nat.
Proof.
  induction n as [|n IH]; intros v acc; simpl; [lia|].
  destruct (v <? 16); simpl; [lia|]. etrans; [apply IH|]. simpl. lia.
Qed.

Lemma sprintf_06x_terminated v (a : list (option Z)) :
  length a = 1024%nat →
  terminated (write_at 0 (sprintf_06x v) a) ∧
  length (write_at 0 (sprintf_06x v) a) = 1024%nat.
Proof.
  intros Ha. unfold sprintf_06x.
  pose proof (hex_digits_length 8 v []) as Hd.
  set (d := hex_digits 8 v []) in *. change (length d ≤ 8)%nat in Hd.
  rewrite (assoc_L (++)).
  set (l := replicate (6 - length d) (chr "0") ++ d).
  assert (Hl : (length l ≤ 14)%nat).
  { unfold l. rewrite length_app, length_replicate. lia. }
  rewrite write_at_spec by (rewrite length_app; simpl; lia).
  rewrite take_0. simpl. split; [apply cstring_prefix|].
  rewrite length_app, length_fmap, length_drop, length_app. simpl. lia.
Qed.

(** ** The lexer *)

Lemma init_next buf :
  post initialised css_lex_next buf (λ _ b', scratch b' = scratch buf).
Proof. unfold post, css_lex_next. by destruct (s buf). Qed.

Lemma init_accept t buf :
  post initialised (css_lex_accept t) buf (λ _ b', scratch b' = scratch buf).
Proof.
  unfold css_lex_accept. apply post_gets. destruct (c buf =? t); [|by apply post_ret].
  eapply post_bind; [apply init_next|]. by intros [] b1 H.
Qed.

Lemma init_expect t buf :
  post initialised (css_lex_expect t) buf (λ _ b', scratch b' = scratch buf).
Proof.
  unfold css_lex_expect. eapply post_bind; [apply init_accept|].
  intros [] b1 H; [by apply post_ret|apply post_error, initialised_lenient].
Qed.

Lemma init_accept_hex buf :
  post initialised css_lex_accept_hex buf (λ _ b', scratch b' = scratch buf).
Proof.
  unfold css_lex_accept_hex. apply post_gets. destruct (ishex (c buf)); [|by apply post_ret].
  eapply post_bind; [apply init_next|]. by intros [] b1 H.
Qed.

Lemma init_push_char ch buf :
  filled buf →
  post initialised (css_push_char ch) buf
    (λ _ b', filled b' ∧ (ch = 0 → terminated (string b'))).
Proof.
  intros (pre & old & Hh & Hlen). unfold post.
  destruct (Z.ltb_spec (string_len buf + 1) nelem_string) as [Hlt|Hge].
  - rewrite css_push_char_Ok by done.
    pose proof (holds_length _ _ _ Hh) as Hl. pose proof (proj2 Hh) as Hsl.
    unfold nelem_string in Hlt.
    destruct old as [|o old]; [simpl in Hl; lia|].
    pose proof (holds_pushed _ _ _ ch _ Hh) as Hh'. split.
    + exists (pre ++ [ch]), old. split; [done|].
      rewrite (holds_length _ _ _ Hh'), length_app. simpl in *. lia.
    + intros ->. destruct Hh' as [-> _]. apply cstring_prefix.
  - by rewrite css_push_char_Throw.
Qed.

Lemma init_push_c buf :
  filled buf → post initialised css_push_c buf (λ _ b', filled b').
Proof.
  intros Hf. unfold css_push_c. apply post_gets. eapply post_conseq;
    [by apply init_push_char|]. by intros [] b1 [H _].
Qed.

Lemma init_push_next buf :
  filled buf → post initialised (css_push_c ;; css_lex_next) buf (λ _ b', filled b').
Proof.
  intros Hf. eapply post_bind; [by apply init_push_c|]. intros [] b1 H1.
  eapply post_conseq; [apply init_next|]. intros [] b2 H2. by eapply filled_scratch.
Qed.

Lemma init_push_loop cond buf :
  filled buf →
  post initialised (while cond (css_push_c ;; css_lex_next)) buf (λ _ b', filled b').
Proof.
  intros Hf. eapply post_conseq.
  - apply (post_while _ filled); [apply initialised_lenient| |done].
    intros b Hb _. by apply init_push_next.
  - by intros [] b1 [H1 _].
Qed.

Lemma init_next_loop cond buf :
  post initialised (while cond css_lex_next) buf (λ _ b', scratch b' = scratch buf).
Proof.
  eapply post_conseq.
  - apply (post_while _ (λ b, scratch b = scratch buf)); [apply initialised_lenient| |done].
    intros b Hb _. eapply post_conseq; [apply init_next|]. cbv beta. intros. congruence.
  - by intros [] b1 [H1 _].
Qed.

Lemma filled_length buf : filled buf → length (string buf) = 1024%nat.
Proof. by intros (pre & old & _ & H). Qed.

Lemma texted_intro t buf :
  has_text t = true → filled buf → terminated (string buf) → texted t buf.
Proof. intros Ht Hf Hz. split; [done|]. split; [done|by apply filled_length]. Qed.

Lemma lexed_texted a t buf : texted t buf → lexed a t buf.
Proof. intros (Ht & Hz & Hl). unfold lexed. by rewrite Ht. Qed.

Lemma lexed_fresh a t buf : has_text t = false → fresh a buf → lexed a t buf.
Proof. intros Ht (Hs & _ & Hl). unfold lexed. by rewrite Ht, Hs. Qed.

Ltac init_side :=
  first
    [ eassumption
    | eapply fresh_filled; eassumption
    | done ].

Ltac init_tidy :=
  repeat match goal with
  | H : _ ∧ _ |- _ => destruct H
  | H : 0 = 0 → _ |- _ => specialize (H eq_refl)
  | H : scratch ?b1 = scratch ?b, F : fresh _ ?b |- _ =>
      apply (fresh_scratch _ _ _ H) in F; clear H
  | H : scratch ?b1 = scratch ?b, F : filled ?b |- _ =>
      apply (filled_scratch _ _ H) in F; clear H
  | H : scratch ?b1 = scratch ?b, H0 : scratch ?b = scratch _ |- _ =>
      rewrite H0 in H; clear H0
  end.

Ltac init_done :=
  first
    [ assumption
    | apply texted_intro; [reflexivity|assumption|assumption]
    | apply lexed_fresh; [reflexivity|assumption]
    | congruence
    | done ].

Ltac init_with lem :=
  eapply post_bind; [apply lem; init_side|cbv beta; intros ? ? ?; init_tidy].

Ltac init_last lem :=
  eapply post_conseq;
    [apply lem; init_side|cbv beta; intros ? ? ?; init_tidy; try init_done].

Ltac init_step :=
  lazymatch goal with
  | |- post _ (mret _) _ _ => apply post_ret; init_tidy; try init_done
  | |- post _ (fz_css_error _) _ _ => apply post_error, initialised_lenient
  | |- post _ out_of_fuel _ _ => apply post_fuel, initialised_lenient
  | |- post _ (mret _ ≫= _) _ _ => apply post_ret_bind
  | |- post _ (fz_css_error _ ≫= _) _ _ => apply post_error_bind, initialised_lenient
  | |- post _ ((if ?b then _ else _) ≫= _) _ _ => destruct b eqn:?
  | |- post _ ((_ ≫= _) ≫= _) _ _ => apply post_assoc
  | |- post _ (gets _ ≫= _) _ _ => apply post_gets
  | |- post _ (css_lex_accept _ ≫= _) _ _ =>
      eapply post_bind; [apply init_accept|cbv beta; intros [] ? ?; init_tidy]
  | |- post _ (css_lex_expect _ ≫= _) _ _ => init_with init_expect
  | |- post _ (css_lex_next ≫= _) _ _ => init_with init_next
  | |- post _ (css_push_char _ ≫= _) _ _ => init_with init_push_char
  | |- post _ (css_push_c ≫= _) _ _ => init_with init_push_c
  | |- post _ (css_lex_accept_hex ≫= _) _ _ =>
      eapply post_bind; [apply init_accept_hex|cbv beta; intros [?|] ? ?; init_tidy]
  | |- post _ (while _ (css_push_c ;; css_lex_next) ≫= _) _ _ =>
      init_with init_push_loop
  | |- post _ (while _ css_lex_next ≫= _) _ _ => init_with init_next_loop
  | |- post _ (if ?b then _ else _) _ _ => destruct b eqn:?
  | |- post _ css_lex_next _ _ => init_last init_next
  | |- post _ (css_push_char _) _ _ => init_last init_push_char
  | |- post _ (css_lex_expect _) _ _ => init_last init_expect
  end.

Lemma init_css_lex_number buf :
  filled buf → post initialised css_lex_number buf texted.
Proof. intros Hb. unfold css_lex_number. repeat init_step. Qed.

Lemma init_css_lex_keyword buf :
  filled buf → post initialised css_lex_keyword buf texted.
Proof. intros Hb. unfold css_lex_keyword. repeat init_step. Qed.

Lemma init_css_lex_string q buf :
  filled buf → post initialised (css_lex_string q) buf texted.
Proof.
  intros Hb. unfold css_lex_string. eapply post_bind.
  - apply (post_while _ filled); [apply initialised_lenient| |done].
    intros b Hbb Hc. repeat init_step.
  - cbv beta. intros [] b1 [H1 _]. repeat init_step.
Qed.

Lemma init_css_lex_color buf :
  filled buf → post initialised css_lex_color buf texted.
Proof.
  intros Hb. unfold css_lex_color. repeat init_step.
  all: apply post_modify, post_modify, post_ret.
  all: pose proof (filled_length _ Hb) as Hl.
  all: split; [done|]; apply sprintf_06x_terminated; by cbn.
Qed.

Lemma init_css_lex_comment n : ∀ buf,
  post initialised (css_lex_comment n) buf (λ _ b', scratch b' = scratch buf).
Proof.
  induction n as [|n IH]; intros buf; cbn [css_lex_comment].
  - repeat init_step.
  - repeat first
      [ eapply post_conseq; [apply IH|cbv beta; intros; init_tidy; congruence]
      | init_step ].
Qed.

Ltac init_token :=
  lazymatch goal with
  | |- post _ css_lex_number _ _ =>
      eapply post_conseq;
        [apply init_css_lex_number; init_side|intros ? ? ?; by apply lexed_texted]
  | |- post _ css_lex_keyword _ _ =>
      eapply post_conseq;
        [apply init_css_lex_keyword; init_side|intros ? ? ?; by apply lexed_texted]
  | |- post _ css_lex_color _ _ =>
      eapply post_conseq;
        [apply init_css_lex_color; init_side|intros ? ? ?; by apply lexed_texted]
  | |- post _ (css_lex_string _) _ _ =>
      eapply post_conseq;
        [apply init_css_lex_string; init_side|intros ? ? ?; by apply lexed_texted]
  | |- post _ (css_lex_comment _ ≫= _) _ _ => init_with init_css_lex_comment
  | _ => init_step
  end.

Lemma init_css_lex_dispatch a g buf :
  (∀ b, fresh a b → post initialised g b (lexed a)) →
  fresh a buf → post initialised (css_lex_dispatch g) buf (lexed a).
Proof.
  intros Hg Hb. unfold css_lex_dispatch.
  repeat first [ init_token | apply Hg; init_side ].
Qed.

Lemma init_css_lex_restart a n : ∀ buf,
  fresh a buf → post initialised (css_lex_restart n) buf (lexed a).
Proof.
  induction n as [|n IH]; intros buf Hb; rewrite css_lex_restart_unfold.
  all: init_step; init_step.
  all: destruct (c _ =? 0); [init_step|].
  all: apply init_css_lex_dispatch; [|done].
  - intros b _. apply post_fuel, initialised_lenient.
  - exact IH.
Qed.

Lemma init_css_lex buf :
  length (string buf) = 1024%nat →
  post initialised css_lex buf (lexed (string buf)).
Proof.
  intros Hl. unfold css_lex. apply post_modify, post_gets.
  assert (Hf : fresh (string buf) (set_string_len 0 buf)) by done.
  destruct (c _ =? 0); [init_step|]. apply post_gets.
  by apply init_css_lex_restart.
Qed.

(** ** The parser *)

Lemma ready_first buf :
  length (string buf) = 1024%nat →
  post initialised next buf (λ _ b', ready b').
Proof.
  intros Hl. unfold next. eapply post_bind; [by apply init_css_lex|].
  cbv beta. intros t b1 [H1 H2]. unfold post. cbn.
  split; [done|]. change (has_text t = true → terminated (string b1)).
  intros Htext. by rewrite Htext in H2.
Qed.

Lemma ready_next : keeps ready initialised next.
Proof. intros buf [Hl _]. by apply ready_first. Qed.

Lemma copied_next : keeps copied initialised next.
Proof.
  intros buf [Hl Ht]. unfold next. eapply post_bind; [by apply init_css_lex|].
  cbv beta. intros t b1 [H1 H2]. unfold post. cbn.
  split; [done|]. change (terminated (string b1)).
  destruct (has_text t); [done|]. by rewrite H2.
Qed.

Lemma initialised_error {I : lexbuf → Prop} msg buf :
  I buf → initialised (FThrow msg (line buf)).
Proof. done. Qed.

Lemma copied_strdup : keeps copied initialised fz_strdup_string.
Proof.
  intros buf [Hl [w Hw]]. unfold post, fz_strdup_string. rewrite Hw.
  split; [done|by exists w].
Qed.

Lemma post_strdup {B} F (k : list Z → M B) buf Q :
  terminated (string buf) →
  (∀ d, post F (k d) buf Q) → post F (fz_strdup_string ≫= k) buf Q.
Proof.
  intros [w Hw] Hk. specialize (Hk w). unfold post in *.
  by rewrite (bind_Ok fz_strdup_string k buf w buf)
    by (unfold fz_strdup_string; by rewrite Hw).
Qed.

Lemma ready_accept t : keeps ready initialised (accept t).
Proof. apply keeps_accept, ready_next. Qed.

Lemma ready_expect t : keeps ready initialised (expect t).
Proof. apply keeps_expect; [done|apply ready_next]. Qed.

Lemma copied_accept t : keeps copied initialised (accept t).
Proof. apply keeps_accept, copied_next. Qed.

Lemma copied_expect t : keeps copied initialised (expect t).
Proof. apply keeps_expect; [done|apply copied_next]. Qed.

Lemma copied_parse_value_list n : keeps copied initialised (parse_value_list n).
Proof.
  apply keeps_strdup_value_list; [done|done|apply copied_next|apply copied_strdup].
Qed.

Lemma ready_text buf :
  ready buf → has_text (lookahead buf) = true → copied buf.
Proof. intros [Hl Ht] H. split; [done|by apply Ht]. Qed.

Lemma copied_ready buf : copied buf → ready buf.
Proof. intros [Hl Ht]. by split. Qed.

Ltac ready_text :=
  lazymatch goal with
  | Hb : ready ?b |- terminated (string ?b) =>
      apply (proj2 Hb);
      repeat match goal with H : context [lookahead b] |- _ => revert H end;
      destruct (lookahead b); done
  end.

Ltac ready_step :=
  lazymatch goal with
  | |- post _ (mret _) _ _ => apply post_ret; first [assumption|by apply copied_ready]
  | |- post _ (fz_css_error _) _ _ => apply post_error, initialised_lenient
  | |- post _ (mret _ ≫= _) _ _ => apply post_ret_bind
  | |- post _ ((_ ≫= _) ≫= _) _ _ => apply post_assoc
  | |- post _ (gets _ ≫= _) _ _ => apply post_gets
  | |- post _ (accept _ ≫= _) _ _ =>
      eapply post_bind; [by apply ready_accept|cbv beta; intros [] ? ?]
  | |- post _ (expect _ ≫= _) _ _ =>
      eapply post_bind; [by apply ready_expect|cbv beta; intros [] ? ?]
  | |- post _ (next ≫= _) _ _ =>
      eapply post_bind; [by apply ready_next|cbv beta; intros [] ? ?]
  | |- post _ (fz_strdup_string ≫= _) _ _ =>
      apply post_strdup; [ready_text|intros ?]
  | |- post _ (if ?b then _ else _) _ _ => destruct b eqn:?
  end.

Lemma ready_parse_attrib_value : keeps ready initialised parse_attrib_value.
Proof. intros buf Hb. unfold parse_attrib_value. repeat ready_step. Qed.

Lemma ready_parse_condition : keeps ready initialised parse_condition.
Proof.
  intros buf Hb. unfold parse_condition.
  repeat first
    [ eapply post_bind;
        [by apply ready_parse_attrib_value|cbv beta; intros ? ? ?]
    | ready_step ].
Qed.

Lemma ready_parse_simple_selector n :
  keeps ready initialised (parse_condition_list n) →
  keeps ready initialised (parse_simple_selector n).
Proof.
  intros Hc buf Hb. unfold parse_simple_selector.
  repeat first
    [ eapply post_bind; [by apply Hc|cbv beta; intros ? ? ?]
    | ready_step ].
Qed.

Lemma copied_declaration_rest n nm :
  keeps copied initialised
    (next ;; expect (Chr (chr ":")) ;;
     v ← parse_value_list n;
     b ← accept (Chr (chr "!"));
     (if b : bool then expect CSS_KEYWORD else mret tt) ;;
     mret (fz_new_css_property nm v 0)).
Proof.
  pose proof copied_next. pose proof copied_accept. pose proof copied_expect.
  pose proof copied_parse_value_list. keeps_go.
Qed.

Lemma ready_parse_declaration n : keeps ready initialised (parse_declaration n).
Proof.
  intros buf Hb. unfold parse_declaration. apply post_gets.
  destruct (decide _) as [Hla|]; [|apply post_error, initialised_lenient].
  apply post_strdup; [ready_text|]. intros nm.
  eapply post_conseq.
  - apply copied_declaration_rest, ready_text; [done|by rewrite Hla].
  - intros ? ?. apply copied_ready.
Qed.

Lemma ready_parse_declaration_list n :
  keeps ready initialised (parse_declaration_list n).
Proof.
  apply keeps_parse_declaration_list;
    first [apply ready_next|apply ready_parse_declaration|done].
Qed.

Lemma ready_parse_stylesheet_loop n nextp tail h :
  keeps ready initialised (parse_stylesheet_loop n nextp tail h).
Proof.
  apply keeps_parse_stylesheet_loop;
    first [apply ready_next|apply ready_parse_condition
          |apply ready_parse_simple_selector|apply ready_parse_declaration|done].
Qed.

(** ** The entry points *)

Lemma ready_start source :
  post initialised (css_lex_init ;; next) (lexbuf_at source) (λ _ b', ready b').
Proof.
  unfold css_lex_init. repeat apply post_assoc.
  eapply post_bind; [apply init_next|]. cbv beta. intros [] b1 [= Hs Hl].
  apply ready_first. cbn. by rewrite Hs.
Qed.

(** [fz_parse_css_properties] copies no indeterminate byte, and it uses no
    pointer to a rule. *)
Lemma fz_parse_css_properties_initialised source :
  fz_parse_css_properties source ≠ Undefined Uninitialised ∧
  fz_parse_css_properties source ≠ Undefined BadPointer.
Proof.
  assert (Hpost : post initialised
            (css_lex_init ;; next ;; parse_declaration_list (fuel source))
            (lexbuf_at source) (λ _ _, True)).
  { apply (post_assoc_rev _ css_lex_init (λ _, next)).
    eapply post_bind; [apply ready_start|]. cbv beta. intros [] b1 Hb1.
    eapply post_conseq; [by apply ready_parse_declaration_list|done]. }
  unfold fz_parse_css_properties, result, post, initialised in *.
  destruct ((css_lex_init ;; next ;; parse_declaration_list (fuel source))
              (lexbuf_at source)) as [[ps b]| | |]; try done.
  destruct Hpost as [H1 H2]. split; congruence.
Qed.

(** Neither does [fz_parse_css] copy an indeterminate byte, and on a chain
    that ends it uses only pointers to rules. *)
Lemma fz_parse_css_initialised h chain source :
  (chain = None ∨ ∃ a l t, chain = Some a ∧ chain_to h a l t) →
  fz_parse_css h chain source ≠ Undefined Uninitialised ∧
  fz_parse_css h chain source ≠ Undefined BadPointer.
Proof.
  intros Hchain.
  assert (Hpost : post initialised
            (css_lex_init ;; next ;; parse_stylesheet (fuel source) h chain)
            (lexbuf_at source) (λ _ _, True)).
  { apply (post_assoc_rev _ css_lex_init (λ _, next)).
    eapply post_bind; [apply ready_start|]. cbv beta. intros [] b1 Hb1.
    destruct Hchain as [->|(a & l & t & -> & Hch)].
    - rewrite parse_stylesheet_None.
      eapply post_conseq; [by apply ready_parse_stylesheet_loop|done].
    - rewrite parse_stylesheet_Some. unfold post.
      rewrite (last_rule_chain _ _ _ _ _ _ Hch) by lia.
      fold (post initialised
              ('(_, h') ← parse_stylesheet_loop (fuel source) (NextOf t) (Some t) h;
               mret (Some a, h')) b1 (λ _ _, True)).
      eapply post_bind; [by apply ready_parse_stylesheet_loop|]. by intros [] ? _. }
  unfold fz_parse_css, result, post, initialised in *.
  destruct ((css_lex_init ;; next ;; parse_stylesheet (fuel source) h chain)
              (lexbuf_at source)) as [[ps b]| | |]; try done.
  destruct Hpost as [H1 H2]. split; congruence.
Qed.

(** * What the entry points can do *)

Lemma last_cases (source : list Z) :
  (last source = Some (chr "\") ∨ last source = Some (chr "*")) ∨
  (last source ≠ Some (chr "\") ∧ last source ≠ Some (chr "*")).
Proof.
  destruct (decide (last source = Some (chr "\"))); [by left; left|].
  destruct (decide (last source = Some (chr "*"))); [by left; right|by right].
Qed.

(** [fz_parse_css_properties] returns a list of properties or throws a syntax
    error, on every source, unless the source ends in a backslash or in a
    star and the lexer reads beyond its terminator: no loop of the parser
    runs for ever, and no indeterminate byte of the scratch array is
    copied. *)
Theorem fz_parse_css_properties_outcome source :
  (∃ ps, fz_parse_css_properties source = Ok ps) ∨
  (∃ msg ln, fz_parse_css_properties source = Throw msg ln) ∨
  (fz_parse_css_properties source = Undefined OverRead ∧
   (last source = Some (chr "\") ∨ last source = Some (chr "*"))).
Proof.
  pose proof (fz_parse_css_properties_fuel source) as Hfuel.
  pose proof (fz_parse_css_properties_initialised source) as [Hinit Hptr].
  pose proof (fz_parse_css_properties_within_source source) as Hin.
  destruct (fz_parse_css_properties source) as [ps|msg ln|[]|]; try done.
  - left. by exists ps.
  - right. left. by exists msg, ln.
  - right. right. split; [done|].
    destruct (last_cases source) as [H|[H1 H2]]; [done|]. by destruct Hin.
Qed.

(** So does [fz_parse_css], on a chain that ends: it returns the chain and
    the store, or throws a syntax error, unless the source ends in a
    backslash or in a star and the lexer reads beyond its terminator. *)
Theorem fz_parse_css_outcome h chain source :
  (chain = None ∨ ∃ a l t, chain = Some a ∧ chain_to h a l t) →
  (∃ r, fz_parse_css h chain source = Ok r) ∨
  (∃ msg ln, fz_parse_css h chain source = Throw msg ln) ∨
  (fz_parse_css h chain source = Undefined OverRead ∧
   (last source = Some (chr "\") ∨ last source = Some (chr "*"))).
Proof.
  intros Hchain.
  pose proof (fz_parse_css_fuel h chain source Hchain) as Hfuel.
  pose proof (fz_parse_css_initialised h chain source Hchain) as [Hinit Hptr].
  pose proof (fz_parse_css_within_source h chain source) as Hin.
  destruct (fz_parse_css h chain source) as [r|msg ln|[]|]; try done.
  - left. by exists r.
  - right. left. by exists msg, ln.
  - right. right. split; [done|].
    destruct (last_cases source) as [H|[H1 H2]]; [done|]. by destruct Hin.
Qed.

(** The style sheet [d{e:f}] onto a chain of one rule. *)
Lemma fz_parse_css_outcome_witness :
  (∃ r, fz_parse_css [Rule [] [] [] None] (Some 0%nat) (bytes "d{e:f}") = Ok r) ∨
  (∃ msg ln,
     fz_parse_css [Rule [] [] [] None] (Some 0%nat) (bytes "d{e:f}") = Throw msg ln) ∨
  (fz_parse_css [Rule [] [] [] None] (Some 0%nat) (bytes "d{e:f}") = Undefined OverRead ∧
   (last (bytes "d{e:f}") = Some (chr "\") ∨ last (bytes "d{e:f}") = Some (chr "*"))).
Proof.
  apply (fz_parse_css_outcome [Rule [] [] [] None] (Some 0%nat) (bytes "d{e:f}")).
  right. exists 0%nat, [([], [])], 0%nat. split; [reflexivity|].
  by apply (chain_last _ 0%nat (Rule [] [] [] None)).
Defined.

(** * Bytes that the lexer passes over *)

Lemma skip_stream w : ∀ buf x rest,
  stream buf = w ++ x :: rest → stream (skip (length w) buf) = x :: rest.
Proof.
  induction w as [|a w IH]; intros buf x rest Hst; [done|].
  injection Hst as Hc Hs. cbn [length skip].
  destruct (s buf) as [|b r] eqn:Hsb; [by destruct w|].
  apply IH. unfold stream. cbn [c s advance]. by rewrite <- Hs.
Qed.

Lemma skip_lookahead n : ∀ buf, lookahead (skip n buf) = lookahead buf.
Proof.
  induction n as [|n IH]; intros buf; [done|]. cbn [skip].
  destruct (s buf); [done|]. by rewrite IH.
Qed.

Lemma skip_scratch n : ∀ buf, scratch (skip n buf) = scratch buf.
Proof.
  induction n as [|n IH]; intros buf; [done|]. cbn [skip].
  destruct (s buf); [done|]. by rewrite IH.
Qed.

Lemma skip_line w : ∀ buf x rest,
  stream buf = w ++ x :: rest →
  line (skip (length w) buf) = line buf + newlines (take (length w) (s buf)).
Proof.
  induction w as [|a w IH]; intros buf x rest Hst; [simpl; lia|].
  injection Hst as Hc Hs. cbn [length skip].
  destruct (s buf) as [|b r] eqn:Hsb; [by destruct w|].
  rewrite (IH _ x rest) by (unfold stream; cbn [c s advance]; by rewrite <- Hs).
  cbn [line s advance take newlines]. destruct (b =? 10); lia.
Qed.

(** A loop that reads on over the bytes of a class. *)
Lemma next_loop_run (cls : Z → bool) w : ∀ n buf x rest,
  Forall (λ b, cls b = true) w → cls x = false →
  stream buf = w ++ x :: rest → (length w < n)%nat →
  while_ n (λ buf, cls (c buf)) css_lex_next buf = Ok (tt, skip (length w) buf).
Proof.
  induction w as [|a w IH]; intros n buf x rest Hw Hx Hst Hn.
  - injection Hst as Hc Hs. by rewrite while__false by (by rewrite Hc).
  - injection Hst as Hc Hs. apply Forall_cons in Hw as [Ha Hw].
    destruct n as [|n]; [simpl in Hn; lia|].
    rewrite while__true by (by rewrite Hc).
    destruct (s buf) as [|b r] eqn:Hsb; [by destruct w|].
    erewrite bind_Ok by (by apply css_lex_next_cons).
    cbn [length skip]. rewrite Hsb.
    apply (IH _ _ x rest); [done|done| |simpl in Hn; lia].
    unfold stream. cbn [c s advance]. by rewrite <- Hs.
Qed.

Lemma white_loop_run w buf x rest :
  Forall (λ b, iswhite b = true) w → iswhite x = false →
  stream buf = w ++ x :: rest →
  while (λ buf, iswhite (c buf)) css_lex_next buf = Ok (tt, skip (length w) buf).
Proof.
  intros Hw Hx Hst. unfold while. apply (next_loop_run iswhite w _ _ x rest); try done.
  rewrite (stream_length _ _ _ _ Hst). lia.
Qed.

(** ** A source of white space *)

Lemma css_lex_white w buf rest :
  white w → stream buf = w ++ 0 :: rest →
  css_lex buf = Ok (EOF, skip (length w) (set_string_len 0 buf)).
Proof.
  intros Hw Hst. unfold css_lex. rewrite bind_modify, bind_gets.
  cbn [c set_string_len].
  destruct w as [|a w]; [injection Hst as -> _; done|].
  assert (Ha : iswhite (c buf) = true).
  { injection Hst as -> _. by apply Forall_cons in Hw as [? _]. }
  destruct (Z.eqb_spec (c buf) 0) as [H0|_]; [by rewrite H0 in Ha|].
  rewrite bind_gets, css_lex_restart_unfold.
  erewrite bind_Ok by (by apply (white_loop_run (a :: w) _ 0 rest)).
  rewrite bind_gets.
  assert (Hend : c (skip (length (a :: w)) (set_string_len 0 buf)) = 0).
  { pose proof (skip_stream (a :: w) (set_string_len 0 buf) 0 rest Hst) as Hend.
    by injection Hend. }
  by rewrite Hend.
Qed.

Lemma start_white source :
  white source →
  ∃ buf, start source = Ok (tt, buf) ∧ lookahead buf = EOF.
Proof.
  intros Hw. unfold start.
  rewrite (bind_Ok _ _ _ _ _ (css_lex_init_inline source)).
  unfold next.
  assert (Hst : stream (lexer_entry source) = source ++ 0 :: []).
  { unfold lexer_entry. by destruct source. }
  rewrite (bind_Ok _ _ _ _ _ (css_lex_white _ _ _ Hw Hst)).
  eexists. split; [reflexivity|done].
Qed.

(** A source of white space alone, the empty source among them, has no
    declarations: [fz_parse_css_properties] returns the empty list. *)
Theorem fz_parse_css_properties_white source :
  white source → fz_parse_css_properties source = Ok [].
Proof.
  intros Hw. rewrite fz_parse_css_properties_start.
  destruct (start_white source Hw) as (buf & -> & Hla).
  unfold parse_declaration_list. by rewrite bind_gets, Hla.
Qed.

(** A blank, a tabulator, a line feed and a carriage return. *)
Lemma fz_parse_css_properties_white_witness :
  fz_parse_css_properties [32; 9; 10; 13] = Ok [].
Proof.
  apply (fz_parse_css_properties_white [32; 9; 10; 13]).
  unfold white. repeat constructor.
Defined.

(** It has no rules either: [fz_parse_css] returns the chain that it was
    given, and the store as it was. *)
Theorem fz_parse_css_white h chain source :
  (chain = None ∨ ∃ a l t, chain = Some a ∧ chain_to h a l t) →
  white source → fz_parse_css h chain source = Ok (chain, h).
Proof.
  intros Hchain Hw. rewrite fz_parse_css_start.
  destruct (start_white source Hw) as (buf & -> & Hla).
  assert (Hloop : ∀ nextp tail,
            parse_stylesheet_loop (fuel source) nextp tail h buf = Ok ((tail, h), buf)).
  { intros nextp tail. unfold fuel. cbn [parse_stylesheet_loop].
    by rewrite bind_gets, Hla. }
  destruct Hchain as [->|(a & l & t & -> & Hch)].
  - rewrite parse_stylesheet_None. by rewrite Hloop.
  - rewrite parse_stylesheet_Some.
    rewrite (last_rule_chain _ _ _ _ _ _ Hch) by lia.
    by rewrite (bind_Ok _ _ _ _ _ (Hloop _ _)).
Qed.

(** A line feed, parsed onto a chain of one rule. *)
Lemma fz_parse_css_white_witness :
  fz_parse_css [Rule [] [] [] None] (Some 0%nat) [10]
  = Ok (Some 0%nat, [Rule [] [] [] None]).
Proof.
  apply (fz_parse_css_white [Rule [] [] [] None] (Some 0%nat) [10]).
  - right. exists 0%nat, [([], [])], 0%nat. split; [reflexivity|].
    by apply (chain_last _ 0%nat (Rule [] [] [] None)).
  - unfold white. repeat constructor.
Defined.

(** * Any chain that ends can be parsed onto *)

Lemma open_chain_linked h a tail nextp l :
  open_chain h (Some a) tail nextp l → ∃ t, chain_to h a l t.
Proof. intros Ho. inversion Ho as [|a' l' t Hhd Hch]; [done|]. injection Hhd as <-. eauto. Qed.

(** What [fz_parse_css] does with a style sheet does not depend on the chain
    that it is given, as long as that chain ends.  Where the sheet parses on
    its own, it parses onto the chain: the head of the chain is returned, and
    in the new store the chain has its old rules followed by the rules of the
    sheet, and ends again.  Where the sheet has a syntax error on its own, the
    same error is thrown. *)
Theorem fz_parse_css_onto h a l t source :
  chain_to h a l t →
  (∀ p0 h0, fz_parse_css [] None source = Ok (p0, h0) →
     ∃ h' new t',
       fz_parse_css h (Some a) source = Ok (Some a, h') ∧
       rules h0 p0 = Some new ∧ chain_to h' a (l ++ new) t') ∧
  (∀ msg ln, fz_parse_css [] None source = Throw msg ln →
     fz_parse_css h (Some a) source = Throw msg ln).
Proof.
  intros Hch. rewrite !fz_parse_css_start.
  destruct (start source) as [[[] b0]| | |]; [|done..].
  rewrite parse_stylesheet_None, parse_stylesheet_Some.
  unfold result.
  pose proof (parse_stylesheet_loop_same (fuel source) b0 [] h None (Some a) None (Some t)
                LocalTail (NextOf t) [] l (open_empty _ _ _ eq_refl eq_refl)
                (open_linked h (Some a) (Some t) a l t eq_refl Hch)) as Hs.
  rewrite (last_rule_chain _ _ _ _ _ _ Hch) by lia.
  unfold same_rules in Hs.
  destruct (parse_stylesheet_loop (fuel source) LocalTail None [] b0)
    as [[[t1 h1] b1]|m1 k1| |] eqn:Hrun1,
     (parse_stylesheet_loop (fuel source) (NextOf t) (Some t) h b0)
    as [[[t2 h2] b2]|m2 k2| |] eqn:Hrun2; try done.
  - destruct Hs as (-> & new & nx1 & nx2 & Ho1 & Ho2).
    rewrite (bind_Ok _ _ _ _ _ Hrun2). split; [|done].
    intros p0 h0 [= <- <-].
    destruct (open_chain_linked _ _ _ _ _ Ho2) as [t' Ht'].
    exists h2, new, t'. split; [done|]. split; [|done].
    by apply (open_chain_rules _ _ _ _ _ Ho1).
  - destruct Hs as [-> ->]. rewrite (bind_Throw _ _ _ _ _ Hrun2).
    split; [done|]. by intros msg ln [= -> ->].
Qed.

(** The style sheet [d{e:f}] onto a chain of two rules. *)
Lemma fz_parse_css_onto_witness :
  ∃ h' new t',
    fz_parse_css
      [Rule [] [] [] (Some 1%nat); Rule universal [] [] None] (Some 0%nat)
      (bytes "d{e:f}") = Ok (Some 0%nat, h') ∧
    rules
      [Rule [Selector (Some (bytes "d")) 0 [] None None]
         [fz_new_css_property (bytes "e") [Value CSS_KEYWORD (bytes "f") []] 0] [] None]
      (Some 0%nat) = Some new ∧
    chain_to h' 0%nat ([([], []); (universal, [])] ++ new) t'.
Proof.
  assert (Hch : chain_to [Rule [] [] [] (Some 1%nat); Rule universal [] [] None]
                  0%nat [([], []); (universal, [])] 1%nat).
  { apply (chain_link _ 0%nat (Rule [] [] [] (Some 1%nat)) 1%nat [(universal, [])] 1%nat);
      [reflexivity|reflexivity|lia|].
    apply (chain_last _ 1%nat (Rule universal [] [] None)); reflexivity. }
  apply (proj1 (fz_parse_css_onto _ _ _ _ (bytes "d{e:f}") Hch)).
  vm_compute. reflexivity.
Defined.

(** * The shape of the syntax tree

    What the constructors are called with: the trees that the parser builds
    are of the few forms that the code which matches selectors and reads
    values can rely on. *)

Lemma any_lenient : lenient any.
Proof. done. Qed.

Lemma shape_next buf : post any next buf (λ _ b', nohash b').
Proof.
  unfold post. destruct (next buf) as [[[] b']| | |] eqn:H; [|done..].
  by apply next_lookahead in H.
Qed.

Lemma shape_accept t buf :
  nohash buf →
  post any (accept t) buf (λ b b', nohash b' ∧ (b = true → t ≠ Chr (chr "#"))).
Proof.
  intros Hb. unfold post. destruct (accept t buf) as [[b b']| | |] eqn:H; [|done..].
  apply accept_inv in H as [(-> & -> & Hne)|(-> & Heq & Hn)]; [done|].
  split; [by apply next_lookahead in Hn|]. intros _. by rewrite <- Heq.
Qed.

Lemma shape_expect t buf :
  nohash buf → post any (expect t) buf (λ _ b', nohash b').
Proof.
  intros Hb. unfold expect. eapply post_bind; [by apply shape_accept|].
  intros [] b1 [H1 _]; [by apply post_ret|by apply post_error].
Qed.

Lemma shape_strdup {B} (k : list Z → M B) buf Q :
  (∀ d, post any (k d) buf Q) → post any (fz_strdup_string ≫= k) buf Q.
Proof.
  intros Hk. unfold post.
  destruct (fz_strdup_string buf) as [[d b']| | |] eqn:H.
  - rewrite (bind_Ok _ _ _ _ _ H).
    assert (b' = buf) as ->; [|apply Hk].
    unfold fz_strdup_string in H. destruct (cstring _); [|done]. by injection H.
  - by rewrite (bind_Throw _ _ _ _ _ H).
  - by rewrite (bind_Undefined _ _ _ _ H).
  - by rewrite (bind_OutOfFuel _ _ _ H).
Qed.

Ltac shape_tidy :=
  repeat match goal with
  | H : _ ∧ _ |- _ => destruct H
  | H : true = true → ?t ≠ ?t |- _ => destruct (H eq_refl eq_refl)
  | H : _ = true → _ ≠ _ |- _ => clear H
  end.

Ltac shape_call lem :=
  eapply post_bind; [apply lem; assumption|cbv beta; intros ? ? ?; shape_tidy].

Ltac shape_step :=
  lazymatch goal with
  | |- post _ (mret _) _ _ => apply post_ret; split; [|assumption]
  | |- post _ (fz_css_error _) _ _ => by apply post_error
  | |- post _ out_of_fuel _ _ => by apply post_fuel
  | |- post _ (mret _ ≫= _) _ _ => apply post_ret_bind
  | |- post _ (out_of_fuel ≫= _) _ _ => by apply post_fuel_bind
  | |- post _ (fz_css_error _ ≫= _) _ _ => by apply post_error_bind
  | |- post _ ((_ ≫= _) ≫= _) _ _ => apply post_assoc
  | |- post _ (gets _ ≫= _) _ _ => apply post_gets
  | |- post _ (accept _ ≫= _) _ _ =>
      eapply post_bind;
        [apply shape_accept; assumption|cbv beta; intros [] ? ?; shape_tidy]
  | |- post _ (expect _ ≫= _) _ _ => shape_call shape_expect
  | |- post _ (next ≫= _) _ _ =>
      eapply post_bind; [apply shape_next|cbv beta; intros ? ? ?]
  | |- post _ (fz_strdup_string ≫= _) _ _ => apply shape_strdup; intros ?
  | |- post _ (if ?b then _ else _) _ _ => destruct b eqn:?
  | |- post _ (match ?x with _ => _ end) _ _ => destruct x eqn:?
  | |- post _ ((if ?b then _ else _) ≫= _) _ _ => destruct b eqn:?
  | |- post _ ((match ?x with _ => _ end) ≫= _) _ _ => destruct x eqn:?
  end.

Lemma shaped_parse_attrib_value : shaped (λ _, True) parse_attrib_value.
Proof. intros buf Hb. unfold parse_attrib_value. repeat shape_step; done. Qed.

Lemma shaped_parse_condition :
  shaped (λ cnd, wf_condition cnd = true) parse_condition.
Proof.
  intros buf Hb. unfold parse_condition.
  repeat first [ shape_call shaped_parse_attrib_value | shape_step ]; done.
Qed.

Lemma shaped_parse_condition_loop n :
  shaped (λ cs, forallb wf_condition cs = true) (parse_condition_loop n).
Proof.
  induction n as [|n IH]; intros buf Hb; cbn [parse_condition_loop].
  all: repeat first
    [ shape_call shaped_parse_condition | shape_call IH | shape_step ]; try done.
  cbn [forallb]. by apply andb_true_iff.
Qed.

Lemma shaped_parse_condition_list n :
  shaped (λ cs, forallb wf_condition cs = true) (parse_condition_list n).
Proof.
  intros buf Hb. unfold parse_condition_list.
  repeat first
    [ shape_call shaped_parse_condition | shape_call shaped_parse_condition_loop
    | shape_step ].
  cbn [forallb]. by apply andb_true_iff.
Qed.

Lemma wf_leaf nm cs :
  forallb wf_condition cs = true →
  wf_selector (Selector nm 0 cs None None) = true ∧ rank (Selector nm 0 cs None None) = 0.
Proof. intros H. cbn. by rewrite H. Qed.

Lemma shaped_parse_simple_selector n :
  shaped (λ sel, wf_selector sel = true ∧ rank sel = 0) (parse_simple_selector n).
Proof.
  intros buf Hb. unfold parse_simple_selector, fz_new_css_selector.
  repeat first [ shape_call shaped_parse_condition_list | shape_step ].
  all: by apply wf_leaf.
Qed.

Lemma wf_combinator comb a b :
  (comb = chr "+" ∨ comb = chr ">" ∨ comb = chr " ") →
  wf_selector a = true → wf_selector b = true →
  rank a < rank_of comb → rank b ≤ rank_of comb →
  wf_selector (combinator comb a b) = true ∧
  rank (combinator comb a b) = rank_of comb.
Proof.
  intros Hc Ha Hb Hra Hrb. split; [|done]. cbn [combinator wf_selector].
  rewrite Ha, Hb. apply Z.ltb_lt in Hra. apply Z.leb_le in Hrb. rewrite Hra, Hrb.
  by destruct Hc as [->|[->| ->]].
Qed.

Ltac rank_lia :=
  change (rank_of (chr "+")) with 1 in *; change (rank_of (chr ">")) with 2 in *;
  change (rank_of (chr " ")) with 3 in *; lia.

Lemma shaped_parse_adjacent_selector n :
  shaped (λ sel, wf_selector sel = true ∧ rank sel ≤ 1) (parse_adjacent_selector n).
Proof.
  induction n as [|n IH]; intros buf Hb; cbn [parse_adjacent_selector].
  all: repeat first
    [ shape_call shaped_parse_simple_selector | shape_call IH | shape_step ].
  all: try (split; [done|lia]).
  all: match goal with |- context [combinator ?c ?a ?b] =>
    destruct (wf_combinator c a b) as [Hw Hr];
      [auto|done|done|rank_lia|rank_lia|rewrite Hr; split; [done|rank_lia]] end.
Qed.

Lemma shaped_parse_child_selector n :
  shaped (λ sel, wf_selector sel = true ∧ rank sel ≤ 2) (parse_child_selector n).
Proof.
  induction n as [|n IH]; intros buf Hb; cbn [parse_child_selector].
  all: repeat first
    [ shape_call shaped_parse_adjacent_selector | shape_call IH | shape_step ].
  all: try (split; [done|lia]).
  all: match goal with |- context [combinator ?c ?a ?b] =>
    destruct (wf_combinator c a b) as [Hw Hr];
      [auto|done|done|rank_lia|rank_lia|rewrite Hr; split; [done|rank_lia]] end.
Qed.

Lemma rank_le sel : rank sel ≤ 3.
Proof. destruct sel as [nm comb cs l r]. unfold rank, rank_of. repeat case_match; lia. Qed.

Lemma shaped_parse_descendant_selector n :
  shaped (λ sel, wf_selector sel = true) (parse_descendant_selector n).
Proof.
  induction n as [|n IH]; intros buf Hb; cbn [parse_descendant_selector].
  all: repeat first
    [ shape_call shaped_parse_child_selector | shape_call IH | shape_step ].
  all: try done.
  all: match goal with |- context [combinator ?c ?a ?b] =>
    pose proof (rank_le b);
    destruct (wf_combinator c a b) as [Hw Hr];
      [auto|done|done|rank_lia|rank_lia|done] end.
Qed.

Lemma shaped_parse_selector_loop n :
  shaped (λ sels, forallb wf_selector sels = true) (parse_selector_loop n).
Proof.
  induction n as [|n IH]; intros buf Hb; cbn [parse_selector_loop].
  all: repeat first
    [ shape_call shaped_parse_descendant_selector | shape_call IH | shape_step ];
    try done.
  cbn [forallb]. by apply andb_true_iff.
Qed.

Lemma shaped_parse_selector_list n :
  shaped (λ sels, sels ≠ [] ∧ forallb wf_selector sels = true) (parse_selector_list n).
Proof.
  intros buf Hb. unfold parse_selector_list.
  repeat first
    [ shape_call shaped_parse_descendant_selector
    | shape_call shaped_parse_selector_loop | shape_step ].
  split; [done|]. cbn [forallb]. by apply andb_true_iff.
Qed.

Lemma shaped_parse_value_list n :
  shaped (λ vs, forallb wf_value vs = true) (parse_value_list n).
Proof.
  induction n as [|n IH]; intros buf Hb; rewrite parse_value_list_unfold.
  all: unfold parse_value_list_with, parse_value_with, parse_value_list_rec,
         fz_new_css_value.
  all: repeat first [ shape_call IH | shape_step ]; try done.
  all: cbn [forallb wf_value]; apply andb_true_iff; split; try done.
  all: try (rewrite decide_True by done; done).
  all: rewrite decide_False by (by subst); by subst.
Qed.

Lemma shaped_parse_declaration n :
  shaped (λ p, wf_property p = true) (parse_declaration n).
Proof.
  intros buf Hb. unfold parse_declaration, fz_new_css_property.
  repeat first [ shape_call shaped_parse_value_list | shape_step ]; done.
Qed.

Lemma shaped_parse_declaration_loop n :
  shaped (λ ps, forallb wf_property ps = true) (parse_declaration_loop n).
Proof.
  induction n as [|n IH]; intros buf Hb;
    [cbn [parse_declaration_loop]|rewrite parse_declaration_loop_unfold].
  all: unfold parse_declaration_loop_with.
  all: repeat first
    [ shape_call shaped_parse_declaration | shape_call IH | shape_step ]; try done.
  - cbn [forallb]. by apply andb_true_iff.
  - eapply post_conseq; [by apply IH|done].
Qed.

Lemma shaped_parse_declaration_list n :
  shaped (λ ps, forallb wf_property ps = true) (parse_declaration_list n).
Proof.
  intros buf Hb. unfold parse_declaration_list.
  repeat first
    [ shape_call shaped_parse_declaration | shape_call shaped_parse_declaration_loop
    | shape_step ]; try done.
  cbn [forallb]. by apply andb_true_iff.
Qed.

Lemma shaped_parse_rule n h :
  forallb wf_rule h = true →
  shaped (λ r, forallb wf_rule r.2 = true) (parse_rule n h).
Proof.
  intros Hh buf Hb. unfold parse_rule, fz_new_css_rule.
  repeat first
    [ shape_call shaped_parse_selector_list | shape_call shaped_parse_declaration_list
    | shape_step ].
  cbn [snd]. rewrite forallb_app, Hh. unfold wf_rule.
  cbn [forallb selector declaration garbage andb].
  rewrite (bool_decide_eq_false_2 (_ = [])) by done.
  repeat (apply andb_true_iff; split); done.
Qed.

Lemma shaped_parse_at_rule_block n : ∀ depth,
  shaped (λ _, True) (parse_at_rule_block n depth).
Proof.
  induction n as [|n IH]; intros depth buf Hb; cbn [parse_at_rule_block].
  all: repeat first
    [ eapply post_conseq; [by apply IH|done] | shape_step ]; done.
Qed.

Lemma shaped_parse_at_rule_skip n : shaped (λ _, True) (parse_at_rule_skip n).
Proof.
  induction n as [|n IH]; intros buf Hb; cbn [parse_at_rule_skip].
  all: repeat first
    [ eapply post_conseq; [by apply IH|done]
    | eapply post_conseq; [by apply shaped_parse_at_rule_block|done]
    | shape_step ]; done.
Qed.

Lemma shaped_parse_at_rule n : shaped (λ _, True) (parse_at_rule n).
Proof.
  intros buf Hb. unfold parse_at_rule.
  repeat first
    [ eapply post_conseq; [by apply shaped_parse_at_rule_skip|done] | shape_step ].
Qed.

Lemma wf_rule_alter nx a h :
  forallb wf_rule h = true →
  forallb wf_rule (alter (set_rule_next nx) a h) = true.
Proof.
  revert a. induction h as [|r h IH]; intros a Hh; [done|].
  cbn [forallb] in Hh. apply andb_true_iff in Hh as [Hr Hh].
  destruct a as [|a]; cbn [alter list_alter forallb]; apply andb_true_iff.
  - by split.
  - split; [done|]. by apply IH.
Qed.

Lemma shaped_parse_stylesheet_loop n : ∀ nextp tail h,
  forallb wf_rule h = true →
  shaped (λ r, forallb wf_rule r.2 = true) (parse_stylesheet_loop n nextp tail h).
Proof.
  induction n as [|n IH]; intros nextp tail h Hh buf Hb; cbn [parse_stylesheet_loop].
  all: repeat first
    [ shape_call shaped_parse_at_rule
    | eapply post_conseq; [by apply IH|done]
    | shape_step ]; try done.
  eapply post_bind; [by apply shaped_parse_rule|].
  cbv beta. intros [rule h1] bufr [Hh1 Hbr]. cbn [snd] in Hh1.
  destruct nextp as [|a]; cbn [store_rule].
  - by apply IH.
  - apply IH; [|done]. by apply wf_rule_alter.
Qed.

Lemma shaped_last_rule {A} (R : A → Prop) n h (k : nat → M A) : ∀ a,
  (∀ t, shaped R (k t)) → shaped R (last_rule n h a k).
Proof.
  induction n as [|n IH]; intros a Hk buf Hb; cbn [last_rule].
  all: destruct (h !! a) as [r|]; [|done].
  all: destruct (rule_next r); [|by apply Hk].
  - done.
  - by apply IH.
Qed.

Lemma shaped_parse_stylesheet n h chain :
  forallb wf_rule h = true →
  shaped (λ r, forallb wf_rule r.2 = true) (parse_stylesheet n h chain).
Proof.
  intros Hh. unfold parse_stylesheet. destruct chain as [a|].
  - apply shaped_last_rule. intros t buf Hb.
    eapply post_bind; [by apply shaped_parse_stylesheet_loop|].
    cbv beta. by intros [tail h'] b1 [H1 H2].
  - by apply shaped_parse_stylesheet_loop.
Qed.

Lemma shaped_start {A} (R : A → Prop) (m : M A) source a :
  shaped R m →
  result ((css_lex_init ;; next ;; m) (lexbuf_at source)) = Ok a → R a.
Proof.
  intros Hm Hrun.
  assert (Hpost : post any (css_lex_init ;; next ;; m) (lexbuf_at source)
                    (λ a _, R a)).
  { apply (post_assoc_rev _ css_lex_init (λ _, next)).
    apply (post_bind _ _ _ _ (λ _ b', nohash b')).
    - unfold post. destruct ((css_lex_init ;; next) (lexbuf_at source))
        as [[[] b]| | |] eqn:H; [|done..].
      apply bind_inv in H as ([] & b0 & _ & H). apply (next_lookahead _ _ H).
    - cbv beta. intros [] b1 Hb1. eapply post_conseq; [by apply Hm|].
      by intros ? ? [? _]. }
  unfold result, post in *.
  destruct ((css_lex_init ;; next ;; m) (lexbuf_at source)) as [[a' b]| | |];
    [|done..].
  by injection Hrun as <-.
Qed.

(** The properties that [fz_parse_css_properties] returns are well formed:
    their [spec] is 0, and their values are plain values without arguments
    or functions whose arguments are values of the same kind. *)
Theorem fz_parse_css_properties_shape source ps :
  fz_parse_css_properties source = Ok ps → forallb wf_property ps = true.
Proof.
  apply (shaped_start (λ ps, forallb wf_property ps = true)).
  apply shaped_parse_declaration_list.
Qed.

(** The declarations [a:f(1,b) c!important]. *)
Lemma fz_parse_css_properties_shape_witness :
  forallb wf_property
    [fz_new_css_property (bytes "a")
       [Value (Chr (chr "(")) (bytes "f")
          [Value CSS_NUMBER (bytes "1") []; Value (Chr (chr ",")) (bytes ",") [];
           Value CSS_KEYWORD (bytes "b") []];
        Value CSS_KEYWORD (bytes "c") []] 0] = true.
Proof.
  apply (fz_parse_css_properties_shape (bytes "a:f(1,b) c!important")).
  vm_compute. reflexivity.
Defined.

(** [fz_parse_css] keeps the store well formed: when every rule in it is,
    every rule in the store that is returned is.  A rule has at least one
    selector; a selector is a leaf with its conditions or the node of a
    combinator with both children, nested by the precedence of the
    combinators; a condition is of one of the six forms that the parser can
    build; the properties are as above. *)
Theorem fz_parse_css_shape h chain source p h' :
  forallb wf_rule h = true →
  fz_parse_css h chain source = Ok (p, h') → forallb wf_rule h' = true.
Proof.
  intros Hh.
  apply (shaped_start (λ r, forallb wf_rule r.2 = true) _ source (p, h')).
  by apply shaped_parse_stylesheet.
Qed.

(** The rule [a b>c+d.e[f=g]:h{i:j}] into the empty store. *)
Lemma fz_parse_css_shape_witness :
  ∃ p h',
    fz_parse_css [] None (bytes "a b>c+d.e[f=g]:h{i:j}") = Ok (p, h') ∧
    forallb wf_rule h' = true.
Proof.
  assert (H : ∃ p h',
            fz_parse_css [] None (bytes "a b>c+d.e[f=g]:h{i:j}") = Ok (p, h')).
  { eexists _, _. vm_compute. reflexivity. }
  destruct H as (p & h' & H). exists p, h'. split; [exact H|].
  exact (fz_parse_css_shape [] None _ p h' eq_refl H).
Defined.

(** * The texts of the tokens

    Runs of the lexer that return: the failure predicate excludes every
    failure, and the states are described by what is left to read and by what
    has been accumulated. *)

Lemma post_never {A} (m : M A) buf Q :
  post never m buf Q ↔ ∃ a buf', m buf = Ok (a, buf') ∧ Q a buf'.
Proof.
  unfold post, never. destruct (m buf) as [[a b]| | |]; split; try done.
  - intros H. by exists a, b.
  - by intros (a' & b' & [= <- <-] & H).
  - by intros (a' & b' & [=] & _).
  - by intros (a' & b' & [=] & _).
  - by intros (a' & b' & [=] & _).
Qed.

Lemma exact_next x l pre buf :
  l ≠ [] → reading (x :: l) pre buf →
  post never css_lex_next buf (λ _ b', reading l pre b').
Proof.
  intros Hl [Hst Hold]. destruct l as [|y l]; [done|].
  injection Hst as Hc Hs. unfold post.
  by rewrite (css_lex_next_cons _ _ _ Hs).
Qed.

Lemma exact_accept_hit t l pre buf :
  l ≠ [] → reading (t :: l) pre buf →
  post never (css_lex_accept t) buf (λ b b', b = true ∧ reading l pre b').
Proof.
  intros Hl [Hst Hold]. destruct l as [|y l]; [done|].
  injection Hst as Hc Hs. unfold post.
  by rewrite (css_lex_accept_hit _ _ _ _ Hc Hs).
Qed.

Lemma exact_accept_miss t x l pre buf :
  x ≠ t → reading (x :: l) pre buf →
  post never (css_lex_accept t) buf (λ b b', b = false ∧ reading (x :: l) pre b').
Proof.
  intros Hne [Hst Hold]. injection Hst as Hc Hs. unfold post.
  rewrite css_lex_accept_miss by (by rewrite Hc). split; [done|]. by split; [unfold stream; rewrite Hc, Hs|].
Qed.

Lemma exact_push ch l pre buf :
  (length pre + 1 < 1024)%nat → reading l pre buf →
  post never (css_push_char ch) buf (λ _ b', reading l (pre ++ [ch]) b').
Proof.
  intros Hlen (Hst & old & Hh & Hcap). unfold post.
  destruct old as [|o old]; [simpl in Hcap; lia|].
  rewrite css_push_char_Ok by (destruct Hh as [_ ->]; unfold nelem_string; lia).
  split; [done|]. exists old. split; [by eapply holds_pushed|].
  rewrite length_app. simpl in *. lia.
Qed.

Lemma exact_push_next x l pre buf :
  (length pre + 1 < 1024)%nat → l ≠ [] → reading (x :: l) pre buf →
  post never (css_push_c ;; css_lex_next) buf (λ _ b', reading l (pre ++ [x]) b').
Proof.
  intros Hlen Hl Hr. unfold css_push_c. apply post_assoc, post_gets.
  assert (c buf = x) as -> by (destruct Hr as [Hst _]; by injection Hst).
  eapply post_bind; [by apply exact_push|]. cbv beta. intros [] b1 H1.
  by eapply exact_next.
Qed.

Lemma app_cons_nonempty {A} (w : list A) a l : w ++ a :: l ≠ [].
Proof. by destruct w. Qed.

Lemma reading_c h l pre buf : reading (h :: l) pre buf → c buf = h.
Proof. intros [Hst _]. by injection Hst. Qed.

Lemma reading_cstring l pre buf :
  Forall (λ b, b ≠ 0) pre → reading l (pre ++ [0]) buf →
  cstring (string buf) = Some pre.
Proof. intros Hnz (_ & old & [-> _] & _). by apply cstring_holds. Qed.

(** ** Strings *)

Lemma css_lex_string_unfold q :
  css_lex_string q =
    (while (λ buf, negb (c buf =? 0) && negb (c buf =? q)) string_body ;;
     css_lex_expect q ;; css_push_char 0 ;; mret CSS_STRING).
Proof. reflexivity. Qed.

Lemma raws_next ps e rest :
  ∃ z l, raws ps ++ e :: rest = z :: l ∧ z = hd e (raws ps).
Proof.
  destruct (raws ps) as [|z l] eqn:H; simpl.
  - by exists e, rest.
  - by exists z, (l ++ e :: rest).
Qed.

Lemma piece_ok_next q e p l :
  q ≠ 10 → e ≠ 10 → piece_ok q p (hd q l) = true → piece_ok q p (hd e l) = true.
Proof.
  intros Hq He. destruct l as [|z l]; [|done]. destruct p; try done.
  cbn [piece_ok hd]. intros _. by apply negb_true_iff, Z.eqb_neq.
Qed.

Lemma cooked_length p : (length (cooked p) ≤ 1)%nat.
Proof. destruct p; simpl; lia. Qed.

Ltac exact_side :=
  first
    [ eassumption | congruence | lia
    | rewrite ?length_app; cbn [length]; lia
    | apply app_cons_nonempty
    | done | char_lia ].

Ltac exact_accept :=
  first
    [ eapply post_bind; [eapply exact_accept_hit; [|eassumption]; exact_side|];
      cbv beta; intros ? ? [-> ?]
    | eapply post_bind; [eapply exact_accept_miss; [|eassumption]; exact_side|];
      cbv beta; intros ? ? [-> ?] ].

Ltac exact_step :=
  lazymatch goal with
  | |- post _ (mret _) _ _ => apply post_ret
  | |- post _ (mret _ ≫= _) _ _ => apply post_ret_bind
  | |- post _ ((_ ≫= _) ≫= _) _ _ => apply post_assoc
  | |- post _ (css_lex_accept _ ≫= _) _ _ => exact_accept
  | |- post _ (css_push_char _ ≫= _) _ _ =>
      eapply post_bind; [eapply exact_push; [|eassumption]; exact_side|];
      cbv beta; intros ? ? ?
  | |- post _ (css_push_c ≫= λ _, css_lex_next) _ _ =>
      eapply post_conseq; [eapply exact_push_next; [| |eassumption]; exact_side|];
      cbv beta; intros ? ? ?
  | |- post _ (css_push_c ≫= λ _, css_lex_next ≫= _) _ _ =>
      apply (post_assoc_rev _ css_push_c (λ _, css_lex_next));
      eapply post_bind; [eapply exact_push_next; [| |eassumption]; exact_side|];
      cbv beta; intros ? ? ?
  | |- post _ (css_push_char _) _ _ =>
      eapply post_conseq; [eapply exact_push; [|eassumption]; exact_side|];
      cbv beta; intros ? ? ?
  end.

(** One round of the loop reads one piece. *)
Lemma string_body_piece q p z l pre buf :
  piece_ok q p z = true →
  (length pre + length (cooked p) < 1024)%nat →
  reading (raw p ++ z :: l) pre buf →
  post never string_body buf (λ _ b', reading (z :: l) (pre ++ cooked p) b').
Proof.
  intros Hok Hlen Hr. unfold string_body.
  destruct p; cbn [raw cooked app length piece_ok] in *.
  all: repeat (apply andb_true_iff in Hok as [Hok ?]).
  all: rewrite ?negb_true_iff, ?Z.eqb_neq in *.
  all: repeat exact_step; rewrite ?app_nil_r; try done.
Qed.

Lemma exact_while_true n cond body buf Q :
  cond buf = true →
  post never (body ;; while_ n cond body) buf Q →
  post never (while_ (S n) cond body) buf Q.
Proof. intros Hc. unfold post. by rewrite while__true. Qed.

Lemma exact_while_false n cond body buf (Q : unit → lexbuf → Prop) :
  cond buf = false → Q tt buf → post never (while_ n cond body) buf Q.
Proof. intros Hc HQ. unfold post. by rewrite while__false. Qed.

Lemma raw_length p : (1 ≤ length (raw p))%nat.
Proof. destruct p; simpl; lia. Qed.

Lemma raw_head q p nx r :
  q ≠ 0 → q ≠ chr "\" → piece_ok q p nx = true →
  ∃ h t, raw p ++ r = h :: t ∧ h ≠ 0 ∧ h ≠ q.
Proof.
  intros Hq0 Hq Hok. destruct p; cbn [raw app piece_ok] in *; eexists _, _.
  all: split; [reflexivity|]; try done.
  repeat (apply andb_true_iff in Hok as [Hok ?]).
  rewrite ?negb_true_iff, ?Z.eqb_neq in *. done.
Qed.

(** The loop of [css_lex_string] reads the pieces up to the byte [e] that
    ends it: the quote or the terminator. *)
Lemma string_loop_run q e rest ps : ∀ n pre buf,
  q ≠ 0 → q ≠ chr "\" → q ≠ 10 → (e = q ∨ e = 0) → pieces_ok q ps = true →
  (length pre + length (cookeds ps) < 1024)%nat →
  (length (raws ps) < n)%nat →
  reading (raws ps ++ e :: rest) pre buf →
  post never (while_ n (λ buf, negb (c buf =? 0) && negb (c buf =? q)) string_body) buf
    (λ _ b', reading (e :: rest) (pre ++ cookeds ps) b').
Proof.
  induction ps as [|p ps IH]; intros n pre buf Hq0 Hq Hq10 He Hok Hlen Hn Hr.
  - cbn [raws cookeds app] in *. rewrite app_nil_r. apply exact_while_false; [|done].
    rewrite (reading_c _ _ _ _ Hr).
    destruct He as [-> | ->]; [by rewrite Z.eqb_refl, andb_false_r|done].
  - cbn [raws cookeds pieces_ok] in *. apply andb_true_iff in Hok as [Hp Hps].
    rewrite length_app in Hlen, Hn. pose proof (raw_length p) as Hraw.
    destruct n as [|n]; [lia|].
    rewrite <- (assoc_L (++)) in Hr.
    destruct (raws_next ps e rest) as (z & l & Heq & Hz).
    apply exact_while_true.
    { destruct (raw_head q p (hd q (raws ps)) (raws ps ++ e :: rest) Hq0 Hq Hp)
        as (h & t & Hht & Hh0 & Hhq).
      rewrite Hht in Hr. rewrite (reading_c _ _ _ _ Hr).
      apply andb_true_iff. split; apply negb_true_iff, Z.eqb_neq; done. }
    eapply post_bind.
    + rewrite Heq in Hr. apply (string_body_piece q p z l pre buf); try done; [|lia].
      rewrite Hz. apply piece_ok_next; [done| |done].
      by destruct He as [-> | ->].
    + cbv beta. intros [] b1 H1. rewrite <- Heq in H1.
      rewrite (assoc_L (++)). apply IH; try done; [rewrite length_app; lia|lia].
Qed.

Lemma cooked_nonzero q p nx : piece_ok q p nx = true → Forall (λ b, b ≠ 0) (cooked p).
Proof.
  intros Hok. destruct p; cbn [cooked piece_ok] in *; repeat constructor; try done.
  all: repeat (apply andb_true_iff in Hok as [Hok ?]).
  all: by rewrite ?negb_true_iff, ?Z.eqb_neq in *.
Qed.

Lemma cookeds_nonzero q ps : pieces_ok q ps = true → Forall (λ b, b ≠ 0) (cookeds ps).
Proof.
  induction ps as [|p ps IH]; [done|]. cbn [pieces_ok cookeds].
  intros [Hp Hps]%andb_true_iff. apply Forall_app. split; [|by apply IH].
  by eapply cooked_nonzero.
Qed.

(** [css_lex_string], entered behind the opening quote with [pre]
    accumulated: the text of the pieces is added to [pre], and the byte
    behind the closing quote is the next to read. *)
Lemma css_lex_string_run q ps x rest pre buf :
  q ≠ 0 → q ≠ chr "\" → q ≠ 10 → pieces_ok q ps = true →
  Forall (λ b, b ≠ 0) pre →
  (length pre + length (cookeds ps) ≤ 1022)%nat →
  reading (raws ps ++ q :: x :: rest) pre buf →
  ∃ buf',
    css_lex_string q buf = Ok (CSS_STRING, buf') ∧
    cstring (string buf') = Some (pre ++ cookeds ps) ∧
    stream buf' = x :: rest.
Proof.
  intros Hq0 Hq Hq10 Hok Hpre Hlen Hr.
  cut (post never (css_lex_string q) buf
         (λ t b', t = CSS_STRING ∧ cstring (string b') = Some (pre ++ cookeds ps) ∧
                  stream b' = x :: rest)).
  { intros (t & b' & Hrun & -> & H)%post_never. by exists b'. }
  rewrite css_lex_string_unfold. unfold while.
  eapply post_bind.
  { apply (string_loop_run q q (x :: rest) ps); try done; [by left|lia|].
    destruct Hr as [Hst _]. apply (f_equal length) in Hst. unfold stream in Hst.
    rewrite length_app in Hst. simpl in Hst. lia. }
  cbv beta. intros [] b1 H1. unfold css_lex_expect.
  repeat exact_step.
  split; [done|]. split; [|by destruct H0].
  eapply reading_cstring; [|done].
  apply Forall_app. split; [done|]. by eapply cookeds_nonzero.
Qed.

Lemma reading_start l buf :
  stream buf = l → length (string buf) = 1024%nat → reading l [] (set_string_len 0 buf).
Proof. intros Hst Hlen. split; [done|]. exists (string buf). by split. Qed.

(** [css_lex] in front of a byte that starts a token: the byte is handed to
    the case distinction, whatever the label [restart] stands for. *)
Lemma exact_css_lex_enter h l buf Q :
  stream buf = h :: l → h ≠ 0 → iswhite h = false →
  length (string buf) = 1024%nat →
  (∀ g b, reading (h :: l) [] b → post never (css_lex_dispatch g) b Q) →
  post never css_lex buf Q.
Proof.
  intros Hst H0 Hw Hlen Hd. pose proof (reading_start _ _ Hst Hlen) as Hr.
  assert (Hc : c buf = h) by (by injection Hst).
  unfold post. rewrite css_lex_enter by (by rewrite Hc).
  rewrite css_lex_restart_unfold.
  erewrite bind_Ok by (apply while_false; simpl; by rewrite Hc).
  rewrite bind_gets. cbn [c set_string_len]. rewrite Hc.
  destruct (Z.eqb_spec h 0); [done|]. by apply Hd.
Qed.

Ltac exact_test :=
  lazymatch goal with
  | |- post _ (if ?cnd then _ else _) _ _ =>
      first
        [ match goal with H : cnd = _ |- _ => rewrite H end
        | let v := eval vm_compute in cnd in change cnd with v ];
      cbv iota
  end.

Ltac exact_gets :=
  lazymatch goal with
  | |- post _ (gets c ≫= _) ?b _ =>
      apply post_gets;
      match goal with H : reading (_ :: _) _ b |- _ => rewrite (reading_c _ _ _ _ H) end
  end.

(** A string in quotes is the token [CSS_STRING]; its text is the text of
    its pieces: the bytes between the quotes, with the escapes [\n], [\r] and
    [\f] replaced by the control bytes, a backslash in front of a line end
    dropped with the line end, and a backslash in front of any other byte
    dropped.  The text must fit the array: 1022 bytes at most. *)
Theorem css_lex_string_text q ps x rest buf :
  (q = 34 ∨ q = chr "'") → pieces_ok q ps = true →
  (length (cookeds ps) ≤ 1022)%nat →
  length (string buf) = 1024%nat →
  stream buf = q :: raws ps ++ q :: x :: rest →
  ∃ buf',
    css_lex buf = Ok (CSS_STRING, buf') ∧
    cstring (string buf') = Some (cookeds ps) ∧
    stream buf' = x :: rest.
Proof.
  intros Hq Hok Hlen Harr Hst.
  cut (post never css_lex buf
         (λ t b', t = CSS_STRING ∧ cstring (string b') = Some (cookeds ps) ∧
                  stream b' = x :: rest)).
  { intros (t & b' & Hrun & -> & H)%post_never. by exists b'. }
  destruct (raws_next ps q (x :: rest)) as (z & l & Heq & _).
  rewrite Heq in Hst.
  eapply exact_css_lex_enter; [done| | |done|].
  { by destruct Hq as [-> | ->]. }
  { by destruct Hq as [-> | ->]. }
  intros g b Hr. unfold css_lex_dispatch.
  assert (Hrun : ∀ b1, reading (z :: l) [] b1 →
            post never (css_lex_string q) b1
              (λ t b', t = CSS_STRING ∧ cstring (string b') = Some (cookeds ps) ∧
                       stream b' = x :: rest)).
  { intros b1 H1. rewrite <- Heq in H1.
    destruct (css_lex_string_run q ps x rest [] b1) as (b' & Hb' & Hs' & Ht');
      try done.
    - by destruct Hq as [-> | ->].
    - by destruct Hq as [-> | ->].
    - by destruct Hq as [-> | ->].
    - unfold post. by rewrite Hb'. }
  destruct Hq as [-> | ->].
  all: repeat first [ exact_step | exact_gets | exact_test ].
  all: by apply Hrun.
Qed.

(** The string ['a\nb\'c'] in front of a semicolon. *)
Lemma css_lex_string_text_witness :
  ∃ buf',
    css_lex (lexer_entry (bytes "'a\nb\'c';")) = Ok (CSS_STRING, buf') ∧
    cstring (string buf') = Some [chr "a"; 10; chr "b"; chr "'"; chr "c"] ∧
    stream buf' = [chr ";"; 0].
Proof.
  apply (css_lex_string_text (chr "'")
           [Byte (chr "a"); EscN; Byte (chr "b"); Esc (chr "'"); Byte (chr "c")]
           (chr ";") [0] (lexer_entry (bytes "'a\nb\'c';"))).
  - right. reflexivity.
  - reflexivity.
  - simpl. lia.
  - reflexivity.
  - reflexivity.
Defined.

(** ** Numbers *)

Lemma exact_push_loop (cls : Z → bool) w x l : ∀ n pre buf,
  Forall (λ b, cls b = true) w → cls x = false →
  (length pre + length w < 1024)%nat → (length w < n)%nat →
  reading (w ++ x :: l) pre buf →
  post never (while_ n (λ buf, cls (c buf)) (css_push_c ;; css_lex_next)) buf
    (λ _ b', reading (x :: l) (pre ++ w) b').
Proof.
  induction w as [|a w IH]; intros n pre buf Hw Hx Hlen Hn Hr.
  - rewrite app_nil_r. apply exact_while_false; [|done].
    by rewrite (reading_c _ _ _ _ Hr).
  - apply Forall_cons in Hw as [Ha Hw]. destruct n as [|n]; [simpl in Hn; lia|].
    cbn [length app] in *.
    apply exact_while_true; [by rewrite (reading_c _ _ _ _ Hr)|].
    eapply post_bind.
    + eapply exact_push_next; [| |done]; [lia|apply app_cons_nonempty].
    + cbv beta. intros [] b1 H1. rewrite (cons_middle a pre w), (assoc_L (++)).
      apply IH; try done; [rewrite length_app; simpl; lia|lia].
Qed.

Lemma exact_push_while (cls : Z → bool) w x l pre buf :
  Forall (λ b, cls b = true) w → cls x = false →
  (length pre + length w < 1024)%nat →
  reading (w ++ x :: l) pre buf →
  post never (while (λ buf, cls (c buf)) (css_push_c ;; css_lex_next)) buf
    (λ _ b', reading (x :: l) (pre ++ w) b').
Proof.
  intros Hw Hx Hlen Hr. unfold while. apply exact_push_loop; try done.
  destruct Hr as [Hst _]. apply (f_equal length) in Hst. unfold stream in Hst.
  rewrite length_app in Hst. simpl in Hst. lia.
Qed.

Lemma isnmstart_other u0 :
  isnmstart u0 = true →
  isdigit u0 = false ∧ u0 ≠ chr "." ∧ u0 ≠ chr "%" ∧ u0 ≠ 0 ∧ isnmchar u0 = true.
Proof. intros H. b2p. lia. Qed.

Lemma isdigit_nonzero b : isdigit b = true → b ≠ 0.
Proof. b2p. lia. Qed.

Lemma isnmchar_nonzero b : isnmchar b = true → b ≠ 0.
Proof. b2p. lia. Qed.

Lemma number_text_nonzero int frac suf x :
  number_ok int frac suf x = true → Forall (λ b, b ≠ 0) (number_text int frac suf).
Proof.
  unfold number_ok, number_text. intros Hok.
  repeat (apply andb_true_iff in Hok as [Hok ?]).
  apply forallb_Forall in Hok.
  repeat apply Forall_app_2.
  - eapply Forall_impl; [done|]. apply isdigit_nonzero.
  - destruct frac as [f|]; [|done]. apply Forall_cons. split; [done|].
    match goal with H : forallb isdigit f = true |- _ =>
      apply forallb_Forall in H; eapply Forall_impl; [exact H|] end.
    apply isdigit_nonzero.
  - destruct suf as [| |u0 u]; [done|by repeat constructor|].
    match goal with H : _ && _ = true |- _ =>
      repeat (apply andb_true_iff in H as [H ?]) end.
    apply Forall_cons. split.
    + by apply isnmstart_other.
    + match goal with H : forallb isnmchar u = true |- _ =>
        apply forallb_Forall in H; eapply Forall_impl; [exact H|] end.
      apply isnmchar_nonzero.
Qed.

Ltac exact_loop :=
  lazymatch goal with
  | |- post _ (while _ (css_push_c ;; css_lex_next) ≫= _) _ _ =>
      eapply post_bind;
        [eapply exact_push_while; [| | |eassumption]; exact_side|];
      cbv beta; intros ? ? ?
  end.

(** [css_lex_number] with [pre] accumulated: the text of the number is added
    to it, and the suffix decides the token. *)
Lemma css_lex_number_run int frac suf x rest pre buf :
  number_ok int frac suf x = true → Forall (λ b, b ≠ 0) pre →
  (length pre + length (number_text int frac suf) ≤ 1022)%nat →
  reading (number_text int frac suf ++ x :: rest) pre buf →
  post never css_lex_number buf
    (λ t b', t = number_token suf ∧
             cstring (string b') = Some (pre ++ number_text int frac suf) ∧
             stream b' = x :: rest).
Proof.
  intros Hok Hpre Hlen Hr.
  pose proof (number_text_nonzero _ _ _ _ Hok) as Hnz.
  assert (Hend : ∀ b, reading (x :: rest) ((pre ++ number_text int frac suf) ++ [0]) b →
            cstring (string b) = Some (pre ++ number_text int frac suf) ∧
            stream b = x :: rest).
  { intros b Hb. split; [|by destruct Hb].
    eapply reading_cstring; [|done]. by apply Forall_app. }
  unfold number_ok in Hok. repeat (apply andb_true_iff in Hok as [Hok ?]).
  apply forallb_Forall in Hok.
  unfold css_lex_number, number_text in *.
  destruct frac as [f|], suf as [| |u0 u]; cbn [fraction_text suffix_text number_token] in *.
  all: repeat match goal with
       | H : _ && _ = true |- _ => apply andb_true_iff in H as [H ?]
       | H : negb _ = true |- _ => apply negb_true_iff in H
       | H : (_ =? _) = false |- _ => apply Z.eqb_neq in H
       | H : forallb _ _ = true |- _ => apply forallb_Forall in H
       end.
  all: try match goal with H : isnmstart _ = true |- _ =>
         pose proof (isnmstart_other _ H) as (? & ? & ? & ? & ?) end.
  all: rewrite <- ?(assoc_L (++)) in Hr; cbn [app] in Hr.
  all: rewrite ?length_app in Hlen; cbn [length] in Hlen.
  all: repeat first [ exact_loop | exact_step | exact_gets | exact_test ].
  all: split; [done|]; apply Hend.
  all: match goal with H : reading _ _ ?b |- reading _ _ ?b =>
         revert H; rewrite <- !(assoc_L (++)); cbn [app]; rewrite ?app_nil_r
       end; done.
Qed.

Lemma lead_text_nonzero ld : Forall (λ b, b ≠ 0) (lead_text ld).
Proof. destruct ld; repeat constructor; done. Qed.

(** A number is the token [CSS_NUMBER], [CSS_PERCENT] or [CSS_LENGTH], by
    its suffix, and its text is the text of the source without a plus sign
    in front.  The number has a first digit [d]; behind a point in front,
    the digits may be followed by a second point and more digits. *)
Theorem css_lex_number_text ld d int frac suf x rest buf :
  number_ok (d :: int) frac suf x = true →
  (length (lead_text ld ++ number_text (d :: int) frac suf) ≤ 1022)%nat →
  length (string buf) = 1024%nat →
  stream buf = lead_raw ld ++ number_text (d :: int) frac suf ++ x :: rest →
  ∃ buf',
    css_lex buf = Ok (number_token suf, buf') ∧
    cstring (string buf') = Some (lead_text ld ++ number_text (d :: int) frac suf) ∧
    stream buf' = x :: rest.
Proof.
  intros Hok Hlen Harr Hst.
  cut (post never css_lex buf
         (λ t b', t = number_token suf ∧
            cstring (string b') = Some (lead_text ld ++ number_text (d :: int) frac suf) ∧
            stream b' = x :: rest)).
  { intros (t & b' & Hrun & -> & H)%post_never. by exists b'. }
  assert (Hd : isdigit d = true).
  { unfold number_ok in Hok. cbn [forallb] in Hok.
    by do 3 (apply andb_true_iff in Hok as [Hok ?]). }
  rewrite length_app in Hlen.
  assert (Hrun : ∀ b, reading (number_text (d :: int) frac suf ++ x :: rest)
                        (lead_text ld) b →
            post never css_lex_number b
              (λ t b', t = number_token suf ∧
                 cstring (string b') =
                   Some (lead_text ld ++ number_text (d :: int) frac suf) ∧
                 stream b' = x :: rest)).
  { intros b Hb. apply css_lex_number_run; try done. apply lead_text_nonzero. }
  unfold number_text in Hst, Hrun. cbn [app] in Hst, Hrun.
  destruct ld; cbn [lead_raw lead_text app length] in *.
  all: eapply exact_css_lex_enter; [done| | |done|]; try done; try char_lia.
  all: intros g b Hr; unfold css_lex_dispatch.
  all: repeat first [ exact_step | exact_gets | exact_test ].
  all: by apply Hrun.
Qed.

(** The length [-1.5em] in front of a semicolon. *)
Lemma css_lex_number_text_witness :
  ∃ buf',
    css_lex (lexer_entry (bytes "-1.5em;")) = Ok (CSS_LENGTH, buf') ∧
    cstring (string buf') = Some (bytes "-1.5em") ∧
    stream buf' = [chr ";"; 0].
Proof.
  apply (css_lex_number_text Minus (chr "1") [] (Some [chr "5"])
           (Unit (chr "e") [chr "m"]) (chr ";") [0] (lexer_entry (bytes "-1.5em;"))).
  - reflexivity.
  - simpl. lia.
  - reflexivity.
  - reflexivity.
Defined.

(** * What the lexer passes over *)

(** ** The label [restart] and the fuel

    [css_lex_restart] jumps back to its label only after it has consumed
    input, so that every fuel above the number of bytes left gives the same
    result. *)

Lemma run_weak {A} (m : M A) buf Q a buf' :
  run m buf Q → m buf = Ok (a, buf') → Q a buf'.
Proof. unfold run. intros H E. by rewrite E in H. Qed.

(** Two continuations that agree where the first part ends agree behind
    it. *)
Lemma ext_bind {A B} (m : M A) (k1 k2 : A → M B) buf Q :
  run m buf Q → (∀ a b1, Q a b1 → k1 a b1 = k2 a b1) →
  (m ≫= k1) buf = (m ≫= k2) buf.
Proof.
  intros Hm Hk. unfold run in Hm. unfold mbind, M_bind.
  destruct (m buf) as [[a b1]| | |]; try done. by apply Hk.
Qed.

Ltac ext_arith :=
  repeat match goal with
  | H : _ ∧ _ |- _ => destruct H
  | H : ?b' = ?b |- _ => is_var b'; subst b'
  end;
  unfold len in *; cbn [s set_string_len] in *; lia.

Ltac ext_step :=
  first
    [ reflexivity
    | lazymatch goal with
      | |- (css_lex_accept ?t ≫= _) ?b = _ =>
          apply (ext_bind _ _ _ _ _ (run_css_lex_accept t b)); intros [] ? ?
      | |- (css_lex_expect ?t ≫= _) ?b = _ =>
          apply (ext_bind _ _ _ _ _ (run_css_lex_expect t b)); intros [] ? ?
      | |- (gets _ ≫= _) _ = _ => rewrite !bind_gets
      | |- (if ?cnd then _ else _) _ = _ => destruct cnd
      end ].

Lemma css_lex_dispatch_ext g1 g2 buf :
  (∀ b1, (len b1 < len buf)%nat → g1 b1 = g2 b1) →
  css_lex_dispatch g1 buf = css_lex_dispatch g2 buf.
Proof.
  intros Hg. unfold css_lex_dispatch. cbv zeta.
  repeat first
    [ ext_step
    | apply Hg; ext_arith
    | lazymatch goal with
      | |- (css_lex_comment (S ?n) ≫= _) ?b = _ =>
          apply (ext_bind _ _ _ _ _
                   (run_css_lex_comment (S n) b ltac:(unfold len; lia)));
          intros [] ? ?
      end ].
Qed.

Lemma css_lex_restart_ext n : ∀ m buf,
  (len buf < n)%nat → (len buf < m)%nat →
  css_lex_restart n buf = css_lex_restart m buf.
Proof.
  induction n as [|n IH]; intros m buf Hn Hm; [lia|].
  destruct m as [|m]; [lia|]. rewrite !css_lex_restart_unfold.
  eapply ext_bind.
  { apply run_while. intros b. eapply run_conseq; [apply run_css_lex_next|].
    cbv beta. intros. lia. }
  cbv beta. intros [] b1 [H1 _]. rewrite !bind_gets.
  destruct (c b1 =? 0); [done|].
  apply css_lex_dispatch_ext. intros b2 H2. cbn [goto_restart].
  apply IH; lia.
Qed.

(** ** Steps of the read pointer *)

Lemma skip_add j : ∀ k buf, skip (j + k) buf = skip k (skip j buf).
Proof.
  induction j as [|j IH]; intros k buf; [done|]. cbn [Nat.add skip].
  destruct (s buf) as [|b rest] eqn:Hs; [|by apply IH].
  destruct k as [|k]; [done|]. cbn [skip]. by rewrite Hs.
Qed.

Lemma skip_one x y l buf :
  stream buf = x :: y :: l → stream (skip 1 buf) = y :: l.
Proof. intros Hst. by apply (skip_stream [x]). Qed.

Lemma next_skip x y l buf :
  stream buf = x :: y :: l → css_lex_next buf = Ok (tt, skip 1 buf).
Proof.
  intros Hst. injection Hst as _ Hs. rewrite (css_lex_next_cons _ _ _ Hs).
  cbn [skip]. by rewrite Hs.
Qed.

Lemma accept_hit_skip t y l buf :
  stream buf = t :: y :: l → css_lex_accept t buf = Ok (true, skip 1 buf).
Proof.
  intros Hst. injection Hst as Hc Hs. rewrite (css_lex_accept_hit _ _ _ _ Hc Hs).
  cbn [skip]. by rewrite Hs.
Qed.

Lemma accept_miss_skip t x l buf :
  stream buf = x :: l → x ≠ t → css_lex_accept t buf = Ok (false, buf).
Proof. intros Hst Hne. injection Hst as Hc _. apply css_lex_accept_miss. by rewrite Hc. Qed.

Lemma next_while_run (cls : Z → bool) w buf x rest :
  Forall (λ b, cls b = true) w → cls x = false →
  stream buf = w ++ x :: rest →
  while (λ buf, cls (c buf)) css_lex_next buf = Ok (tt, skip (length w) buf).
Proof.
  intros Hw Hx Hst. unfold while. apply (next_loop_run cls w _ _ x rest); try done.
  rewrite (stream_length _ _ _ _ Hst). lia.
Qed.

Lemma skip_set_string_len n : ∀ k buf,
  skip n (set_string_len k buf) = set_string_len k (skip n buf).
Proof.
  induction n as [|n IH]; intros k buf; [done|]. cbn [skip s set_string_len].
  destruct (s buf) as [|b rest]; [done|]. by rewrite <- IH.
Qed.

(** ** Comments *)

Lemma stars_split (l : list Z) :
  ∃ k tail, l = replicate k (chr "*") ++ tail ∧ hd 0 tail ≠ chr "*".
Proof.
  induction l as [|a l (k & tail & -> & Ht)].
  - by exists 0%nat, [].
  - destruct (decide (a = chr "*")) as [->|Ha].
    + by exists (S k), tail.
    + by exists 0%nat, (a :: replicate k (chr "*") ++ tail).
Qed.

Lemma no_end_stars k : ∀ y tail,
  no_end (chr "*" :: replicate k (chr "*") ++ y :: tail) = true →
  y ≠ chr "/" ∧ no_end tail = true.
Proof.
  induction k as [|k IH]; intros y tail H.
  - cbn [replicate app no_end] in H.
    apply andb_true_iff in H as [H1 H2]. apply andb_true_iff in H2 as [_ H2].
    split; [|done]. intros ->. done.
  - cbn [replicate app] in *. apply IH.
    change (no_end (chr "*" :: chr "*" :: replicate k (chr "*") ++ y :: tail))
      with (negb ((chr "*" =? chr "*") && (chr "*" =? chr "/")) &&
            no_end (chr "*" :: replicate k (chr "*") ++ y :: tail)) in H.
    by apply andb_true_iff in H as [_ H].
Qed.

Lemma replicate_stars k : Forall (λ b, star b = true) (replicate k (chr "*")).
Proof. induction k; by constructor. Qed.

(** A byte that is no star is passed over. *)
Lemma comment_step_other n a y l buf :
  stream buf = a :: y :: l → a ≠ 0 → a ≠ chr "*" →
  css_lex_comment (S n) buf = css_lex_comment n (skip 1 buf).
Proof.
  intros Hst H0 Ha. assert (Hc : c buf = a) by (by injection Hst).
  cbn [css_lex_comment]. rewrite bind_gets, Hc.
  destruct (Z.eqb_spec a 0); [done|].
  rewrite (bind_Ok _ _ _ _ _ (accept_miss_skip _ _ _ _ Hst Ha)). cbv iota.
  by rewrite (bind_Ok _ _ _ _ _ (next_skip _ _ _ _ Hst)).
Qed.

(** Stars in front of the slash end the comment. *)
Lemma comment_step_end n k x rest buf :
  stream buf = chr "*" :: replicate k (chr "*") ++ chr "/" :: x :: rest →
  css_lex_comment (S n) buf = Ok (tt, skip (k + 2) buf).
Proof.
  intros Hst. assert (Hc : c buf = chr "*") by (by injection Hst).
  cbn [css_lex_comment]. rewrite bind_gets, Hc. change (chr "*" =? 0) with false.
  cbv iota.
  destruct (replicate k (chr "*") ++ chr "/" :: x :: rest) as [|h t] eqn:Hht;
    [by destruct k|].
  rewrite (bind_Ok _ _ _ _ _ (accept_hit_skip _ _ _ _ Hst)). cbv iota.
  pose proof (skip_one _ _ _ _ Hst) as H1. rewrite <- Hht in H1.
  rewrite (bind_Ok _ _ _ _ _ (next_while_run star _ _ (chr "/") _ (replicate_stars k)
             eq_refl H1)).
  pose proof (skip_stream _ _ _ _ H1) as H2. rewrite length_replicate in *.
  rewrite (bind_Ok _ _ _ _ _ (accept_hit_skip _ _ _ _ H2)). cbv iota.
  replace (k + 2)%nat with (1 + (k + 1))%nat by lia.
  by rewrite !skip_add.
Qed.

(** Stars in front of another byte are passed over with that byte. *)
Lemma comment_step_star n k y z l buf :
  stream buf = chr "*" :: replicate k (chr "*") ++ y :: z :: l →
  y ≠ chr "*" → y ≠ chr "/" →
  css_lex_comment (S n) buf = css_lex_comment n (skip (k + 2) buf).
Proof.
  intros Hst Hy Hy'. assert (Hc : c buf = chr "*") by (by injection Hst).
  cbn [css_lex_comment]. rewrite bind_gets, Hc. change (chr "*" =? 0) with false.
  cbv iota.
  destruct (replicate k (chr "*") ++ y :: z :: l) as [|h t] eqn:Hht;
    [by destruct k|].
  rewrite (bind_Ok _ _ _ _ _ (accept_hit_skip _ _ _ _ Hst)). cbv iota.
  pose proof (skip_one _ _ _ _ Hst) as H1. rewrite <- Hht in H1.
  assert (Hsy : star y = false) by (by apply Z.eqb_neq).
  rewrite (bind_Ok _ _ _ _ _ (next_while_run star _ _ _ _ (replicate_stars k)
             Hsy H1)).
  pose proof (skip_stream _ _ _ _ H1) as H2. rewrite length_replicate in *.
  rewrite (bind_Ok _ _ _ _ _ (accept_miss_skip _ _ _ _ H2 Hy')). cbv iota.
  rewrite (bind_Ok _ _ _ _ _ (next_skip _ _ _ _ H2)).
  replace (k + 2)%nat with (1 + (k + 1))%nat by lia.
  by rewrite !skip_add.
Qed.

Lemma no_end_tail a l : no_end (a :: l) = true → no_end l = true.
Proof. cbn [no_end]. by intros [_ H]%andb_true_iff. Qed.

(** The loop of a comment reads up to the first star that a slash
    follows. *)
Lemma css_lex_comment_run n : ∀ body buf x rest,
  (length body < n)%nat → Forall (λ b, b ≠ 0) body → no_end body = true →
  stream buf = body ++ chr "*" :: chr "/" :: x :: rest →
  css_lex_comment n buf = Ok (tt, skip (length body + 2) buf).
Proof.
  induction n as [|n IH]; intros body buf x rest Hn Hnz Hne Hst; [lia|].
  destruct body as [|a body].
  { apply (comment_step_end n 0 x rest buf Hst). }
  apply Forall_cons in Hnz as [Ha Hnz]. cbn [length] in *.
  destruct (decide (a = chr "*")) as [->|Hstar].
  - destruct (stars_split body) as (k & tail & -> & Ht).
    rewrite length_app, length_replicate in *.
    cbn [app] in Hst. rewrite <- (assoc_L (++)) in Hst.
    destruct tail as [|y tail].
    + cbn [app] in Hst.
      rewrite (comment_step_end n (S k) x rest buf)
        by (by rewrite replicate_S_end, <- (assoc_L (++))).
      f_equal. f_equal. f_equal. cbn [length]. lia.
    + cbn [app hd length] in *.
      destruct (no_end_stars k y tail Hne) as [Hy Htail].
      apply Forall_app in Hnz as [_ Hnz]. apply Forall_cons in Hnz as [_ Hnz].
      destruct (tail ++ chr "*" :: chr "/" :: x :: rest) as [|z l] eqn:Hzl;
        [by destruct tail|].
      rewrite (comment_step_star n k y z l buf Hst Ht Hy).
      rewrite (IH tail _ x rest); [| lia |done|done|].
      * rewrite <- skip_add. f_equal. f_equal. f_equal. cbn [length]. lia.
      * rewrite Hzl.
        replace (k + 2)%nat with (length (chr "*" :: replicate k (chr "*") ++ [y]))
          by (cbn [length]; rewrite length_app, length_replicate; simpl; lia).
        apply skip_stream. rewrite Hst. cbn [app].
        by rewrite <- (assoc_L (++)).
  - cbn [app] in Hst.
    destruct (body ++ chr "*" :: chr "/" :: x :: rest) as [|y l] eqn:Hyl;
      [by destruct body|].
    rewrite (comment_step_other n a y l buf Hst Ha Hstar).
    rewrite (IH body _ x rest); [|lia|done|by eapply no_end_tail|].
    + by rewrite <- skip_add.
    + rewrite Hyl. by apply (skip_one a y l).
Qed.

(** Back at the label [restart] behind the bytes [w], [css_lex] goes on as
    if it had been called there. *)
Lemma goto_restart_resume w x rest buf :
  w ≠ [] → stream buf = w ++ x :: rest →
  goto_restart (S (length (s buf))) (skip (length w) (set_string_len 0 buf))
  = css_lex (skip (length w) buf).
Proof.
  intros Hw Hst. cbn [goto_restart]. rewrite skip_set_string_len.
  pose proof (skip_stream _ _ _ _ Hst) as Hk. injection Hk as Hc Hs.
  pose proof (stream_length _ _ _ _ Hst) as Hlen.
  assert (0 < length w)%nat by (destruct w; [done|simpl; lia]).
  unfold css_lex. rewrite bind_modify, bind_gets. cbn [c set_string_len].
  destruct (c (skip (length w) buf) =? 0) eqn:H0.
  - rewrite css_lex_restart_unfold.
    erewrite bind_Ok by (apply while_false; cbn [c set_string_len];
                         apply Z.eqb_eq in H0; by rewrite H0).
    rewrite bind_gets. cbn [c set_string_len]. by rewrite H0.
  - rewrite bind_gets. cbn [s set_string_len].
    apply css_lex_restart_ext; unfold len; cbn [s set_string_len]; rewrite Hs; lia.
Qed.

Lemma continue_resume w x rest buf :
  w ≠ [] → stream buf = w ++ x :: rest →
  (ch ← gets c;
   if ch =? 0 then mret EOF else goto_restart (S (length (s buf))))
    (skip (length w) (set_string_len 0 buf))
  = css_lex (skip (length w) buf).
Proof.
  intros Hw Hst. rewrite bind_gets.
  destruct (c (skip (length w) (set_string_len 0 buf)) =? 0) eqn:H0;
    [|by apply (goto_restart_resume w x rest)].
  rewrite skip_set_string_len in H0. cbn [c set_string_len] in H0.
  unfold css_lex. rewrite bind_modify, bind_gets. cbn [c set_string_len].
  rewrite H0. by rewrite skip_set_string_len.
Qed.

Lemma css_lex_enter_dispatch h l buf :
  stream buf = h :: l → h ≠ 0 → iswhite h = false →
  css_lex buf =
    css_lex_dispatch (goto_restart (S (length (s buf)))) (set_string_len 0 buf).
Proof.
  intros Hst H0 Hw. assert (Hc : c buf = h) by (by injection Hst).
  rewrite css_lex_enter by (by rewrite Hc).
  rewrite css_lex_restart_unfold.
  erewrite bind_Ok by (apply while_false; simpl; by rewrite Hc).
  rewrite bind_gets. cbn [c set_string_len]. rewrite Hc.
  by destruct (Z.eqb_spec h 0).
Qed.

(** [css_lex] passes over a comment: on [/*], a body without NUL in which no
    star is followed by a slash, and [*/], it does what it does behind the
    comment. *)
Theorem css_lex_comment_skipped body x rest buf :
  Forall (λ b, b ≠ 0) body → no_end body = true →
  stream buf = bytes "/*" ++ body ++ bytes "*/" ++ x :: rest →
  css_lex buf = css_lex (skip (length body + 4) buf).
Proof.
  intros Hnz Hne Hst. change (bytes "/*") with [chr "/"; chr "*"] in Hst.
  change (bytes "*/") with [chr "*"; chr "/"] in Hst. cbn [app] in Hst.
  rewrite (css_lex_enter_dispatch _ _ _ Hst) by done.
  set (b0 := set_string_len 0 buf).
  assert (Hst0 : stream b0 = chr "/" :: chr "*" :: body ++ chr "*" :: chr "/" :: x :: rest)
    by done.
  unfold css_lex_dispatch. cbv zeta.
  destruct (body ++ chr "*" :: chr "/" :: x :: rest) as [|y l] eqn:Hyl;
    [by destruct body|].
  rewrite (bind_Ok _ _ _ _ _ (accept_hit_skip _ _ _ _ Hst0)). cbv iota.
  pose proof (skip_one _ _ _ _ Hst0) as H1.
  rewrite (bind_Ok _ _ _ _ _ (accept_hit_skip _ _ _ _ H1)). cbv iota.
  pose proof (skip_one _ _ _ _ H1) as H2. rewrite <- Hyl in H2.
  rewrite bind_gets.
  erewrite bind_Ok.
  2:{ apply (css_lex_comment_run _ body _ x rest); try done.
      rewrite (stream_length _ _ _ _ H2). lia. }
  rewrite <- !skip_add.
  set (w := chr "/" :: chr "*" :: body ++ [chr "*"; chr "/"]).
  assert (Hw : length w = (length body + 4)%nat).
  { unfold w. cbn [length]. rewrite length_app. simpl. lia. }
  match goal with |- context [skip ?n b0] => replace n with (length w) by lia end.
  rewrite <- Hw.
  apply (goto_restart_resume w x rest); [done|].
  rewrite Hst. unfold w. cbn [app]. rewrite <- (assoc_L (++)). cbn [app].
  by rewrite Hyl.
Qed.

(** The comment [/* a*b **/] in front of a blank and the keyword [c]. *)
Lemma css_lex_comment_skipped_witness :
  css_lex (lexer_entry (bytes "/* a*b **/ c"))
  = css_lex (skip 10 (lexer_entry (bytes "/* a*b **/ c"))).
Proof.
  apply (css_lex_comment_skipped (bytes " a*b *") (chr " ") (bytes "c" ++ [0])
           (lexer_entry (bytes "/* a*b **/ c"))).
  - repeat constructor; done.
  - reflexivity.
  - reflexivity.
Defined.

(** [css_lex] passes over [<!--] and over [-->]. *)
Theorem css_lex_cdo_cdc_skipped w x rest buf :
  (w = bytes "<!--" ∨ w = bytes "-->") →
  stream buf = w ++ x :: rest →
  css_lex buf = css_lex (skip (length w) buf).
Proof.
  intros Hw Hst.
  set (b0 := set_string_len 0 buf).
  assert (Hst0 : stream b0 = w ++ x :: rest) by done.
  destruct Hw as [-> | ->].
  - change (bytes "<!--") with [chr "<"; chr "!"; chr "-"; chr "-"] in *.
    cbn [app] in *.
    rewrite (css_lex_enter_dispatch _ _ _ Hst) by done.
    unfold css_lex_dispatch. cbv zeta. fold b0.
    rewrite (bind_Ok _ _ _ _ _ (accept_miss_skip (chr "/") _ _ _ Hst0 ltac:(done))).
    cbv iota.
    rewrite (bind_Ok _ _ _ _ _ (accept_hit_skip _ _ _ _ Hst0)). cbv iota.
    pose proof (skip_one _ _ _ _ Hst0) as H1.
    rewrite (bind_Ok _ _ _ _ _ (accept_hit_skip _ _ _ _ H1)). cbv iota.
    pose proof (skip_one _ _ _ _ H1) as H2.
    unfold css_lex_expect. rewrite !bind_assoc.
    rewrite (bind_Ok _ _ _ _ _ (accept_hit_skip _ _ _ _ H2)). cbv iota.
    pose proof (skip_one _ _ _ _ H2) as H3. rewrite bind_ret, bind_assoc.
    rewrite (bind_Ok _ _ _ _ _ (accept_hit_skip _ _ _ _ H3)). cbv iota.
    rewrite bind_ret, <- !skip_add.
    by apply (continue_resume [chr "<"; chr "!"; chr "-"; chr "-"] x rest).
  - change (bytes "-->") with [chr "-"; chr "-"; chr ">"] in *.
    cbn [app] in *.
    rewrite (css_lex_enter_dispatch _ _ _ Hst) by done.
    unfold css_lex_dispatch. cbv zeta. fold b0.
    rewrite (bind_Ok _ _ _ _ _ (accept_miss_skip (chr "/") _ _ _ Hst0 ltac:(done))).
    cbv iota.
    rewrite (bind_Ok _ _ _ _ _ (accept_miss_skip (chr "<") _ _ _ Hst0 ltac:(done))).
    cbv iota.
    rewrite (bind_Ok _ _ _ _ _ (accept_hit_skip _ _ _ _ Hst0)). cbv iota.
    pose proof (skip_one _ _ _ _ Hst0) as H1.
    rewrite (bind_Ok _ _ _ _ _ (accept_hit_skip _ _ _ _ H1)). cbv iota.
    pose proof (skip_one _ _ _ _ H1) as H2.
    unfold css_lex_expect. rewrite !bind_assoc.
    rewrite (bind_Ok _ _ _ _ _ (accept_hit_skip _ _ _ _ H2)). cbv iota.
    rewrite bind_ret, <- !skip_add.
    by apply (continue_resume [chr "-"; chr "-"; chr ">"] x rest).
Qed.

(** [<!--] in front of the keyword [a]. *)
Lemma css_lex_cdo_cdc_skipped_witness :
  css_lex (lexer_entry (bytes "<!--a")) = css_lex (skip 4 (lexer_entry (bytes "<!--a"))).
Proof.
  apply (css_lex_cdo_cdc_skipped (bytes "<!--") (chr "a") [0]
           (lexer_entry (bytes "<!--a"))).
  - left. reflexivity.
  - reflexivity.
Defined.

(** ** A comment that is not closed *)

Lemma comment_step_over n k buf :
  stream buf = chr "*" :: replicate k (chr "*") ++ [0] →
  css_lex_comment (S n) buf = Undefined OverRead.
Proof.
  intros Hst. assert (Hc : c buf = chr "*") by (by injection Hst).
  cbn [css_lex_comment]. rewrite bind_gets, Hc. change (chr "*" =? 0) with false.
  cbv iota.
  destruct (replicate k (chr "*") ++ [0]) as [|h t] eqn:Hht; [by destruct k|].
  rewrite (bind_Ok _ _ _ _ _ (accept_hit_skip _ _ _ _ Hst)). cbv iota.
  pose proof (skip_one _ _ _ _ Hst) as H1. rewrite <- Hht in H1.
  rewrite (bind_Ok _ _ _ _ _ (next_while_run star _ _ 0 [] (replicate_stars k)
             eq_refl H1)).
  pose proof (skip_stream _ _ _ _ H1) as H2.
  rewrite (bind_Ok _ _ _ _ _ (accept_miss_skip (chr "/") _ _ _ H2 ltac:(done))).
  cbv iota. apply bind_Undefined, css_lex_next_nil. by injection H2.
Qed.

(** The loop of a comment at the end of the source: it throws, unless the
    last byte of the comment is a star; then it reads on behind the
    terminator. *)
Lemma css_lex_comment_open n : ∀ body buf,
  (length body < n)%nat → Forall (λ b, b ≠ 0) body → no_end body = true →
  stream buf = body ++ [0] →
  css_lex_comment n buf =
    if decide (last body = Some (chr "*")) then Undefined OverRead
    else Throw "unterminated comment" (line (skip (length body) buf)).
Proof.
  induction n as [|n IH]; intros body buf Hn Hnz Hne Hst; [lia|].
  destruct body as [|a body].
  { cbn [css_lex_comment]. rewrite bind_gets.
    assert (c buf = 0) as -> by (by injection Hst). by rewrite Z.eqb_refl. }
  apply Forall_cons in Hnz as [Ha Hnz]. cbn [length] in *.
  destruct (decide (a = chr "*")) as [->|Hstar].
  - destruct (stars_split body) as (k & tail & -> & Ht).
    rewrite length_app, length_replicate in *.
    cbn [app] in Hst. rewrite <- (assoc_L (++)) in Hst.
    destruct tail as [|y tail].
    + cbn [app] in Hst. rewrite (comment_step_over n k buf Hst).
      rewrite decide_True; [done|].
      rewrite app_nil_r. change (chr "*" :: replicate k (chr "*"))
        with (replicate (S k) (chr "*")).
      rewrite replicate_S_end. by rewrite last_snoc.
    + cbn [app hd length] in *.
      destruct (no_end_stars k y tail Hne) as [Hy Htail].
      apply Forall_app in Hnz as [_ Hnz]. apply Forall_cons in Hnz as [_ Hnz].
      destruct (tail ++ [0]) as [|z l] eqn:Hzl; [by destruct tail|].
      rewrite (comment_step_star n k y z l buf Hst Ht Hy).
      rewrite (IH tail); [| lia |done|done|].
      * rewrite <- skip_add.
        replace (k + 2 + length tail)%nat with (S (k + S (length tail))) by lia.
        rewrite (app_comm_cons (replicate k (chr "*"))), last_app_cons.
        destruct tail as [|z' tail']; [|by rewrite last_cons_cons].
        rewrite last_singleton. cbn [last].
        by rewrite !decide_False by congruence.
      * rewrite Hzl.
        replace (k + 2)%nat with (length (chr "*" :: replicate k (chr "*") ++ [y]))
          by (cbn [length]; rewrite length_app, length_replicate; simpl; lia).
        apply skip_stream. rewrite Hst. cbn [app].
        by rewrite <- (assoc_L (++)).
  - cbn [app] in Hst.
    destruct (body ++ [0]) as [|y l] eqn:Hyl; [by destruct body|].
    rewrite (comment_step_other n a y l buf Hst Ha Hstar).
    rewrite (IH body); [|lia|done|by eapply no_end_tail|].
    + rewrite <- skip_add. destruct body as [|b body].
      * rewrite last_singleton. cbn [last]. by rewrite !decide_False by congruence.
      * by rewrite last_cons_cons.
    + rewrite Hyl. by apply (skip_one a y l).
Qed.

(** A comment that the end of the source cuts off is a syntax error, on the
    line of the end of the source.  When its last byte is a star, however,
    the lexer reads the byte behind the terminator instead. *)
Theorem css_lex_comment_unterminated body buf :
  Forall (λ b, b ≠ 0) body → no_end body = true →
  stream buf = bytes "/*" ++ body ++ [0] →
  css_lex buf =
    if decide (last body = Some (chr "*")) then Undefined OverRead
    else Throw "unterminated comment" (line buf + newlines body).
Proof.
  intros Hnz Hne Hst. change (bytes "/*") with [chr "/"; chr "*"] in Hst.
  cbn [app] in Hst.
  rewrite (css_lex_enter_dispatch _ _ _ Hst) by done.
  set (b0 := set_string_len 0 buf).
  assert (Hst0 : stream b0 = chr "/" :: chr "*" :: body ++ [0]) by done.
  unfold css_lex_dispatch. cbv zeta.
  destruct (body ++ [0]) as [|y l] eqn:Hyl; [by destruct body|].
  rewrite (bind_Ok _ _ _ _ _ (accept_hit_skip _ _ _ _ Hst0)). cbv iota.
  pose proof (skip_one _ _ _ _ Hst0) as H1.
  rewrite (bind_Ok _ _ _ _ _ (accept_hit_skip _ _ _ _ H1)). cbv iota.
  pose proof (skip_one _ _ _ _ H1) as H2. rewrite <- Hyl in H2.
  rewrite bind_gets.
  assert (Hrun := css_lex_comment_open (S (length (s (skip 1 (skip 1 b0))))) body _
                    ltac:(rewrite (stream_length _ _ _ _ H2); lia) Hnz Hne H2).
  destruct (decide (last body = Some (chr "*"))).
  - by rewrite (bind_Undefined _ _ _ _ Hrun).
  - rewrite (bind_Throw _ _ _ _ _ Hrun). f_equal.
    rewrite <- !skip_add.
    replace (1 + (1 + length body))%nat with (length (chr "/" :: chr "*" :: body))
      by (simpl; lia).
    rewrite (skip_line (chr "/" :: chr "*" :: body) b0 0 [])
      by (rewrite Hst0; cbn [app]; by rewrite Hyl).
    assert (Hs : s b0 = chr "*" :: body ++ [0]).
    { rewrite Hyl. by injection Hst0. }
    rewrite Hs. rewrite take_ge by (cbn [length]; rewrite length_app; simpl; lia).
    cbn [newlines]. rewrite newlines_app. cbn [newlines].
    change (chr "*" =? 10) with false. change (0 =? 10) with false. cbv iota.
    unfold b0. cbn [line set_string_len]. lia.
Qed.

(** The comment [/* a] throws on line 1; the comment [/* a*] does not. *)
Lemma css_lex_comment_unterminated_witness :
  css_lex (lexer_entry (bytes "/* a")) = Throw "unterminated comment" (1 + 0) ∧
  css_lex (lexer_entry (bytes "/* a*")) = Undefined OverRead.
Proof.
  split.
  - apply (css_lex_comment_unterminated (bytes " a") (lexer_entry (bytes "/* a"))).
    + repeat constructor; done.
    + reflexivity.
    + reflexivity.
  - apply (css_lex_comment_unterminated (bytes " a*") (lexer_entry (bytes "/* a*"))).
    + repeat constructor; done.
    + reflexivity.
    + reflexivity.
Defined.

(** * What [fz_parse_css] leaves alone

    The rules that are in the store are not touched, but for one thing: a
    rule without a successor may be given one, and that is a new rule. *)
Definition frame (h0 h : heap) : Prop :=
  (length h0 ≤ length h)%nat ∧
  ∀ i r, h0 !! i = Some r →
    h !! i = Some r ∨
    (rule_next r = None ∧
     ∃ a, (length h0 ≤ a)%nat ∧ h !! i = Some (set_rule_next (Some a) r)).

Lemma frame_refl h : frame h h.
Proof. split; [done|]. intros i r Hi. by left. Qed.

Lemma frame_alloc h0 h r : frame h0 h → frame h0 (h ++ [r]).
Proof.
  intros [Hlen Hf]. split; [rewrite length_app; simpl; lia|].
  intros i r0 Hi. pose proof (lookup_lt_Some _ _ _ Hi) as Hlt.
  destruct (Hf i r0 Hi) as [H|(Hn & a & Ha & H)].
  - left. by rewrite lookup_app_l by lia.
  - right. split; [done|]. exists a. split; [done|]. by rewrite lookup_app_l by lia.
Qed.

Lemma set_rule_next_twice nx nx' r :
  set_rule_next nx (set_rule_next nx' r) = set_rule_next nx r.
Proof. done. Qed.

Lemma frame_link h0 h a rule :
  frame h0 h → linkable h0 (NextOf a) → (length h0 ≤ rule)%nat →
  frame h0 (alter (set_rule_next (Some rule)) a h).
Proof.
  intros [Hlen Hf] Hlink Hrule. split; [by rewrite length_alter|].
  intros i r Hi. pose proof (lookup_lt_Some _ _ _ Hi) as Hlt.
  destruct (decide (i = a)) as [->|Hne].
  - destruct Hlink as [Hnew|(ra & Ha & Hnone)]; [lia|].
    assert (ra = r) as -> by congruence.
    right. split; [done|]. exists rule. split; [done|].
    rewrite list_lookup_alter_eq.
    destruct (Hf a r Hi) as [->|(_ & b & _ & ->)]; [done|].
    cbn [fmap option_fmap option_map]. by rewrite set_rule_next_twice.
  - rewrite list_lookup_alter_ne by done. by apply Hf.
Qed.

Lemma post_any_bind {A B} (m : M A) (k : A → M B) buf Q :
  (∀ a b1, post any (k a) b1 Q) → post any (m ≫= k) buf Q.
Proof. intros Hk. eapply (post_bind _ _ _ _ (λ _ _, True)); [|by intros]. unfold post. by destruct (m buf) as [[]| | |]. Qed.

Lemma frame_parse_rule n h buf :
  post any (parse_rule n h) buf (λ r _, r.1 = length h ∧ ∃ x, r.2 = h ++ [x]).
Proof.
  unfold parse_rule, fz_new_css_rule.
  do 4 (apply post_any_bind; intros ? ?). apply post_ret. split; [done|]. eauto.
Qed.

Lemma frame_parse_stylesheet_loop h0 n : ∀ nextp tail h buf,
  frame h0 h → linkable h0 nextp →
  post any (parse_stylesheet_loop n nextp tail h) buf (λ r _, frame h0 r.2).
Proof.
  induction n as [|n IH]; intros nextp tail h buf Hf Hl; cbn [parse_stylesheet_loop].
  all: apply post_gets; destruct (negb _); [|by apply post_ret].
  { done. }
  apply post_any_bind. intros [] b1.
  - apply post_any_bind. intros _ b2. by apply IH.
  - eapply post_bind; [apply frame_parse_rule|].
    cbv beta. intros [rule h1] b2 [Hrule (x & Hh1)]. cbn [fst snd] in *. subst.
    pose proof (frame_alloc _ _ x Hf) as Hf1. destruct Hf as [Hlen _].
    destruct nextp as [|a]; cbn [store_rule].
    + apply IH; [done|]. by left.
    + apply IH; [|by left]. by apply frame_link.
Qed.

Lemma frame_last_rule {A} n h (k : nat → M A) Q : ∀ a buf,
  (∀ t r, h !! t = Some r → rule_next r = None → post any (k t) buf Q) →
  post any (last_rule n h a k) buf Q.
Proof.
  induction n as [|n IH]; intros a buf Hk; cbn [last_rule].
  all: destruct (h !! a) as [r|] eqn:Ha; [|done].
  all: destruct (rule_next r) eqn:Hn; [|by eapply Hk].
  - done.
  - by apply IH.
Qed.

(** [fz_parse_css] leaves the rules of the store as they are: the store
    grows, and a rule that was in it is unchanged, or it had no successor
    and has been given a new rule as its successor. *)
Theorem fz_parse_css_frame h chain source p h' :
  fz_parse_css h chain source = Ok (p, h') → frame h h'.
Proof.
  intros Hrun.
  assert (Hpost : post any
            (css_lex_init ;; next ;; parse_stylesheet (fuel source) h chain)
            (lexbuf_at source) (λ r _, frame h r.2)).
  { do 2 (apply post_any_bind; intros _ ?). unfold parse_stylesheet.
    destruct chain as [c0|].
    - apply frame_last_rule. intros t r Ht Hn.
      eapply post_bind.
      + apply frame_parse_stylesheet_loop; [apply frame_refl|]. right. eauto.
      + cbv beta. by intros [tail hh] b2 H.
    - apply frame_parse_stylesheet_loop; [apply frame_refl|done]. }
  unfold fz_parse_css, result, post in *.
  destruct ((css_lex_init ;; next ;; parse_stylesheet (fuel source) h chain)
              (lexbuf_at source)) as [[a' b]| | |]; [|done..].
  by injection Hrun as ->.
Qed.

(** The style sheet [d{e:f}] onto the second of two rules that are not
    linked. *)
Lemma fz_parse_css_frame_witness :
  ∃ p h',
    fz_parse_css [Rule [] [] [] None; Rule universal [] [] None] (Some 1%nat)
      (bytes "d{e:f}") = Ok (p, h') ∧
    frame [Rule [] [] [] None; Rule universal [] [] None] h'.
Proof.
  assert (H : ∃ p h',
            fz_parse_css [Rule [] [] [] None; Rule universal [] [] None] (Some 1%nat)
              (bytes "d{e:f}") = Ok (p, h')).
  { eexists _, _. vm_compute. reflexivity. }
  destruct H as (p & h' & H). exists p, h'. split; [exact H|].
  exact (fz_parse_css_frame _ _ _ p h' H).
Defined.

(** * A string that is not closed *)

Lemma last_line_next k : keeps (λ b, last_line b = k) any css_lex_next.
Proof.
  intros buf Hk. unfold post, css_lex_next, last_line in *.
  destruct (s buf) as [|b rest]; [done|]. cbn [line s newlines] in *.
  destruct (b =? 10); lia.
Qed.

Lemma last_line_skip n : ∀ buf, last_line (skip n buf) = last_line buf.
Proof.
  induction n as [|n IH]; intros buf; [done|]. cbn [skip].
  destruct (s buf) as [|b rest] eqn:Hs; [done|]. rewrite IH.
  unfold last_line. rewrite Hs. cbn [line s advance newlines].
  destruct (b =? 10); lia.
Qed.

Lemma last_line_string_loop k cond :
  keeps (λ b, last_line b = k) any (while cond string_body).
Proof.
  pose proof (last_line_next k) as Hnext.
  assert (Hpush : ∀ ch, keeps (λ b, last_line b = k) any (css_push_char ch)).
  { intros ch. by apply keeps_css_push_char. }
  assert (Hacc : ∀ t, keeps (λ b, last_line b = k) any (css_lex_accept t)).
  { intros t. by apply keeps_css_lex_accept. }
  assert (Hc : keeps (λ b, last_line b = k) any css_push_c).
  { by apply keeps_css_push_c. }
  apply keeps_while; [done|]. unfold string_body. keeps_go.
Qed.

Lemma post_both {A} (I : lexbuf → Prop) (m : M A) buf Q :
  post never m buf Q → keeps I any m → I buf →
  post never m buf (λ a b', Q a b' ∧ I b').
Proof.
  intros Hm Hk HI. specialize (Hk buf HI). unfold post in *.
  by destruct (m buf) as [[a b']| | |].
Qed.

(** [css_lex_string] in front of pieces that the end of the source follows:
    the closing quote is missed there. *)
Lemma css_lex_string_open q ps pre buf :
  q ≠ 0 → q ≠ chr "\" → q ≠ 10 → pieces_ok q ps = true →
  (length pre + length (cookeds ps) < 1024)%nat →
  reading (raws ps ++ [0]) pre buf →
  css_lex_string q buf = Throw "unexpected character" (last_line buf).
Proof.
  intros Hq0 Hq Hq10 Hok Hlen Hr. rewrite css_lex_string_unfold.
  assert (Hloop : post never
            (while (λ buf, negb (c buf =? 0) && negb (c buf =? q)) string_body) buf
            (λ _ b', reading [0] (pre ++ cookeds ps) b' ∧ last_line b' = last_line buf)).
  { apply post_both; [|apply last_line_string_loop|done].
    unfold while. apply (string_loop_run q 0 [] ps); try done; [by right|].
    destruct Hr as [Hst _]. apply (f_equal length) in Hst. unfold stream in Hst.
    rewrite length_app in Hst. simpl in Hst. lia. }
  apply post_never in Hloop as ([] & b1 & Hrun & [Hst _] & Hline).
  rewrite (bind_Ok _ _ _ _ _ Hrun). unfold css_lex_expect. rewrite bind_assoc.
  rewrite (bind_Ok _ _ _ _ _ (accept_miss_skip q _ _ _ Hst ltac:(done))). cbv iota.
  rewrite (bind_Throw _ _ _ "unexpected character" (line b1)) by done.
  rewrite <- Hline. unfold last_line.
  injection Hst as _ Hs. rewrite Hs. cbn [newlines]. f_equal. lia.
Qed.

(** A string that the end of the source cuts off, and not behind a
    backslash, is a syntax error on the last line of the source. *)
Theorem css_lex_string_unterminated q ps buf :
  (q = 34 ∨ q = chr "'") → pieces_ok q ps = true →
  (length (cookeds ps) ≤ 1022)%nat →
  length (string buf) = 1024%nat →
  stream buf = q :: raws ps ++ [0] →
  css_lex buf = Throw "unexpected character" (line buf + newlines (raws ps)).
Proof.
  intros Hq Hok Hlen Harr Hst.
  assert (Hq' : q ≠ 0 ∧ q ≠ chr "\" ∧ q ≠ 10 ∧ iswhite q = false ∧
                q ≠ chr "/" ∧ q ≠ chr "<" ∧ q ≠ chr "-" ∧ q ≠ chr "+" ∧
                q ≠ chr "." ∧ q ≠ chr "#")
    by (by destruct Hq as [-> | ->]).
  destruct Hq' as (Hq0 & Hqb & Hq10 & Hqw & H1 & H2 & H3 & H4 & H5 & H6).
  rewrite (css_lex_enter_dispatch _ _ _ Hst) by done.
  set (b0 := set_string_len 0 buf).
  assert (Hst0 : stream b0 = q :: raws ps ++ [0]) by done.
  destruct (raws_next ps 0 []) as (z & l & Heq & _). rewrite Heq in Hst0.
  unfold css_lex_dispatch. cbv zeta.
  rewrite (bind_Ok _ _ _ _ _ (accept_miss_skip _ _ _ _ Hst0 H1)). cbv iota.
  rewrite (bind_Ok _ _ _ _ _ (accept_miss_skip _ _ _ _ Hst0 H2)). cbv iota.
  rewrite (bind_Ok _ _ _ _ _ (accept_miss_skip _ _ _ _ Hst0 H3)). cbv iota.
  rewrite (bind_Ok _ _ _ _ _ (accept_miss_skip _ _ _ _ Hst0 H4)). cbv iota.
  rewrite (bind_Ok _ _ _ _ _ (accept_miss_skip _ _ _ _ Hst0 H5)). cbv iota.
  rewrite (bind_Ok _ _ _ _ _ (accept_miss_skip _ _ _ _ Hst0 H6)). cbv iota.
  assert (Hrun : css_lex_string q (skip 1 b0)
                 = Throw "unexpected character" (line buf + newlines (raws ps))).
  { rewrite (css_lex_string_open q ps []); try done; [|simpl; lia|].
    - f_equal. rewrite last_line_skip. unfold last_line, b0.
      cbn [line s set_string_len]. injection Hst as _ ->.
      rewrite newlines_app. cbn [newlines]. change (0 =? 10) with false. cbv iota. lia.
    - split; [rewrite Heq; by apply (skip_one _ _ _ _ Hst0)|].
      exists (string buf). split; [|done].
      pose proof (f_equal fst (skip_scratch 1 b0)) as H7.
      pose proof (f_equal snd (skip_scratch 1 b0)) as H8.
      unfold scratch in H7, H8. cbn [fst snd] in H7, H8.
      split; [by rewrite H7|by rewrite H8]. }
  destruct Hq as [-> | ->].
  - by rewrite (bind_Ok _ _ _ _ _ (accept_hit_skip _ _ _ _ Hst0)).
  - rewrite (bind_Ok _ _ _ _ _ (accept_miss_skip 34 _ _ _ Hst0 ltac:(done))). cbv iota.
    by rewrite (bind_Ok _ _ _ _ _ (accept_hit_skip _ _ _ _ Hst0)).
Qed.

(** The string ['ab], a line feed, [c], without its closing quote. *)
Lemma css_lex_string_unterminated_witness :
  css_lex (lexer_entry (bytes "'ab" ++ [10] ++ bytes "c"))
  = Throw "unexpected character" (1 + 1).
Proof.
  apply (css_lex_string_unterminated (chr "'")
           [Byte (chr "a"); Byte (chr "b"); Byte 10; Byte (chr "c")]
           (lexer_entry (bytes "'ab" ++ [10] ++ bytes "c"))).
  - right. reflexivity.
  - reflexivity.
  - simpl. lia.
  - reflexivity.
  - reflexivity.
Defined.

(** * White space in front of a token *)

(** [css_lex] passes over white space: in front of blanks, tabulators and
    line ends it does what it does behind them. *)
Theorem css_lex_white_skipped w x rest buf :
  white w → iswhite x = false →
  stream buf = w ++ x :: rest →
  css_lex buf = css_lex (skip (length w) buf).
Proof.
  intros Hw Hx Hst. destruct w as [|a w]; [done|].
  apply Forall_cons in Hw as [Ha Hw].
  assert (Hc : c buf = a) by (by injection Hst).
  assert (Ha0 : a ≠ 0) by (intros ->; done).
  pose proof (skip_stream _ _ _ _ Hst) as Hk.
  assert (Hkc : c (skip (length (a :: w)) buf) = x) by (by injection Hk).
  assert (Hks : s (skip (length (a :: w)) buf) = rest) by (by injection Hk).
  pose proof (stream_length _ _ _ _ Hst) as Hlen.
  unfold css_lex at 1. rewrite bind_modify, bind_gets. cbn [c set_string_len].
  rewrite Hc. destruct (Z.eqb_spec a 0); [done|]. rewrite bind_gets.
  cbn [s set_string_len]. rewrite css_lex_restart_unfold.
  erewrite bind_Ok
    by (apply (white_loop_run (a :: w) _ x rest); [by constructor|done|done]).
  rewrite bind_gets, skip_set_string_len. cbn [c set_string_len]. rewrite Hkc.
  unfold css_lex. rewrite bind_modify, bind_gets. cbn [c set_string_len].
  rewrite Hkc. destruct (x =? 0) eqn:Hx0; [done|].
  rewrite bind_gets. cbn [s set_string_len]. rewrite css_lex_restart_unfold.
  erewrite (bind_Ok (while _ _))
    by (apply while_false; cbn [c set_string_len]; by rewrite Hkc).
  rewrite bind_gets. cbn [c set_string_len]. rewrite Hkc, Hx0.
  apply css_lex_dispatch_ext. intros b1 Hb1. cbn [goto_restart].
  unfold len in Hb1. cbn [s set_string_len] in Hb1. rewrite Hks in Hb1.
  rewrite Hks. apply css_lex_restart_ext; unfold len; cbn [length] in *; lia.
Qed.

(** A blank and a line feed in front of the keyword [a]. *)
Lemma css_lex_white_skipped_witness :
  css_lex (lexer_entry ([32; 10] ++ bytes "a"))
  = css_lex (skip 2 (lexer_entry ([32; 10] ++ bytes "a"))).
Proof.
  apply (css_lex_white_skipped [32; 10] (chr "a") [0]
           (lexer_entry ([32; 10] ++ bytes "a"))).
  - unfold white. repeat constructor.
  - reflexivity.
  - reflexivity.
Defined.

(** * The fuel of the loops

    The fuel stands for nothing in the C code.  A loop or a recursion that
    has ended within its fuel ends in the same way with more of it. *)

Lemma grows_refl {A} (m : M A) : grows m m.
Proof. intros buf. by right. Qed.

Lemma grows_fuel {A} (m : M A) : grows out_of_fuel m.
Proof. intros buf. by left. Qed.

Lemma grows_trans {A} (m1 m2 m3 : M A) : grows m1 m2 → grows m2 m3 → grows m1 m3.
Proof.
  intros H12 H23 buf. destruct (H12 buf) as [E|E]; [by left|].
  rewrite E. apply H23.
Qed.

Lemma grows_bind {A B} (m1 m2 : M A) (k1 k2 : A → M B) :
  grows m1 m2 → (∀ a, grows (k1 a) (k2 a)) → grows (m1 ≫= k1) (m2 ≫= k2).
Proof.
  intros Hm Hk buf. unfold mbind, M_bind.
  destruct (Hm buf) as [E|E]; rewrite E; [by left|].
  destruct (m2 buf) as [[a b1]| | |]; [apply Hk|by right..].
Qed.

Lemma grows_le {A} (f : nat → M A) :
  (∀ n, grows (f n) (f (S n))) → ∀ n m, (n ≤ m)%nat → grows (f n) (f m).
Proof.
  intros Hf n m Hle. induction Hle as [|m Hle IH]; [apply grows_refl|].
  eapply grows_trans; [apply IH|apply Hf].
Qed.

(** With two amounts of fuel that both suffice, the result is one. *)
Lemma grows_same {A} (f : nat → M A) n m buf :
  (∀ n, grows (f n) (f (S n))) →
  f n buf ≠ OutOfFuel → f m buf ≠ OutOfFuel → f n buf = f m buf.
Proof.
  intros Hf Hn Hm. destruct (decide (n ≤ m)%nat) as [Hle|Hle].
  - by destruct (grows_le f Hf n m Hle buf).
  - by destruct (grows_le f Hf m n ltac:(lia) buf).
Qed.

Create HintDb grows discriminated.

Ltac grows_go :=
  repeat first
    [ assumption
    | apply grows_refl
    | apply grows_fuel
    | solve [auto 2 with grows]
    | apply grows_bind; [|intros ?]
    | lazymatch goal with
      | |- grows (match ?x with _ => _ end) (match ?x with _ => _ end) => destruct x
      | |- grows (let '(_, _) := ?x in _) (let '(_, _) := ?x in _) => destruct x
      end ].

(** ** The lexer *)

Lemma grows_while_ cond body n : grows (while_ n cond body) (while_ (S n) cond body).
Proof.
  induction n as [|n IH]; intros buf.
  - simpl. destruct (cond buf); [by left|by right].
  - change (below (if cond buf then (body ;; while_ n cond body) buf else Ok (tt, buf))
              (if cond buf then (body ;; while_ (S n) cond body) buf else Ok (tt, buf))).
    destruct (cond buf); [|by right]. apply grows_bind; [apply grows_refl|by intros _].
Qed.

Lemma grows_css_lex_comment n : grows (css_lex_comment n) (css_lex_comment (S n)).
Proof. induction n as [|n IH]; cbn [css_lex_comment]; grows_go. Qed.

Lemma grows_css_lex_dispatch g1 g2 :
  grows g1 g2 → grows (css_lex_dispatch g1) (css_lex_dispatch g2).
Proof. intros Hg. unfold css_lex_dispatch. cbv zeta. grows_go. Qed.

Lemma grows_css_lex_restart n : grows (css_lex_restart n) (css_lex_restart (S n)).
Proof.
  induction n as [|n IH]; rewrite !css_lex_restart_unfold; grows_go.
  all: apply grows_css_lex_dispatch; cbn [goto_restart]; grows_go.
Qed.

(** ** The parser *)

Lemma grows_parse_value_list n : grows (parse_value_list n) (parse_value_list (S n)).
Proof.
  induction n as [|n IH]; rewrite !parse_value_list_unfold.
  all: unfold parse_value_list_with, parse_value_with, parse_value_list_rec; grows_go.
Qed.

#[export] Hint Resolve grows_parse_value_list : grows.

Lemma grows_parse_declaration n : grows (parse_declaration n) (parse_declaration (S n)).
Proof. unfold parse_declaration. grows_go. Qed.

#[export] Hint Resolve grows_parse_declaration : grows.

Lemma grows_parse_declaration_loop n :
  grows (parse_declaration_loop n) (parse_declaration_loop (S n)).
Proof.
  induction n as [|n IH]; rewrite !parse_declaration_loop_unfold.
  all: unfold parse_declaration_loop_with; grows_go.
Qed.

#[export] Hint Resolve grows_parse_declaration_loop : grows.

Lemma grows_parse_declaration_list n :
  grows (parse_declaration_list n) (parse_declaration_list (S n)).
Proof. unfold parse_declaration_list. grows_go. Qed.

#[export] Hint Resolve grows_parse_declaration_list : grows.

Lemma grows_parse_condition_loop n :
  grows (parse_condition_loop n) (parse_condition_loop (S n)).
Proof. induction n as [|n IH]; cbn [parse_condition_loop]; grows_go. Qed.

#[export] Hint Resolve grows_parse_condition_loop : grows.

Lemma grows_parse_condition_list n :
  grows (parse_condition_list n) (parse_condition_list (S n)).
Proof. unfold parse_condition_list. grows_go. Qed.

#[export] Hint Resolve grows_parse_condition_list : grows.

Lemma grows_parse_simple_selector n :
  grows (parse_simple_selector n) (parse_simple_selector (S n)).
Proof. unfold parse_simple_selector. grows_go. Qed.

#[export] Hint Resolve grows_parse_simple_selector : grows.

Lemma grows_parse_adjacent_selector n :
  grows (parse_adjacent_selector n) (parse_adjacent_selector (S n)).
Proof. induction n as [|n IH]; cbn [parse_adjacent_selector]; grows_go. Qed.

#[export] Hint Resolve grows_parse_adjacent_selector : grows.

Lemma grows_parse_child_selector n :
  grows (parse_child_selector n) (parse_child_selector (S n)).
Proof. induction n as [|n IH]; cbn [parse_child_selector]; grows_go. Qed.

#[export] Hint Resolve grows_parse_child_selector : grows.

Lemma grows_parse_descendant_selector n :
  grows (parse_descendant_selector n) (parse_descendant_selector (S n)).
Proof. induction n as [|n IH]; cbn [parse_descendant_selector]; grows_go. Qed.

#[export] Hint Resolve grows_parse_descendant_selector : grows.

Lemma grows_parse_selector_loop n :
  grows (parse_selector_loop n) (parse_selector_loop (S n)).
Proof. induction n as [|n IH]; cbn [parse_selector_loop]; grows_go. Qed.

#[export] Hint Resolve grows_parse_selector_loop : grows.

Lemma grows_parse_selector_list n :
  grows (parse_selector_list n) (parse_selector_list (S n)).
Proof. unfold parse_selector_list. grows_go. Qed.

#[export] Hint Resolve grows_parse_selector_list : grows.

Lemma grows_parse_rule n h : grows (parse_rule n h) (parse_rule (S n) h).
Proof. unfold parse_rule. grows_go. Qed.

#[export] Hint Resolve grows_parse_rule : grows.

Lemma grows_parse_at_rule_block n : ∀ depth,
  grows (parse_at_rule_block n depth) (parse_at_rule_block (S n) depth).
Proof. induction n as [|n IH]; intros depth; cbn [parse_at_rule_block]; grows_go. Qed.

#[export] Hint Resolve grows_parse_at_rule_block : grows.

Lemma grows_parse_at_rule_skip n :
  grows (parse_at_rule_skip n) (parse_at_rule_skip (S n)).
Proof. induction n as [|n IH]; cbn [parse_at_rule_skip]; grows_go. Qed.

#[export] Hint Resolve grows_parse_at_rule_skip : grows.

Lemma grows_parse_at_rule n : grows (parse_at_rule n) (parse_at_rule (S n)).
Proof. unfold parse_at_rule. grows_go. Qed.

#[export] Hint Resolve grows_parse_at_rule : grows.

Lemma grows_parse_stylesheet_loop n : ∀ nextp tail h,
  grows (parse_stylesheet_loop n nextp tail h)
    (parse_stylesheet_loop (S n) nextp tail h).
Proof.
  induction n as [|n IH]; intros nextp tail h; cbn [parse_stylesheet_loop]; grows_go.
Qed.

#[export] Hint Resolve grows_parse_stylesheet_loop : grows.

Lemma grows_last_rule {A} n h (k1 k2 : nat → M A) : ∀ a,
  (∀ t, grows (k1 t) (k2 t)) → grows (last_rule n h a k1) (last_rule n h a k2).
Proof.
  induction n as [|n IH]; intros a Hk; cbn [last_rule].
  all: destruct (h !! a) as [r|]; [|apply grows_refl].
  all: destruct (rule_next r); grows_go.
Qed.

Lemma grows_parse_stylesheet n h chain :
  grows (parse_stylesheet n h chain) (parse_stylesheet (S n) h chain).
Proof.
  unfold parse_stylesheet. destruct chain; [|grows_go].
  apply grows_last_rule. intros t. grows_go.
Qed.

(** * What lies behind the bytes that are read

    The lexer reads the source through [css_lex_next] alone, one byte at a
    time and in order.  What a function of the lexer or of the parser does is
    therefore decided by the bytes that it reads: it does the same in front
    of any other bytes. *)

Lemma set_s_id buf : set_s (s buf) buf = buf.
Proof. by destruct buf. Qed.

Lemma nil_split {A} (p r : list A) : [] = p ++ r → r ≠ [] → False.
Proof. intros E Hr. symmetry in E. by apply app_eq_nil in E as [_ ->]. Qed.

(** [m] has read nothing. *)
Ltac local_none :=
  cbn; split; [done|]; split; [lia|]; split;
    [|let E := fresh in let Hne := fresh in
      intros ? ? E Hne; by destruct (nil_split _ _ E Hne)].

Lemma local_ret {A} (a : A) : local (mret a).
Proof. intros buf. exists []. local_none. done. Qed.

Lemma local_error {A} msg : local (fz_css_error (A:=A) msg).
Proof. intros buf. exists [], (s buf). local_none. done. Qed.

Lemma local_out_of_fuel {A} : local (out_of_fuel (A:=A)).
Proof. by intros buf. Qed.

Lemma local_gets {A} (f : lexbuf → A) : stream_free f → local (gets f).
Proof.
  intros Hf buf. exists []. local_none.
  intros r. unfold gets. by rewrite Hf.
Qed.

Lemma local_modify (f : lexbuf → lexbuf) : stream_kept f → local (modify f).
Proof.
  intros Hf buf. destruct (Hf buf) as (Hs & Hl & Hr).
  exists []. local_none.
  intros r. unfold modify. by rewrite Hr.
Qed.

(** A memory that ends inside what [m ≫= k] reads ends inside what [m]
    reads, or behind it and inside what [k] reads. *)
Lemma local_bind_short {A B} (m : M A) (k : A → M B) buf a b1 read1 read2 p r :
  (∀ r, m (set_s (read1 ++ r) buf) = Ok (a, set_s r b1)) →
  (∀ p r, read1 = p ++ r → r ≠ [] → m (set_s p buf) = Undefined OverRead) →
  (∀ p r, read2 = p ++ r → r ≠ [] → k a (set_s p b1) = Undefined OverRead) →
  read1 ++ read2 = p ++ r → r ≠ [] →
  (m ≫= k) (set_s p buf) = Undefined OverRead.
Proof.
  intros Hr1 Hx1 Hx2 E Hr. unfold mbind, M_bind.
  apply app_eq_inv in E as [(r1 & -> & ->)|(p2 & -> & ->)].
  - destruct r1 as [|x r1].
    + pose proof (Hr1 []) as H0. rewrite !(right_id_L [] (++)) in H0. rewrite H0.
      by apply (Hx2 [] read2).
    + by rewrite (Hx1 p (x :: r1)).
  - rewrite Hr1. by apply (Hx2 p2 r).
Qed.

Lemma local_bind {A B} (m : M A) (k : A → M B) :
  local m → (∀ a, local (k a)) → local (m ≫= k).
Proof.
  intros Hm Hk buf. specialize (Hm buf). unfold reads in *.
  destruct (m buf) as [[a b1]|msg ln| |] eqn:E1.
  - destruct Hm as (read1 & Hs1 & Hl1 & Hr1 & Hx1).
    specialize (Hk a b1). unfold reads in Hk.
    unfold mbind at 1, M_bind at 1. rewrite E1.
    destruct (k a b1) as [[x b2]|msg ln| |] eqn:E2; try done.
    + destruct Hk as (read2 & Hs2 & Hl2 & Hr2 & Hx2).
      exists (read1 ++ read2). rewrite <- (assoc_L (++)), <- Hs2.
      split; [done|]. split; [rewrite newlines_app; lia|]. split.
      * intros r. unfold mbind, M_bind. by rewrite <- (assoc_L (++)), Hr1, Hr2.
      * intros p r. by apply (local_bind_short m k buf a b1 read1 read2).
    + destruct Hk as (read2 & rest & Hs2 & Hl2 & Hr2 & Hx2).
      exists (read1 ++ read2), rest. rewrite <- (assoc_L (++)), <- Hs2.
      split; [done|]. split; [rewrite newlines_app; lia|]. split.
      * intros r. unfold mbind, M_bind. by rewrite <- (assoc_L (++)), Hr1, Hr2.
      * intros p r. by apply (local_bind_short m k buf a b1 read1 read2).
  - destruct Hm as (read & rest & Hs & Hl & Hr & Hx).
    unfold mbind at 1, M_bind at 1. rewrite E1.
    exists read, rest. split; [done|]. split; [done|]. split.
    + intros r. unfold mbind, M_bind. by rewrite Hr.
    + intros p r E Hne. unfold mbind, M_bind. by rewrite (Hx p r).
  - unfold mbind, M_bind. by rewrite E1.
  - unfold mbind, M_bind. by rewrite E1.
Qed.

Lemma local_css_lex_next : local css_lex_next.
Proof.
  intros buf. unfold reads, css_lex_next. destruct (s buf) as [|b rest] eqn:Hs; [done|].
  exists [b]. cbn. split; [done|]. split; [destruct (b =? 10); lia|]. split; [done|].
  intros p r E Hr. destruct p as [|x p]; [done|].
  injection E as -> E. by destruct (nil_split p r E Hr).
Qed.

(** A loop with a fixed fuel. *)
Lemma local_while_ cond body n :
  stream_free cond → local body → local (while_ n cond body).
Proof.
  intros Hc Hbody. induction n as [|n IH]; intros buf; unfold reads.
  - cbn [while_]. destruct (cond buf) eqn:E; [done|].
    exists []. local_none. intros r. by rewrite Hc, E.
  - pose proof (local_bind body (λ _, while_ n cond body) Hbody (λ _, IH) buf) as H.
    unfold reads in H.
    change (while_ (S n) cond body buf)
      with (if cond buf then (body ;; while_ n cond body) buf else Ok (tt, buf)).
    destruct (cond buf) eqn:E.
    + destruct ((body ;; while_ n cond body) buf) as [[a b1]|msg ln| |]; try done.
      * destruct H as (read & Hs & Hl & Hr & Hx). exists read. split; [done|].
        split; [done|]. split.
        -- intros r. cbn [while_]. by rewrite Hc, E, Hr.
        -- intros p r E' Hne. cbn [while_]. by rewrite Hc, E, (Hx p r).
      * destruct H as (read & rest & Hs & Hl & Hr & Hx). exists read, rest.
        split; [done|]. split; [done|]. split.
        -- intros r. cbn [while_]. by rewrite Hc, E, Hr.
        -- intros p r E' Hne. cbn [while_]. by rewrite Hc, E, (Hx p r).
    + exists []. local_none. intros r. by rewrite Hc, E.
Qed.

(** A loop or a recursion whose fuel is the number of bytes behind the read
    pointer. *)
Lemma local_fuel {A} (f : nat → M A) :
  (∀ n, local (f n)) → (∀ n, grows (f n) (f (S n))) →
  (∀ n buf, (len buf < n)%nat → f n buf ≠ OutOfFuel) →
  local (λ buf, f (S (length (s buf))) buf).
Proof.
  intros Hloc Hgrow Hfuel buf. specialize (Hloc (S (length (s buf))) buf).
  unfold reads in *. cbv beta.
  assert (Hsame : ∀ r0 res, res ≠ OutOfFuel →
            f (S (length (s buf))) (set_s r0 buf) = res →
            f (S (length (s (set_s r0 buf)))) (set_s r0 buf) = res).
  { intros r0 res Hres E. rewrite <- E. apply grows_same; [done| |by rewrite E].
    apply Hfuel. unfold len. lia. }
  destruct (f (S (length (s buf))) buf) as [[a b1]|msg ln| |]; try done.
  - destruct Hloc as (read & Hs & Hl & Hr & Hx). exists read. split; [done|].
    split; [done|]. split.
    + intros r. by apply Hsame.
    + intros p r E Hne. apply Hsame; [done|]. by apply (Hx p r).
  - destruct Hloc as (read & rest & Hs & Hl & Hr & Hx). exists read, rest. split; [done|].
    split; [done|]. split.
    + intros r. by apply Hsame.
    + intros p r E Hne. apply Hsame; [done|]. by apply (Hx p r).
Qed.

Lemma run_defined {A} (m : M A) buf Q : run m buf Q → m buf ≠ OutOfFuel.
Proof. unfold run. by destruct (m buf) as [[a b]| | |]. Qed.

Lemma local_while cond body :
  stream_free cond → local body →
  (∀ b, run body b (λ _ b', (len b' < len b)%nat)) →
  local (while cond body).
Proof.
  intros Hc Hbody Hrun.
  apply (local_fuel (λ n, while_ n cond body)).
  - intros n. by apply local_while_.
  - intros n. apply grows_while_.
  - intros n buf Hn. apply (run_defined _ _ _ (run_while_ cond body Hrun n buf Hn)).
Qed.

(** The fuel read off the state in front of a call. *)
Lemma local_gets_len {A B} (f : nat → M A) (k : A → M B) :
  local (λ buf, f (S (length (s buf))) buf) → (∀ a, local (k a)) →
  local (n0 ← gets (λ buf, length (s buf)); f (S n0) ≫= k).
Proof. intros Hf Hk. exact (local_bind _ k Hf Hk). Qed.

Create HintDb local discriminated.

Ltac local_go :=
  repeat first
    [ assumption
    | apply local_ret
    | apply local_error
    | apply local_out_of_fuel
    | solve [auto 2 with local]
    | apply local_gets; intros ? ?; reflexivity
    | apply local_modify; intros ?; repeat split; reflexivity
    | lazymatch goal with
      | |- local (gets (λ buf, length (s buf)) ≫= _) =>
          apply local_gets_len; [solve [auto 2 with local]|intros ?]
      end
    | apply local_bind; [|intros ?]
    | lazymatch goal with
      | |- local (match ?x with _ => _ end) => destruct x
      | |- local (let '(_, _) := ?x in _) => destruct x
      end ].

(** ** The lexer *)

Lemma local_css_push_char ch : local (css_push_char ch).
Proof. unfold css_push_char. local_go. Qed.

#[export] Hint Resolve local_css_lex_next local_css_push_char : local.

Lemma local_css_push_c : local css_push_c.
Proof. unfold css_push_c. local_go. Qed.

Lemma local_css_lex_accept t : local (css_lex_accept t).
Proof. unfold css_lex_accept. local_go. Qed.

#[export] Hint Resolve local_css_push_c local_css_lex_accept : local.

Lemma local_css_lex_expect t : local (css_lex_expect t).
Proof. unfold css_lex_expect. local_go. Qed.

Lemma local_css_lex_accept_hex : local css_lex_accept_hex.
Proof. unfold css_lex_accept_hex. local_go. Qed.

#[export] Hint Resolve local_css_lex_expect local_css_lex_accept_hex : local.

Lemma local_push_loop cond :
  stream_free cond → local (while cond (css_push_c ;; css_lex_next)).
Proof.
  intros Hc. apply local_while; [done|local_go|apply run_push_next].
Qed.

Lemma local_next_loop cond : stream_free cond → local (while cond css_lex_next).
Proof.
  intros Hc. apply local_while; [done|local_go|].
  intros b. eapply run_conseq; [apply run_css_lex_next|]. cbv beta. intros. lia.
Qed.

Ltac local_loop :=
  first [ apply local_push_loop; intros ? ?; reflexivity
        | apply local_next_loop; intros ? ?; reflexivity ].

#[export] Hint Extern 1 (local (while _ _)) => local_loop : local.

Lemma local_css_lex_number : local css_lex_number.
Proof. unfold css_lex_number. local_go. Qed.

Lemma local_css_lex_keyword : local css_lex_keyword.
Proof. unfold css_lex_keyword. local_go. Qed.

Lemma local_css_lex_string q : local (css_lex_string q).
Proof.
  unfold css_lex_string. apply local_bind; [|intros ?; local_go].
  apply local_while; [by intros ? ?|local_go|].
  intros b. repeat run_step.
Qed.

Lemma local_css_lex_color : local css_lex_color.
Proof. unfold css_lex_color. local_go. Qed.

Lemma local_css_lex_comment n : local (css_lex_comment n).
Proof. induction n as [|n IH]; cbn [css_lex_comment]; local_go. Qed.

Lemma local_css_lex_comment_call :
  local (λ buf, css_lex_comment (S (length (s buf))) buf).
Proof.
  apply (local_fuel css_lex_comment).
  - apply local_css_lex_comment.
  - apply grows_css_lex_comment.
  - intros n buf Hn. apply (run_defined _ _ _ (run_css_lex_comment n buf Hn)).
Qed.

#[export] Hint Resolve local_css_lex_number local_css_lex_keyword local_css_lex_string
  local_css_lex_color local_css_lex_comment_call : local.

Lemma local_css_lex_dispatch g : local g → local (css_lex_dispatch g).
Proof. intros Hg. unfold css_lex_dispatch. cbv zeta. local_go. Qed.

Lemma local_css_lex_restart n : local (css_lex_restart n).
Proof.
  induction n as [|n IH]; rewrite css_lex_restart_unfold; local_go.
  all: apply local_css_lex_dispatch; cbn [goto_restart]; local_go.
Qed.

Lemma local_css_lex_restart_call :
  local (λ buf, css_lex_restart (S (length (s buf))) buf).
Proof.
  apply (local_fuel css_lex_restart).
  - apply local_css_lex_restart.
  - apply grows_css_lex_restart.
  - intros n buf Hn. apply (run_defined _ _ _ (run_css_lex_restart n buf Hn)).
Qed.

Lemma local_css_lex : local css_lex.
Proof.
  unfold css_lex. apply local_bind; [local_go|intros _].
  apply local_bind; [local_go|intros ch].
  destruct (ch =? 0); [local_go|]. exact local_css_lex_restart_call.
Qed.

Lemma local_next : local next.
Proof. unfold next. apply local_bind; [apply local_css_lex|intros t]. local_go. Qed.

Lemma local_css_lex_init : local css_lex_init.
Proof. unfold css_lex_init. local_go. Qed.

(** ** The parser *)

#[export] Hint Resolve local_next : local.

Lemma local_accept t : local (accept t).
Proof. unfold accept. local_go. Qed.

#[export] Hint Resolve local_accept : local.

Lemma local_expect t : local (expect t).
Proof. unfold expect. local_go. Qed.

Lemma local_fz_strdup_string : local fz_strdup_string.
Proof.
  intros buf. unfold reads, fz_strdup_string. cbn [string set_s].
  destruct (cstring (string buf)); [|done].
  exists []. local_none. done.
Qed.

#[export] Hint Resolve local_expect local_fz_strdup_string : local.

Lemma local_parse_value_list n : local (parse_value_list n).
Proof.
  induction n as [|n IH]; rewrite parse_value_list_unfold.
  all: unfold parse_value_list_with, parse_value_with, parse_value_list_rec; local_go.
Qed.

#[export] Hint Resolve local_parse_value_list : local.

Lemma local_parse_declaration n : local (parse_declaration n).
Proof. unfold parse_declaration. local_go. Qed.

#[export] Hint Resolve local_parse_declaration : local.

Lemma local_parse_declaration_loop n : local (parse_declaration_loop n).
Proof.
  induction n as [|n IH]; [cbn [parse_declaration_loop]; local_go|].
  rewrite parse_declaration_loop_unfold. unfold parse_declaration_loop_with. local_go.
Qed.

#[export] Hint Resolve local_parse_declaration_loop : local.

Lemma local_parse_declaration_list n : local (parse_declaration_list n).
Proof. unfold parse_declaration_list. local_go. Qed.

#[export] Hint Resolve local_parse_declaration_list : local.

Lemma local_parse_attrib_value : local parse_attrib_value.
Proof. unfold parse_attrib_value. local_go. Qed.

#[export] Hint Resolve local_parse_attrib_value : local.

Lemma local_parse_condition : local parse_condition.
Proof. unfold parse_condition. local_go. Qed.

#[export] Hint Resolve local_parse_condition : local.

Lemma local_parse_condition_loop n : local (parse_condition_loop n).
Proof. induction n as [|n IH]; cbn [parse_condition_loop]; local_go. Qed.

#[export] Hint Resolve local_parse_condition_loop : local.

Lemma local_parse_condition_list n : local (parse_condition_list n).
Proof. unfold parse_condition_list. local_go. Qed.

#[export] Hint Resolve local_parse_condition_list : local.

Lemma local_parse_simple_selector n : local (parse_simple_selector n).
Proof. unfold parse_simple_selector. local_go. Qed.

#[export] Hint Resolve local_parse_simple_selector : local.

Lemma local_parse_adjacent_selector n : local (parse_adjacent_selector n).
Proof. induction n as [|n IH]; cbn [parse_adjacent_selector]; local_go. Qed.

#[export] Hint Resolve local_parse_adjacent_selector : local.

Lemma local_parse_child_selector n : local (parse_child_selector n).
Proof. induction n as [|n IH]; cbn [parse_child_selector]; local_go. Qed.

#[export] Hint Resolve local_parse_child_selector : local.

Lemma local_parse_descendant_selector n : local (parse_descendant_selector n).
Proof. induction n as [|n IH]; cbn [parse_descendant_selector]; local_go. Qed.

#[export] Hint Resolve local_parse_descendant_selector : local.

Lemma local_parse_selector_loop n : local (parse_selector_loop n).
Proof. induction n as [|n IH]; cbn [parse_selector_loop]; local_go. Qed.

#[export] Hint Resolve local_parse_selector_loop : local.

Lemma local_parse_selector_list n : local (parse_selector_list n).
Proof. unfold parse_selector_list. local_go. Qed.

#[export] Hint Resolve local_parse_selector_list : local.

Lemma local_parse_rule n h : local (parse_rule n h).
Proof. unfold parse_rule. local_go. Qed.

Lemma local_parse_at_rule_block n : ∀ depth, local (parse_at_rule_block n depth).
Proof. induction n as [|n IH]; intros depth; cbn [parse_at_rule_block]; local_go. Qed.

#[export] Hint Resolve local_parse_rule local_parse_at_rule_block : local.

Lemma local_parse_at_rule_skip n : local (parse_at_rule_skip n).
Proof. induction n as [|n IH]; cbn [parse_at_rule_skip]; local_go. Qed.

#[export] Hint Resolve local_parse_at_rule_skip : local.

Lemma local_parse_at_rule n : local (parse_at_rule n).
Proof. unfold parse_at_rule. local_go. Qed.

#[export] Hint Resolve local_parse_at_rule : local.

Lemma local_parse_stylesheet_loop n : ∀ nextp tail h,
  local (parse_stylesheet_loop n nextp tail h).
Proof.
  induction n as [|n IH]; intros nextp tail h; cbn [parse_stylesheet_loop]; local_go.
Qed.

#[export] Hint Resolve local_parse_stylesheet_loop : local.

Lemma local_last_rule {A} n h (k : nat → M A) : ∀ a,
  (∀ t, local (k t)) → local (last_rule n h a k).
Proof.
  induction n as [|n IH]; intros a Hk; cbn [last_rule].
  all: destruct (h !! a) as [r|]; [|by intros buf].
  all: destruct (rule_next r); local_go.
Qed.

Lemma local_parse_stylesheet n h chain : local (parse_stylesheet n h chain).
Proof.
  unfold parse_stylesheet. destruct chain; [|local_go].
  apply local_last_rule. intros t. local_go.
Qed.

(** ** The entry points *)

Lemma run_entry buf :
  run (css_lex_init ;; next) buf (λ _ b', (ahead b' ≤ len buf)%nat).
Proof.
  unfold css_lex_init. repeat run_step.
  eapply run_conseq; [apply run_next_any|]. cbv beta. intros [] b2 H2.
  unfold len in *. cbn [s set_color set_string_len] in *. lia.
Qed.

Lemma lexbuf_at_set_s source source' r :
  source' ++ [0] = r → set_s r (lexbuf_at source) = lexbuf_at source'.
Proof. by intros <-. Qed.

Lemma fuel_lexbuf_at source : fuel source = S (length (s (lexbuf_at source))).
Proof. unfold fuel, lexbuf_at. cbn [s]. rewrite length_app. simpl. lia. Qed.

(** An entry point runs a part [f] of the parser behind [css_lex_init] and
    the first [next], with a fuel that it takes from the length of the
    source.  What it returns or throws is decided by the bytes that it has
    read, and it has read them all. *)
Lemma local_entry {A} (f : nat → M A) source :
  (∀ n, local (f n)) → (∀ n, grows (f n) (f (S n))) →
  (∀ n buf, (ahead buf ≤ n)%nat → f n buf ≠ OutOfFuel) →
  match (css_lex_init ;; next ;; f (fuel source)) (lexbuf_at source) with
  | Ok (a, buf') =>
      ∃ read, source ++ [0] = read ++ s buf' ∧ line buf' = 1 + newlines read ∧
        (∀ source' rest', source' ++ [0] = read ++ rest' →
           (css_lex_init ;; next ;; f (fuel source')) (lexbuf_at source')
           = Ok (a, set_s rest' buf')) ∧
        (∀ p r, read = p ++ r → r ≠ [] →
           (css_lex_init ;; next ;; f (fuel source)) (set_s p (lexbuf_at source))
           = Undefined OverRead)
  | Throw msg ln =>
      ∃ read rest, source ++ [0] = read ++ rest ∧ ln = 1 + newlines read ∧
        (∀ source' rest', source' ++ [0] = read ++ rest' →
           (css_lex_init ;; next ;; f (fuel source')) (lexbuf_at source')
           = Throw msg ln) ∧
        (∀ p r, read = p ++ r → r ≠ [] →
           (css_lex_init ;; next ;; f (fuel source)) (set_s p (lexbuf_at source))
           = Undefined OverRead)
  | _ => True
  end.
Proof.
  intros Hloc Hgrow Hfuel.
  pose proof (local_fuel (λ n, css_lex_init ;; next ;; f n)) as H.
  specialize (H ltac:(intros n; local_go)).
  assert (Hg : ∀ n, grows (css_lex_init ;; next ;; f n) (css_lex_init ;; next ;; f (S n)))
    by (intros n; grows_go).
  specialize (H Hg).
  assert (Hdef : ∀ n buf, (len buf < n)%nat →
            (css_lex_init ;; next ;; f n) buf ≠ OutOfFuel).
  { intros n buf Hn. apply (run_defined _ _ (λ _ _, True)).
    apply (run_assoc_rev css_lex_init (λ _, next)).
    eapply run_bind; [apply run_entry|]. cbv beta. intros [] b1 H1.
    unfold run. specialize (Hfuel n b1 ltac:(lia)).
    by destruct (f n b1) as [[a b2]| | |]. }
  specialize (H Hdef (lexbuf_at source)). unfold reads in H. cbv beta in H.
  rewrite <- fuel_lexbuf_at in H.
  assert (Hshort : ∀ read rest p r,
            source ++ [0] = read ++ rest → read = p ++ r →
            (css_lex_init ;; next ;;
             f (S (length (s (set_s p (lexbuf_at source))))))
              (set_s p (lexbuf_at source)) = Undefined OverRead →
            (css_lex_init ;; next ;; f (fuel source)) (set_s p (lexbuf_at source))
            = Undefined OverRead).
  { intros read rest p r Hs -> E. rewrite <- E.
    apply (grows_same (λ n, css_lex_init ;; next ;; f n)); [done| |by rewrite E].
    apply Hdef. apply (f_equal length) in Hs. rewrite !length_app in Hs.
    unfold len, fuel. cbn [s set_s length] in *. lia. }
  destruct ((css_lex_init ;; next ;; f (fuel source)) (lexbuf_at source))
    as [[a buf']|msg ln| |]; try done.
  - destruct H as (read & Hs & Hl & Hr & Hx). exists read.
    split; [done|]. split; [done|]. split.
    + intros source' rest' E. specialize (Hr rest').
      rewrite (lexbuf_at_set_s source source') in Hr by done.
      by rewrite <- fuel_lexbuf_at in Hr.
    + intros p r E Hne. by apply (Hshort read (s buf') p r), (Hx p r).
  - destruct H as (read & rest & Hs & Hl & Hr & Hx). exists read, rest.
    split; [done|]. split; [done|]. split.
    + intros source' rest' E. specialize (Hr rest').
      rewrite (lexbuf_at_set_s source source') in Hr by done.
      by rewrite <- fuel_lexbuf_at in Hr.
    + intros p r E Hne. by apply (Hshort read rest p r), (Hx p r).
Qed.

Lemma result_Throw {A} (r : outcome (A * lexbuf)) msg ln :
  result r = Throw msg ln ↔ r = Throw msg ln.
Proof. destruct r as [[a b]| | |]; simpl; split; congruence. Qed.

Lemma result_Ok {A} (r : outcome (A * lexbuf)) a :
  result r = Ok a ↔ ∃ buf', r = Ok (a, buf').
Proof.
  destruct r as [[a0 b]| | |]; simpl; split; try congruence.
  - intros [= ->]. by exists b.
  - by intros (buf' & [= -> ->]).
  - by intros (? & ?).
  - by intros (? & ?).
  - by intros (? & ?).
Qed.

(** Where the loop over a chain ends does not depend on what is done
    there. *)
Lemma last_rule_cases n h : ∀ a,
  (∃ t, ∀ A (k : nat → M A), last_rule n h a k = k t) ∨
  (∀ A (k : nat → M A) buf, last_rule n h a k buf = Undefined BadPointer) ∨
  (∀ A (k : nat → M A) buf, last_rule n h a k buf = OutOfFuel).
Proof.
  induction n as [|n IH]; intros a; cbn [last_rule].
  all: destruct (h !! a) as [r|]; [|by right; left].
  all: destruct (rule_next r) as [a'|]; [|by left; exists a].
  - by right; right.
  - apply IH.
Qed.

Lemma result_Undefined {A} (r : outcome (A * lexbuf)) u :
  r = Undefined u → result r = Undefined u.
Proof. by intros ->. Qed.

Lemma error_line_entry {A} (f : nat → M A) source msg ln :
  (∀ n, local (f n)) → (∀ n, grows (f n) (f (S n))) →
  (∀ n buf, (ahead buf ≤ n)%nat → f n buf ≠ OutOfFuel) →
  result ((css_lex_init ;; next ;; f (fuel source)) (lexbuf_at source)) = Throw msg ln →
  (∃ read rest, source ++ [0] = read ++ rest ∧ ln = 1 + newlines read ∧
     (∀ source' rest', source' ++ [0] = read ++ rest' →
        result ((css_lex_init ;; next ;; f (fuel source')) (lexbuf_at source'))
        = Throw msg ln) ∧
     (∀ p r, read = p ++ r → r ≠ [] →
        result ((css_lex_init ;; next ;; f (fuel source)) (set_s p (lexbuf_at source)))
        = Undefined OverRead)) ∧
  1 ≤ ln ≤ 1 + newlines source.
Proof.
  intros Hloc Hgrow Hfuel Hrun. apply result_Throw in Hrun.
  pose proof (local_entry f source Hloc Hgrow Hfuel) as H. rewrite Hrun in H.
  destruct H as (read & rest & Hs & Hl & Hr & Hx).
  split.
  - exists read, rest. split; [done|]. split; [done|]. split.
    + intros source' rest' E. apply result_Throw. by eapply Hr.
    + intros p r E Hne. by apply result_Undefined, (Hx p r).
  - pose proof (newlines_prefix _ _ _ Hs). lia.
Qed.

(** The line in a syntax error of [fz_parse_css_properties] is one more than
    the number of line feeds among the bytes [read] that the lexer has read
    when the error is thrown.  These bytes stand at the head of the source,
    and two facts fix them: every source that begins with them fails with
    the same message on the same line, whatever follows them; and the lexer
    has read each of them, for it reads past the end of a memory that ends
    inside them ([set_s p] puts the bytes [p] alone behind the read pointer).
    The line lies between 1 and the number of lines of the source. *)
Theorem fz_parse_css_properties_error_line source msg ln :
  fz_parse_css_properties source = Throw msg ln →
  (∃ read rest, source ++ [0] = read ++ rest ∧ ln = 1 + newlines read ∧
     (∀ source' rest', source' ++ [0] = read ++ rest' →
        fz_parse_css_properties source' = Throw msg ln) ∧
     (∀ p r, read = p ++ r → r ≠ [] →
        result ((css_lex_init ;; next ;; parse_declaration_list (fuel source))
                  (set_s p (lexbuf_at source))) = Undefined OverRead)) ∧
  1 ≤ ln ≤ 1 + newlines source.
Proof.
  apply (error_line_entry parse_declaration_list).
  - apply local_parse_declaration_list.
  - apply grows_parse_declaration_list.
  - intros n buf Hn. apply (run_defined _ _ _ (run_parse_declaration_list n buf Hn)).
Qed.

(** The declarations [a:b;], a line feed, [c d;], a line feed, [e:f]: the
    error is on line 2 of 3. *)
Lemma fz_parse_css_properties_error_line_witness :
  (∃ read rest,
     (bytes "a:b;" ++ [10] ++ bytes "c d;" ++ [10] ++ bytes "e:f") ++ [0] = read ++ rest ∧
     2 = 1 + newlines read ∧
     (∀ source' rest', source' ++ [0] = read ++ rest' →
        fz_parse_css_properties source' = Throw "unexpected token" 2) ∧
     (∀ p r, read = p ++ r → r ≠ [] →
        result ((css_lex_init ;; next ;;
                 parse_declaration_list
                   (fuel (bytes "a:b;" ++ [10] ++ bytes "c d;" ++ [10] ++ bytes "e:f")))
                  (set_s p (lexbuf_at
                     (bytes "a:b;" ++ [10] ++ bytes "c d;" ++ [10] ++ bytes "e:f"))))
        = Undefined OverRead)) ∧
  1 ≤ 2 ≤ 1 + newlines (bytes "a:b;" ++ [10] ++ bytes "c d;" ++ [10] ++ bytes "e:f").
Proof.
  apply (fz_parse_css_properties_error_line
           (bytes "a:b;" ++ [10] ++ bytes "c d;" ++ [10] ++ bytes "e:f")
           "unexpected token").
  vm_compute. reflexivity.
Defined.

(** An error that is not thrown behind the first token is thrown in front
    of it. *)
Lemma entry_throw_only {A B} (m1 : M A) (m2 : M B) buf msg ln :
  (∀ b m l, m1 b ≠ Throw m l) →
  result ((css_lex_init ;; next ;; m1) buf) = Throw msg ln →
  result ((css_lex_init ;; next ;; m2) buf) = Throw msg ln.
Proof.
  intros H1 Hrun. apply result_Throw in Hrun. apply result_Throw. revert Hrun.
  unfold mbind, M_bind.
  destruct (css_lex_init buf) as [[[] b1]| | |]; try done; [|by intros [= -> ->]].
  destruct (next b1) as [[[] b2]| | |]; try done; [|by intros [= -> ->]].
  intros Hrun. by apply H1 in Hrun.
Qed.

(** Reading past the end in front of the first token does not depend on what
    comes behind it. *)
Lemma entry_over_read {A B} (m1 : M A) (m2 : M B) buf :
  (∀ b, m1 b ≠ Undefined OverRead) →
  result ((css_lex_init ;; next ;; m1) buf) = Undefined OverRead →
  result ((css_lex_init ;; next ;; m2) buf) = Undefined OverRead.
Proof.
  intros H1. unfold mbind, M_bind.
  destruct (css_lex_init buf) as [[[] b1]| | |]; try done;
    [|simpl; by intros [= ->]].
  destruct (next b1) as [[[] b2]| | |]; try done; [|simpl; by intros [= ->]].
  specialize (H1 b2). destruct (m1 b2) as [[a b3]| |u|]; try done.
  simpl. by intros [= ->].
Qed.

Lemma error_line_bad_chain h a source msg ln :
  (∀ n b m l, parse_stylesheet n h (Some a) b ≠ Throw m l) →
  result ((css_lex_init ;; next ;; parse_stylesheet (fuel source) h (Some a))
            (lexbuf_at source)) = Throw msg ln →
  (∃ read rest, source ++ [0] = read ++ rest ∧ ln = 1 + newlines read ∧
     (∀ source' rest', source' ++ [0] = read ++ rest' →
        result ((css_lex_init ;; next ;; parse_stylesheet (fuel source') h (Some a))
                  (lexbuf_at source')) = Throw msg ln) ∧
     (∀ p r, read = p ++ r → r ≠ [] →
        result ((css_lex_init ;; next ;; parse_stylesheet (fuel source) h (Some a))
                  (set_s p (lexbuf_at source))) = Undefined OverRead)) ∧
  1 ≤ ln ≤ 1 + newlines source.
Proof.
  intros Hbad Hrun.
  assert (H : (∃ read rest, source ++ [0] = read ++ rest ∧ ln = 1 + newlines read ∧
             (∀ source' rest', source' ++ [0] = read ++ rest' →
                result ((css_lex_init ;; next ;; mret tt) (lexbuf_at source'))
                = Throw msg ln) ∧
             (∀ p r, read = p ++ r → r ≠ [] →
                result ((css_lex_init ;; next ;; mret tt) (set_s p (lexbuf_at source)))
                = Undefined OverRead)) ∧
            1 ≤ ln ≤ 1 + newlines source).
  { apply (error_line_entry (λ _, mret tt) source msg ln).
    - intros _. apply local_ret.
    - intros _. apply grows_refl.
    - done.
    - eapply entry_throw_only; [|exact Hrun]. apply Hbad. }
  destruct H as [(read & rest & Hs & Hl & Hr & Hx) Hb].
  split; [|done]. exists read, rest. split; [done|]. split; [done|]. split.
  - intros source' rest' E'. eapply entry_throw_only; [|by eapply Hr]. done.
  - intros p r E Hne. eapply entry_over_read; [|by eapply (Hx p r)]. done.
Qed.

(** The same holds of the line in a syntax error of [fz_parse_css], onto
    whatever chain it parses.  The style sheet of the example fails on its
    second line. *)
Theorem fz_parse_css_error_line h chain source msg ln :
  fz_parse_css h chain source = Throw msg ln →
  (∃ read rest, source ++ [0] = read ++ rest ∧ ln = 1 + newlines read ∧
     (∀ source' rest', source' ++ [0] = read ++ rest' →
        fz_parse_css h chain source' = Throw msg ln) ∧
     (∀ p r, read = p ++ r → r ≠ [] →
        result ((css_lex_init ;; next ;; parse_stylesheet (fuel source) h chain)
                  (set_s p (lexbuf_at source))) = Undefined OverRead)) ∧
  1 ≤ ln ≤ 1 + newlines source.
Proof.
  unfold fz_parse_css. destruct chain as [a|].
  - destruct (last_rule_cases (length h) h a) as [[t Ht]|[Hbad|Hout]].
    + assert (E : ∀ n, parse_stylesheet n h (Some a) =
                ('(_, h') ← parse_stylesheet_loop n (NextOf t) (Some t) h;
                 mret (Some a, h'))).
      { intros n. by rewrite parse_stylesheet_Some, Ht. }
      intros Hrun. rewrite E in Hrun.
      assert (H : (∃ read rest, source ++ [0] = read ++ rest ∧ ln = 1 + newlines read ∧
                 (∀ source' rest', source' ++ [0] = read ++ rest' →
                    result ((css_lex_init ;; next ;;
                             '(_, h') ← parse_stylesheet_loop (fuel source')
                                          (NextOf t) (Some t) h;
                             mret (Some a, h')) (lexbuf_at source')) = Throw msg ln) ∧
                 (∀ p r, read = p ++ r → r ≠ [] →
                    result ((css_lex_init ;; next ;;
                             '(_, h') ← parse_stylesheet_loop (fuel source)
                                          (NextOf t) (Some t) h;
                             mret (Some a, h')) (set_s p (lexbuf_at source)))
                    = Undefined OverRead)) ∧
                1 ≤ ln ≤ 1 + newlines source);
        [apply (error_line_entry
                  (λ n, '(_, h') ← parse_stylesheet_loop n (NextOf t) (Some t) h;
                        mret (Some a, h')) source msg ln)
        |destruct H as [(read & rest & Hs & Hl & Hr & Hx) Hb]].
      * intros n. local_go.
      * intros n. grows_go.
      * intros n buf Hn. apply (run_defined _ _ (λ _ _, True)).
        eapply run_bind; [by apply run_parse_stylesheet_loop|]. by intros [] ? _.
      * done.
      * split; [|done]. exists read, rest. split; [done|]. split; [done|]. split.
        -- intros source' rest' E'. rewrite E. by eapply Hr.
        -- intros p r E' Hne. rewrite E. by eapply (Hx p r).
    + apply (error_line_bad_chain h a). intros n b m l. by rewrite parse_stylesheet_Some, Hbad.
    + apply (error_line_bad_chain h a). intros n b m l. by rewrite parse_stylesheet_Some, Hout.
  - apply (error_line_entry (λ n, parse_stylesheet n h None)).
    + intros n. apply local_parse_stylesheet.
    + intros n. apply grows_parse_stylesheet.
    + intros n buf Hn. rewrite parse_stylesheet_None.
      apply (run_defined _ _ _ (run_parse_stylesheet_loop n _ _ _ buf Hn)).
Qed.

(** The style sheet [a{b:c}], a line feed, [}x], a line feed, [y]: the error
    is on line 2 of 3. *)
Lemma fz_parse_css_error_line_witness :
  (∃ read rest,
     (bytes "a{b:c}" ++ [10] ++ bytes "}x" ++ [10] ++ bytes "y") ++ [0] = read ++ rest ∧
     2 = 1 + newlines read ∧
     (∀ source' rest', source' ++ [0] = read ++ rest' →
        fz_parse_css [] None source' = Throw "expected selector" 2) ∧
     (∀ p r, read = p ++ r → r ≠ [] →
        result ((css_lex_init ;; next ;;
                 parse_stylesheet
                   (fuel (bytes "a{b:c}" ++ [10] ++ bytes "}x" ++ [10] ++ bytes "y"))
                   [] None)
                  (set_s p (lexbuf_at
                     (bytes "a{b:c}" ++ [10] ++ bytes "}x" ++ [10] ++ bytes "y"))))
        = Undefined OverRead)) ∧
  1 ≤ 2 ≤ 1 + newlines (bytes "a{b:c}" ++ [10] ++ bytes "}x" ++ [10] ++ bytes "y").
Proof.
  apply (fz_parse_css_error_line [] None
           (bytes "a{b:c}" ++ [10] ++ bytes "}x" ++ [10] ++ bytes "y")
           "expected selector").
  vm_compute. reflexivity.
Defined.

(** * The end of a list of declarations *)

(** A declaration is parsed in one way by every fuel that suffices. *)
Lemma parse_declaration_fuel n m buf :
  (ahead buf ≤ n)%nat → (ahead buf ≤ m)%nat →
  parse_declaration n buf = parse_declaration m buf.
Proof.
  intros Hn Hm. apply (grows_same parse_declaration).
  - apply grows_parse_declaration.
  - apply (run_defined _ _ _ (run_parse_declaration n buf Hn)).
  - apply (run_defined _ _ _ (run_parse_declaration m buf Hm)).
Qed.

Lemma next_ahead buf b1 :
  lookahead buf ≠ EOF → next buf = Ok (tt, b1) → (ahead b1 < ahead buf)%nat.
Proof. intros Hla Hn. exact (run_weak _ _ _ _ _ (run_next buf Hla) Hn). Qed.

Lemma parse_declaration_ahead n buf p b1 :
  (ahead buf ≤ n)%nat → parse_declaration n buf = Ok (p, b1) →
  (ahead b1 < ahead buf)%nat.
Proof. intros Hn Hp. exact (run_weak _ _ _ _ _ (run_parse_declaration n buf Hn) Hp). Qed.

Lemma declaration_start_keyword t :
  t = CSS_KEYWORD → declaration_start t = true.
Proof. by intros ->. Qed.

Lemma declaration_start_false t :
  declaration_start t = false ↔
  t = Chr (chr "}") ∨ t = Chr (chr ";") ∨ t = EOF.
Proof.
  unfold declaration_start. split.
  - intros H. repeat case_bool_decide; auto. done.
  - intros [-> | [-> | ->]]; done.
Qed.

(** The loop of [parse_declaration_list] does what the description says. *)
Lemma parse_declaration_loop_run n buf ps buf' :
  declarations_rest n buf ps buf' →
  ∀ m, (ahead buf ≤ m)%nat → (m ≤ n)%nat →
  parse_declaration_loop m buf = Ok (ps, buf').
Proof.
  induction 1 as [buf Hla|buf b1 ps buf' Hla Hnext Hb1 _ IH
                 |buf b1 p b2 ps buf' Hla Hnext Hp _ IH]; intros m Hm Hle.
  - by apply parse_declaration_loop_end.
  - assert (Hlt : (ahead b1 < ahead buf)%nat) by (apply next_ahead; [by rewrite Hla|done]).
    destruct m as [|m]; [lia|]. rewrite parse_declaration_loop_unfold.
    rewrite (bind_Ok _ _ _ _ _ (accept_hit _ _ _ Hla Hnext)). cbv iota.
    unfold parse_declaration_loop_with. rewrite bind_gets.
    rewrite (proj2 (declaration_start_false _) Hb1). apply IH; lia.
  - assert (Hlt : (ahead b1 < ahead buf)%nat) by (apply next_ahead; [by rewrite Hla|done]).
    destruct m as [|m]; [lia|]. rewrite parse_declaration_loop_unfold.
    rewrite (bind_Ok _ _ _ _ _ (accept_hit _ _ _ Hla Hnext)). cbv iota.
    unfold parse_declaration_loop_with. rewrite bind_gets.
    rewrite (declaration_start_keyword _ (parse_declaration_keyword _ _ _ _ Hp)).
    pose proof (parse_declaration_ahead n b1 p b2 ltac:(lia) Hp).
    rewrite (parse_declaration_fuel n (S m)) in Hp by lia.
    rewrite (bind_Ok _ _ _ _ _ Hp).
    by rewrite (bind_Ok _ _ _ _ _ (IH m ltac:(lia) ltac:(lia))).
Qed.

(** Whatever the loop returns, the description returns. *)
Lemma parse_declaration_loop_inv n m : ∀ buf ps buf',
  (ahead buf ≤ m)%nat → (m ≤ n)%nat →
  parse_declaration_loop m buf = Ok (ps, buf') →
  declarations_rest n buf ps buf'.
Proof.
  induction m as [|m IH]; intros buf ps buf' Hm Hle Hrun.
  - cbn [parse_declaration_loop] in Hrun.
    apply bind_inv in Hrun as (b & b1 & Hacc & Hrun).
    apply accept_inv in Hacc as [(-> & -> & Hla)|(-> & _ & _)]; [|done].
    injection Hrun as <- <-. by constructor.
  - rewrite parse_declaration_loop_unfold in Hrun.
    apply bind_inv in Hrun as (b & b1 & Hacc & Hrun).
    apply accept_inv in Hacc as [(-> & -> & Hla)|(-> & Hla & Hnext)].
    { injection Hrun as <- <-. by constructor. }
    assert (Hlt : (ahead b1 < ahead buf)%nat) by (apply next_ahead; [by rewrite Hla|done]).
    unfold parse_declaration_loop_with in Hrun. rewrite bind_gets in Hrun.
    destruct (declaration_start (lookahead b1)) eqn:Hstart.
    + apply bind_inv in Hrun as (p & b2 & Hp & Hrun).
      apply bind_inv in Hrun as (ps' & b3 & Hloop & Hrun).
      injection Hrun as <- <-.
      pose proof (parse_declaration_ahead (S m) b1 p b2 ltac:(lia) Hp).
      rewrite (parse_declaration_fuel (S m) n) in Hp by lia.
      eapply rest_declaration; [done..|]. apply IH; [lia|lia|done].
    + eapply rest_empty; [done|done|by apply declaration_start_false|].
      apply IH; [lia|lia|done].
Qed.

(** [parse_declaration_list] returns what the description says, and nothing
    else. *)
Lemma parse_declaration_list_declarations n buf ps buf' :
  (ahead buf ≤ n)%nat →
  parse_declaration_list n buf = Ok (ps, buf') ↔ declarations n buf ps buf'.
Proof.
  intros Hn. unfold parse_declaration_list. rewrite bind_gets. split.
  - destruct (bool_decide (lookahead buf = Chr (chr "}")) ||
              bool_decide (lookahead buf = EOF)) eqn:Hend.
    + intros [= <- <-]. constructor.
      apply orb_true_iff in Hend as [H|H]; apply bool_decide_eq_true in H; auto.
    + intros Hrun. apply bind_inv in Hrun as (p & b1 & Hp & Hrun).
      apply bind_inv in Hrun as (ps' & b2 & Hloop & Hrun). injection Hrun as <- <-.
      pose proof (parse_declaration_ahead n buf p b1 Hn Hp).
      eapply declarations_some; [done|].
      eapply parse_declaration_loop_inv; [| |done]; lia.
  - destruct 1 as [buf Hla|buf p b1 ps buf' Hp Hrest].
    + by destruct Hla as [-> | ->].
    + rewrite (parse_declaration_keyword _ _ _ _ Hp). cbn [bool_decide orb].
      change (bool_decide (CSS_KEYWORD = Chr (chr "}")) || bool_decide (CSS_KEYWORD = EOF))
        with false. cbv iota.
      rewrite (bind_Ok _ _ _ _ _ Hp).
      pose proof (parse_declaration_ahead n buf p b1 Hn Hp).
      by rewrite (bind_Ok _ _ _ _ _
                    (parse_declaration_loop_run n b1 ps buf' Hrest n ltac:(lia) ltac:(lia))).
Qed.

Lemma start_ahead source b0 :
  start source = Ok (tt, b0) → (ahead b0 ≤ fuel source)%nat.
Proof. intros Hstart. exact (run_weak _ _ _ _ _ (run_start source) Hstart). Qed.

Lemma start_bind {A} (m : M A) source b0 :
  start source = Ok (tt, b0) →
  (css_lex_init ;; next ;; m) (lexbuf_at source) = m b0.
Proof.
  unfold start, mbind, M_bind.
  destruct (css_lex_init (lexbuf_at source)) as [[[] b1]| | |]; try done.
  destruct (next b1) as [[[] b2]| | |]; try done. by intros [= ->].
Qed.

(** What [fz_parse_css_properties] returns when the list has ended, it
    returns for every source that begins with the bytes read up to there. *)
Lemma fz_parse_css_properties_declarations source b0 ps buf' :
  start source = Ok (tt, b0) → declarations (fuel source) b0 ps buf' →
  fz_parse_css_properties source = Ok ps ∧
  ∃ read, source ++ [0] = read ++ s buf' ∧
    ∀ source' rest', source' ++ [0] = read ++ rest' →
      fz_parse_css_properties source' = Ok ps.
Proof.
  intros Hstart Hd.
  apply parse_declaration_list_declarations in Hd; [|by apply start_ahead].
  assert (E : (css_lex_init ;; next ;; parse_declaration_list (fuel source))
                (lexbuf_at source) = Ok (ps, buf')).
  { by rewrite (start_bind _ _ _ Hstart). }
  pose proof (local_entry parse_declaration_list source) as H.
  specialize (H local_parse_declaration_list grows_parse_declaration_list).
  specialize (H (λ n buf Hn, run_defined _ _ _ (run_parse_declaration_list n buf Hn))).
  rewrite E in H. destruct H as (read & Hs & _ & Hr & _).
  split; [unfold fz_parse_css_properties; by rewrite E|].
  exists read. split; [done|]. intros source' rest' E'.
  unfold fz_parse_css_properties. by rewrite (Hr source' rest' E').
Qed.

(** The list ends in front of a token that is not a [;]. *)
Lemma declarations_rest_end n buf ps buf' :
  declarations_rest n buf ps buf' → lookahead buf' ≠ Chr (chr ";").
Proof. by induction 1. Qed.

Lemma declarations_end n buf ps buf' :
  declarations n buf ps buf' → lookahead buf' ≠ Chr (chr ";").
Proof.
  destruct 1 as [buf [Hla|Hla]|buf p b1 ps buf' Hp Hrest].
  - by rewrite Hla.
  - by rewrite Hla.
  - by eapply declarations_rest_end.
Qed.

(** Every list that [fz_parse_css_properties] returns is one of the
    description. *)
Lemma fz_parse_css_properties_inv source ps :
  fz_parse_css_properties source = Ok ps →
  ∃ b0 buf', start source = Ok (tt, b0) ∧
    declarations (fuel source) b0 ps buf' ∧ lookahead buf' ≠ Chr (chr ";").
Proof.
  unfold fz_parse_css_properties. intros Hrun.
  apply result_Ok in Hrun as (buf' & Hrun).
  apply bind_inv in Hrun as ([] & b1 & Hinit & Hrun).
  apply bind_inv in Hrun as ([] & b0 & Hnext & Hrun).
  assert (Hstart : start source = Ok (tt, b0)).
  { unfold start. by rewrite (bind_Ok _ _ _ _ _ Hinit). }
  exists b0, buf'. split; [done|].
  apply parse_declaration_list_declarations in Hrun; [|by apply start_ahead].
  split; [done|]. by eapply declarations_end.
Qed.

(** C10.  [parse_declaration_list] returns at once, with nothing consumed,
    where the lookahead is [}]; behind a declaration that no [;] follows it
    returns that declaration and leaves the lexer where the declaration
    ended.  In general it returns exactly the declarations of the
    description [declarations], however many they are: it goes on as long as
    a [;] follows, passes over a [;] that stands in front of [}], of [;] or
    of the end, and returns in front of the first token that is not a [;],
    which it leaves in the lookahead.  [fz_parse_css_properties] returns
    what [parse_declaration_list] returns and checks nothing behind it: the
    result is the same for every source that begins with the bytes read up
    to there, and every list that it returns has ended in this way.  After
    [color:red}], and after [a:b;c:d;}], any bytes at all may follow. *)
Theorem fz_parse_css_properties_trailing :
  (∀ n buf,
     lookahead buf = Chr (chr "}") → parse_declaration_list n buf = Ok ([], buf)) ∧
  (∀ n buf p buf',
     parse_declaration n buf = Ok (p, buf') → lookahead buf' ≠ Chr (chr ";") →
     parse_declaration_list n buf = Ok ([p], buf')) ∧
  (∀ n buf ps buf',
     (ahead buf ≤ n)%nat →
     parse_declaration_list n buf = Ok (ps, buf') ↔ declarations n buf ps buf') ∧
  (∀ source b0 ps buf',
     start source = Ok (tt, b0) → declarations (fuel source) b0 ps buf' →
     fz_parse_css_properties source = Ok ps ∧
     ∃ read, source ++ [0] = read ++ s buf' ∧
       ∀ source' rest', source' ++ [0] = read ++ rest' →
         fz_parse_css_properties source' = Ok ps) ∧
  (∀ source ps,
     fz_parse_css_properties source = Ok ps →
     ∃ b0 buf', start source = Ok (tt, b0) ∧
       declarations (fuel source) b0 ps buf' ∧ lookahead buf' ≠ Chr (chr ";")) ∧
  (∀ t,
     fz_parse_css_properties (bytes "color:red}" ++ t)
     = Ok [fz_new_css_property (bytes "color") [Value CSS_KEYWORD (bytes "red") []] 0]) ∧
  (∀ t,
     fz_parse_css_properties (bytes "a:b;c:d;}" ++ t)
     = Ok [fz_new_css_property (bytes "a") [Value CSS_KEYWORD (bytes "b") []] 0;
           fz_new_css_property (bytes "c") [Value CSS_KEYWORD (bytes "d") []] 0]) ∧
  fz_parse_css_properties (bytes "color:red} x: ;")
    = Ok [fz_new_css_property (bytes "color") [Value CSS_KEYWORD (bytes "red") []] 0].
Proof.
  split; [exact parse_declaration_list_brace|].
  split; [exact parse_declaration_list_end|].
  split; [exact parse_declaration_list_declarations|].
  split; [exact fz_parse_css_properties_declarations|].
  split; [exact fz_parse_css_properties_inv|].
  split; [|split; [|by vm_compute]].
  - intros t. destruct t as [|x t]; by vm_compute.
  - intros t. destruct t as [|x t]; by vm_compute.
Qed.

(** The declarations [a:b;;c:d;}e]: two declarations, an empty one between
    them and one behind them; the parser stops in front of the [}], and the
    result is that of every source that begins with these bytes. *)
Lemma fz_parse_css_properties_trailing_witness :
  fz_parse_css_properties (bytes "a:b;;c:d;}e")
    = Ok [fz_new_css_property (bytes "a") [Value CSS_KEYWORD (bytes "b") []] 0;
          fz_new_css_property (bytes "c") [Value CSS_KEYWORD (bytes "d") []] 0] ∧
  ∃ read, bytes "a:b;;c:d;}e" ++ [0] = read ++ [0] ∧
    ∀ source' rest', source' ++ [0] = read ++ rest' →
      fz_parse_css_properties source'
      = Ok [fz_new_css_property (bytes "a") [Value CSS_KEYWORD (bytes "b") []] 0;
            fz_new_css_property (bytes "c") [Value CSS_KEYWORD (bytes "d") []] 0].
Proof.
  assert (H : ∃ b0 buf',
            start (bytes "a:b;;c:d;}e") = Ok (tt, b0) ∧
            declarations (fuel (bytes "a:b;;c:d;}e")) b0
              [fz_new_css_property (bytes "a") [Value CSS_KEYWORD (bytes "b") []] 0;
               fz_new_css_property (bytes "c") [Value CSS_KEYWORD (bytes "d") []] 0]
              buf' ∧
            s buf' = [0]).
  { eexists _, _. split; [vm_compute; reflexivity|]. split.
    - eapply declarations_some; [vm_compute; reflexivity|].
      eapply rest_empty; [vm_compute; reflexivity|vm_compute; reflexivity
                         |right; left; vm_compute; reflexivity|].
      eapply rest_declaration; [vm_compute; reflexivity|vm_compute; reflexivity
                               |vm_compute; reflexivity|].
      eapply rest_empty; [vm_compute; reflexivity|vm_compute; reflexivity
                         |left; vm_compute; reflexivity|].
      apply rest_end. vm_compute. discriminate.
    - vm_compute. reflexivity. }
  destruct H as (b0 & buf' & Hstart & Hd & Hs).
  destruct (proj1 (proj2 (proj2 (proj2 fz_parse_css_properties_trailing)))
              _ _ _ _ Hstart Hd) as [Hok (read & Hr & Hall)].
  split; [exact Hok|]. exists read. rewrite Hs in Hr. split; [exact Hr|exact Hall].
Defined.
